(** * QDataServer: plugin lifecycle core, verified against its C++ sources

    Shallow embedding of
    - [Utils::Configuration] and [Utils::UniqueId]      (utils/configuration.cpp, uniqueid.cpp)
    - [Utils::DependencyGraph] and its FIFO/LIFO/striped wrappers (utils/dependencygraph.h)
    - [PluginLoader::PluginSpecPrivate]                  (pluginloader/pluginspec.cpp)
    - [PluginLoader::PluginManagerPrivate]               (pluginloader/pluginmanager.cpp)
    - [Utils::Aggregation11]                             (utils/aggregation11.h)

    Conventions.  A C++ [int] is a [Z]; where the source does arithmetic on it
    the 32-bit wrap-around is written out ([int32]).  A [QString] is a
    [string].  A failed [Q_ASSERT] aborts the computation.  Pointers to
    [PluginSpec] objects are keys of a heap ([gmap]), so that aliasing between
    the [dependencySpecs] and [providesSpecs] lists is kept. *)

From Stdlib Require Import ZArith Lia String Ascii.
From stdpp Require Import base option list gmap sets strings.

Local Open Scope string_scope.
Local Open Scope list_scope.
Local Open Scope Z_scope.

(** ** C++ [int] *)

Definition INT_MAX : Z := 2147483647.

(** Two's complement reduction of a mathematical integer to an [int]. *)
Definition int32 (z : Z) : Z := (z + 2147483648) mod 4294967296 - 2147483648.

(** ** The parts of [QString] the sources use *)

Module QString.

Definition isDigit (c : ascii) : bool :=
  let n := nat_of_ascii c in (48 <=? n)%nat && (n <=? 57)%nat.

Definition digitValue (c : ascii) : Z := Z.of_nat (nat_of_ascii c) - 48.

(** Value of a string of decimal digits, [None] when some character is
    not a digit or the string is empty. *)
Fixpoint decimalFrom (acc : Z) (s : string) : option Z :=
  match s with
  | EmptyString => Some acc
  | String c s' =>
      if isDigit c then decimalFrom (10 * acc + digitValue c) s' else None
  end.

Definition decimal (s : string) : option Z :=
  match s with
  | EmptyString => None
  | _ => decimalFrom 0 s
  end.

(** [QString::toInt()]: the value of the string when it converts and fits
    an [int], and 0 when the conversion fails (which includes overflow).
    The sources only apply it to components of strings that passed the
    digits-and-dots format assertion, so signs and surrounding white space,
    which [toInt] would also accept, are not modelled. *)
Definition toInt (s : string) : Z :=
  match decimal s with
  | Some v => if v <=? INT_MAX then v else 0
  | None => 0
  end.

(** [QString::split(sep)] with the default [KeepEmptyParts]. *)
Fixpoint split (sep : ascii) (s : string) : list string :=
  match s with
  | EmptyString => [EmptyString]
  | String c s' =>
      if Ascii.eqb c sep then EmptyString :: split sep s'
      else match split sep s' with
           | [] => [String c EmptyString]
           | h :: t => String c h :: t
           end
  end.

(** [QRegExp("[0-9]+(\\.[0-9]+)*").exactMatch(s)], as the two-state
    automaton of that expression: [inNumber] tells whether the last
    character read was a digit. *)
Fixpoint dottedFrom (inNumber : bool) (s : string) : bool :=
  match s with
  | EmptyString => inNumber
  | String c s' =>
      if isDigit c then dottedFrom true s'
      else if Ascii.eqb c "." then inNumber && dottedFrom false s'
      else false
  end.

Definition exactMatchDotted (s : string) : bool := dottedFrom false s.

End QString.

(** ** [Utils::UniqueId] *)

Module UniqueId.

Definition INVALID_ID : Z := -1.

(** [UniqueId::uniqueId]: interning of a string in the static
    [m_idMap]; the map is threaded explicitly. *)
Definition uniqueId (id : string) (m_idMap : gmap string Z)
  : option (Z * gmap string Z) :=
  if decide (id = "") then None (* Q_ASSERT(!id.isEmpty()) *)
  else match m_idMap !! id with
       | Some it => Some (it, m_idMap)
       | None =>
           let uid := int32 (Z.of_nat (size m_idMap)) in
           Some (uid, <[id := uid]> m_idMap)
       end.

Definition isValid (m_id : Z) : bool := negb (m_id =? INVALID_ID).

End UniqueId.

(** ** [Utils::Configuration] *)

Module Configuration.

Inductive Type_ := Not | Comma | And | Or | Exists | Lt | Le | Eq | Ne | Ge | Gt.

(** [Configuration::Resource] holds a [UniqueId], [Configuration::Version]
    a specification string. *)
Definition Resource := Z.
Definition Version := string.

(** The expression tree behind the shared [Data] pointer.  The four
    private [Data] constructors are the four shapes; the binary one carries
    its [Type] (Comma, And or Or), the relational one its relation
    (Lt .. Gt). *)
Inductive Configuration :=
| CExists (resource : Resource)
| CBinary (left : Configuration) (type : Type_) (right : Configuration)
| CNot (right : Configuration)
| CRelation (resource : Resource) (type : Type_) (version : Version).

Definition type (c : Configuration) : Type_ :=
  match c with
  | CExists _ => Exists
  | CBinary _ t _ => t
  | CNot _ => Not
  | CRelation _ t _ => t
  end.

Definition isRelation (t : Type_) : bool :=
  match t with Lt | Le | Eq | Ne | Ge | Gt => true | _ => false end.

Definition isBinary (t : Type_) : bool :=
  match t with Comma | And | Or => true | _ => false end.

(** The assertions of the [Data] constructors. *)
Fixpoint wellTyped (c : Configuration) : bool :=
  match c with
  | CExists _ => true
  | CBinary l t r => isBinary t && wellTyped l && wellTyped r
  | CNot r => wellTyped r
  | CRelation _ t _ => isRelation t
  end.

(** The overloaded operators of configuration.h. *)
Definition comma (e1 e2 : Configuration) := CBinary e1 Comma e2.
Definition and_ (e1 e2 : Configuration) := CBinary e1 And e2.
Definition or_ (e1 e2 : Configuration) := CBinary e1 Or e2.
Definition not_ (e : Configuration) := CNot e.
Definition lt (r : Resource) (v : Version) := CRelation r Lt v.
Definition le (r : Resource) (v : Version) := CRelation r Le v.
Definition eq (r : Resource) (v : Version) := CRelation r Eq v.
Definition ne (r : Resource) (v : Version) := CRelation r Ne v.
Definition ge (r : Resource) (v : Version) := CRelation r Ge v.
Definition gt (r : Resource) (v : Version) := CRelation r Gt v.

(** A compare function returns an [int]; [None] is a failed assertion. *)
Definition VersionCompareFunction := Version -> Version -> option Z.

(** The loop of [defaultVersionCompareFunction] over the first
    [qMin(sv1.count(), sv2.count())] components: the first non-zero
    difference, if any. *)
Fixpoint firstDifference (sv1 sv2 : list string) : option Z :=
  match sv1, sv2 with
  | a :: sv1', b :: sv2' =>
      let cmp := int32 (QString.toInt a - QString.toInt b) in
      if cmp =? 0 then firstDifference sv1' sv2' else Some cmp
  | _, _ => None
  end.

Definition count (sv : list string) : Z := Z.of_nat (length sv).

Definition defaultVersionCompareFunction : VersionCompareFunction :=
  fun v1 v2 =>
    if QString.exactMatchDotted v1 && QString.exactMatchDotted v2 then
      let sv1 := QString.split "." v1 in
      let sv2 := QString.split "." v2 in
      match firstDifference sv1 sv2 with
      | Some cmp => Some cmp
      | None => Some (int32 (count sv1 - count sv2))
      end
    else None.

(** The static [Data::versionCompareFunctions]. *)
Abbreviation Registry := (gmap Z VersionCompareFunction).

(** The comparison [satisfiesVersion] starts with:
    [versionCompareFunctions.value(resource.id(), defaultVersionCompareFunction)(v1, v2)]. *)
Definition compare (reg : Registry) (resource : Resource) (v1 v2 : Version)
  : option Z :=
  default defaultVersionCompareFunction (reg !! resource) v1 v2.

(** [Data::satisfiesVersion], for the [Data] of an [Eq] literal holding
    [resource] and [thisVersion]. *)
Definition satisfiesVersion (reg : Registry) (resource : Resource)
    (thisVersion : Version) (relation : Type_) (version : Version)
  : option bool :=
  cmp ← compare reg resource thisVersion version;
  match relation with
  | Lt => Some (cmp <? 0)
  | Le => Some (cmp <=? 0)
  | Eq => Some (cmp =? 0)
  | Ne => Some (negb (cmp =? 0))
  | Ge => Some (cmp >=? 0)
  | Gt => Some (cmp >? 0)
  | _ => None
  end.

(** [satisfies] when the required configuration is an [Exists] literal:
    the inner switch on the type of [this]. *)
Fixpoint satisfiesExists (this : Configuration) (required : Resource)
  : option bool :=
  match this with
  | CBinary l Comma r =>
      b ← satisfiesExists l required;
      if b : bool then Some true else satisfiesExists r required
  | CExists resource => Some (bool_decide (resource = required))
  | CRelation resource Eq _ => Some (bool_decide (resource = required))
  | _ => None
  end.

(** [satisfies] when the required configuration is a relation literal. *)
Fixpoint satisfiesRelation (reg : Registry) (this : Configuration)
    (required : Resource) (relation : Type_) (version : Version)
  : option bool :=
  match this with
  | CBinary l Comma r =>
      b ← satisfiesRelation reg l required relation version;
      if b : bool then Some true
      else satisfiesRelation reg r required relation version
  | CExists _ => Some false
  | CRelation resource Eq thisVersion =>
      if bool_decide (resource = required)
      then satisfiesVersion reg resource thisVersion relation version
      else Some false
  | _ => None
  end.

(** [Configuration::satisfies]; [&&] and [||] evaluate their right operand
    only when needed. *)
Fixpoint satisfies (reg : Registry) (this required : Configuration)
  : option bool :=
  match required with
  | CNot r => negb <$> satisfies reg this r
  | CBinary l Or r =>
      b ← satisfies reg this l;
      if b : bool then Some true else satisfies reg this r
  | CBinary l (Comma | And) r =>
      b ← satisfies reg this l;
      if b : bool then satisfies reg this r else Some false
  | CBinary _ _ _ => None (* excluded by the assertion of the constructor *)
  | CExists resource => satisfiesExists this resource
  | CRelation resource relation version =>
      if isRelation relation
      then satisfiesRelation reg this resource relation version
      else None (* excluded by the assertion of the constructor *)
  end.

End Configuration.

(** ** The parts of [QList] and [QMap] the sources use *)

Module QList.
Section QList.
Context {A : Type} `{EqDecision A}.

Definition contains (l : list A) (x : A) : bool := bool_decide (x ∈ l).

(** Index of the first occurrence, as a C++ [int]: -1 when there is none. *)
Fixpoint indexOf (l : list A) (x : A) : Z :=
  match l with
  | [] => -1
  | y :: l' =>
      if decide (y = x) then 0
      else let i := indexOf l' x in if i <? 0 then -1 else i + 1
  end.

(** [at(i)] asserts that the index is in range. *)
Definition at_ (l : list A) (i : Z) : option A :=
  if i <? 0 then None else l !! Z.to_nat i.

Fixpoint removeOne (l : list A) (x : A) : list A :=
  match l with
  | [] => []
  | y :: l' => if decide (y = x) then l' else y :: removeOne l' x
  end.

Definition count (l : list A) : Z := Z.of_nat (length l).

End QList.
End QList.

(** A [QMap<K, V>] is kept as the list of its items in ascending key order;
    two keys are the same key when neither is less than the other. *)
Module QMap.
Section QMap.
Context {K V : Type}.
Variable lessThan : K -> K -> bool.

Fixpoint insert (k : K) (v : V) (m : list (K * V)) : list (K * V) :=
  match m with
  | [] => [(k, v)]
  | (k', v') :: m' =>
      if lessThan k' k then (k', v') :: insert k v m'
      else if lessThan k k' then (k, v) :: (k', v') :: m'
      else (k', v) :: m'
  end.

Definition values (m : list (K * V)) : list V := snd <$> m.

End QMap.
End QMap.

(** A client of a class: calls on one object, in sequence, until one of
    them fails an assertion. *)
Fixpoint runCalls {G C : Type} (call : C -> G -> option G) (calls : list C)
    (g : G) : option G :=
  match calls with
  | [] => Some g
  | c :: calls' => g' ← call c g; runCalls call calls' g'
  end.

(** ** [Utils::DependencyGraph<T, sortIndependent>] *)

Module DependencyGraph.
Section DependencyGraph.
Context {T : Type} `{EqDecision T}.

(** Node numbers are positions in [m_nodes]; [m_edges] is the
    [QVector<QBitArray>], bit [r] of row [d] telling that node [d] requires
    node [r]. *)
Record DependencyGraph := mk {
  m_nodes : list T;
  m_edges : list (list bool);
  m_cacheIsValid : bool;
  m_cache : list T
}.

Definition empty : DependencyGraph :=
  {| m_nodes := []; m_edges := []; m_cacheIsValid := false; m_cache := [] |}.

Definition addNode (node : T) (g : DependencyGraph) : option DependencyGraph :=
  if QList.contains (m_nodes g) node then None (* Q_ASSERT *)
  else Some {| m_nodes := m_nodes g ++ [node];
               m_edges := m_edges g;
               m_cacheIsValid := false;
               m_cache := m_cache g |}.

(** [QBitArray::resize]: new bits are 0, surplus bits are dropped. *)
Definition resize (size : nat) (row : list bool) : list bool :=
  take size row ++ replicate (size - length row) false.

Definition setBit (i : nat) (row : list bool) : list bool := <[i := true]> row.

Definition testBit (row : list bool) (i : nat) : bool := default false (row !! i).

Definition addEdge (dependentNode requiredNode : T) (g : DependencyGraph)
  : option DependencyGraph :=
  if QList.contains (m_nodes g) dependentNode
     && QList.contains (m_nodes g) requiredNode then
    let dependentNodeIdx := Z.to_nat (QList.indexOf (m_nodes g) dependentNode) in
    let requiredNodeIdx := Z.to_nat (QList.indexOf (m_nodes g) requiredNode) in
    let requiredSize := (Nat.max dependentNodeIdx requiredNodeIdx + 1)%nat in
    let edges :=
      if (length (m_edges g) <? requiredSize)%nat then
        (resize requiredSize <$> m_edges g)
          ++ replicate (requiredSize - length (m_edges g))
               (replicate requiredSize false)
      else m_edges g in
    Some {| m_nodes := m_nodes g;
            m_edges := alter (setBit requiredNodeIdx) dependentNodeIdx edges;
            m_cacheIsValid := false;
            m_cache := m_cache g |}
  else None (* Q_ASSERT *).

Definition hasEdge (g : DependencyGraph) (dependentNodeIdx requiredNodeIdx : nat)
  : bool :=
  (Nat.max dependentNodeIdx requiredNodeIdx <? length (m_edges g))%nat
  && testBit (default [] (m_edges g !! dependentNodeIdx)) requiredNodeIdx.

(** [operator<] of [T]; only [sort] with [sortIndependent] set uses it. *)
Variable lessThan : T -> T -> bool.
Variable sortIndependent : bool.

(** [Helper::nodeNumbers], both overloads. *)
Definition nodeNumbersByValues (nodes : list T) : list (T * nat) :=
  foldl (fun m node => QMap.insert lessThan node (length m) m) [] nodes.

Definition nodeNumbers (nodes : list T) : list nat :=
  if sortIndependent then QMap.values (nodeNumbersByValues nodes)
  else seq 0 (length nodes).

(** The inner loop: no edge from [nodeNumber] to a remaining node. *)
Definition independent (g : DependencyGraph) (remainingNodeNumbers : list nat)
    (nodeNumber : nat) : bool :=
  forallb (fun node2Number => negb (hasEdge g nodeNumber node2Number))
    remainingNodeNumbers.

(** The [while (true)] loop of [sort].  Every round removes a node number,
    so [length remainingNodeNumbers] rounds of fuel are enough
    (see [sortLoop_total]). *)
Fixpoint sortLoop (fuel : nat) (g : DependencyGraph)
    (remainingNodeNumbers : list nat) (cache : list T)
  : option (list T * list nat) :=
  match List.find (independent g remainingNodeNumbers) remainingNodeNumbers with
  | None => Some (cache, remainingNodeNumbers)
  | Some independentNodeNumber =>
      node ← m_nodes g !! independentNodeNumber;
      match fuel with
      | O => None
      | S fuel' =>
          sortLoop fuel' g
            (QList.removeOne remainingNodeNumbers independentNodeNumber)
            (cache ++ [node])
      end
  end.

(** [sort] returns the list and leaves the cache filled; [None] is the
    failed assertion "Circular dependency detected!". *)
Definition sort (g : DependencyGraph) : option (list T * DependencyGraph) :=
  if m_cacheIsValid g then Some (m_cache g, g)
  else
    let remainingNodeNumbers := nodeNumbers (m_nodes g) in
    '(cache, remaining) ←
      sortLoop (length remainingNodeNumbers) g remainingNodeNumbers [];
    match remaining with
    | [] => Some (cache, {| m_nodes := m_nodes g;
                            m_edges := m_edges g;
                            m_cacheIsValid := true;
                            m_cache := cache |})
    | _ :: _ => None
    end.

(** The calls a client can make on a graph object. *)
Inductive Call :=
| AddNode (node : T)
| AddEdge (dependentNode requiredNode : T)
| Sort.

Definition call (c : Call) (g : DependencyGraph) : option DependencyGraph :=
  match c with
  | AddNode node => addNode node g
  | AddEdge dependentNode requiredNode => addEdge dependentNode requiredNode g
  | Sort => snd <$> sort g
  end.

Definition run (calls : list Call) (g : DependencyGraph) : option DependencyGraph :=
  runCalls call calls g.

End DependencyGraph.
Arguments DependencyGraph : clear implicits.
Arguments Call : clear implicits.
End DependencyGraph.

(** [QPair]'s [operator<]. *)
Definition qpair_lessThan (p1 p2 : Z * Z) : bool :=
  (p1.1 <? p2.1) || (negb (p2.1 <? p1.1) && (p1.2 <? p2.2)).

(** ** [Utils::FifoDependencyGraph<T>] *)

Module FifoDependencyGraph.
Section FifoDependencyGraph.
Context {T : Type} `{EqDecision T}.

Record FifoDependencyGraph := mk {
  m_nodes : list T;
  m_slave : DependencyGraph.DependencyGraph Z
}.

Definition empty : FifoDependencyGraph :=
  {| m_nodes := []; m_slave := DependencyGraph.empty |}.

Definition addNode (node : T) (g : FifoDependencyGraph)
  : option FifoDependencyGraph :=
  if QList.contains (m_nodes g) node then None
  else
    slave ← DependencyGraph.addNode (QList.count (m_nodes g)) (m_slave g);
    Some {| m_nodes := m_nodes g ++ [node]; m_slave := slave |}.

Definition addEdge (dependentNode requiredNode : T) (g : FifoDependencyGraph)
  : option FifoDependencyGraph :=
  if QList.contains (m_nodes g) dependentNode
     && QList.contains (m_nodes g) requiredNode then
    slave ← DependencyGraph.addEdge
               (QList.indexOf (m_nodes g) dependentNode)
               (QList.indexOf (m_nodes g) requiredNode) (m_slave g);
    Some {| m_nodes := m_nodes g; m_slave := slave |}
  else None.

Definition sort (g : FifoDependencyGraph)
  : option (list T * FifoDependencyGraph) :=
  '(sorted, slave) ← DependencyGraph.sort Z.ltb true (m_slave g);
  retv ← mapM (fun i => QList.at_ (m_nodes g) i) sorted;
  Some (retv, {| m_nodes := m_nodes g; m_slave := slave |}).

(** The calls a client can make on a graph object. *)
Inductive Call :=
| AddNode (node : T)
| AddEdge (dependentNode requiredNode : T)
| Sort.

Definition call (c : Call) (g : FifoDependencyGraph) : option FifoDependencyGraph :=
  match c with
  | AddNode node => addNode node g
  | AddEdge dependentNode requiredNode => addEdge dependentNode requiredNode g
  | Sort => snd <$> sort g
  end.

Definition run (calls : list Call) (g : FifoDependencyGraph) : option FifoDependencyGraph :=
  runCalls call calls g.

End FifoDependencyGraph.
Arguments FifoDependencyGraph : clear implicits.
Arguments Call : clear implicits.
End FifoDependencyGraph.

(** ** [Utils::LifoDependencyGraph<T>] *)

Module LifoDependencyGraph.
Section LifoDependencyGraph.
Context {T : Type} `{EqDecision T}.

Record LifoDependencyGraph := mk {
  m_nodes : list T;
  m_slave : DependencyGraph.DependencyGraph Z
}.

Definition empty : LifoDependencyGraph :=
  {| m_nodes := []; m_slave := DependencyGraph.empty |}.

Definition addNode (node : T) (g : LifoDependencyGraph)
  : option LifoDependencyGraph :=
  if QList.contains (m_nodes g) node then None
  else
    slave ← DependencyGraph.addNode (- QList.count (m_nodes g)) (m_slave g);
    Some {| m_nodes := m_nodes g ++ [node]; m_slave := slave |}.

Definition addEdge (dependentNode requiredNode : T) (g : LifoDependencyGraph)
  : option LifoDependencyGraph :=
  if QList.contains (m_nodes g) dependentNode
     && QList.contains (m_nodes g) requiredNode then
    slave ← DependencyGraph.addEdge
               (- QList.indexOf (m_nodes g) dependentNode)
               (- QList.indexOf (m_nodes g) requiredNode) (m_slave g);
    Some {| m_nodes := m_nodes g; m_slave := slave |}
  else None.

Definition sort (g : LifoDependencyGraph)
  : option (list T * LifoDependencyGraph) :=
  '(sorted, slave) ← DependencyGraph.sort Z.ltb true (m_slave g);
  retv ← mapM (fun i => QList.at_ (m_nodes g) (- i)) sorted;
  Some (retv, {| m_nodes := m_nodes g; m_slave := slave |}).

(** The calls a client can make on a graph object. *)
Inductive Call :=
| AddNode (node : T)
| AddEdge (dependentNode requiredNode : T)
| Sort.

Definition call (c : Call) (g : LifoDependencyGraph) : option LifoDependencyGraph :=
  match c with
  | AddNode node => addNode node g
  | AddEdge dependentNode requiredNode => addEdge dependentNode requiredNode g
  | Sort => snd <$> sort g
  end.

Definition run (calls : list Call) (g : LifoDependencyGraph) : option LifoDependencyGraph :=
  runCalls call calls g.

End LifoDependencyGraph.
Arguments LifoDependencyGraph : clear implicits.
Arguments Call : clear implicits.
End LifoDependencyGraph.

(** ** [Utils::StripedFifoDependencyGraph<T>] *)

Module StripedFifoDependencyGraph.
Section StripedFifoDependencyGraph.
Context {T : Type} `{EqDecision T}.

(** A [SlaveNode] is the pair (stripe, nodeIdx). *)
Record StripedFifoDependencyGraph := mk {
  m_nodes : list T;
  m_stripes : list Z;
  m_slave : DependencyGraph.DependencyGraph (Z * Z)
}.

Definition empty : StripedFifoDependencyGraph :=
  {| m_nodes := []; m_stripes := []; m_slave := DependencyGraph.empty |}.

Definition addNode (node : T) (stripe : Z) (g : StripedFifoDependencyGraph)
  : option StripedFifoDependencyGraph :=
  if QList.contains (m_nodes g) node then None
  else
    slave ← DependencyGraph.addNode (stripe, QList.count (m_nodes g)) (m_slave g);
    Some {| m_nodes := m_nodes g ++ [node];
            m_stripes := m_stripes g ++ [stripe];
            m_slave := slave |}.

Definition addEdge (dependentNode requiredNode : T)
    (g : StripedFifoDependencyGraph) : option StripedFifoDependencyGraph :=
  if QList.contains (m_nodes g) dependentNode
     && QList.contains (m_nodes g) requiredNode then
    let dIdx := QList.indexOf (m_nodes g) dependentNode in
    let rIdx := QList.indexOf (m_nodes g) requiredNode in
    dStripe ← QList.at_ (m_stripes g) dIdx;
    rStripe ← QList.at_ (m_stripes g) rIdx;
    slave ← DependencyGraph.addEdge (dStripe, dIdx) (rStripe, rIdx) (m_slave g);
    Some {| m_nodes := m_nodes g; m_stripes := m_stripes g; m_slave := slave |}
  else None.

Definition sort (g : StripedFifoDependencyGraph)
  : option (list T * StripedFifoDependencyGraph) :=
  '(sorted, slave) ← DependencyGraph.sort qpair_lessThan true (m_slave g);
  retv ← mapM (fun i : Z * Z => QList.at_ (m_nodes g) i.2) sorted;
  Some (retv, {| m_nodes := m_nodes g; m_stripes := m_stripes g;
                 m_slave := slave |}).

(** The calls a client can make on a graph object. *)
Inductive Call :=
| AddNode (node : T) (stripe : Z)
| AddEdge (dependentNode requiredNode : T)
| Sort.

Definition call (c : Call) (g : StripedFifoDependencyGraph) : option StripedFifoDependencyGraph :=
  match c with
  | AddNode node stripe => addNode node stripe g
  | AddEdge dependentNode requiredNode => addEdge dependentNode requiredNode g
  | Sort => snd <$> sort g
  end.

Definition run (calls : list Call) (g : StripedFifoDependencyGraph) : option StripedFifoDependencyGraph :=
  runCalls call calls g.

End StripedFifoDependencyGraph.
Arguments StripedFifoDependencyGraph : clear implicits.
Arguments Call : clear implicits.
End StripedFifoDependencyGraph.

(** ** [Utils::StripedLifoDependencyGraph<T>] *)

Module StripedLifoDependencyGraph.
Section StripedLifoDependencyGraph.
Context {T : Type} `{EqDecision T}.

(** A [SlaveNode] is the pair (stripe, -nodeIdx). *)
Record StripedLifoDependencyGraph := mk {
  m_nodes : list T;
  m_stripes : list Z;
  m_slave : DependencyGraph.DependencyGraph (Z * Z)
}.

Definition empty : StripedLifoDependencyGraph :=
  {| m_nodes := []; m_stripes := []; m_slave := DependencyGraph.empty |}.

Definition addNode (node : T) (stripe : Z) (g : StripedLifoDependencyGraph)
  : option StripedLifoDependencyGraph :=
  if QList.contains (m_nodes g) node then None
  else
    slave ← DependencyGraph.addNode (stripe, - QList.count (m_nodes g)) (m_slave g);
    Some {| m_nodes := m_nodes g ++ [node];
            m_stripes := m_stripes g ++ [stripe];
            m_slave := slave |}.

Definition addEdge (dependentNode requiredNode : T)
    (g : StripedLifoDependencyGraph) : option StripedLifoDependencyGraph :=
  if QList.contains (m_nodes g) dependentNode
     && QList.contains (m_nodes g) requiredNode then
    let dIdx := QList.indexOf (m_nodes g) dependentNode in
    let rIdx := QList.indexOf (m_nodes g) requiredNode in
    dStripe ← QList.at_ (m_stripes g) dIdx;
    rStripe ← QList.at_ (m_stripes g) rIdx;
    slave ← DependencyGraph.addEdge (dStripe, - dIdx) (rStripe, - rIdx) (m_slave g);
    Some {| m_nodes := m_nodes g; m_stripes := m_stripes g; m_slave := slave |}
  else None.

Definition sort (g : StripedLifoDependencyGraph)
  : option (list T * StripedLifoDependencyGraph) :=
  '(sorted, slave) ← DependencyGraph.sort qpair_lessThan true (m_slave g);
  retv ← mapM (fun i : Z * Z => QList.at_ (m_nodes g) (- i.2)) sorted;
  Some (retv, {| m_nodes := m_nodes g; m_stripes := m_stripes g;
                 m_slave := slave |}).

(** The calls a client can make on a graph object. *)
Inductive Call :=
| AddNode (node : T) (stripe : Z)
| AddEdge (dependentNode requiredNode : T)
| Sort.

Definition call (c : Call) (g : StripedLifoDependencyGraph) : option StripedLifoDependencyGraph :=
  match c with
  | AddNode node stripe => addNode node stripe g
  | AddEdge dependentNode requiredNode => addEdge dependentNode requiredNode g
  | Sort => snd <$> sort g
  end.

Definition run (calls : list Call) (g : StripedLifoDependencyGraph) : option StripedLifoDependencyGraph :=
  runCalls call calls g.

End StripedLifoDependencyGraph.
Arguments StripedLifoDependencyGraph : clear implicits.
Arguments Call : clear implicits.
End StripedLifoDependencyGraph.

(** * The plugin loader *)

(** ** Results of calls that can fail *)

(** A call completes with a value, stops at a failed [Q_ASSERT] or at a
    dangling pointer, or - for the recursive calls, which are given a
    recursion depth - exceeds that depth. *)
Inductive Result (A : Type) : Type :=
| Ok (a : A)
| AssertionFailed
| OutOfFuel.
Arguments Ok {A} a.
Arguments AssertionFailed {A}.
Arguments OutOfFuel {A}.

#[global] Instance Result_bind : MBind Result :=
  fun A B f m =>
    match m with
    | Ok a => f a
    | AssertionFailed => AssertionFailed
    | OutOfFuel => OutOfFuel
    end.

Definition assert_ (condition : bool) : Result unit :=
  if condition then Ok tt else AssertionFailed.

(** A [foreach] loop whose body may fail. *)
Fixpoint forEach {A S : Type} (body : A -> S -> Result S) (l : list A) (s : S)
  : Result S :=
  match l with
  | [] => Ok s
  | x :: l' => s' ← body x s; forEach body l' s'
  end.

(** ** [QXmlStreamReader], as the stream of tokens it delivers *)

Module QXmlStreamReader.

Inductive Token :=
| NoToken
| Invalid (errorString : string)
| StartDocument
| EndDocument
| StartElement (name : string) (attributes : list (string * string))
| EndElement (name : string)
| Characters (text : string)
| Comment (text : string).

(** The tokens still to be delivered and the current one.  A document that
    is not well-formed has an [Invalid] token where the parser gives up. *)
Record QXmlStreamReader := mk {
  input : list Token;
  token : Token
}.

Definition start (xml : list Token) : QXmlStreamReader :=
  {| input := xml; token := NoToken |}.

Definition hasError (reader : QXmlStreamReader) : bool :=
  match token reader with Invalid _ => true | _ => false end.

Definition atEnd (reader : QXmlStreamReader) : bool :=
  match token reader with Invalid _ | EndDocument => true | _ => false end.

Definition errorString (reader : QXmlStreamReader) : string :=
  match token reader with Invalid e => e | _ => "" end.

Definition readNext (reader : QXmlStreamReader) : QXmlStreamReader :=
  match token reader with
  | Invalid _ => reader
  | _ =>
      match input reader with
      | [] => {| input := []; token := Invalid "Premature end of document." |}
      | t :: rest => {| input := rest; token := t |}
      end
  end.

Definition name (reader : QXmlStreamReader) : string :=
  match token reader with
  | StartElement n _ => n
  | EndElement n => n
  | _ => ""
  end.

Fixpoint value (attributes : list (string * string)) (qualifiedName : string)
  : string :=
  match attributes with
  | [] => ""
  | (n, v) :: rest => if String.eqb n qualifiedName then v else value rest qualifiedName
  end.

Definition attribute (reader : QXmlStreamReader) (qualifiedName : string)
  : string :=
  match token reader with
  | StartElement _ attributes => value attributes qualifiedName
  | _ => ""
  end.

(** [readElementText()] with the default [ErrorOnUnexpectedElement]: the
    text up to the end of the current element. *)
Fixpoint readElementTextFrom (input : list Token) (result : string)
  : string * QXmlStreamReader :=
  match input with
  | [] => (result, {| input := []; token := Invalid "Premature end of document." |})
  | Characters text :: rest => readElementTextFrom rest (result +:+ text)
  | Comment _ :: rest => readElementTextFrom rest result
  | EndElement n :: rest => (result, {| input := rest; token := EndElement n |})
  | Invalid e :: rest => (result, {| input := rest; token := Invalid e |})
  | _ :: rest => (result, {| input := rest; token := Invalid "Expected character data." |})
  end.

Definition readElementText (reader : QXmlStreamReader)
  : string * QXmlStreamReader :=
  match token reader with
  | StartElement _ _ => readElementTextFrom (input reader) ""
  | _ => ("", reader)
  end.

End QXmlStreamReader.

(** [QString::trimmed()]. *)
Module Trim.

Definition isSpace (c : ascii) : bool :=
  let n := nat_of_ascii c in ((9 <=? n)%nat && (n <=? 13)%nat) || (n =? 32)%nat.

Fixpoint trimLeft (s : string) : string :=
  match s with
  | String c s' => if isSpace c then trimLeft s' else s
  | EmptyString => EmptyString
  end.

Fixpoint trimRight (s : string) : string :=
  match s with
  | EmptyString => EmptyString
  | String c s' =>
      match trimRight s' with
      | EmptyString => if isSpace c then EmptyString else String c EmptyString
      | t => String c t
      end
  end.

Definition trimmed (s : string) : string := trimRight (trimLeft s).

End Trim.

(** ** [PluginLoader::PluginDependency] *)

Module PluginDependency.

Record PluginDependency := mk {
  name : string;
  version : string
}.

End PluginDependency.

(** ** The world the plugin loader runs in *)

(** What [QPluginLoader::instance()] followed by [qobject_cast<IPlugin *>]
    gives: no object (with the loader's error text), an object that is not
    an [IPlugin], or a plugin. *)
Inductive LoaderResult :=
| NoObject (errorString : string)
| NotAPlugin
| IsPlugin (plugin : nat).

(** Calls that leave the plugin loader, with what they returned. *)
Inductive Event :=
| LoaderInstance (libName : string) (result : LoaderResult)
| LoaderLoad (libName : string)
| LoaderUnload (libName : string) (unloaded : bool)
| PluginInitialize (plugin : nat) (initialized : bool)
| PluginShutdown (plugin : nat)
| PluginIsShutdownRequested (plugin : nat) (requested : bool)
| MonitorSetStatus (text : string)
| Warning (text : string)
| PluginsInitialized.

#[global] Instance LoaderResult_eq_dec : EqDecision LoaderResult.
Proof. solve_decision. Defined.

#[global] Instance Event_eq_dec : EqDecision Event.
Proof. solve_decision. Defined.

Inductive Platform := Windows | Mac | OtherPlatform.

(** The services the loader consumes.  Each answer may depend on everything
    that happened before (the trace of events so far). *)
Record Env := {
  platform : Platform;
  debugBuild : bool;
  isLibrary : string -> bool;
  fileExists : string -> bool;
  loaderInstance : list Event -> string -> LoaderResult;
  loaderUnload : list Event -> string -> bool;
  loaderErrorString : list Event -> string -> string;
  pluginInitialize : list Event -> nat -> bool;
  pluginIsShutdownRequested : list Event -> nat -> bool
}.

(** What [QFile] and [QFileInfo] tell about a file name. *)
Inductive FileEntry :=
| Missing
| Unreadable
| Readable (absolutePath fileName : string) (xml : list QXmlStreamReader.Token).

(** [Utils::FileHelper::buildPluginName]. *)
Definition buildPluginName (env : Env) (path name : string) : string :=
  let dir := if decide (path = "") then "." else path in
  if debugBuild env then
    match platform env with
    | Windows => dir +:+ "/" +:+ name +:+ "d.dll"
    | Mac => dir +:+ "/lib" +:+ name +:+ "_debug.dylib"
    | OtherPlatform => dir +:+ "/lib" +:+ name +:+ ".so"
    end
  else
    match platform env with
    | Windows => dir +:+ "/" +:+ name +:+ ".dll"
    | Mac => dir +:+ "/lib" +:+ name +:+ ".dylib"
    | OtherPlatform => dir +:+ "/lib" +:+ name +:+ ".so"
    end.

(** ** [PluginLoader::PluginSpec] and [PluginSpecPrivate] *)

Module PluginSpec.

Inductive State := Invalid | Read | Resolved | Loaded | Initialized.

#[global] Instance State_eq_dec : EqDecision State.
Proof. solve_decision. Defined.

(** The value of the enumerator, for the comparisons [>=] and [<]. *)
Definition rank (s : State) : nat :=
  match s with
  | Invalid => 0 | Read => 1 | Resolved => 2 | Loaded => 3 | Initialized => 4
  end.

Definition ge (a b : State) : bool := (rank b <=? rank a)%nat.
Definition lt (a b : State) : bool := (rank a <? rank b)%nat.

(** A [PluginSpec] and its [PluginSpecPrivate] are one object; a pointer to
    it is a [nat], a pointer to an [IPlugin] too, and [None] is the null
    pointer. *)
Record PluginSpecPrivate := mk {
  name : string;
  version : string;
  description : string;
  category : string;
  dependencies : list PluginDependency.PluginDependency;
  enabled : bool;
  persistent : bool;
  indirectlyDisabled : bool;
  initializationFailed : bool;
  circularDependencyDetected : bool;
  filePath : string;
  fileName : string;
  providesSpecs : list nat;
  dependencySpecs : list nat;
  plugin : option nat;
  state : State;
  hasError : bool;
  errorString : string
}.

(** Assignment to one member. *)
Definition set_name (v : string) (d : PluginSpecPrivate) : PluginSpecPrivate :=
  mk (v) (version d) (description d) (category d) (dependencies d) (enabled d)
    (persistent d) (indirectlyDisabled d) (initializationFailed d)
    (circularDependencyDetected d) (filePath d) (fileName d) (providesSpecs d)
    (dependencySpecs d) (plugin d) (state d) (hasError d) (errorString d).

Definition set_version (v : string) (d : PluginSpecPrivate) : PluginSpecPrivate :=
  mk (name d) (v) (description d) (category d) (dependencies d) (enabled d)
    (persistent d) (indirectlyDisabled d) (initializationFailed d)
    (circularDependencyDetected d) (filePath d) (fileName d) (providesSpecs d)
    (dependencySpecs d) (plugin d) (state d) (hasError d) (errorString d).

Definition set_description (v : string) (d : PluginSpecPrivate) : PluginSpecPrivate :=
  mk (name d) (version d) (v) (category d) (dependencies d) (enabled d)
    (persistent d) (indirectlyDisabled d) (initializationFailed d)
    (circularDependencyDetected d) (filePath d) (fileName d) (providesSpecs d)
    (dependencySpecs d) (plugin d) (state d) (hasError d) (errorString d).

Definition set_category (v : string) (d : PluginSpecPrivate) : PluginSpecPrivate :=
  mk (name d) (version d) (description d) (v) (dependencies d) (enabled d)
    (persistent d) (indirectlyDisabled d) (initializationFailed d)
    (circularDependencyDetected d) (filePath d) (fileName d) (providesSpecs d)
    (dependencySpecs d) (plugin d) (state d) (hasError d) (errorString d).

Definition set_dependencies (v : list PluginDependency.PluginDependency) (d : PluginSpecPrivate) : PluginSpecPrivate :=
  mk (name d) (version d) (description d) (category d) (v) (enabled d)
    (persistent d) (indirectlyDisabled d) (initializationFailed d)
    (circularDependencyDetected d) (filePath d) (fileName d) (providesSpecs d)
    (dependencySpecs d) (plugin d) (state d) (hasError d) (errorString d).

Definition set_enabled (v : bool) (d : PluginSpecPrivate) : PluginSpecPrivate :=
  mk (name d) (version d) (description d) (category d) (dependencies d) (v)
    (persistent d) (indirectlyDisabled d) (initializationFailed d)
    (circularDependencyDetected d) (filePath d) (fileName d) (providesSpecs d)
    (dependencySpecs d) (plugin d) (state d) (hasError d) (errorString d).

Definition set_persistent (v : bool) (d : PluginSpecPrivate) : PluginSpecPrivate :=
  mk (name d) (version d) (description d) (category d) (dependencies d)
    (enabled d) (v) (indirectlyDisabled d) (initializationFailed d)
    (circularDependencyDetected d) (filePath d) (fileName d) (providesSpecs d)
    (dependencySpecs d) (plugin d) (state d) (hasError d) (errorString d).

Definition set_indirectlyDisabled (v : bool) (d : PluginSpecPrivate) : PluginSpecPrivate :=
  mk (name d) (version d) (description d) (category d) (dependencies d)
    (enabled d) (persistent d) (v) (initializationFailed d)
    (circularDependencyDetected d) (filePath d) (fileName d) (providesSpecs d)
    (dependencySpecs d) (plugin d) (state d) (hasError d) (errorString d).

Definition set_initializationFailed (v : bool) (d : PluginSpecPrivate) : PluginSpecPrivate :=
  mk (name d) (version d) (description d) (category d) (dependencies d)
    (enabled d) (persistent d) (indirectlyDisabled d) (v)
    (circularDependencyDetected d) (filePath d) (fileName d) (providesSpecs d)
    (dependencySpecs d) (plugin d) (state d) (hasError d) (errorString d).

Definition set_circularDependencyDetected (v : bool) (d : PluginSpecPrivate) : PluginSpecPrivate :=
  mk (name d) (version d) (description d) (category d) (dependencies d)
    (enabled d) (persistent d) (indirectlyDisabled d) (initializationFailed d)
    (v) (filePath d) (fileName d) (providesSpecs d) (dependencySpecs d)
    (plugin d) (state d) (hasError d) (errorString d).

Definition set_filePath (v : string) (d : PluginSpecPrivate) : PluginSpecPrivate :=
  mk (name d) (version d) (description d) (category d) (dependencies d)
    (enabled d) (persistent d) (indirectlyDisabled d) (initializationFailed d)
    (circularDependencyDetected d) (v) (fileName d) (providesSpecs d)
    (dependencySpecs d) (plugin d) (state d) (hasError d) (errorString d).

Definition set_fileName (v : string) (d : PluginSpecPrivate) : PluginSpecPrivate :=
  mk (name d) (version d) (description d) (category d) (dependencies d)
    (enabled d) (persistent d) (indirectlyDisabled d) (initializationFailed d)
    (circularDependencyDetected d) (filePath d) (v) (providesSpecs d)
    (dependencySpecs d) (plugin d) (state d) (hasError d) (errorString d).

Definition set_providesSpecs (v : list nat) (d : PluginSpecPrivate) : PluginSpecPrivate :=
  mk (name d) (version d) (description d) (category d) (dependencies d)
    (enabled d) (persistent d) (indirectlyDisabled d) (initializationFailed d)
    (circularDependencyDetected d) (filePath d) (fileName d) (v)
    (dependencySpecs d) (plugin d) (state d) (hasError d) (errorString d).

Definition set_dependencySpecs (v : list nat) (d : PluginSpecPrivate) : PluginSpecPrivate :=
  mk (name d) (version d) (description d) (category d) (dependencies d)
    (enabled d) (persistent d) (indirectlyDisabled d) (initializationFailed d)
    (circularDependencyDetected d) (filePath d) (fileName d) (providesSpecs d)
    (v) (plugin d) (state d) (hasError d) (errorString d).

Definition set_plugin (v : option nat) (d : PluginSpecPrivate) : PluginSpecPrivate :=
  mk (name d) (version d) (description d) (category d) (dependencies d)
    (enabled d) (persistent d) (indirectlyDisabled d) (initializationFailed d)
    (circularDependencyDetected d) (filePath d) (fileName d) (providesSpecs d)
    (dependencySpecs d) (v) (state d) (hasError d) (errorString d).

Definition set_state (v : State) (d : PluginSpecPrivate) : PluginSpecPrivate :=
  mk (name d) (version d) (description d) (category d) (dependencies d)
    (enabled d) (persistent d) (indirectlyDisabled d) (initializationFailed d)
    (circularDependencyDetected d) (filePath d) (fileName d) (providesSpecs d)
    (dependencySpecs d) (plugin d) (v) (hasError d) (errorString d).

Definition set_hasError (v : bool) (d : PluginSpecPrivate) : PluginSpecPrivate :=
  mk (name d) (version d) (description d) (category d) (dependencies d)
    (enabled d) (persistent d) (indirectlyDisabled d) (initializationFailed d)
    (circularDependencyDetected d) (filePath d) (fileName d) (providesSpecs d)
    (dependencySpecs d) (plugin d) (state d) (v) (errorString d).

Definition set_errorString (v : string) (d : PluginSpecPrivate) : PluginSpecPrivate :=
  mk (name d) (version d) (description d) (category d) (dependencies d)
    (enabled d) (persistent d) (indirectlyDisabled d) (initializationFailed d)
    (circularDependencyDetected d) (filePath d) (fileName d) (providesSpecs d)
    (dependencySpecs d) (plugin d) (state d) (hasError d) (v).

(** The constructor of [PluginSpecPrivate]. *)
Definition new : PluginSpecPrivate :=
  {| name := ""; version := ""; description := ""; category := "";
     dependencies := []; enabled := false; persistent := false;
     indirectlyDisabled := false; initializationFailed := false;
     circularDependencyDetected := false; filePath := ""; fileName := "";
     providesSpecs := []; dependencySpecs := []; plugin := None;
     state := Invalid; hasError := false; errorString := "" |}.

(** [PluginSpec::setEnabled], [isEnabled], [setPersistent]. *)
Definition setEnabled (enabled_ : bool) (d : PluginSpecPrivate)
  : PluginSpecPrivate :=
  if persistent d && negb enabled_ then d else set_enabled enabled_ d.

Definition isEnabled (d : PluginSpecPrivate) : bool :=
  enabled d || persistent d.

Definition setPersistent (persistent_ : bool) (d : PluginSpecPrivate)
  : PluginSpecPrivate :=
  let d := set_persistent persistent_ d in
  if persistent_ then set_enabled persistent_ d else d.

(** [reportError]; it always returns false. *)
Definition reportError (err : string) (d : PluginSpecPrivate)
  : PluginSpecPrivate :=
  let d :=
    if decide (errorString d = "") then d
    else set_errorString (errorString d +:+ String "010"%char "") d in
  set_hasError true (set_errorString (errorString d +:+ err) d).

(** *** Reading the description file *)

(** [versionRegExp().exactMatch(version)] for
    [([0-9]+)(?:[.]([0-9]+))?(?:[.]([0-9]+))?(?:_([0-9]+))?]. *)
Fixpoint skipDigits (s : string) : string :=
  match s with
  | String c s' => if QString.isDigit c then skipDigits s' else s
  | EmptyString => EmptyString
  end.

(** The rest of [s] after one or more digits. *)
Definition digits (s : string) : option string :=
  match s with
  | String c s' => if QString.isDigit c then Some (skipDigits s') else None
  | EmptyString => None
  end.

Definition optionalGroup (separator : ascii) (s : string) : option string :=
  match s with
  | String c s' => if Ascii.eqb c separator then digits s' else Some s
  | EmptyString => Some s
  end.

Definition isValidVersion (version_ : string) : bool :=
  match
    (s1 ← digits version_;
     s2 ← optionalGroup "." s1;
     s3 ← optionalGroup "." s2;
     optionalGroup "_" s3)
  with
  | Some EmptyString => true
  | _ => false
  end.


Definition readDependencyEntry (reader : QXmlStreamReader.QXmlStreamReader)
    (d : PluginSpecPrivate) : QXmlStreamReader.QXmlStreamReader * PluginSpecPrivate :=
  let depName := QXmlStreamReader.attribute reader "name" in
  if decide (depName = "") then
    (reader, reportError "Expected attribut 'name' at element dependency" d)
  else
    let depVersion := QXmlStreamReader.attribute reader "version" in
    let depVersion := if isValidVersion depVersion then depVersion else "" in
    (QXmlStreamReader.readNext reader,
     set_dependencies
       (dependencies d ++ [PluginDependency.mk depName depVersion]) d).

(** The loop of [readDependencies]; every round reads a token, so that
    [S (length (QXmlStreamReader.input reader))] rounds always reach the end. *)
Fixpoint readDependenciesLoop (rounds : nat) (reader : QXmlStreamReader.QXmlStreamReader)
    (d : PluginSpecPrivate) : QXmlStreamReader.QXmlStreamReader * PluginSpecPrivate :=
  match rounds with
  | O => (reader, d)
  | S rounds' =>
      if QXmlStreamReader.atEnd reader then (reader, d)
      else
        let reader := QXmlStreamReader.readNext reader in
        match QXmlStreamReader.token reader with
        | QXmlStreamReader.StartElement element _ =>
            if String.eqb element "dependency" then
              let '(reader, d) := readDependencyEntry reader d in
              readDependenciesLoop rounds' reader d
            else readDependenciesLoop rounds' reader d
        | _ => readDependenciesLoop rounds' reader d
        end
  end.

Definition readDependencies (reader : QXmlStreamReader.QXmlStreamReader) (d : PluginSpecPrivate)
  : QXmlStreamReader.QXmlStreamReader * PluginSpecPrivate :=
  readDependenciesLoop (S (length (QXmlStreamReader.input reader))) reader d.

Fixpoint readPluginSpecLoop (rounds : nat) (reader : QXmlStreamReader.QXmlStreamReader)
    (d : PluginSpecPrivate) : QXmlStreamReader.QXmlStreamReader * PluginSpecPrivate :=
  match rounds with
  | O => (reader, d)
  | S rounds' =>
      if QXmlStreamReader.atEnd reader then (reader, d)
      else
        let reader := QXmlStreamReader.readNext reader in
        match QXmlStreamReader.token reader with
        | QXmlStreamReader.StartElement element _ =>
            if String.eqb element "description" then
              let '(text, reader) := QXmlStreamReader.readElementText reader in
              readPluginSpecLoop rounds' reader
                (set_description (Trim.trimmed text) d)
            else if String.eqb element "category" then
              let '(text, reader) := QXmlStreamReader.readElementText reader in
              readPluginSpecLoop rounds' reader
                (set_category (Trim.trimmed text) d)
            else if String.eqb element "dependencyList" then
              let '(reader, d) := readDependencies reader d in
              readPluginSpecLoop rounds' reader d
            else readPluginSpecLoop rounds' reader d
        | _ => readPluginSpecLoop rounds' reader d
        end
  end.

Definition readPluginSpec (reader : QXmlStreamReader.QXmlStreamReader) (d : PluginSpecPrivate)
  : QXmlStreamReader.QXmlStreamReader * PluginSpecPrivate :=
  let element := QXmlStreamReader.name reader in
  if negb (String.eqb element "plugin") then
    (reader, reportError "Expected element 'plugin' as top level element" d)
  else
    let d := set_name (QXmlStreamReader.attribute reader "name") d in
    if decide (name d = "") then
      (reader, reportError "Expected attribut 'name' at element plugin" d)
    else
      let d := set_version (QXmlStreamReader.attribute reader "version") d in
      let d := if isValidVersion (version d) then d else set_version "" d in
      readPluginSpecLoop (S (length (QXmlStreamReader.input reader))) reader d.

Fixpoint readLoop (rounds : nat) (reader : QXmlStreamReader.QXmlStreamReader)
    (d : PluginSpecPrivate) : QXmlStreamReader.QXmlStreamReader * PluginSpecPrivate :=
  match rounds with
  | O => (reader, d)
  | S rounds' =>
      if QXmlStreamReader.atEnd reader then (reader, d)
      else
        let reader := QXmlStreamReader.readNext reader in
        match QXmlStreamReader.token reader with
        | QXmlStreamReader.StartElement _ _ =>
            let '(reader, d) := readPluginSpec reader d in
            readLoop rounds' reader d
        | _ => readLoop rounds' reader d
        end
  end.

(** The assignments [read] starts with. *)
Definition cleared (d : PluginSpecPrivate) : PluginSpecPrivate :=
  {| name := ""; version := ""; description := ""; category := "";
     dependencies := []; enabled := false; persistent := persistent d;
     indirectlyDisabled := false;
     initializationFailed := initializationFailed d;
     circularDependencyDetected := false;
     filePath := filePath d; fileName := fileName d;
     providesSpecs := []; dependencySpecs := []; plugin := None;
     state := Invalid; hasError := false; errorString := "" |}.

(** [PluginSpecPrivate::read]: the returned flag and the members after the
    call.  [file] is what the file system holds under [specFileName]. *)
Definition read (file : FileEntry) (specFileName : string)
    (d : PluginSpecPrivate) : bool * PluginSpecPrivate :=
  let d := cleared d in
  match file with
  | Missing => (false, reportError ("File does not exist: " +:+ specFileName) d)
  | Unreadable =>
      (false,
       reportError ("File could not be opened for read: " +:+ specFileName) d)
  | Readable absolutePath fileName_ xml =>
      let d := set_fileName fileName_ (set_filePath absolutePath d) in
      let '(reader, d) := readLoop (S (length xml)) (QXmlStreamReader.start xml) d in
      if QXmlStreamReader.hasError reader then
        (false,
         reportError
           ("Error parsing spec file " +:+ fileName d +:+ ": " +:+ filePath d
              +:+ ", at line " +:+ QXmlStreamReader.errorString reader) d)
      else (true, set_enabled true (set_state Read d))
  end.

(** *** The objects in memory *)

(** The heap of [PluginSpec] objects, the static [resolvedPluginsStack] of
    [resolveIndirectlyDisabled] (top first), and the calls made to the
    outside so far. *)
Record World := mkWorld {
  heap : gmap nat PluginSpecPrivate;
  resolvedPluginsStack : list nat;
  trace : list Event
}.

Definition deref (w : World) (p : nat) : Result PluginSpecPrivate :=
  match heap w !! p with
  | Some d => Ok d
  | None => AssertionFailed
  end.

(** Assignment to members of the object [p] points to. *)
Definition modify (p : nat) (f : PluginSpecPrivate -> PluginSpecPrivate)
    (w : World) : World :=
  {| heap := alter f p (heap w);
     resolvedPluginsStack := resolvedPluginsStack w;
     trace := trace w |}.

Definition emit (event : Event) (w : World) : World :=
  {| heap := heap w;
     resolvedPluginsStack := resolvedPluginsStack w;
     trace := trace w ++ [event] |}.

Definition push (p : nat) (w : World) : World :=
  {| heap := heap w;
     resolvedPluginsStack := p :: resolvedPluginsStack w;
     trace := trace w |}.

(** [me = resolvedPluginsStack.pop(); Q_ASSERT(me == this)]. *)
Definition pop (this : nat) (w : World) : Result World :=
  match resolvedPluginsStack w with
  | me :: rest =>
      if decide (me = this) then
        Ok {| heap := heap w; resolvedPluginsStack := rest; trace := trace w |}
      else AssertionFailed
  | [] => AssertionFailed
  end.

(** *** Resolving dependencies *)

(** The inner loop of [resolveDependencies]: the first spec of [specs] with
    the name of the dependency. *)
Fixpoint findSpec (w : World) (specs : list nat) (dependencyName : string)
  : Result (option nat) :=
  match specs with
  | [] => Ok None
  | spec :: specs' =>
      ds ← deref w spec;
      if String.eqb (name ds) dependencyName then Ok (Some spec)
      else findSpec w specs' dependencyName
  end.

(** The outer loop. *)
Fixpoint resolveLoop (this : nat) (specs : list nat)
    (dependencies_ : list PluginDependency.PluginDependency)
    (resolvedDependencies : list nat) (w : World)
  : Result (list nat * World) :=
  match dependencies_ with
  | [] => Ok (resolvedDependencies, w)
  | dependency :: rest =>
      found ← findSpec w specs (PluginDependency.name dependency);
      match found with
      | Some spec =>
          let w := modify spec
                     (fun ds => set_providesSpecs (providesSpecs ds ++ [this]) ds) w in
          resolveLoop this specs rest (resolvedDependencies ++ [spec]) w
      | None =>
          d ← deref w this;
          let w := modify this
                     (reportError
                        ("Plugin " +:+ name d +:+ " - could not resolve dependency on "
                           +:+ PluginDependency.name dependency +:+ ".")) w in
          resolveLoop this specs rest resolvedDependencies w
      end
  end.

Definition resolveDependencies (this : nat) (specs : list nat) (w : World)
  : Result (bool * World) :=
  d ← deref w this;
  if hasError d then Ok (false, w)
  else
    let w := if decide (state d = Resolved) then modify this (set_state Read) w
             else w in
    d ← deref w this;
    _ ← assert_ (bool_decide (state d = Read));
    '(resolvedDependencies, w) ← resolveLoop this specs (dependencies d) [] w;
    d ← deref w this;
    if hasError d then Ok (false, w)
    else
      Ok (true,
          modify this
            (fun d => set_state Resolved
                        (set_dependencySpecs resolvedDependencies d)) w).

(** *** Indirect disabling *)

(** The condition under which a dependency disables its dependents. *)
Definition unavailable (dd : PluginSpecPrivate) : bool :=
  hasError dd || indirectlyDisabled dd || negb (isEnabled dd)
  || initializationFailed dd.

(** The scan of [dependencySpecs], up to the [break]. *)
Fixpoint anyUnavailable (w : World) (dependencySpecs_ : list nat) : Result bool :=
  match dependencySpecs_ with
  | [] => Ok false
  | dependencySpec :: rest =>
      dd ← deref w dependencySpec;
      if unavailable dd then Ok true else anyUnavailable w rest
  end.

(** The text listing a cycle: the names on the stack from the top down to
    [this]. *)
Fixpoint pluginOrderFrom (w : World) (this : nat) (stack : list nat)
    (pluginOrder : string) : Result string :=
  match stack with
  | [] => Ok pluginOrder
  | pluginSpec :: rest =>
      dp ← deref w pluginSpec;
      let pluginOrder := pluginOrder +:+ " -> " +:+ name dp in
      if decide (pluginSpec = this) then Ok pluginOrder
      else pluginOrderFrom w this rest pluginOrder
  end.

Fixpoint resolveIndirectlyDisabled (depth : nat) (forceResolve : bool)
    (this : nat) (w : World) : Result World :=
  match depth with
  | O => OutOfFuel
  | S depth' =>
      d ← deref w this;
      if circularDependencyDetected d then Ok w
      else if QList.contains (resolvedPluginsStack w) this then
        let w := modify this
                   (fun d => set_circularDependencyDetected true
                               (set_indirectlyDisabled true d)) w in
        pluginOrder ← pluginOrderFrom w this (resolvedPluginsStack w) (name d);
        let w := push this w in
        w ← forEach (fun providesSpec w =>
                       resolveIndirectlyDisabled depth' true providesSpec w)
               (providesSpecs d) w;
        let w := modify this
                   (reportError ("Circular dependency detected: " +:+ pluginOrder))
                   w in
        pop this w
      else if negb forceResolve && indirectlyDisabled d then Ok w
      else
        let w := if forceResolve
                 then modify this (set_indirectlyDisabled false) w else w in
        let w := push this w in
        disabled ← anyUnavailable w (dependencySpecs d);
        let w := if disabled : bool
                 then modify this (set_indirectlyDisabled true) w else w in
        w ← (if disabled || forceResolve then
               forEach (fun providesSpec w =>
                          resolveIndirectlyDisabled depth' forceResolve
                            providesSpec w)
                 (providesSpecs d) w
             else Ok w);
        pop this w
  end.

(** *** Load and unload queues *)

(** The names of a circularity check queue joined by [" -> "], then the
    name of the spec found twice. *)
Fixpoint joinNames (w : World) (queue : list nat) : Result string :=
  match queue with
  | [] => Ok ""
  | [p] => dp ← deref w p; Ok (name dp)
  | p :: rest =>
      dp ← deref w p; text ← joinNames w rest; Ok (name dp +:+ " -> " +:+ text)
  end.

Definition circularityText (w : World) (circularityCheckQueue : list nat)
    (name_ : string) : Result string :=
  text ← joinNames w circularityCheckQueue;
  Ok ("Circular dependency detected: " +:+ text +:+ " -> " +:+ name_).

(** The two reference parameters of [loadQueue] and [unloadQueue]. *)
Record Queues := mkQueues {
  queue : list nat;
  circularityCheckQueue : list nat
}.

(** The loop of [loadQueue] over [dependencySpecs], which returns at the
    first dependency that fails. *)
Fixpoint loadDependencies
    (loadQueue_ : nat -> Queues -> World -> Result (bool * Queues * World))
    (this : nat) (dependencySpecs_ : list nat) (q : Queues) (w : World)
  : Result (bool * Queues * World) :=
  match dependencySpecs_ with
  | [] => Ok (true, q, w)
  | pluginSpec :: rest =>
      '(loaded, q, w) ← loadQueue_ pluginSpec q w;
      if loaded : bool then loadDependencies loadQueue_ this rest q w
      else
        d ← deref w this;
        dp ← deref w pluginSpec;
        Ok (false, q,
            modify this
              (reportError
                 ("Plugin " +:+ name d +:+ " cannot be loaded because dependency "
                    +:+ name dp +:+ " failed.")) w)
  end.

Fixpoint loadQueue (depth : nat) (this : nat) (q : Queues) (w : World)
  : Result (bool * Queues * World) :=
  match depth with
  | O => OutOfFuel
  | S depth' =>
      d ← deref w this;
      _ ← assert_ (ge (state d) Resolved);
      if negb (enabled d) || indirectlyDisabled d then Ok (false, q, w)
      else if QList.contains (queue q) this then Ok (true, q, w)
      else if QList.contains (circularityCheckQueue q) this then
        text ← circularityText w (circularityCheckQueue q) (name d);
        Ok (false, q, modify this (reportError text) w)
      else
        let q := mkQueues (queue q) (circularityCheckQueue q ++ [this]) in
        '(loaded, q, w) ←
          loadDependencies (loadQueue depth') this (dependencySpecs d) q w;
        if loaded : bool then
          Ok (true, mkQueues (queue q ++ [this]) (circularityCheckQueue q), w)
        else Ok (false, q, w)
  end.

Fixpoint unloadQueue (depth : nat) (this : nat) (q : Queues) (w : World)
  : Result (bool * Queues * World) :=
  match depth with
  | O => OutOfFuel
  | S depth' =>
      d ← deref w this;
      _ ← assert_ (ge (state d) Resolved);
      if (negb (enabled d) || indirectlyDisabled d) && lt (state d) Loaded
      then Ok (false, q, w)
      else if QList.contains (queue q) this then Ok (true, q, w)
      else if QList.contains (circularityCheckQueue q) this then
        text ← circularityText w (circularityCheckQueue q) (name d);
        Ok (false, q, modify this (reportError text) w)
      else
        let q := mkQueues (queue q) (circularityCheckQueue q ++ [this]) in
        '(q, w) ←
          forEach (fun pluginSpec '(q, w) =>
                     '(_, q, w) ← unloadQueue depth' pluginSpec q w; Ok (q, w))
            (providesSpecs d) (q, w);
        Ok (true, mkQueues (queue q ++ [this]) (circularityCheckQueue q), w)
  end.

(** *** Loading, initializing and unloading the plugin *)

(** The check of [loadPlugin] that every dependency is loaded. *)
Fixpoint allLoaded (w : World) (dependencySpecs_ : list nat) : Result bool :=
  match dependencySpecs_ with
  | [] => Ok true
  | dependencySpec :: rest =>
      dd ← deref w dependencySpec;
      match plugin dd with
      | None => Ok false
      | Some _ => allLoaded w rest
      end
  end.

Definition loadPlugin (env : Env) (this : nat) (w : World)
  : Result (option nat * World) :=
  d ← deref w this;
  _ ← assert_ (bool_decide (state d = Resolved));
  let libName := buildPluginName env (filePath d) (name d) in
  _ ← assert_ (isLibrary env libName);
  _ ← assert_ (fileExists env libName);
  ready ← allLoaded w (dependencySpecs d);
  if ready : bool then
    let object := loaderInstance env (trace w) libName in
    let w := emit (LoaderInstance libName object) w in
    match object with
    | IsPlugin p =>
        Ok (Some p, modify this (fun d => set_state Loaded (set_plugin (Some p) d)) w)
    | NotAPlugin =>
        let w := modify this (set_plugin None) w in
        let w := emit (LoaderUnload libName (loaderUnload env (trace w) libName)) w in
        let text := "The file '" +:+ libName +:+ "' is not compatible plugin." in
        let w := emit (Warning text) w in
        Ok (None, modify this (reportError text) w)
    | NoObject err =>
        let w := emit (Warning err) w in
        Ok (plugin d, modify this (reportError err) w)
    end
  else Ok (None, w).

Definition unloadPlugin (env : Env) (this : nat) (w : World) : Result World :=
  d ← deref w this;
  match plugin d with
  | None => Ok w
  | Some p =>
      let w := if ge (state d) Initialized then emit (PluginShutdown p) w else w in
      let libName := buildPluginName env (filePath d) (name d) in
      let w := emit (LoaderLoad libName) w in
      let unloaded := loaderUnload env (trace w) libName in
      let w := emit (LoaderUnload libName unloaded) w in
      let w :=
        if unloaded then w
        else emit (Warning ("Plugin " +:+ name d +:+ " could not be unloaded: "
                              +:+ loaderErrorString env (trace w) libName)) w in
      Ok (modify this (fun d => set_state Resolved (set_plugin None d)) w)
  end.

Definition initializePlugin (env : Env) (this : nat) (w : World)
  : Result (bool * World) :=
  d ← deref w this;
  match plugin d with
  | None => AssertionFailed
  | Some p =>
      _ ← assert_ (bool_decide (state d = Loaded));
      let initialized := pluginInitialize env (trace w) p in
      let w := emit (PluginInitialize p initialized) w in
      if initialized then
        Ok (true,
            modify this
              (fun d => set_state Initialized (set_initializationFailed false d)) w)
      else
        let w := emit (Warning ("Initialization of '" +:+ name d
                                  +:+ "' plugin failed: ")) w in
        let w := modify this
                   (reportError ("Initialization of '" +:+ name d
                                   +:+ "' plugin failed: ")) w in
        Ok (false, modify this (set_initializationFailed true) w)
  end.

End PluginSpec.

(** ** [QMultiMap<IPlugin *, PluginSpec *>] *)

(** The items in ascending key order; among items with one key the one
    inserted last comes first.  The null pointer is the least key. *)
Module QMultiMap.

Definition keyLessThan (k1 k2 : option nat) : bool :=
  match k1, k2 with
  | None, None => false
  | None, Some _ => true
  | Some _, None => false
  | Some a, Some b => (a <? b)%nat
  end.

Fixpoint insert (key : option nat) (value : nat) (m : list (option nat * nat))
  : list (option nat * nat) :=
  match m with
  | [] => [(key, value)]
  | (k, v) :: m' =>
      if keyLessThan k key then (k, v) :: insert key value m'
      else (key, value) :: (k, v) :: m'
  end.

(** [remove(key, value)] removes every item with that key and value. *)
Definition remove (key : option nat) (value : nat) (m : list (option nat * nat))
  : list (option nat * nat) :=
  filter (fun kv => kv <> (key, value)) m.

Definition values (m : list (option nat * nat)) : list nat := snd <$> m.

End QMultiMap.

(** ** [PluginLoader::PluginManagerPrivate] *)

Module PluginManager.
Import PluginSpec.

Record PluginManagerPrivate := mk {
  m_pluginToSpec : list (option nat * nat);
  m_disabledPlugins : list string;
  pluginWhichRequestedShutdown : string
}.

Definition set_m_pluginToSpec (v : list (option nat * nat))
    (m : PluginManagerPrivate) : PluginManagerPrivate :=
  mk v (m_disabledPlugins m) (pluginWhichRequestedShutdown m).

Definition set_pluginWhichRequestedShutdown (v : string)
    (m : PluginManagerPrivate) : PluginManagerPrivate :=
  mk (m_pluginToSpec m) (m_disabledPlugins m) v.

(** [resolveDependencies]: its first loop ... *)
Definition resolveEach (m : PluginManagerPrivate) (pluginSpecs : list nat)
    (w : World) : Result World :=
  forEach (fun pluginSpec w =>
             d ← deref w pluginSpec;
             let w := if QList.contains (m_disabledPlugins m) (name d)
                      then modify pluginSpec (setEnabled false) w else w in
             '(_, w) ← PluginSpec.resolveDependencies pluginSpec pluginSpecs w;
             Ok w)
    pluginSpecs w.

(** ... and its second one: [resolveIndirectlyDisabled(true)] on every
    spec. *)
Definition resolveIndirectlyDisabledEach (depth : nat) (pluginSpecs : list nat)
    (w : World) : Result World :=
  forEach (fun pluginSpec w => resolveIndirectlyDisabled depth true pluginSpec w)
    pluginSpecs w.

Definition resolveDependencies (depth : nat) (m : PluginManagerPrivate)
    (w : World) : Result World :=
  let pluginSpecs := QMultiMap.values (m_pluginToSpec m) in
  w ← resolveEach m pluginSpecs w;
  resolveIndirectlyDisabledEach depth pluginSpecs w.

(** The [QMap<QString, PluginSpec *>] of [loadQueue], filled in the order of
    [m_pluginToSpec]. *)
Fixpoint specsByName (w : World) (pluginSpecs : list nat)
    (byName : list (string * nat)) : Result (list (string * nat)) :=
  match pluginSpecs with
  | [] => Ok byName
  | pluginSpec :: rest =>
      d ← deref w pluginSpec;
      specsByName w rest (QMap.insert String.ltb (name d) pluginSpec byName)
  end.

Definition loadQueue (depth : nat) (m : PluginManagerPrivate) (w : World)
  : Result (list nat * World) :=
  pluginSpecs ← specsByName w (QMultiMap.values (m_pluginToSpec m)) [];
  forEach (fun pluginSpec '(queue_, w) =>
             d ← deref w pluginSpec;
             if ge (state d) Resolved then
               '(_, q, w) ← PluginSpec.loadQueue depth pluginSpec
                              (mkQueues queue_ []) w;
               Ok (queue q, w)
             else Ok (queue_, w))
    (QMap.values pluginSpecs) ([], w).

Definition unloadQueue (depth : nat) (m : PluginManagerPrivate) (w : World)
  : Result (list nat * World) :=
  forEach (fun pluginSpec '(queue_, w) =>
             d ← deref w pluginSpec;
             if ge (state d) Loaded then
               '(_, q, w) ← PluginSpec.unloadQueue depth pluginSpec
                              (mkQueues queue_ []) w;
               Ok (queue q, w)
             else Ok (queue_, w))
    (QMultiMap.values (m_pluginToSpec m)) ([], w).

Definition unloadPlugins (env : Env) (unloadQueue_ : list nat)
    (m : PluginManagerPrivate) (w : World)
  : Result (PluginManagerPrivate * World) :=
  forEach (fun pluginSpec '(m, w) =>
             d ← deref w pluginSpec;
             let m := set_m_pluginToSpec
                        (QMultiMap.remove (plugin d) pluginSpec (m_pluginToSpec m)) m in
             w ← unloadPlugin env pluginSpec w;
             let m := set_m_pluginToSpec
                        (QMultiMap.insert None pluginSpec (m_pluginToSpec m)) m in
             Ok (m, w))
    unloadQueue_ (m, w).

(** How the loop of [initializePlugins] ends: by the [return false] of the
    shutdown request, or at the end of the load queue. *)
Inductive LoopEnd :=
| Returned (m : PluginManagerPrivate) (w : World)
| Completed (allInitialized : bool) (m : PluginManagerPrivate) (w : World).

Fixpoint initializeLoop (depth : nat) (env : Env) (pluginLoadQueue : list nat)
    (allInitialized : bool) (m : PluginManagerPrivate) (w : World)
  : Result LoopEnd :=
  match pluginLoadQueue with
  | [] => Ok (Completed allInitialized m w)
  | pluginSpec :: rest =>
      d ← deref w pluginSpec;
      if bool_decide (state d = Loaded) then
        let w := emit (MonitorSetStatus (name d)) w in
        '(initialized, w) ← initializePlugin env pluginSpec w;
        if initialized : bool then
          initializeLoop depth env rest allInitialized m w
        else
          d ← deref w pluginSpec;
          match plugin d with
          | None => AssertionFailed
          | Some p =>
              let requested := pluginIsShutdownRequested env (trace w) p in
              let w := emit (PluginIsShutdownRequested p requested) w in
              if requested then
                Ok (Returned (set_pluginWhichRequestedShutdown (name d) m) w)
              else
                '(_, q, w) ← PluginSpec.unloadQueue depth pluginSpec
                               (mkQueues [] []) w;
                '(m, w) ← unloadPlugins env (queue q) m w;
                w ← resolveIndirectlyDisabled depth true pluginSpec w;
                initializeLoop depth env rest false m w
          end
      else initializeLoop depth env rest allInitialized m w
  end.

(** [initializePlugins]; [depth] bounds the recursion of the queue walks
    and of the propagation it calls. *)
Definition initializePlugins (depth : nat) (env : Env)
    (m : PluginManagerPrivate) (w : World)
  : Result (bool * PluginManagerPrivate * World) :=
  '(pluginLoadQueue, w) ← loadQueue depth m w;
  let m := set_pluginWhichRequestedShutdown "" m in
  end_ ← initializeLoop depth env pluginLoadQueue true m w;
  match end_ with
  | Returned m w => Ok (false, m, w)
  | Completed allInitialized m w =>
      Ok (allInitialized, m, emit PluginsInitialized w)
  end.

End PluginManager.

(** ** More of [Utils::UniqueId] *)

Module UniqueIds.
Import UniqueId.

(** [m_idMap.size()], an [int]. *)
Definition size_ (m_idMap : gmap string Z) : Z := int32 (Z.of_nat (size m_idMap)).

Definition hasUniqueId (id : string) (m_idMap : gmap string Z) : bool :=
  bool_decide (is_Some (m_idMap !! id)).

Definition isKnown (id : Z) (m_idMap : gmap string Z) : bool :=
  (INVALID_ID <=? id) && (id <? size_ m_idMap).

(** [QHash::key(value)]: the first key with that value in the order [items]
    in which the hash holds its items, which is not specified; a
    default-constructed key when there is none. *)
Definition key (items : list (string * Z)) (value : Z) : string :=
  match filter (fun kv => kv.2 = value) items with
  | (k, _) :: _ => k
  | [] => ""
  end.

Definition toString (items : list (string * Z)) (m_id : Z)
    (m_idMap : gmap string Z) : option string :=
  if isKnown m_id m_idMap then Some (key items m_id) else None (* Q_ASSERT *).

(** [fromInt(int id)]. *)
Definition fromInt (id : Z) (m_idMap : gmap string Z) : option Z :=
  if isKnown id m_idMap then Some id else None (* Q_ASSERT *).

(** [fromInt(int id, bool *ok)], with the value left in [*ok]; the private
    constructor asserts [isKnown] of what it is given. *)
Definition fromIntOk (id : Z) (m_idMap : gmap string Z) : option (Z * bool) :=
  let ok := isKnown id m_idMap in
  let m_id := if ok then id else INVALID_ID in
  if isKnown m_id m_idMap then Some (m_id, ok) else None.

(** A client that constructs a [UniqueId] from each string of [ids] in
    turn; the list of their [m_id]. *)
Fixpoint construct (ids : list string) (m_idMap : gmap string Z)
  : option (list Z * gmap string Z) :=
  match ids with
  | [] => Some ([], m_idMap)
  | id :: ids' =>
      '(m_id, m_idMap) ← uniqueId id m_idMap;
      '(rest, m_idMap) ← construct ids' m_idMap;
      Some (m_id :: rest, m_idMap)
  end.

End UniqueIds.

(** ** More of [PluginLoader::PluginManager] *)

(** [QMultiMap::uniqueKeys]: the keys in ascending order, each one once. *)
Module QMultiMapKeys.

Fixpoint uniqueKeys (m : list (option nat * nat)) : list (option nat) :=
  match m with
  | [] => []
  | (k, _) :: m' =>
      match m' with
      | (k', _) :: _ => if decide (k = k') then uniqueKeys m' else k :: uniqueKeys m'
      | [] => [k]
      end
  end.

End QMultiMapKeys.

(** The functions of the public class, which forward to the private one. *)
Module PublicPluginManager.
Import PluginSpec PluginManager.

(** [plugins]: the keys of [m_pluginToSpec] without the null pointer. *)
Definition plugins (m : PluginManagerPrivate) : list (option nat) :=
  filter (fun plugin => plugin <> None) (QMultiMapKeys.uniqueKeys (m_pluginToSpec m)).

Definition pluginSpecs (m : PluginManagerPrivate) : list nat :=
  QMultiMap.values (m_pluginToSpec m).

(** [unloadPlugins()]: the unload queue of the manager, then
    [unloadPlugins(queue)]. *)
Definition unloadPlugins (depth : nat) (env : Env) (m : PluginManagerPrivate)
    (w : World) : Result (PluginManagerPrivate * World) :=
  '(queue_, w) ← PluginManager.unloadQueue depth m w;
  PluginManager.unloadPlugins env queue_ m w.

End PublicPluginManager.

(** ** More of [PluginLoader::PluginSpecPrivate] *)

Module PluginSpecVersions.
Import PluginSpec.

(** The digits [s] starts with. *)
Fixpoint takeDigits (s : string) : string :=
  match s with
  | String c s' => if QString.isDigit c then String c (takeDigits s') else EmptyString
  | EmptyString => EmptyString
  end.

(** [([0-9]+)] at the start of [s]: the captured text and the rest. *)
Definition capturedDigits (s : string) : option (string * string) :=
  match s with
  | String c s' =>
      if QString.isDigit c then Some (takeDigits s, skipDigits s') else None
  | EmptyString => None
  end.

(** [(?:<separator>([0-9]+))?] at the start of [s]; a group that did not
    take part in the match captures the empty string. *)
Definition capturedGroup (separator : ascii) (s : string)
  : option (string * string) :=
  match s with
  | String c s' =>
      if Ascii.eqb c separator then capturedDigits s' else Some (EmptyString, s)
  | EmptyString => Some (EmptyString, s)
  end.

(** [versionRegExp().exactMatch(version)] with what it captures: [None]
    when there is no match, else the texts of [cap(0)] to [cap(4)]. *)
Definition exactMatch (version_ : string) : option (list string) :=
  '(c1, s1) ← capturedDigits version_;
  '(c2, s2) ← capturedGroup "." s1;
  '(c3, s3) ← capturedGroup "." s2;
  '(c4, s4) ← capturedGroup "_" s3;
  match s4 with
  | EmptyString => Some [version_; c1; c2; c3; c4]
  | _ => None
  end.

Definition cap (captures : list string) (nth : nat) : string :=
  default EmptyString (captures !! nth).

(** The loop of [versionCompare], with [rounds] rounds left from [i]. *)
Fixpoint versionCompareLoop (rounds i : nat) (reg1 reg2 : list string) : Z :=
  match rounds with
  | O => 0
  | S rounds' =>
      let number1 := QString.toInt (cap reg1 (i + 1)) in
      let number2 := QString.toInt (cap reg2 (i + 1)) in
      if number1 <? number2 then -1
      else if number1 >? number2 then 1
      else versionCompareLoop rounds' (S i) reg1 reg2
  end.

Definition versionCompare (version1 version2 : string) : Z :=
  match exactMatch version1 with
  | None => 0
  | Some reg1 =>
      match exactMatch version2 with
      | None => 0
      | Some reg2 => versionCompareLoop 4 0 reg1 reg2
      end
  end.

End PluginSpecVersions.

(** The loop of [PluginManagerPrivate::loadPlugins] over the load queue. *)
Module PluginManagerLoad.
Import PluginSpec PluginManager.

Definition loadEach (env : Env) (pluginLoadQueue : list nat)
    (m : PluginManagerPrivate) (w : World)
  : Result (PluginManagerPrivate * World) :=
  forEach (fun pluginSpec '(m, w) =>
             '(plugin_, w) ← loadPlugin env pluginSpec w;
             match plugin_ with
             | Some p =>
                 let m := set_m_pluginToSpec
                            (QMultiMap.remove None pluginSpec (m_pluginToSpec m)) m in
                 let m := set_m_pluginToSpec
                            (QMultiMap.insert (Some p) pluginSpec (m_pluginToSpec m)) m in
                 Ok (m, w)
             | None => Ok (m, w)
             end)
    pluginLoadQueue (m, w).

End PluginManagerLoad.

(** ** [Utils::Aggregation11<OUTER_T, INNER_T>] *)

(** The static [outerByInnerMap] is a [QMap] from inner objects to
    [OuterPointer]s, kept as the list of its items in ascending key order;
    an [OuterPointer] is the address of an outer object.  The outer objects
    live behind [QSharedPointer]s: [held] lists the shared pointers that
    exist outside of the class, one item per pointer, so that the strong
    reference count of an object is the number of times its address occurs;
    the weak pointer of an item of the map is null when the count is zero.
    [new] returns addresses in turn ([allocated] is the next one), never one
    it returned before.  [None] is a failed [Q_ASSERT]. *)
Module Aggregation11.
Section Aggregation11.
Context {INNER_T : Type} `{EqDecision INNER_T}.

(** [operator<] of [INNER_T] and the default-constructed [INNER_T()]. *)
Variable lessThan : INNER_T -> INNER_T -> bool.
Variable defaultInner : INNER_T.

Record Aggregation11 := mk {
  outerByInnerMap : list (INNER_T * nat);
  held : list nat;
  allocated : nat
}.

Definition empty : Aggregation11 :=
  {| outerByInnerMap := []; held := []; allocated := 0 |}.

(** [QMap] takes two keys for one when neither is less than the other. *)
Definition sameKey (k1 k2 : INNER_T) : bool :=
  negb (lessThan k1 k2) && negb (lessThan k2 k1).

Definition contains (m : list (INNER_T * nat)) (k : INNER_T) : bool :=
  existsb (fun kv => sameKey kv.1 k) m.

(** [QMap::value(key)]: the [OuterPointer] of the key, a default-constructed
    one (null) when the map does not hold the key. *)
Definition value (m : list (INNER_T * nat)) (k : INNER_T) : option nat :=
  snd <$> List.find (fun kv => sameKey kv.1 k) m.

(** [QMap::key(value)]: the first key with the value, by [operator==] of
    [OuterPointer], which compares the plain pointers; a default-constructed
    key when there is none. *)
Definition key (m : list (INNER_T * nat)) (plainPointer : nat) : INNER_T :=
  match List.find (fun kv => bool_decide (kv.2 = plainPointer)) m with
  | Some kv => kv.1
  | None => defaultInner
  end.

(** [QMap::remove(key)]: the map without the key, and the number of items
    removed. *)
Definition remove (m : list (INNER_T * nat)) (k : INNER_T)
  : list (INNER_T * nat) * nat :=
  (filter (fun kv => sameKey kv.1 k = false) m,
   length (filter (fun kv => sameKey kv.1 k = true) m)).

(** [OuterPointer::weakPointer()] turned into the [QSharedPointer] the
    callers make of it: the assertion fails on a null weak pointer. *)
Definition weakPointer (a : Aggregation11) (outerPointer : option nat)
  : option nat :=
  match outerPointer with
  | Some p => if bool_decide (p ∈ held a) then Some p else None
  | None => None
  end.

(** [create]: the shared pointer it returns is one more that is held. *)
Definition create (inner : INNER_T) (a : Aggregation11)
  : option (nat * Aggregation11) :=
  if negb (contains (outerByInnerMap a) inner) then
    let outer := allocated a in
    Some (outer,
          {| outerByInnerMap := QMap.insert lessThan inner outer (outerByInnerMap a);
             held := outer :: held a;
             allocated := S outer |})
  else
    outer ← weakPointer a (value (outerByInnerMap a) inner);
    Some (outer,
          {| outerByInnerMap := outerByInnerMap a;
             held := outer :: held a;
             allocated := allocated a |}).

(** [aggregation11Probe]: a null shared pointer ([None]) when there is no
    instance for [inner]. *)
Definition aggregation11Probe (inner : INNER_T) (a : Aggregation11)
  : option (option nat * Aggregation11) :=
  if contains (outerByInnerMap a) inner then
    outer ← weakPointer a (value (outerByInnerMap a) inner);
    Some (Some outer,
          {| outerByInnerMap := outerByInnerMap a;
             held := outer :: held a;
             allocated := allocated a |})
  else Some (None, a).

(** [destroy], the deleter of the shared pointers, with the assertion of
    the debug build. *)
Definition destroy (ptr : nat) (a : Aggregation11) : option Aggregation11 :=
  let '(m, nRemoved) :=
    remove (outerByInnerMap a) (key (outerByInnerMap a) ptr) in
  if bool_decide (nRemoved = 1%nat) then
    Some {| outerByInnerMap := m; held := held a; allocated := allocated a |}
  else None.

(** A shared pointer to [outer] goes away; the last one to go calls the
    deleter.  Nothing happens when no such pointer is held. *)
Definition release (outer : nat) (a : Aggregation11) : option Aggregation11 :=
  if bool_decide (outer ∈ held a) then
    let a := {| outerByInnerMap := outerByInnerMap a;
                held := QList.removeOne (held a) outer;
                allocated := allocated a |} in
    if bool_decide (outer ∈ held a) then Some a else destroy outer a
  else Some a.

(** [aggregation11ResetInner] called by the outer object [this]; the shared
    pointers of the probe and of [outer] are gone when it returns. *)
Definition aggregation11ResetInner (this : nat) (newInner : INNER_T)
    (a : Aggregation11) : option Aggregation11 :=
  '(probe, _) ← aggregation11Probe newInner a;
  match probe with
  | Some _ => None
  | None =>
      let oldInner := key (outerByInnerMap a) this in
      outer ← weakPointer a (value (outerByInnerMap a) oldInner);
      let m := (remove (outerByInnerMap a) oldInner).1 in
      Some {| outerByInnerMap := QMap.insert lessThan newInner outer m;
              held := held a;
              allocated := allocated a |}
  end.

(** The calls of a client that holds shared pointers. *)
Inductive Call :=
| Create (inner : INNER_T)
| Probe (inner : INNER_T)
| Release (outer : nat)
| ResetInner (this : nat) (newInner : INNER_T).

Definition call (c : Call) (a : Aggregation11) : option Aggregation11 :=
  match c with
  | Create inner => snd <$> create inner a
  | Probe inner => snd <$> aggregation11Probe inner a
  | Release outer => release outer a
  | ResetInner this newInner => aggregation11ResetInner this newInner a
  end.

Definition run (calls : list Call) (a : Aggregation11) : option Aggregation11 :=
  runCalls call calls a.

End Aggregation11.
Arguments Aggregation11 : clear implicits.
Arguments Call : clear implicits.
End Aggregation11.

(** * Notions used to state the properties *)

(** ** Versions *)

Module VersionSpec.
Import QString.






End VersionSpec.

(** ** Orders of lists and the edge matrix *)

(** [x] occurs in [l] at a position strictly before one of [y]. *)
Definition before {A : Type} (x y : A) (l : list A) : Prop :=
  exists i j, (i < j)%nat /\ l !! i = Some x /\ l !! j = Some y.

Module EdgeMatrix.
Import DependencyGraph.

Definition bit (edges : list (list bool)) (d r : nat) : bool :=
  testBit (default [] (edges !! d)) r.

(** Every row is as long as there are rows. *)
Definition Square (edges : list (list bool)) : Prop :=
  Forall (fun row => length row = length edges) edges.

(** The growth step of [addEdge]. *)
Definition grow (requiredSize : nat) (edges : list (list bool))
  : list (list bool) :=
  if (length edges <? requiredSize)%nat then
    (resize requiredSize <$> edges)
      ++ replicate (requiredSize - length edges) (replicate requiredSize false)
  else edges.

End EdgeMatrix.

(** ** Well-formed dependency graphs *)

Module GraphSpec.
Section GraphSpec.
Context {T : Type} `{EqDecision T}.
Import DependencyGraph EdgeMatrix.
Variable lessThan : T -> T -> bool.
Variable sortIndependent : bool.

(** What [sort] computes when the cache is not valid. *)
Definition freshSort (g : DependencyGraph T) : option (list T * list nat) :=
  let remainingNodeNumbers := nodeNumbers lessThan sortIndependent (m_nodes g) in
  sortLoop (length remainingNodeNumbers) g remainingNodeNumbers [].

(** What the calls of the class keep true of a graph object. *)
Record Inv (g : DependencyGraph T) : Prop := {
  inv_nodup : NoDup (m_nodes g);
  inv_square : Square (m_edges g);
  inv_size : (length (m_edges g) <= length (m_nodes g))%nat;
  inv_cache : m_cacheIsValid g = true -> freshSort g = Some (m_cache g, [])
}.

(** The edge from [dependentNode] to [requiredNode] is in the matrix. *)
Definition Recorded (g : DependencyGraph T) (dependentNode requiredNode : T)
  : Prop :=
  dependentNode ∈ m_nodes g /\ requiredNode ∈ m_nodes g
  /\ hasEdge g (Z.to_nat (QList.indexOf (m_nodes g) dependentNode))
       (Z.to_nat (QList.indexOf (m_nodes g) requiredNode)) = true.

End GraphSpec.
End GraphSpec.

(** ** Wrappers around a slave graph *)

Module WrapperSpec.
Section WrapperSpec.
Context {T S : Type} `{EqDecision T} `{EqDecision S}.
Import DependencyGraph.
Variable lessThan : S -> S -> bool.

(** The index a wrapper's [sort] reads a slave node back as. *)
Variable decode : S -> Z.

(** The slave graph has one node per node of the wrapper, at the same
    position. *)
Record Wrapped (nodes : list T) (slave : DependencyGraph S) : Prop := {
  wr_inv : GraphSpec.Inv lessThan true slave;
  wr_nodup : NoDup nodes;
  wr_length : length (m_nodes slave) = length nodes;
  wr_decode : forall i s, m_nodes slave !! i = Some s -> decode s = Z.of_nat i
}.

(** The edge from [dependentNode] to [requiredNode] is in the matrix of the
    slave. *)
Definition WRecorded (nodes : list T) (slave : DependencyGraph S)
    (dependentNode requiredNode : T) : Prop :=
  exists di ri, nodes !! di = Some dependentNode
    /\ nodes !! ri = Some requiredNode /\ hasEdge slave di ri = true.

End WrapperSpec.
End WrapperSpec.

(** What the calls of each wrapper class keep true of its objects. *)

Definition fifoGood {T : Type} `{EqDecision T} (w : FifoDependencyGraph.FifoDependencyGraph T) : Prop :=
  WrapperSpec.Wrapped Z.ltb (fun i : Z => i) (FifoDependencyGraph.m_nodes w) (FifoDependencyGraph.m_slave w).

Definition lifoGood {T : Type} `{EqDecision T} (w : LifoDependencyGraph.LifoDependencyGraph T) : Prop :=
  WrapperSpec.Wrapped Z.ltb (fun i : Z => - i) (LifoDependencyGraph.m_nodes w) (LifoDependencyGraph.m_slave w).

Definition stripedFifoGood {T : Type} `{EqDecision T} (w : StripedFifoDependencyGraph.StripedFifoDependencyGraph T) : Prop :=
  WrapperSpec.Wrapped qpair_lessThan (fun i : Z * Z => i.2) (StripedFifoDependencyGraph.m_nodes w) (StripedFifoDependencyGraph.m_slave w).

Definition stripedLifoGood {T : Type} `{EqDecision T} (w : StripedLifoDependencyGraph.StripedLifoDependencyGraph T) : Prop :=
  WrapperSpec.Wrapped qpair_lessThan (fun i : Z * Z => - i.2) (StripedLifoDependencyGraph.m_nodes w) (StripedLifoDependencyGraph.m_slave w).

(** ** Plugin specs *)

Module SpecNotions.
Import PluginSpec.

(** The members the parser of the description file leaves alone. *)
Definition sameRuntime (d d' : PluginSpecPrivate) : Prop :=
  state d' = state d /\ plugin d' = plugin d /\ enabled d' = enabled d
  /\ providesSpecs d' = providesSpecs d /\ dependencySpecs d' = dependencySpecs d.

(** An environment for examples: every library loads and gives the plugin
    numbered by the length of its file name; [initializeOk] and
    [shutdownRequested] are what every plugin answers. *)
Definition exampleEnv (initializeOk shutdownRequested : bool) : Env :=
  {| platform := OtherPlatform;
     debugBuild := true;
     isLibrary := fun _ => true;
     fileExists := fun _ => true;
     loaderInstance := fun _ libName => IsPlugin (String.length libName);
     loaderUnload := fun _ _ => true;
     loaderErrorString := fun _ _ => "";
     pluginInitialize := fun _ _ => initializeOk;
     pluginIsShutdownRequested := fun _ _ => shutdownRequested |}.

(** An environment in which no library loads: [QPluginLoader::instance]
    gives no object. *)
Definition brokenLoaderEnv : Env :=
  {| platform := OtherPlatform;
     debugBuild := true;
     isLibrary := fun _ => true;
     fileExists := fun _ => true;
     loaderInstance := fun _ _ => NoObject "Cannot load library";
     loaderUnload := fun _ _ => true;
     loaderErrorString := fun _ _ => "Cannot load library";
     pluginInitialize := fun _ _ => true;
     pluginIsShutdownRequested := fun _ _ => false |}.

(** The tokens of a description file of plugin [name_] that lists
    [dependencies_]. *)
Definition specTokens (name_ : string) (dependencies_ : list string)
  : list QXmlStreamReader.Token :=
  [QXmlStreamReader.StartDocument;
   QXmlStreamReader.StartElement "plugin" [("name", name_); ("version", "1.0")];
   QXmlStreamReader.StartElement "description" [];
   QXmlStreamReader.Characters " a plugin ";
   QXmlStreamReader.EndElement "description";
   QXmlStreamReader.StartElement "dependencyList" []]
  ++ concat ((fun dependency =>
                [QXmlStreamReader.StartElement "dependency" [("name", dependency)];
                 QXmlStreamReader.EndElement "dependency"]) <$> dependencies_)
  ++ [QXmlStreamReader.EndElement "dependencyList";
      QXmlStreamReader.EndElement "plugin";
      QXmlStreamReader.EndDocument].

Definition specFile (name_ : string) (dependencies_ : list string) : FileEntry :=
  Readable "/plugins" (name_ +:+ ".spec") (specTokens name_ dependencies_).

(** A fresh spec after [read] of such a file. *)
Definition readSpec (name_ : string) (dependencies_ : list string)
  : PluginSpecPrivate :=
  (read (specFile name_ dependencies_) (name_ +:+ ".spec") new).2.

(** The world with the given specs at addresses 0, 1, ... *)
Definition worldOf (specs : list PluginSpecPrivate) : World :=
  {| heap := list_to_map (imap (fun i d => (i, d)) specs);
     resolvedPluginsStack := [];
     trace := [] |}.

(** The member [f] of the spec at address [p] in world [w]. *)
Definition member {A : Type} (f : PluginSpecPrivate -> A) (w : World) (p : nat)
  : option A :=
  f <$> heap w !! p.

End SpecNotions.

Module ResolveNotions.
Import PluginSpec SpecNotions.

(** Two worlds hold the same specs under the same names. *)
Definition SameNames (w v : World) : Prop :=
  forall p, member name w p = member name v p.

(** Two lists have the same members. *)
Definition sameMembers (l l' : list nat) : Prop := forall x, x ∈ l <-> x ∈ l'.

(** What the loop of [resolveDependencies] run by [this] does to the spec
    at address [p], when [new] are the specs it resolved. *)
Definition loopStep (this : nat) (new : list nat) (p : nat)
    (d d' : PluginSpecPrivate) : Prop :=
  name d' = name d /\ state d' = state d
  /\ dependencies d' = dependencies d
  /\ dependencySpecs d' = dependencySpecs d
  /\ (hasError d = true -> hasError d' = true)
  /\ (forall x, x ∈ providesSpecs d' <->
                x ∈ providesSpecs d \/ (x = this /\ p ∈ new)).

End ResolveNotions.

(** ** The dependency graph of a set of specs *)

Module Propagation.
Import PluginSpec SpecNotions.

(** [q] depends on [p]: [p] is in [q.dependencySpecs]. *)
Definition dependsOn (w : World) (q p : nat) : Prop :=
  exists d, heap w !! q = Some d /\ p ∈ dependencySpecs d.

(** [q] is a transitive dependent of [p]: it reaches [p] through one or
    more [dependencySpecs] edges. *)
Definition dependentOf (w : World) : nat -> nat -> Prop := tc (dependsOn w).

Definition Acyclic (w : World) : Prop := forall p, ~ dependentOf w p p.

(** The edges stay inside the set. *)
Definition Closed (w : World) : Prop :=
  forall p d q, heap w !! p = Some d ->
    q ∈ dependencySpecs d \/ q ∈ providesSpecs d -> is_Some (heap w !! q).

(** [A ∈ B.dependencySpecs] exactly when [B ∈ A.providesSpecs]. *)
Definition Symmetric (w : World) : Prop :=
  forall p q dp dq, heap w !! p = Some dp -> heap w !! q = Some dq ->
    (p ∈ dependencySpecs dq <-> q ∈ providesSpecs dp).

Definition NoCycleFlagged (w : World) : Prop :=
  forall p d, heap w !! p = Some d -> circularDependencyDetected d = false.

(** The [indirectlyDisabled] flag of every spec says whether one of its
    dependencies is unavailable. *)
Definition Consistent (w : World) : Prop :=
  forall p d, heap w !! p = Some d ->
    (indirectlyDisabled d = true <->
     exists q dq, q ∈ dependencySpecs d /\ heap w !! q = Some dq
                  /\ unavailable dq = true).

(** A resolved set without cycles, between two propagations. *)
Record ResolvedSet (w : World) : Prop := {
  rs_closed : Closed w;
  rs_symmetric : Symmetric w;
  rs_acyclic : Acyclic w;
  rs_noCycleFlagged : NoCycleFlagged w;
  rs_stack : resolvedPluginsStack w = []
}.

(** The spec [p] or one of its transitive dependents. *)
Definition below (w : World) (p q : nat) : Prop := q = p \/ dependentOf w q p.

(** In [w] the spec at [p] differs from the one in [w0] at most in its
    [indirectlyDisabled] flag. *)
Definition flagOnly (d0 d : PluginSpecPrivate) : Prop :=
  d = set_indirectlyDisabled (indirectlyDisabled d) d0.

Definition FlagsOnly (w0 w : World) : Prop :=
  forall p, option_Forall2 flagOnly (heap w0 !! p) (heap w !! p).

(** The flag of the spec at [p] is what a scan of its dependencies gives. *)
Definition LocallyOk (w : World) (p : nat) : Prop :=
  forall d, heap w !! p = Some d ->
    anyUnavailable w (dependencySpecs d) = Ok (indirectlyDisabled d).

(** One recomputation of a flag from the dependencies, as a step between
    heaps. *)
Definition recompute (h h' : gmap nat PluginSpecPrivate) : Prop :=
  exists p d b, h !! p = Some d
    /\ anyUnavailable (mkWorld h [] []) (dependencySpecs d) = Ok b
    /\ h' = alter (set_indirectlyDisabled b) p h.

(** The specs not on the propagation stack. *)
Definition offStack (w0 w : World) : gset nat :=
  dom (heap w0) ∖ list_to_set (resolvedPluginsStack w).

(** What one forced propagation call does in a set whose graph is that of
    [w0], when enough depth is left for the specs not yet on the stack. *)
Definition Propagates (w0 : World) (depth : nat) : Prop :=
  forall this w,
    FlagsOnly w0 w ->
    is_Some (heap w0 !! this) ->
    (forall s, s ∈ resolvedPluginsStack w -> dependentOf w0 this s) ->
    (size (offStack w0 w) < depth)%nat ->
    exists w', resolveIndirectlyDisabled depth true this w = Ok w'
      /\ FlagsOnly w0 w'
      /\ resolvedPluginsStack w' = resolvedPluginsStack w
      /\ trace w' = trace w
      /\ rtc recompute (heap w) (heap w')
      /\ (forall p, ~ below w0 this p -> heap w' !! p = heap w !! p)
      /\ (forall p, LocallyOk w p \/ below w0 this p -> LocallyOk w' p).

End Propagation.

(** Executable checks of the conditions above, for sets given in full.
    [rankedb] is a sufficient check of acyclicity: every spec depends only
    on specs at lower addresses. *)
Module Checks.
Import PluginSpec Propagation.

Definition specs (w : World) : list (nat * PluginSpecPrivate) :=
  map_to_list (heap w).

Definition inSet (w : World) (q : nat) : bool :=
  match heap w !! q with Some _ => true | None => false end.

Definition closedb (w : World) : bool :=
  forallb (fun pd => forallb (inSet w)
                       (dependencySpecs pd.2 ++ providesSpecs pd.2))
    (specs w).

Definition symmetricb (w : World) : bool :=
  forallb (fun pd =>
             forallb (fun qd =>
                        Bool.eqb (QList.contains (dependencySpecs qd.2) pd.1)
                                 (QList.contains (providesSpecs pd.2) qd.1))
               (specs w))
    (specs w).

Definition rankedb (w : World) : bool :=
  forallb (fun qd => forallb (fun p => (p <? qd.1)%nat) (dependencySpecs qd.2))
    (specs w).

Definition noCycleFlaggedb (w : World) : bool :=
  forallb (fun pd => negb (circularDependencyDetected pd.2)) (specs w).

Definition consistentb (w : World) : bool :=
  forallb (fun pd =>
             match anyUnavailable w (dependencySpecs pd.2) with
             | Ok b => Bool.eqb b (indirectlyDisabled pd.2)
             | _ => false
             end)
    (specs w).

Definition resolvedSetb (w : World) : bool :=
  closedb w && symmetricb w && rankedb w && noCycleFlaggedb w && consistentb w
  && match resolvedPluginsStack w with [] => true | _ => false end.

(** [order] lists the specs of [w]. *)
Definition coversb (w : World) (order : list nat) : bool :=
  forallb (inSet w) order
  && forallb (fun pd => QList.contains order pd.1) (specs w).

End Checks.

(** ** Runs of the queue walks, the propagation and the manager *)

Module RunNotions.
Import PluginSpec Propagation.

(** The outcome [r] is a return with [Q] or a failed assertion, not a lack
    of depth. *)
Definition ensures {A : Type} (r : Result A) (Q : A -> Prop) : Prop :=
  match r with
  | Ok a => Q a
  | AssertionFailed => True
  | OutOfFuel => False
  end.

(** The answer "yes" of a plugin to [isShutdownRequested]. *)
Definition isShutdownRequest (e : Event) : bool :=
  match e with
  | PluginIsShutdownRequested _ true => true
  | _ => false
  end.

(** Neither the notification nor a shutdown request. *)
Definition calm (e : Event) : bool :=
  match e with
  | PluginsInitialized => false
  | PluginIsShutdownRequested _ true => false
  | _ => true
  end.

(** How often [ev] is among [events]. *)
Definition emitted (ev : Event) (events : list Event) : nat :=
  length (filter (fun e => e = ev) events).

(** The specs whose cycle flag is clear. *)
Definition notFlagged (w : World) : gset nat :=
  dom (filter (fun pd : nat * PluginSpecPrivate =>
                 circularDependencyDetected pd.2 = false) (heap w)).

(** A bound of the nesting of [resolveIndirectlyDisabled]: a nested call
    is on a spec not yet on the stack, or on one whose cycle flag is
    clear and is set at once. *)
Definition propagationMeasure (w : World) : nat :=
  size (offStack w w) + size (notFlagged w).

(** What a call of [resolveIndirectlyDisabled] keeps. *)
Definition Propagated (w w' : World) : Prop :=
  resolvedPluginsStack w' = resolvedPluginsStack w
  /\ dom (heap w') = dom (heap w)
  /\ trace w' = trace w
  /\ notFlagged w' ⊆ notFlagged w.

(** The specs not yet in the circularity check queue, which bound the
    nesting of [loadQueue] and [unloadQueue]. *)
Definition unchecked (q : Queues) (w : World) : gset nat :=
  dom (heap w) ∖ list_to_set (circularityCheckQueue q).

(** What a call of [loadQueue] or [unloadQueue] keeps. *)
Definition Queued (q : Queues) (w : World) (r : bool * Queues * World) : Prop :=
  dom (heap r.2) = dom (heap w)
  /\ trace r.2 = trace w
  /\ circularityCheckQueue q ⊆ circularityCheckQueue r.1.2.

(** [w'] has the specs of [w], and its trace that of [w] and then calm
    events. *)
Definition CalmStep (w w' : World) : Prop :=
  dom (heap w') = dom (heap w)
  /\ exists events, trace w' = trace w ++ events
                    /\ Forall (fun e => calm e = true) events.

(** How the loop of [initializePlugins] ends, seen from the world and the
    manager at its start.  It ends by [return false] right after a plugin
    that failed to initialize has answered yes to [isShutdownRequested]: the
    failed call, its warning and the answer are the last events, and the
    name of the spec of that plugin is in [pluginWhichRequestedShutdown].
    Or it comes to the end of the load queue, after calm events, with
    [pluginWhichRequestedShutdown] as it was. *)
Definition LoopEnds (w : World) (m : PluginManager.PluginManagerPrivate)
    (end_ : PluginManager.LoopEnd) : Prop :=
  match end_ with
  | PluginManager.Returned m' w' =>
      exists events pluginSpec d p text,
        trace w' = trace w ++ events
                     ++ [PluginInitialize p false; Warning text;
                         PluginIsShutdownRequested p true]
        /\ Forall (fun e => calm e = true) events
        /\ heap w' !! pluginSpec = Some d /\ plugin d = Some p
        /\ PluginManager.pluginWhichRequestedShutdown m' = name d
  | PluginManager.Completed _ m' w' =>
      exists events, trace w' = trace w ++ events
                     /\ Forall (fun e => calm e = true) events
                     /\ PluginManager.pluginWhichRequestedShutdown m'
                        = PluginManager.pluginWhichRequestedShutdown m
  end.

End RunNotions.

(** An example for runs of the manager: plugin "Bb" depends on plugin "A",
    both are resolved and loaded. *)
Module LoadedExample.
Import PluginSpec SpecNotions.

Definition specs : list PluginSpecPrivate :=
  [readSpec "A" []; readSpec "Bb" ["A"]].

Definition resolved : Result World :=
  PluginManager.resolveDependencies 5
    (PluginManager.mk [(None, 0); (None, 1)]%nat [] "") (worldOf specs).

Definition loaded (env : Env) : Result (PluginManager.PluginManagerPrivate * World) :=
  w ← resolved;
  '(a, w) ← loadPlugin env 0 w;
  '(b, w) ← loadPlugin env 1 w;
  Ok (PluginManager.mk [(a, 0); (b, 1)]%nat [] "", w).

End LoadedExample.

(** ** Notions for the calls on a graph object *)

Module CallNotions.
Section CallNotions.
Context {T : Type}.
Import DependencyGraph.

(** The nodes given to [addNode], in the order of the calls. *)
Fixpoint addedNodes (calls : list (Call T)) : list T :=
  match calls with
  | [] => []
  | AddNode node :: calls' => node :: addedNodes calls'
  | _ :: calls' => addedNodes calls'
  end.

(** [addEdge(d, r)] is among the calls. *)
Definition added (calls : list (Call T)) (d r : T) : Prop :=
  AddEdge d r ∈ calls.

End CallNotions.

(** The relation [E] with the node [x] bypassed. *)
Definition contract (E : nat -> nat -> bool) (x : nat) (n m : nat) : bool :=
  E n m || (E n x && E x m).

End CallNotions.

(** The slave graph of a wrapper after [n] calls of [addNode] and none of
    [addEdge], [key] giving the slave node of a position. *)
Definition slaveOf (key : nat -> Z) (n : nat) : DependencyGraph.DependencyGraph Z :=
  DependencyGraph.mk (key <$> seq 0 n) [] false [].

(** ** Notions for the striped graphs *)

Module StripeNotions.
Section StripeNotions.
Context {T : Type}.

(** The slave graph after [n] calls of [addNode] and none of [addEdge],
    for slave nodes of any type. *)
Definition slaveWith {K : Type} (key : nat -> K) (n : nat)
  : DependencyGraph.DependencyGraph K :=
  DependencyGraph.mk (key <$> seq 0 n) [] false [].

(** Every item of the list is [before] the items after it. *)
Definition ascending {A : Type} (before : A -> A -> Prop) (l : list A) : Prop :=
  forall a b x y, (a < b)%nat -> l !! a = Some x -> l !! b = Some y -> before x y.

(** The stripe of the [n]-th node added. *)
Definition stripeOf (items : list (T * Z)) (n : nat) : Z :=
  match items !! n with
  | Some (_, stripe) => stripe
  | None => 0
  end.

(** Lower stripe first; within a stripe, first added first ... *)
Definition fifoBefore (items : list (T * Z)) (i j : nat) : Prop :=
  stripeOf items i < stripeOf items j
  \/ (stripeOf items i = stripeOf items j /\ (i < j)%nat).

(** ... or last added first. *)
Definition lifoBefore (items : list (T * Z)) (i j : nat) : Prop :=
  stripeOf items i < stripeOf items j
  \/ (stripeOf items i = stripeOf items j /\ (j < i)%nat).

(** The slave node of the [i]-th node added, in the two striped graphs. *)
Definition fifoKey (items : list (T * Z)) (i : nat) : Z * Z :=
  (stripeOf items i, Z.of_nat i).

Definition lifoKey (items : list (T * Z)) (i : nat) : Z * Z :=
  (stripeOf items i, - Z.of_nat i).

(** [retv] holds every node added once, in the order [before] of their
    positions in [items]. *)
Definition StripeOrder (before : list (T * Z) -> nat -> nat -> Prop)
    (items : list (T * Z)) (retv : list T) : Prop :=
  exists numbers,
    numbers ≡ₚ seq 0 (length items)
    /\ Forall2 (fun n x => items.*1 !! n = Some x) numbers retv
    /\ ascending (before items) numbers.

End StripeNotions.
End StripeNotions.

(** ** Notions for [UniqueId] and [Configuration] *)

Module IdNotions.

(** What the static map of [UniqueId] holds between calls: the identifiers
    are the numbers below its size, one per string, and no string is
    empty. *)
Record Interned (m_idMap : gmap string Z) : Prop := {
  interned_range : forall id uid, m_idMap !! id = Some uid ->
                     0 <= uid < Z.of_nat (size m_idMap);
  interned_inj : forall id1 id2 uid, m_idMap !! id1 = Some uid ->
                   m_idMap !! id2 = Some uid -> id1 = id2;
  interned_nonempty : m_idMap !! "" = None
}.

End IdNotions.

Module ConfigurationNotions.
Import Configuration.

(** The provided side the documentation asks for: a plain enumeration built
    with [,] from resources and [resource == version]. *)
Fixpoint plain (c : Configuration) : bool :=
  match c with
  | CBinary l Comma r => plain l && plain r
  | CExists _ => true
  | CRelation _ Eq _ => true
  | _ => false
  end.

(** The resources an expression names, ... *)
Fixpoint resources (c : Configuration) : list Resource :=
  match c with
  | CBinary l _ r => resources l ++ resources r
  | CExists resource => [resource]
  | CRelation resource _ _ => [resource]
  | CNot r => resources r
  end.

(** ... and those it names with a version. *)
Fixpoint versions (c : Configuration) : list (Resource * Version) :=
  match c with
  | CBinary l _ r => versions l ++ versions r
  | CRelation resource _ version => [(resource, version)]
  | CNot r => versions r
  | CExists _ => []
  end.

End ConfigurationNotions.

(** ** Notions for the load queue *)

Module LoadNotions.
Import PluginSpec.

(** [d'] is [d] but for the error members. *)
Definition errorsOnly (d d' : PluginSpecPrivate) : Prop :=
  d' = set_hasError (hasError d') (set_errorString (errorString d') d).

(** Between the two worlds only error members of specs differ. *)
Definition ErrorsOnly (w w' : World) : Prop :=
  (forall p, option_Forall2 errorsOnly (heap w !! p) (heap w' !! p))
  /\ resolvedPluginsStack w' = resolvedPluginsStack w
  /\ trace w' = trace w.

(** A queue in load order: no spec twice, every spec enabled and not
    indirectly disabled, and every spec after all of its dependencies. *)
Definition LoadOrder (w : World) (queue_ : list nat) : Prop :=
  NoDup queue_
  /\ forall i s, queue_ !! i = Some s ->
       exists d, heap w !! s = Some d
         /\ enabled d = true /\ indirectlyDisabled d = false
         /\ forall t, t ∈ dependencySpecs d ->
              exists j, (j < i)%nat /\ queue_ !! j = Some t.

(** What a call of [loadQueue] on [this] does to the two queues and the
    world. *)
Definition LoadQueued (this : nat) (q : Queues) (w : World)
    (r : bool * Queues * World) : Prop :=
  ErrorsOnly w r.2
  /\ LoadOrder r.2 (queue r.1.2)
  /\ queue q `prefix_of` queue r.1.2
  /\ circularityCheckQueue q ⊆ circularityCheckQueue r.1.2
  /\ (forall s, s ∈ queue r.1.2 -> s ∈ queue q \/ s ∉ circularityCheckQueue q)
  /\ (r.1.1 = true -> this ∈ queue r.1.2).

(** The same for the loop over the dependencies. *)
Definition DependenciesQueued (dependencySpecs_ : list nat) (q : Queues)
    (w : World) (r : bool * Queues * World) : Prop :=
  ErrorsOnly w r.2
  /\ LoadOrder r.2 (queue r.1.2)
  /\ queue q `prefix_of` queue r.1.2
  /\ circularityCheckQueue q ⊆ circularityCheckQueue r.1.2
  /\ (forall s, s ∈ queue r.1.2 -> s ∈ queue q \/ s ∉ circularityCheckQueue q)
  /\ (r.1.1 = true -> forall t, t ∈ dependencySpecs_ -> t ∈ queue r.1.2).

End LoadNotions.

(** ** Notions for the unload queue *)

Module UnloadNotions.
Import PluginSpec LoadNotions.

(** The test with which [unloadQueue] leaves a spec out: it is disabled or
    indirectly disabled, and not loaded. *)
Definition skipped (d : PluginSpecPrivate) : bool :=
  (negb (enabled d) || indirectlyDisabled d) && lt (state d) Loaded.

(** Between the two worlds only error members of specs differ, and no
    error is taken back. *)
Definition ErrorsAdded (w w' : World) : Prop :=
  ErrorsOnly w w'
  /\ forall p d d', heap w !! p = Some d -> heap w' !! p = Some d' ->
       hasError d = true -> hasError d' = true.

(** The spec at [t] is left out of the queue, or carries an error. *)
Definition excused (w : World) (t : nat) : Prop :=
  exists dt, heap w !! t = Some dt /\ (skipped dt = true \/ hasError dt = true).

(** A queue in unload order: no spec twice, no spec that the test leaves
    out, and every spec after each spec it provides for, but for those that
    are left out or carry an error. *)
Definition UnloadOrder (w : World) (queue_ : list nat) : Prop :=
  NoDup queue_
  /\ forall i s, queue_ !! i = Some s ->
       exists d, heap w !! s = Some d
         /\ skipped d = false
         /\ forall t, t ∈ providesSpecs d ->
              (exists j, (j < i)%nat /\ queue_ !! j = Some t) \/ excused w t.

(** What a call of [unloadQueue] on [this] does to the two queues and the
    world. *)
Definition UnloadQueued (this : nat) (q : Queues) (w : World)
    (r : bool * Queues * World) : Prop :=
  ErrorsAdded w r.2
  /\ UnloadOrder r.2 (queue r.1.2)
  /\ queue q `prefix_of` queue r.1.2
  /\ circularityCheckQueue q ⊆ circularityCheckQueue r.1.2
  /\ (forall s, s ∈ queue r.1.2 -> s ∈ queue q \/ s ∉ circularityCheckQueue q)
  /\ (this ∈ queue r.1.2 \/ excused r.2 this)
  /\ (this ∉ circularityCheckQueue q ->
      forall d, heap w !! this = Some d -> skipped d = false ->
      this ∈ queue r.1.2).

(** The same for the loop over [providesSpecs]. *)
Definition DependentsQueued (providesSpecs_ : list nat) (q : Queues)
    (w : World) (r : Queues * World) : Prop :=
  ErrorsAdded w r.2
  /\ UnloadOrder r.2 (queue r.1)
  /\ queue q `prefix_of` queue r.1
  /\ circularityCheckQueue q ⊆ circularityCheckQueue r.1
  /\ (forall s, s ∈ queue r.1 -> s ∈ queue q \/ s ∉ circularityCheckQueue q)
  /\ (forall t, t ∈ providesSpecs_ -> t ∈ queue r.1 \/ excused r.2 t).

End UnloadNotions.

(** ** Notions for unloading all plugins *)

Module RegisterNotions.
Import PluginSpec PluginManager.

(** The map of the manager agrees with the specs: every item has as key the
    plugin of its spec, and a spec with a plugin is loaded. *)
Definition Registered (m : PluginManagerPrivate) (w : World) : Prop :=
  forall k s, (k, s) ∈ m_pluginToSpec m ->
    exists d, heap w !! s = Some d /\ plugin d = k
      /\ (k <> None -> ge (state d) Loaded = true).

Definition registeredb (m : PluginManagerPrivate) (w : World) : bool :=
  forallb (fun kv : option nat * nat =>
             match heap w !! kv.2 with
             | Some d => bool_decide (plugin d = kv.1)
                         && (bool_decide (kv.1 = None) || ge (state d) Loaded)
             | None => false
             end)
    (m_pluginToSpec m).

End RegisterNotions.

(** ** Notions for what [initializePlugins] returns *)

Module ReturnNotions.
Import PluginSpec.

(** A call of [IPlugin::initialize] that returned false. *)
Definition isFailure (e : Event) : bool :=
  match e with
  | PluginInitialize _ false => true
  | _ => false
  end.

(** Between [w] and [w'] events were emitted, with ([failed]) or without a
    failed initialization among them. *)
Definition failures (w w' : World) (failed : bool) : Prop :=
  exists events, trace w' = trace w ++ events /\ existsb isFailure events = failed.

(** How the loop of [initializePlugins] ends, seen from the world and the
    value of [allInitialized] at its start. *)
Definition LoopResult (w : World) (allInitialized : bool)
    (end_ : PluginManager.LoopEnd) : Prop :=
  match end_ with
  | PluginManager.Returned _ w' => failures w w' true
  | PluginManager.Completed allInitialized' _ w' =>
      exists failed, failures w w' failed
                     /\ allInitialized' = allInitialized && negb failed
  end.

End ReturnNotions.

(** ** Notions for what [read] stores *)

Module ReadNotions.
Import PluginSpec.

(** A version as [read] stores it: valid, or empty. *)
Definition stored (version_ : string) : Prop :=
  version_ = "" \/ isValidVersion version_ = true.

(** The spec has a stored version, and dependencies with a name and a
    stored version. *)
Definition WellRead (d : PluginSpecPrivate) : Prop :=
  stored (version d)
  /\ forall dep, dep ∈ dependencies d ->
       PluginDependency.name dep <> "" /\ stored (PluginDependency.version dep).

End ReadNotions.

(** ** Notions for loading the plugins *)

Module LoadingNotions.
Import PluginSpec PluginManager.

(** A spec with a plugin is loaded, and a loaded spec has a plugin, as have
    all the specs it depends on. *)
Definition Loading (w : World) : Prop :=
  forall s d, heap w !! s = Some d ->
    (plugin d <> None <-> ge (state d) Loaded = true)
    /\ (ge (state d) Loaded = true ->
        forall t, t ∈ dependencySpecs d ->
          exists dt, heap w !! t = Some dt /\ plugin dt <> None).

Definition loadingb (w : World) : bool :=
  forallb (fun sd : nat * PluginSpecPrivate =>
             bool_decide (bool_decide (plugin sd.2 <> None) = ge (state sd.2) Loaded)
             && (negb (ge (state sd.2) Loaded)
                 || forallb (fun t => match heap w !! t with
                                      | Some dt => bool_decide (plugin dt <> None)
                                      | None => false
                                      end)
                      (dependencySpecs sd.2)))
    (map_to_list (heap w)).

End LoadingNotions.

(** ** Notions for [Aggregation11] *)

Module AggregationNotions.
Section AggregationNotions.
Context {INNER_T : Type} `{EqDecision INNER_T}.
Import Aggregation11.

(** The relation between inner objects and the outer objects alive is 1:1:
    the map holds no inner object twice and no outer object twice, its outer
    objects are those to which a shared pointer is held, and all of them
    were allocated. *)
Record OneToOne (a : Aggregation11 INNER_T) : Prop := {
  inners_NoDup : NoDup (outerByInnerMap a).*1;
  outers_NoDup : NoDup (outerByInnerMap a).*2;
  outers_held : forall outer, outer ∈ (outerByInnerMap a).*2 <-> outer ∈ held a;
  held_allocated : forall outer, outer ∈ held a -> (outer < allocated a)%nat
}.

(** The calls the class has no precondition for. *)
Definition unconditional (c : Call INNER_T) : bool :=
  match c with
  | ResetInner _ _ => false
  | _ => true
  end.

End AggregationNotions.
End AggregationNotions.

(** ** Notions for the propagation on any graph *)

Module TouchNotions.
Import PluginSpec.

(** [d'] is [d] but for the two flags of the propagation and the error
    members. *)
Definition flagsAndErrors (d d' : PluginSpecPrivate) : Prop :=
  d' = set_indirectlyDisabled (indirectlyDisabled d')
         (set_circularDependencyDetected (circularDependencyDetected d')
            (set_hasError (hasError d') (set_errorString (errorString d') d))).

Definition FlagsAndErrors (w w' : World) : Prop :=
  forall p, option_Forall2 flagsAndErrors (heap w !! p) (heap w' !! p).

End TouchNotions.

(** An example with a cycle: plugins "A" and "B" depend on each other; the
    edges are resolved, the propagation has not run. *)
Module CyclicExample.
Import PluginSpec SpecNotions.

Definition specs : list PluginSpecPrivate :=
  [readSpec "A" ["B"]; readSpec "B" ["A"]].

Definition manager : PluginManager.PluginManagerPrivate :=
  PluginManager.mk [(None, 0); (None, 1)]%nat [] "".

Definition edges : Result World :=
  PluginManager.resolveEach manager [0; 1]%nat (worldOf specs).

End CyclicExample.


(** * Facts about the C++ [int] model *)

Lemma int32_small z : - 2147483648 <= z <= 2147483647 -> int32 z = z.
Proof.
  intros Hz. unfold int32.
  rewrite Z.mod_small by lia. lia.
Qed.

(** * Version comparison and configuration satisfaction *)

Import VersionSpec.

Section VersionCompare.
Import QString Configuration VersionSpec.



Lemma isDigit_value c : isDigit c = true -> 0 <= digitValue c <= 9.
Proof.
  unfold isDigit, digitValue. cbv zeta.
  rewrite andb_true_iff, !Nat.leb_le. lia.
Qed.

Lemma split_nonempty sep s : split sep s <> [].
Proof.
  destruct s as [|c s]; simpl; [done|].
  destruct (Ascii.eqb c sep); [done|]. by destruct (split sep s).
Qed.








End VersionCompare.



(** ** Properties of the configuration evaluator *)

Section ConfigurationProperties.
Import Configuration VersionSpec.






End ConfigurationProperties.

(** * Topological sort *)

(** ** [QList] and [QMap] facts *)

Section QListFacts.
Context {A : Type} `{EqDecision A}.
Implicit Types (l : list A) (x : A).

Lemma contains_true l x : QList.contains l x = true <-> x ∈ l.
Proof. unfold QList.contains. by rewrite bool_decide_eq_true. Qed.

Lemma contains_false l x : QList.contains l x = false <-> x ∉ l.
Proof. unfold QList.contains. by rewrite bool_decide_eq_false. Qed.

Lemma indexOf_range l x : -1 <= QList.indexOf l x < Z.of_nat (length l).
Proof.
  induction l as [|y l IH]; simpl; [lia|].
  destruct (decide (y = x)); [lia|].
  destruct (Z.ltb_spec (QList.indexOf l x) 0); lia.
Qed.

Lemma indexOf_elem l x :
  x ∈ l -> exists i, QList.indexOf l x = Z.of_nat i /\ l !! i = Some x.
Proof.
  induction l as [|y l IH]; [by intros ?%elem_of_nil|].
  intros Hx. simpl. destruct (decide (y = x)) as [->|Hne].
  - by exists 0%nat.
  - apply elem_of_cons in Hx as [->|Hx]; [done|].
    destruct (IH Hx) as (i & Hi & Hl). rewrite Hi.
    destruct (Z.ltb_spec (Z.of_nat i) 0); [lia|].
    exists (S i). split; [lia|done].
Qed.

Lemma indexOf_app l l' x :
  x ∈ l -> QList.indexOf (l ++ l') x = QList.indexOf l x.
Proof.
  induction l as [|y l IH]; [by intros ?%elem_of_nil|].
  intros Hx. simpl. destruct (decide (y = x)) as [->|Hne]; [done|].
  apply elem_of_cons in Hx as [->|Hx]; [done|]. by rewrite IH.
Qed.

Lemma indexOf_NoDup l i x :
  NoDup l -> l !! i = Some x -> QList.indexOf l x = Z.of_nat i.
Proof.
  intros Hnd Hi.
  destruct (indexOf_elem l x) as (j & Hj & Hlj); [by eapply list_elem_of_lookup_2|].
  rewrite Hj. f_equal. by eapply NoDup_lookup.
Qed.

Lemma removeOne_Permutation l x : x ∈ l -> l ≡ₚ x :: QList.removeOne l x.
Proof.
  induction l as [|y l IH]; [by intros ?%elem_of_nil|].
  intros Hx. simpl. destruct (decide (y = x)) as [->|Hne]; [done|].
  apply elem_of_cons in Hx as [->|Hx]; [done|].
  rewrite (IH Hx) at 1. apply Permutation_swap.
Qed.

End QListFacts.

Section QMapFacts.
Context {K V : Type} (lessThan : K -> K -> bool).

(** Inserting a key that [lessThan] tells apart from every key of the map
    adds an item. *)
Lemma insert_fresh (k : K) (v : V) (m : list (K * V)) :
  Forall (fun kv => lessThan k kv.1 = true \/ lessThan kv.1 k = true) m ->
  QMap.insert lessThan k v m ≡ₚ (k, v) :: m.
Proof.
  induction 1 as [|[k' v'] m Hk Hm IH]; simpl; [done|].
  destruct (lessThan k' k) eqn:E1.
  - rewrite IH. apply Permutation_swap.
  - destruct (lessThan k k') eqn:E2; [done|]. simpl in Hk. destruct Hk; congruence.
Qed.

End QMapFacts.

(** ** The edge matrix *)

Section EdgeMatrixFacts.
Import DependencyGraph EdgeMatrix.
Implicit Types edges : list (list bool).

Lemma Square_lookup edges d row :
  Square edges -> edges !! d = Some row -> length row = length edges.
Proof. unfold Square. rewrite Forall_lookup. intros Hsq Hd. by apply (Hsq d). Qed.

Lemma testBit_replicate n r : testBit (replicate n false) r = false.
Proof.
  unfold testBit. destruct (replicate n false !! r) as [b|] eqn:E; [|done].
  by apply lookup_replicate in E as [-> _].
Qed.

Lemma bit_out_of_range edges d r :
  Square edges -> (length edges <= Nat.max d r)%nat -> bit edges d r = false.
Proof.
  intros Hsq Hlen. unfold bit, testBit.
  destruct (edges !! d) as [row|] eqn:Ed; simpl; [|done].
  pose proof (lookup_lt_Some _ _ _ Ed) as Hd.
  pose proof (Square_lookup _ _ _ Hsq Ed).
  rewrite lookup_ge_None_2; [done|lia].
Qed.

Lemma grow_length n edges : length (grow n edges) = Nat.max (length edges) n.
Proof.
  unfold grow. destruct (Nat.ltb_spec (length edges) n); [|lia].
  rewrite length_app, length_fmap, length_replicate. lia.
Qed.

Lemma grow_Square n edges : Square edges -> Square (grow n edges).
Proof.
  intros Hsq. unfold Square. rewrite grow_length. unfold grow.
  destruct (Nat.ltb_spec (length edges) n) as [Hlt|Hge].
  - apply Forall_app. split.
    + apply Forall_fmap. eapply Forall_impl; [exact Hsq|].
      intros row Hrow. simpl. unfold resize.
      rewrite length_app, length_take, length_replicate. lia.
    + apply Forall_replicate. rewrite length_replicate. lia.
  - eapply Forall_impl; [exact Hsq|]. intros row Hrow. simpl in *. lia.
Qed.

Lemma grow_bit n edges d r :
  Square edges -> bit (grow n edges) d r = bit edges d r.
Proof.
  intros Hsq. unfold grow.
  destruct (Nat.ltb_spec (length edges) n) as [Hlt|Hge]; [|done].
  unfold bit. destruct (edges !! d) as [row|] eqn:Ed.
  - rewrite lookup_app_l by (rewrite length_fmap; by eapply lookup_lt_Some).
    rewrite list_lookup_fmap, Ed. simpl.
    pose proof (Square_lookup _ _ _ Hsq Ed).
    unfold resize, testBit. rewrite take_ge by lia.
    destruct (row !! r) as [b|] eqn:Er.
    + by rewrite (lookup_app_l_Some _ _ _ _ Er).
    + apply lookup_ge_None in Er. rewrite lookup_app_r by done.
      destruct (replicate _ _ !! _) as [b|] eqn:E; [|done].
      by apply lookup_replicate in E as [-> _].
  - apply lookup_ge_None in Ed.
    rewrite lookup_app_r by (by rewrite length_fmap).
    destruct (replicate _ _ !! _) as [row|] eqn:E; simpl; [|done].
    apply lookup_replicate in E as [-> _]. apply testBit_replicate.
Qed.

Lemma alter_setBit_Square edges di ri :
  Square edges -> Square (alter (setBit ri) di edges).
Proof.
  unfold Square. rewrite !Forall_lookup, length_alter. intros Hsq i row Hi.
  destruct (decide (i = di)) as [->|Hne].
  - rewrite list_lookup_alter_eq in Hi.
    apply fmap_Some in Hi as (row' & E & ->).
    unfold setBit. rewrite length_insert. by apply (Hsq di).
  - rewrite list_lookup_alter_ne in Hi by done. by apply (Hsq i).
Qed.

Lemma alter_setBit_bit edges di ri d r :
  Square edges -> (di < length edges)%nat -> (ri < length edges)%nat ->
  bit (alter (setBit ri) di edges) d r
  = if decide (d = di /\ r = ri) then true else bit edges d r.
Proof.
  intros Hsq Hdi Hri. unfold bit.
  destruct (decide (d = di)) as [->|Hne].
  - rewrite list_lookup_alter_eq.
    destruct (lookup_lt_is_Some_2 edges di Hdi) as [row Erow]. rewrite Erow. simpl.
    pose proof (Square_lookup _ _ _ Hsq Erow).
    unfold setBit, testBit. destruct (decide (r = ri)) as [->|Hr].
    + rewrite decide_True by done. by rewrite list_lookup_insert_eq by lia.
    + rewrite decide_False by (intros [_ ?]; done).
      by rewrite list_lookup_insert_ne by done.
  - rewrite list_lookup_alter_ne by done.
    by rewrite decide_False by (intros [? _]; done).
Qed.

End EdgeMatrixFacts.

(** ** The sort loop *)

Section SortLoop.
Context {T : Type} `{EqDecision T}.
Import DependencyGraph EdgeMatrix.
Implicit Types g : DependencyGraph T.

Lemma hasEdge_bit g d r :
  Square (m_edges g) -> hasEdge g d r = bit (m_edges g) d r.
Proof.
  intros Hsq. unfold hasEdge.
  destruct (Nat.ltb_spec (Nat.max d r) (length (m_edges g))) as [Hlt|Hge]; [done|].
  by rewrite bit_out_of_range.
Qed.

Lemma hasEdge_range g d r :
  hasEdge g d r = true -> (Nat.max d r < length (m_edges g))%nat.
Proof. unfold hasEdge. rewrite andb_true_iff, Nat.ltb_lt. tauto. Qed.

Lemma sortLoop_ext fuel g g' remaining cache :
  m_nodes g = m_nodes g' -> m_edges g = m_edges g' ->
  sortLoop fuel g remaining cache = sortLoop fuel g' remaining cache.
Proof.
  intros Hn He. revert remaining cache.
  induction fuel as [|fuel IH]; intros remaining cache; simpl;
    unfold independent, hasEdge; rewrite Hn, He; [done|].
  destruct (List.find _ _); [|done].
  destruct (m_nodes g' !! _); simpl; [|done]. apply IH.
Qed.

(** With a round of fuel for every remaining node number the loop runs to
    its [break]: it emits node numbers [emitted] (the nodes [out] are
    appended to the cache) and leaves [rest]; a node number is emitted only
    when it has no edge to itself, to a number emitted later, or to one
    left. *)
Lemma sortLoop_total fuel g remaining cache :
  Forall (fun n => (n < length (m_nodes g))%nat) remaining ->
  (length remaining <= fuel)%nat ->
  exists emitted out rest,
    sortLoop fuel g remaining cache = Some (cache ++ out, rest)
    /\ remaining ≡ₚ emitted ++ rest
    /\ Forall2 (fun n x => m_nodes g !! n = Some x) emitted out
    /\ (forall i n m, emitted !! i = Some n ->
          m ∈ drop i emitted ++ rest -> hasEdge g n m = false).
Proof.
  revert remaining cache.
  induction fuel as [|fuel IH]; intros remaining cache Hrange Hfuel.
  - destruct remaining; [|simpl in Hfuel; lia].
    exists [], [], []. simpl. rewrite app_nil_r.
    split; [done|]. split; [done|]. split; [constructor|].
    intros i n m Hi. by rewrite lookup_nil in Hi.
  - simpl. destruct (List.find _ remaining) as [n|] eqn:Hfind.
    + apply find_some in Hfind as [Hin Hind]. apply list_elem_of_In in Hin.
      pose proof (removeOne_Permutation _ _ Hin) as Hperm.
      assert (Hn : (n < length (m_nodes g))%nat).
      { rewrite Forall_forall in Hrange. by apply Hrange. }
      destruct (lookup_lt_is_Some_2 _ _ Hn) as [x Hx]. rewrite Hx. simpl.
      destruct (IH (QList.removeOne remaining n) (cache ++ [x]))
        as (emitted & out & rest & Hloop & Hp & Hout & Hord).
      { rewrite Hperm in Hrange. by inversion Hrange. }
      { apply Permutation_length in Hperm. simpl in Hperm. lia. }
      exists (n :: emitted), (x :: out), rest. rewrite Hloop.
      split; [by rewrite <- app_assoc|]. split; [by rewrite Hperm, Hp|].
      split; [by constructor|].
      intros [|i] n' m Hi Hm; simpl in Hi, Hm.
      * injection Hi as <-. unfold independent in Hind.
        rewrite forallb_forall in Hind. apply negb_true_iff, Hind.
        apply list_elem_of_In. rewrite Hperm, Hp. done.
      * by eapply Hord.
    + exists [], [], remaining. rewrite app_nil_r.
      split; [done|]. split; [done|]. split; [constructor|].
      intros i n m Hi. by rewrite lookup_nil in Hi.
Qed.

(** When nothing is left, every edge between emitted node numbers points
    backwards in the emitted order. *)
Lemma emitted_order g emitted d r :
  (forall i n m, emitted !! i = Some n -> m ∈ drop i emitted ->
     hasEdge g n m = false) ->
  hasEdge g d r = true -> d ∈ emitted -> r ∈ emitted ->
  exists i j, (i < j)%nat /\ emitted !! i = Some r /\ emitted !! j = Some d.
Proof.
  intros Hord Hedge [j Hj]%list_elem_of_lookup [i Hi]%list_elem_of_lookup.
  exists i, j. split; [|done].
  destruct (Nat.lt_ge_cases i j) as [|Hge]; [done|]. exfalso.
  assert (hasEdge g d r = false) as Hno; [|congruence].
  apply (Hord j); [done|].
  apply (list_elem_of_lookup_2 _ (i - j)). rewrite lookup_drop.
  by replace (j + (i - j))%nat with i by lia.
Qed.

End SortLoop.

(** ** Node numbers *)

Section NodeNumbers.
Context {T : Type} `{EqDecision T}.
Import DependencyGraph.
Variable lessThan : T -> T -> bool.
Hypothesis lessThan_total :
  forall a b, a <> b -> lessThan a b = true \/ lessThan b a = true.

(** With an [operator<] that tells different nodes apart, the map built by
    [nodeNumbers] holds every node with its position. *)
Lemma nodeNumbersByValues_perm nodes :
  NoDup nodes ->
  (nodeNumbersByValues lessThan nodes).*1 ≡ₚ nodes
  /\ (nodeNumbersByValues lessThan nodes).*2 ≡ₚ seq 0 (length nodes).
Proof.
  unfold nodeNumbersByValues.
  induction nodes as [|x nodes IH] using rev_ind; intros Hnd; [done|].
  apply NoDup_app in Hnd as (Hnd & Hx & _).
  destruct (IH Hnd) as [IH1 IH2]. clear IH.
  rewrite foldl_app. simpl. set (m := foldl _ [] nodes) in *.
  assert (Hlen : length m = length nodes).
  { apply Permutation_length in IH1. by rewrite length_fmap in IH1. }
  assert (Hfresh : QMap.insert lessThan x (length m) m ≡ₚ (x, length m) :: m).
  { apply insert_fresh, Forall_forall. intros [k v] Hkv. simpl.
    assert (k ∈ nodes) as Hk.
    { rewrite <- IH1. apply list_elem_of_fmap. by exists (k, v). }
    apply lessThan_total. intros ->. apply (Hx k); [done|]. by apply list_elem_of_here. }
  rewrite Hfresh. simpl. rewrite IH1, IH2, Hlen, length_app. simpl.
  split; [by rewrite Permutation_app_comm|].
  rewrite Nat.add_1_r, seq_S. simpl. by rewrite Permutation_app_comm.
Qed.

End NodeNumbers.

Section SortFacts.
Context {T : Type} `{EqDecision T}.
Import DependencyGraph EdgeMatrix GraphSpec.
Variable lessThan : T -> T -> bool.
Variable sortIndependent : bool.
Hypothesis lessThan_total :
  sortIndependent = true ->
  forall a b, a <> b -> lessThan a b = true \/ lessThan b a = true.

Implicit Types g : DependencyGraph T.

Lemma nodeNumbers_perm nodes :
  NoDup nodes ->
  nodeNumbers lessThan sortIndependent nodes ≡ₚ seq 0 (length nodes).
Proof.
  intros Hnd. unfold nodeNumbers. destruct sortIndependent; [|done].
  by apply nodeNumbersByValues_perm; [apply lessThan_total|].
Qed.

(** A successful fresh sort puts the required node of every edge of the
    matrix strictly before the dependent one. *)
Lemma freshSort_order g l d r :
  Inv lessThan sortIndependent g ->
  freshSort lessThan sortIndependent g = Some (l, []) ->
  hasEdge g d r = true ->
  exists x y, m_nodes g !! r = Some x /\ m_nodes g !! d = Some y /\ before x y l.
Proof.
  intros [Hnd Hsq Hsize _] Hfresh Hedge. unfold freshSort in Hfresh.
  pose proof (nodeNumbers_perm _ Hnd) as Hperm.
  set (rn := nodeNumbers lessThan sortIndependent (m_nodes g)) in *.
  destruct (sortLoop_total (length rn) g rn []) as
    (emitted & out & rest & Hloop & Hp & Hout & Hord); [|done|].
  { rewrite Hperm. apply Forall_forall. intros n Hn%elem_of_seq. lia. }
  rewrite Hloop in Hfresh. injection Hfresh as <- ->.
  rewrite app_nil_r in Hp. rewrite Hperm in Hp.
  apply hasEdge_range in Hedge as Hrange.
  destruct (emitted_order g emitted d r) as (i & j & Hij & Hi & Hj); try done.
  - intros i n m Hi Hm. apply (Hord i); [done|]. by rewrite app_nil_r.
  - rewrite <- Hp. apply elem_of_seq. lia.
  - rewrite <- Hp. apply elem_of_seq. lia.
  - destruct (Forall2_lookup_l _ _ _ _ _ Hout Hi) as (x & Hx & Hnx).
    destruct (Forall2_lookup_l _ _ _ _ _ Hout Hj) as (y & Hy & Hny).
    exists x, y. split; [done|]. split; [done|]. by exists i, j.
Qed.

Lemma sort_fresh g l g' :
  Inv lessThan sortIndependent g ->
  sort lessThan sortIndependent g = Some (l, g') ->
  freshSort lessThan sortIndependent g = Some (l, [])
  /\ m_nodes g' = m_nodes g /\ m_edges g' = m_edges g
  /\ Inv lessThan sortIndependent g'.
Proof.
  intros HI Hsort. unfold sort in Hsort.
  destruct (m_cacheIsValid g) eqn:Hvalid.
  - injection Hsort as <- <-. split; [by apply (inv_cache _ _ _ HI)|done].
  - fold (freshSort lessThan sortIndependent g) in Hsort.
    destruct (freshSort lessThan sortIndependent g) as [[cache rest]|] eqn:Hfresh;
      [|done].
    simpl in Hsort. destruct rest; [|done]. injection Hsort as <- <-.
    split; [done|]. split; [done|]. split; [done|].
    destruct HI as [Hnd Hsq Hsize _]. split; try done.
    intros _. simpl. unfold freshSort in *. simpl.
    by erewrite sortLoop_ext.
Qed.

Lemma addNode_Inv node g g' :
  Inv lessThan sortIndependent g -> addNode node g = Some g' ->
  Inv lessThan sortIndependent g'
  /\ m_nodes g' = m_nodes g ++ [node] /\ m_edges g' = m_edges g.
Proof.
  intros [Hnd Hsq Hsize _] Hadd. unfold addNode in Hadd.
  destruct (QList.contains _ _) eqn:Hc; [done|]. injection Hadd as <-.
  apply contains_false in Hc. split; [|done]. split; simpl; try done.
  - apply NoDup_app. split; [done|]. split; [|apply NoDup_singleton].
    intros x Hx ->%list_elem_of_singleton. done.
  - rewrite length_app. lia.
Qed.

Lemma addEdge_Inv d r g g' :
  Inv lessThan sortIndependent g -> addEdge d r g = Some g' ->
  exists di ri,
    m_nodes g !! di = Some d /\ m_nodes g !! ri = Some r
    /\ Inv lessThan sortIndependent g' /\ m_nodes g' = m_nodes g
    /\ forall d' r', bit (m_edges g') d' r'
         = if decide (d' = di /\ r' = ri) then true else bit (m_edges g) d' r'.
Proof.
  intros [Hnd Hsq Hsize _] Hadd. unfold addEdge in Hadd.
  destruct (QList.contains _ d) eqn:Hd; [|done].
  destruct (QList.contains _ r) eqn:Hr; [|done]. simpl in Hadd.
  apply contains_true in Hd, Hr.
  destruct (indexOf_elem _ _ Hd) as (di & Edi & Hdi).
  destruct (indexOf_elem _ _ Hr) as (ri & Eri & Hri).
  rewrite Edi, Eri, !Nat2Z.id in Hadd.
  fold (grow (Nat.max di ri + 1) (m_edges g)) in Hadd. injection Hadd as <-.
  apply lookup_lt_Some in Hdi as Hdi', Hri as Hri'.
  pose proof (grow_length (Nat.max di ri + 1) (m_edges g)) as Hlen.
  pose proof (grow_Square (Nat.max di ri + 1) _ Hsq) as Hsq'.
  exists di, ri. split; [done|]. split; [done|]. split; [|split; [done|]]; simpl.
  - split; simpl; try done.
    + by apply alter_setBit_Square.
    + rewrite length_alter, Hlen. lia.
  - intros d' r'. rewrite alter_setBit_bit by (done || lia).
    by rewrite grow_bit.
Qed.

End SortFacts.

(** ** Sequences of calls on a [DependencyGraph] *)

Section Calls.
Context {T : Type} `{EqDecision T}.
Import DependencyGraph EdgeMatrix GraphSpec.
Variable lessThan : T -> T -> bool.
Variable sortIndependent : bool.
Hypothesis lessThan_total :
  sortIndependent = true ->
  forall a b, a <> b -> lessThan a b = true \/ lessThan b a = true.

Implicit Types g : DependencyGraph T.
Abbreviation Inv := (Inv lessThan sortIndependent).
Abbreviation call := (call lessThan sortIndependent).
Abbreviation run := (run lessThan sortIndependent).

Lemma hasEdge_edges g g' d r :
  m_edges g = m_edges g' -> hasEdge g d r = hasEdge g' d r.
Proof. intros He. unfold hasEdge. by rewrite He. Qed.

Lemma empty_Inv : Inv empty.
Proof. split; simpl; [constructor|constructor|done|done]. Qed.

Lemma Recorded_index g d r :
  Recorded g d r ->
  exists di ri, m_nodes g !! di = Some d /\ m_nodes g !! ri = Some r
    /\ hasEdge g di ri = true.
Proof.
  intros (Hd & Hr & Hedge).
  destruct (indexOf_elem _ _ Hd) as (di & Edi & Hdi).
  destruct (indexOf_elem _ _ Hr) as (ri & Eri & Hri).
  rewrite Edi, Eri, !Nat2Z.id in Hedge. by exists di, ri.
Qed.

Lemma index_Recorded g d r di ri :
  NoDup (m_nodes g) ->
  m_nodes g !! di = Some d -> m_nodes g !! ri = Some r ->
  hasEdge g di ri = true -> Recorded g d r.
Proof.
  intros Hnd Hdi Hri Hedge.
  split; [by eapply list_elem_of_lookup_2|].
  split; [by eapply list_elem_of_lookup_2|].
  by rewrite (indexOf_NoDup _ _ _ Hnd Hdi), (indexOf_NoDup _ _ _ Hnd Hri), !Nat2Z.id.
Qed.

Lemma call_Inv (E : T -> T -> Prop) c g g' :
  Inv g -> (forall d r, E d r -> Recorded g d r) ->
  call c g = Some g' ->
  Inv g' /\ (forall d r, E d r \/ c = AddEdge d r -> Recorded g' d r).
Proof.
  intros HI HE Hcall. destruct c as [node|d0 r0|]; simpl in Hcall.
  - destruct (addNode_Inv _ _ _ _ _ HI Hcall) as (HI' & Hn & He).
    split; [done|]. intros d r [Hdr|?]; [|done].
    destruct (HE _ _ Hdr) as (Hd & Hr & Hedge).
    unfold Recorded. rewrite Hn, !elem_of_app, !indexOf_app by done.
    rewrite <- (hasEdge_edges g g') by done. auto.
  - destruct (addEdge_Inv _ _ _ _ _ _ HI Hcall)
      as (di & ri & Hdi & Hri & HI' & Hn & Hbit).
    split; [done|].
    assert (Hnew : forall d' r', hasEdge g d' r' = true \/ (d' = di /\ r' = ri) ->
                                  hasEdge g' d' r' = true).
    { intros d' r' Hor. rewrite hasEdge_bit by apply HI'. rewrite Hbit.
      case_decide as Hdec; [done|]. destruct Hor as [Hold|?]; [|done].
      by rewrite <- hasEdge_bit by apply HI. }
    intros d r [Hdr|[= <- <-]].
    + destruct (Recorded_index _ _ _ (HE _ _ Hdr)) as (di' & ri' & ? & ? & ?).
      apply (index_Recorded g' d r di' ri'); [apply HI'|by rewrite Hn..|].
      apply Hnew. by left.
    + apply (index_Recorded g' d0 r0 di ri); [apply HI'|by rewrite Hn..|].
      apply Hnew. by right.
  - destruct (sort lessThan sortIndependent g) as [[l g'']|] eqn:Hsort; [|done].
    simpl in Hcall. injection Hcall as ->.
    destruct (sort_fresh _ _ _ _ _ HI Hsort) as (_ & Hn & He & HI').
    split; [done|]. intros d r [Hdr|?]; [|done].
    destruct (HE _ _ Hdr) as (Hd & Hr & Hedge).
    unfold Recorded. rewrite Hn. rewrite <- (hasEdge_edges g g') by done. auto.
Qed.

Lemma run_Inv (E : T -> T -> Prop) calls g g' :
  Inv g -> (forall d r, E d r -> Recorded g d r) ->
  run calls g = Some g' ->
  Inv g' /\ (forall d r, E d r \/ AddEdge d r ∈ calls -> Recorded g' d r).
Proof.
  unfold DependencyGraph.run.
  revert E g. induction calls as [|c calls IH]; intros E g HI HE Hrun; simpl in Hrun.
  - injection Hrun as <-. split; [done|]. intros d r [?|[]%elem_of_nil]; auto.
  - destruct (call c g) as [g1|] eqn:Hcall; [|done]. simpl in Hrun.
    destruct (call_Inv E _ _ _ HI HE Hcall) as [HI1 HE1].
    destruct (IH (fun d r => E d r \/ c = AddEdge d r) _ HI1 HE1 Hrun) as [HI' HE'].
    split; [done|]. intros d r [?|[Hc|?]%elem_of_cons]; apply HE'; auto.
Qed.

(** The property for the class itself, with or without [sortIndependent]. *)
Lemma DependencyGraph_sort_order calls g l g' d r :
  run calls empty = Some g ->
  sort lessThan sortIndependent g = Some (l, g') ->
  AddEdge d r ∈ calls ->
  before r d l.
Proof.
  intros Hrun Hsort Hin.
  assert (HE0 : forall d r : T, False -> Recorded (@empty T) d r) by done.
  destruct (run_Inv (fun _ _ => False) _ _ _ empty_Inv HE0 Hrun) as [HI HE].
  destruct (sort_fresh _ _ _ _ _ HI Hsort) as (Hfresh & _).
  destruct (Recorded_index _ _ _ (HE d r (or_intror Hin)))
    as (di & ri & Hdi & Hri & Hedge).
  destruct (freshSort_order _ _ lessThan_total _ _ _ _ HI Hfresh Hedge)
    as (x & y & Hx & Hy & Hbefore).
  congruence.
Qed.

End Calls.

(** ** The wrappers: one slave node per node *)

Section Wrapper.
Context {T S : Type} `{EqDecision T} `{EqDecision S}.
Import DependencyGraph EdgeMatrix GraphSpec WrapperSpec.
Variable lessThan : S -> S -> bool.
Variable decode : S -> Z.
Hypothesis lessThan_total :
  forall a b, a <> b -> lessThan a b = true \/ lessThan b a = true.

Abbreviation Wrapped := (Wrapped (T:=T) lessThan decode).

Lemma wrapped_empty : Wrapped [] empty.
Proof.
  split; [apply empty_Inv|constructor|done|].
  intros i s Hi. simpl in Hi. by rewrite lookup_nil in Hi.
Qed.

Lemma wrapped_addNode nodes slave slave' node s :
  Wrapped nodes slave -> node ∉ nodes ->
  decode s = Z.of_nat (length nodes) ->
  addNode s slave = Some slave' ->
  Wrapped (nodes ++ [node]) slave'
  /\ forall d r, WRecorded nodes slave d r -> WRecorded (nodes ++ [node]) slave' d r.
Proof.
  intros [HI Hnd Hlen Hdec] Hnode Hs Hadd.
  destruct (addNode_Inv _ _ _ _ _ HI Hadd) as (HI' & Hn & He). split.
  - split; [done| | |].
    + apply NoDup_app. split; [done|]. split; [|apply NoDup_singleton].
      intros x Hx ->%list_elem_of_singleton. done.
    + rewrite Hn, !length_app, Hlen. done.
    + intros i s' Hi. rewrite Hn in Hi.
      apply lookup_app_Some in Hi as [Hi|[Hge Hi]]; [by apply Hdec|].
      apply list_lookup_singleton_Some in Hi as [Hi <-].
      rewrite Hs. f_equal. lia.
  - intros d r (di & ri & Hdi & Hri & Hedge). exists di, ri.
    split; [by apply lookup_app_l_Some|]. split; [by apply lookup_app_l_Some|].
    by rewrite <- (hasEdge_edges slave slave').
Qed.

Lemma wrapped_addEdge nodes slave slave' d r sd sr di ri :
  Wrapped nodes slave ->
  nodes !! di = Some d -> nodes !! ri = Some r ->
  decode sd = Z.of_nat di -> decode sr = Z.of_nat ri ->
  addEdge sd sr slave = Some slave' ->
  Wrapped nodes slave'
  /\ forall d' r', WRecorded nodes slave d' r' \/ (d' = d /\ r' = r) ->
       WRecorded nodes slave' d' r'.
Proof.
  intros [HI Hnd Hlen Hdec] Hdi Hri Hsd Hsr Hadd.
  destruct (addEdge_Inv _ _ _ _ _ _ HI Hadd)
    as (di' & ri' & Hdi' & Hri' & HI' & Hn & Hbit).
  assert (di' = di) as -> by (apply Hdec in Hdi'; lia).
  assert (ri' = ri) as -> by (apply Hdec in Hri'; lia).
  split.
  - split; [done|done|by rewrite Hn|]. intros i s Hi. rewrite Hn in Hi. by apply Hdec.
  - assert (Hnew : forall d' r', hasEdge slave d' r' = true \/ (d' = di /\ r' = ri) ->
                                  hasEdge slave' d' r' = true).
    { intros d' r' Hor. rewrite hasEdge_bit by apply HI'. rewrite Hbit.
      case_decide as Hdec'; [done|]. destruct Hor as [Hold|?]; [|done].
      by rewrite <- hasEdge_bit by apply HI. }
    intros d' r' [(di' & ri' & ? & ? & ?)|[-> ->]].
    + exists di', ri'. split; [done|]. split; [done|]. apply Hnew. by left.
    + exists di, ri. split; [done|]. split; [done|]. apply Hnew. by right.
Qed.

Lemma wrapped_sort nodes slave ls slave' retv :
  Wrapped nodes slave ->
  sort lessThan true slave = Some (ls, slave') ->
  mapM (fun s => QList.at_ nodes (decode s)) ls = Some retv ->
  Wrapped nodes slave'
  /\ forall d r, WRecorded nodes slave d r ->
       before r d retv /\ WRecorded nodes slave' d r.
Proof.
  intros [HI Hnd Hlen Hdec] Hsort Hmap.
  destruct (sort_fresh _ _ _ _ _ HI Hsort) as (Hfresh & Hn & He & HI').
  split.
  - split; [done|done|by rewrite Hn|]. intros i s Hi. rewrite Hn in Hi. by apply Hdec.
  - intros d r (di & ri & Hdi & Hri & Hedge). split.
    + destruct (freshSort_order lessThan true (fun _ => lessThan_total)
                  _ _ _ _ HI Hfresh Hedge)
        as (x & y & Hx & Hy & (i & j & Hij & Hi & Hj)).
      apply mapM_Some_1 in Hmap.
      destruct (Forall2_lookup_l _ _ _ _ _ Hmap Hi) as (a & Ha & Hxa).
      destruct (Forall2_lookup_l _ _ _ _ _ Hmap Hj) as (b & Hb & Hyb).
      simpl in Hxa, Hyb. unfold QList.at_ in Hxa, Hyb.
      rewrite (Hdec _ _ Hx) in Hxa. rewrite (Hdec _ _ Hy) in Hyb.
      destruct (Z.ltb_spec (Z.of_nat ri) 0); [lia|].
      destruct (Z.ltb_spec (Z.of_nat di) 0); [lia|].
      rewrite Nat2Z.id in Hxa, Hyb.
      exists i, j. split; [done|]. split; congruence.
    + exists di, ri. split; [done|]. split; [done|].
      by rewrite <- (hasEdge_edges slave slave').
Qed.

End Wrapper.

(** A run of calls keeps what every single call keeps, and records the
    edges it adds. *)
Section WrapperRun.
Context {W C T : Type}.
Variable call : C -> W -> option W.
Variable Good : W -> Prop.
Variable Edge : W -> T -> T -> Prop.
Variable adds : C -> T -> T -> Prop.
Hypothesis call_step : forall c w w',
  Good w -> call c w = Some w' ->
  Good w' /\ forall d r, Edge w d r \/ adds c d r -> Edge w' d r.

Lemma runCalls_step calls w w' :
  Good w -> runCalls call calls w = Some w' ->
  Good w' /\ forall d r, Edge w d r \/ (exists c, c ∈ calls /\ adds c d r) -> Edge w' d r.
Proof.
  revert w. induction calls as [|c calls IH]; intros w Hw Hrun; simpl in Hrun.
  - injection Hrun as <-. split; [done|].
    intros d r [?|(c & []%elem_of_nil & _)]. done.
  - destruct (call c w) as [w1|] eqn:Hcall; [|done]. simpl in Hrun.
    destruct (call_step _ _ _ Hw Hcall) as [Hw1 HE1].
    destruct (IH _ Hw1 Hrun) as [Hw' HE']. split; [done|].
    intros d r [?|(c' & [->|?]%elem_of_cons & ?)]; apply HE'; eauto.
Qed.

End WrapperRun.

Lemma Z_ltb_total (a b : Z) : a <> b -> (a <? b) = true \/ (b <? a) = true.
Proof. intros Hne. rewrite !Z.ltb_lt. lia. Qed.

Lemma qpair_lessThan_total (a b : Z * Z) :
  a <> b -> qpair_lessThan a b = true \/ qpair_lessThan b a = true.
Proof.
  destruct a as [a1 a2], b as [b1 b2]. intros Hne. unfold qpair_lessThan. simpl.
  destruct (Z.ltb_spec a1 b1); [by left|]. destruct (Z.ltb_spec b1 a1); [by right|].
  simpl. assert (a1 = b1) as -> by lia.
  rewrite !Z.ltb_lt. assert (a2 <> b2) by congruence. lia.
Qed.

(** ** The four wrapper classes *)

Section Fifo.
Context {T : Type} `{EqDecision T}.
Import FifoDependencyGraph WrapperSpec.

Lemma fifo_call_step (c : Call T) w w' :
  fifoGood w -> call c w = Some w' ->
  fifoGood w'
  /\ forall d r, WRecorded (m_nodes w) (m_slave w) d r \/ c = AddEdge d r ->
       WRecorded (m_nodes w') (m_slave w') d r.
Proof.
  unfold fifoGood. intros Hw Hcall. destruct c as [node|d0 r0|]; simpl in Hcall.
  - unfold addNode in Hcall.
    destruct (QList.contains _ _) eqn:Hc; [done|]. apply contains_false in Hc.
    destruct (DependencyGraph.addNode _ _) as [slave|] eqn:Hadd; [|done].
    injection Hcall as <-. simpl.
    match type of Hadd with DependencyGraph.addNode ?s _ = _ =>
      assert (Hs : (fun i : Z => i) s = Z.of_nat (length (m_nodes w)))
        by (unfold QList.count; simpl; lia)
    end.
    destruct (wrapped_addNode Z.ltb (fun i : Z => i) _ _ _ _ _ Hw Hc Hs Hadd) as [Hw' HE].
    split; [done|]. intros d r [?|?]; [auto|done].
  - unfold addEdge in Hcall.
    destruct (QList.contains _ d0) eqn:Hd; [|done].
    destruct (QList.contains _ r0) eqn:Hr; [|done]. simpl in Hcall.
    apply contains_true in Hd, Hr.
    destruct (indexOf_elem _ _ Hd) as (di & Edi & Hdi).
    destruct (indexOf_elem _ _ Hr) as (ri & Eri & Hri).
    destruct (DependencyGraph.addEdge _ _ _) as [slave|] eqn:Hadd; [|done].
    injection Hcall as <-. simpl.
    match type of Hadd with DependencyGraph.addEdge ?sd ?sr _ = _ =>
      assert (Hsd : (fun i : Z => i) sd = Z.of_nat di) by (simpl; lia);
      assert (Hsr : (fun i : Z => i) sr = Z.of_nat ri) by (simpl; lia)
    end.
    destruct (wrapped_addEdge Z.ltb (fun i : Z => i) _ _ _ _ _ _ _ di ri Hw Hdi Hri Hsd Hsr Hadd)
      as [Hw' HE].
    split; [done|]. intros d r [?|[= <- <-]]; apply HE; auto.
  - unfold sort in Hcall.
    destruct (DependencyGraph.sort _ _ _) as [[ls slave]|] eqn:Hsort; [|done].
    simpl in Hcall. destruct (mapM _ ls) as [retv|] eqn:Hmap; [|done].
    injection Hcall as <-. simpl.
    destruct (wrapped_sort Z.ltb (fun i : Z => i) Z_ltb_total _ _ _ _ _ Hw Hsort Hmap) as [Hw' HE].
    split; [done|]. intros d r [?|?]; [by apply HE|done].
Qed.

Lemma fifo_sort_order (calls : list (Call T)) w l w' d r :
  run calls empty = Some w -> sort w = Some (l, w') ->
  AddEdge d r ∈ calls -> before r d l.
Proof.
  intros Hrun Hsort Hin.
  assert (H0 : fifoGood (T:=T) empty) by apply wrapped_empty.
  destruct (runCalls_step call (fifoGood (T:=T))
              (fun w => WRecorded (m_nodes w) (m_slave w))
              (fun c d r => c = AddEdge d r) fifo_call_step _ _ _ H0 Hrun)
    as [Hw HE].
  unfold sort in Hsort.
  destruct (DependencyGraph.sort _ _ _) as [[ls slave]|] eqn:Hs; [|done].
  simpl in Hsort. destruct (mapM _ ls) as [retv|] eqn:Hmap; [|done].
  injection Hsort as <- <-.
  destruct (wrapped_sort Z.ltb (fun i : Z => i) Z_ltb_total _ _ _ _ _ Hw Hs Hmap) as [_ HE'].
  apply HE', HE. right. by exists (AddEdge d r).
Qed.

End Fifo.

Section Lifo.
Context {T : Type} `{EqDecision T}.
Import LifoDependencyGraph WrapperSpec.

Lemma lifo_call_step (c : Call T) w w' :
  lifoGood w -> call c w = Some w' ->
  lifoGood w'
  /\ forall d r, WRecorded (m_nodes w) (m_slave w) d r \/ c = AddEdge d r ->
       WRecorded (m_nodes w') (m_slave w') d r.
Proof.
  unfold lifoGood. intros Hw Hcall. destruct c as [node|d0 r0|]; simpl in Hcall.
  - unfold addNode in Hcall.
    destruct (QList.contains _ _) eqn:Hc; [done|]. apply contains_false in Hc.
    destruct (DependencyGraph.addNode _ _) as [slave|] eqn:Hadd; [|done].
    injection Hcall as <-. simpl.
    match type of Hadd with DependencyGraph.addNode ?s _ = _ =>
      assert (Hs : (fun i : Z => - i) s = Z.of_nat (length (m_nodes w)))
        by (unfold QList.count; simpl; lia)
    end.
    destruct (wrapped_addNode Z.ltb (fun i : Z => - i) _ _ _ _ _ Hw Hc Hs Hadd) as [Hw' HE].
    split; [done|]. intros d r [?|?]; [auto|done].
  - unfold addEdge in Hcall.
    destruct (QList.contains _ d0) eqn:Hd; [|done].
    destruct (QList.contains _ r0) eqn:Hr; [|done]. simpl in Hcall.
    apply contains_true in Hd, Hr.
    destruct (indexOf_elem _ _ Hd) as (di & Edi & Hdi).
    destruct (indexOf_elem _ _ Hr) as (ri & Eri & Hri).
    destruct (DependencyGraph.addEdge _ _ _) as [slave|] eqn:Hadd; [|done].
    injection Hcall as <-. simpl.
    match type of Hadd with DependencyGraph.addEdge ?sd ?sr _ = _ =>
      assert (Hsd : (fun i : Z => - i) sd = Z.of_nat di) by (simpl; lia);
      assert (Hsr : (fun i : Z => - i) sr = Z.of_nat ri) by (simpl; lia)
    end.
    destruct (wrapped_addEdge Z.ltb (fun i : Z => - i) _ _ _ _ _ _ _ di ri Hw Hdi Hri Hsd Hsr Hadd)
      as [Hw' HE].
    split; [done|]. intros d r [?|[= <- <-]]; apply HE; auto.
  - unfold sort in Hcall.
    destruct (DependencyGraph.sort _ _ _) as [[ls slave]|] eqn:Hsort; [|done].
    simpl in Hcall. destruct (mapM _ ls) as [retv|] eqn:Hmap; [|done].
    injection Hcall as <-. simpl.
    destruct (wrapped_sort Z.ltb (fun i : Z => - i) Z_ltb_total _ _ _ _ _ Hw Hsort Hmap) as [Hw' HE].
    split; [done|]. intros d r [?|?]; [by apply HE|done].
Qed.

Lemma lifo_sort_order (calls : list (Call T)) w l w' d r :
  run calls empty = Some w -> sort w = Some (l, w') ->
  AddEdge d r ∈ calls -> before r d l.
Proof.
  intros Hrun Hsort Hin.
  assert (H0 : lifoGood (T:=T) empty) by apply wrapped_empty.
  destruct (runCalls_step call (lifoGood (T:=T))
              (fun w => WRecorded (m_nodes w) (m_slave w))
              (fun c d r => c = AddEdge d r) lifo_call_step _ _ _ H0 Hrun)
    as [Hw HE].
  unfold sort in Hsort.
  destruct (DependencyGraph.sort _ _ _) as [[ls slave]|] eqn:Hs; [|done].
  simpl in Hsort. destruct (mapM _ ls) as [retv|] eqn:Hmap; [|done].
  injection Hsort as <- <-.
  destruct (wrapped_sort Z.ltb (fun i : Z => - i) Z_ltb_total _ _ _ _ _ Hw Hs Hmap) as [_ HE'].
  apply HE', HE. right. by exists (AddEdge d r).
Qed.

End Lifo.

Section StripedFifo.
Context {T : Type} `{EqDecision T}.
Import StripedFifoDependencyGraph WrapperSpec.

Lemma stripedFifo_call_step (c : Call T) w w' :
  stripedFifoGood w -> call c w = Some w' ->
  stripedFifoGood w'
  /\ forall d r, WRecorded (m_nodes w) (m_slave w) d r \/ c = AddEdge d r ->
       WRecorded (m_nodes w') (m_slave w') d r.
Proof.
  unfold stripedFifoGood. intros Hw Hcall. destruct c as [node stripe|d0 r0|]; simpl in Hcall.
  - unfold addNode in Hcall.
    destruct (QList.contains _ _) eqn:Hc; [done|]. apply contains_false in Hc.
    destruct (DependencyGraph.addNode _ _) as [slave|] eqn:Hadd; [|done].
    injection Hcall as <-. simpl.
    match type of Hadd with DependencyGraph.addNode ?s _ = _ =>
      assert (Hs : (fun i : Z * Z => i.2) s = Z.of_nat (length (m_nodes w)))
        by (unfold QList.count; simpl; lia)
    end.
    destruct (wrapped_addNode qpair_lessThan (fun i : Z * Z => i.2) _ _ _ _ _ Hw Hc Hs Hadd) as [Hw' HE].
    split; [done|]. intros d r [?|?]; [auto|done].
  - unfold addEdge in Hcall.
    destruct (QList.contains _ d0) eqn:Hd; [|done].
    destruct (QList.contains _ r0) eqn:Hr; [|done]. simpl in Hcall.
    apply contains_true in Hd, Hr.
    destruct (indexOf_elem _ _ Hd) as (di & Edi & Hdi).
    destruct (indexOf_elem _ _ Hr) as (ri & Eri & Hri).
    destruct (QList.at_ (m_stripes w) (QList.indexOf (m_nodes w) d0))
      as [dStripe|] eqn:HdS; cbn [mbind option_bind] in Hcall; [|done].
    destruct (QList.at_ (m_stripes w) (QList.indexOf (m_nodes w) r0))
      as [rStripe|] eqn:HrS; cbn [mbind option_bind] in Hcall; [|done].
    destruct (DependencyGraph.addEdge _ _ _) as [slave|] eqn:Hadd; [|done].
    injection Hcall as <-. simpl.
    match type of Hadd with DependencyGraph.addEdge ?sd ?sr _ = _ =>
      assert (Hsd : (fun i : Z * Z => i.2) sd = Z.of_nat di) by (simpl; lia);
      assert (Hsr : (fun i : Z * Z => i.2) sr = Z.of_nat ri) by (simpl; lia)
    end.
    destruct (wrapped_addEdge qpair_lessThan (fun i : Z * Z => i.2) _ _ _ _ _ _ _ di ri Hw Hdi Hri Hsd Hsr Hadd)
      as [Hw' HE].
    split; [done|]. intros d r [?|[= <- <-]]; apply HE; auto.
  - unfold sort in Hcall.
    destruct (DependencyGraph.sort _ _ _) as [[ls slave]|] eqn:Hsort; [|done].
    simpl in Hcall. destruct (mapM _ ls) as [retv|] eqn:Hmap; [|done].
    injection Hcall as <-. simpl.
    destruct (wrapped_sort qpair_lessThan (fun i : Z * Z => i.2) qpair_lessThan_total _ _ _ _ _ Hw Hsort Hmap) as [Hw' HE].
    split; [done|]. intros d r [?|?]; [by apply HE|done].
Qed.

Lemma stripedFifo_sort_order (calls : list (Call T)) w l w' d r :
  run calls empty = Some w -> sort w = Some (l, w') ->
  AddEdge d r ∈ calls -> before r d l.
Proof.
  intros Hrun Hsort Hin.
  assert (H0 : stripedFifoGood (T:=T) empty) by apply wrapped_empty.
  destruct (runCalls_step call (stripedFifoGood (T:=T))
              (fun w => WRecorded (m_nodes w) (m_slave w))
              (fun c d r => c = AddEdge d r) stripedFifo_call_step _ _ _ H0 Hrun)
    as [Hw HE].
  unfold sort in Hsort.
  destruct (DependencyGraph.sort _ _ _) as [[ls slave]|] eqn:Hs; [|done].
  simpl in Hsort. destruct (mapM _ ls) as [retv|] eqn:Hmap; [|done].
  injection Hsort as <- <-.
  destruct (wrapped_sort qpair_lessThan (fun i : Z * Z => i.2) qpair_lessThan_total _ _ _ _ _ Hw Hs Hmap) as [_ HE'].
  apply HE', HE. right. by exists (AddEdge d r).
Qed.

End StripedFifo.

Section StripedLifo.
Context {T : Type} `{EqDecision T}.
Import StripedLifoDependencyGraph WrapperSpec.

Lemma stripedLifo_call_step (c : Call T) w w' :
  stripedLifoGood w -> call c w = Some w' ->
  stripedLifoGood w'
  /\ forall d r, WRecorded (m_nodes w) (m_slave w) d r \/ c = AddEdge d r ->
       WRecorded (m_nodes w') (m_slave w') d r.
Proof.
  unfold stripedLifoGood. intros Hw Hcall. destruct c as [node stripe|d0 r0|]; simpl in Hcall.
  - unfold addNode in Hcall.
    destruct (QList.contains _ _) eqn:Hc; [done|]. apply contains_false in Hc.
    destruct (DependencyGraph.addNode _ _) as [slave|] eqn:Hadd; [|done].
    injection Hcall as <-. simpl.
    match type of Hadd with DependencyGraph.addNode ?s _ = _ =>
      assert (Hs : (fun i : Z * Z => - i.2) s = Z.of_nat (length (m_nodes w)))
        by (unfold QList.count; simpl; lia)
    end.
    destruct (wrapped_addNode qpair_lessThan (fun i : Z * Z => - i.2) _ _ _ _ _ Hw Hc Hs Hadd) as [Hw' HE].
    split; [done|]. intros d r [?|?]; [auto|done].
  - unfold addEdge in Hcall.
    destruct (QList.contains _ d0) eqn:Hd; [|done].
    destruct (QList.contains _ r0) eqn:Hr; [|done]. simpl in Hcall.
    apply contains_true in Hd, Hr.
    destruct (indexOf_elem _ _ Hd) as (di & Edi & Hdi).
    destruct (indexOf_elem _ _ Hr) as (ri & Eri & Hri).
    destruct (QList.at_ (m_stripes w) (QList.indexOf (m_nodes w) d0))
      as [dStripe|] eqn:HdS; cbn [mbind option_bind] in Hcall; [|done].
    destruct (QList.at_ (m_stripes w) (QList.indexOf (m_nodes w) r0))
      as [rStripe|] eqn:HrS; cbn [mbind option_bind] in Hcall; [|done].
    destruct (DependencyGraph.addEdge _ _ _) as [slave|] eqn:Hadd; [|done].
    injection Hcall as <-. simpl.
    match type of Hadd with DependencyGraph.addEdge ?sd ?sr _ = _ =>
      assert (Hsd : (fun i : Z * Z => - i.2) sd = Z.of_nat di) by (simpl; lia);
      assert (Hsr : (fun i : Z * Z => - i.2) sr = Z.of_nat ri) by (simpl; lia)
    end.
    destruct (wrapped_addEdge qpair_lessThan (fun i : Z * Z => - i.2) _ _ _ _ _ _ _ di ri Hw Hdi Hri Hsd Hsr Hadd)
      as [Hw' HE].
    split; [done|]. intros d r [?|[= <- <-]]; apply HE; auto.
  - unfold sort in Hcall.
    destruct (DependencyGraph.sort _ _ _) as [[ls slave]|] eqn:Hsort; [|done].
    simpl in Hcall. destruct (mapM _ ls) as [retv|] eqn:Hmap; [|done].
    injection Hcall as <-. simpl.
    destruct (wrapped_sort qpair_lessThan (fun i : Z * Z => - i.2) qpair_lessThan_total _ _ _ _ _ Hw Hsort Hmap) as [Hw' HE].
    split; [done|]. intros d r [?|?]; [by apply HE|done].
Qed.

Lemma stripedLifo_sort_order (calls : list (Call T)) w l w' d r :
  run calls empty = Some w -> sort w = Some (l, w') ->
  AddEdge d r ∈ calls -> before r d l.
Proof.
  intros Hrun Hsort Hin.
  assert (H0 : stripedLifoGood (T:=T) empty) by apply wrapped_empty.
  destruct (runCalls_step call (stripedLifoGood (T:=T))
              (fun w => WRecorded (m_nodes w) (m_slave w))
              (fun c d r => c = AddEdge d r) stripedLifo_call_step _ _ _ H0 Hrun)
    as [Hw HE].
  unfold sort in Hsort.
  destruct (DependencyGraph.sort _ _ _) as [[ls slave]|] eqn:Hs; [|done].
  simpl in Hsort. destruct (mapM _ ls) as [retv|] eqn:Hmap; [|done].
  injection Hsort as <- <-.
  destruct (wrapped_sort qpair_lessThan (fun i : Z * Z => - i.2) qpair_lessThan_total _ _ _ _ _ Hw Hs Hmap) as [_ HE'].
  apply HE', HE. right. by exists (AddEdge d r).
Qed.

End StripedLifo.

(** ** The topological order of every policy *)

(** C1.  Take any graph object built by a sequence of [addNode], [addEdge]
    and [sort] calls none of which failed an assertion, and a [sort] on it
    that completes.  Then for every [addEdge(dependentNode, requiredNode)] of
    the sequence the required node is in the returned list strictly before
    the dependent node.  This holds for [DependencyGraph] in natural order
    ([sortIndependent = false]) and ordered by value ([sortIndependent =
    true], where [operator<] has to tell different nodes apart, as a total
    order does), and for the FIFO, LIFO, striped FIFO and striped LIFO
    graphs. *)
Theorem sort_required_before_dependent :
  (forall (T : Type) (eqT : EqDecision T) (lessThan : T -> T -> bool)
      (sortIndependent : bool) (calls : list (DependencyGraph.Call T))
      g l g' dependentNode requiredNode,
      (sortIndependent = true ->
       forall a b, a <> b -> lessThan a b = true \/ lessThan b a = true) ->
      DependencyGraph.run lessThan sortIndependent calls DependencyGraph.empty
        = Some g ->
      DependencyGraph.sort lessThan sortIndependent g = Some (l, g') ->
      DependencyGraph.AddEdge dependentNode requiredNode ∈ calls ->
      before requiredNode dependentNode l)
  /\ (forall (T : Type) (eqT : EqDecision T)
        (calls : list (FifoDependencyGraph.Call T))
        g l g' dependentNode requiredNode,
        FifoDependencyGraph.run calls FifoDependencyGraph.empty = Some g ->
        FifoDependencyGraph.sort g = Some (l, g') ->
        FifoDependencyGraph.AddEdge dependentNode requiredNode ∈ calls ->
        before requiredNode dependentNode l)
  /\ (forall (T : Type) (eqT : EqDecision T)
        (calls : list (LifoDependencyGraph.Call T))
        g l g' dependentNode requiredNode,
        LifoDependencyGraph.run calls LifoDependencyGraph.empty = Some g ->
        LifoDependencyGraph.sort g = Some (l, g') ->
        LifoDependencyGraph.AddEdge dependentNode requiredNode ∈ calls ->
        before requiredNode dependentNode l)
  /\ (forall (T : Type) (eqT : EqDecision T)
        (calls : list (StripedFifoDependencyGraph.Call T))
        g l g' dependentNode requiredNode,
        StripedFifoDependencyGraph.run calls StripedFifoDependencyGraph.empty
          = Some g ->
        StripedFifoDependencyGraph.sort g = Some (l, g') ->
        StripedFifoDependencyGraph.AddEdge dependentNode requiredNode ∈ calls ->
        before requiredNode dependentNode l)
  /\ (forall (T : Type) (eqT : EqDecision T)
        (calls : list (StripedLifoDependencyGraph.Call T))
        g l g' dependentNode requiredNode,
        StripedLifoDependencyGraph.run calls StripedLifoDependencyGraph.empty
          = Some g ->
        StripedLifoDependencyGraph.sort g = Some (l, g') ->
        StripedLifoDependencyGraph.AddEdge dependentNode requiredNode ∈ calls ->
        before requiredNode dependentNode l).
Proof.
  split; [|split; [|split; [|split]]]; intros T eqT.
  - intros lessThan sortIndependent calls g l g' d r Htotal Hrun Hsort Hin.
    by eapply DependencyGraph_sort_order.
  - intros calls g l g' d r. apply fifo_sort_order.
  - intros calls g l g' d r. apply lifo_sort_order.
  - intros calls g l g' d r. apply stripedFifo_sort_order.
  - intros calls g l g' d r. apply stripedLifo_sort_order.
Qed.

(** Three nodes added as 3, 1, 2, with 3 requiring 1 and 2, and 2 requiring
    1: in each of the six kinds of graph, 1 comes out before 3. *)
Lemma sort_required_before_dependent_witness :
  before 1 3 [1; 2; 3]
  /\ before 1 3 [1; 2; 3]
  /\ before 1 3 [1; 2; 3]
  /\ before 1 3 [1; 2; 3]
  /\ before 1 3 [1; 2; 3]
  /\ before 1 3 [1; 2; 3].
Proof.
  destruct sort_required_before_dependent as (HD & HF & HL & HSF & HSL).
  split; [|split; [|split; [|split; [|split]]]].
  - eapply (HD Z _ Z.ltb false
              [DependencyGraph.AddNode 1; DependencyGraph.AddNode 2;
               DependencyGraph.AddNode 3; DependencyGraph.AddEdge 3 1;
               DependencyGraph.AddEdge 2 1; DependencyGraph.AddEdge 3 2]);
      [discriminate | vm_compute; reflexivity | vm_compute; reflexivity | repeat constructor].
  - eapply (HD Z _ Z.ltb true
              [DependencyGraph.AddNode 3; DependencyGraph.AddNode 1;
               DependencyGraph.AddNode 2; DependencyGraph.AddEdge 3 1;
               DependencyGraph.AddEdge 2 1; DependencyGraph.AddEdge 3 2]);
      [intros _; apply Z_ltb_total | vm_compute; reflexivity
      | vm_compute; reflexivity | repeat constructor].
  - eapply (HF Z _
              [FifoDependencyGraph.AddNode 1; FifoDependencyGraph.AddNode 2;
               FifoDependencyGraph.AddNode 3; FifoDependencyGraph.AddEdge 3 1;
               FifoDependencyGraph.AddEdge 2 1; FifoDependencyGraph.AddEdge 3 2]);
      [vm_compute; reflexivity | vm_compute; reflexivity | repeat constructor].
  - eapply (HL Z _
              [LifoDependencyGraph.AddNode 3; LifoDependencyGraph.AddNode 2;
               LifoDependencyGraph.AddNode 1; LifoDependencyGraph.AddEdge 3 1;
               LifoDependencyGraph.AddEdge 2 1; LifoDependencyGraph.AddEdge 3 2]);
      [vm_compute; reflexivity | vm_compute; reflexivity | repeat constructor].
  - eapply (HSF Z _
              [StripedFifoDependencyGraph.AddNode 3 7;
               StripedFifoDependencyGraph.AddNode 1 5;
               StripedFifoDependencyGraph.AddNode 2 5;
               StripedFifoDependencyGraph.AddEdge 3 1;
               StripedFifoDependencyGraph.AddEdge 2 1;
               StripedFifoDependencyGraph.AddEdge 3 2]);
      [vm_compute; reflexivity | vm_compute; reflexivity | repeat constructor].
  - eapply (HSL Z _
              [StripedLifoDependencyGraph.AddNode 3 7;
               StripedLifoDependencyGraph.AddNode 2 5;
               StripedLifoDependencyGraph.AddNode 1 5;
               StripedLifoDependencyGraph.AddEdge 3 1;
               StripedLifoDependencyGraph.AddEdge 2 1;
               StripedLifoDependencyGraph.AddEdge 3 2]);
      [vm_compute; reflexivity | vm_compute; reflexivity | repeat constructor].
Defined.

(** * Plugin specs *)

(** ** Results and the heap *)

Section ResultFacts.
Context {A B : Type}.

Lemma bind_Ok (m : Result A) (f : A -> Result B) (b : B) :
  m ≫= f = Ok b <-> exists a, m = Ok a /\ f a = Ok b.
Proof.
  destruct m as [a| |]; simpl; split.
  - intros H. by exists a.
  - by intros (a' & [= <-] & H).
  - done.
  - by intros (a' & ? & _).
  - done.
  - by intros (a' & ? & _).
Qed.

Lemma assert_Ok (c : bool) (u : unit) : assert_ c = Ok u <-> c = true.
Proof. destruct c, u; simpl; split; done. Qed.

End ResultFacts.

(** Splits a successful sequence of binds in hypothesis [H] into its steps. *)
Ltac bind_inv H :=
  repeat match type of H with
         | _ ≫= _ = Ok _ =>
             let a := fresh "a" in
             let Ha := fresh "Hstep" in
             apply bind_Ok in H as (a & Ha & H)
         end.

Section HeapFacts.
Import PluginSpec.
Implicit Types (w : World) (p q : nat) (d : PluginSpecPrivate).

Lemma deref_Ok w p d : deref w p = Ok d <-> heap w !! p = Some d.
Proof. unfold deref. destruct (heap w !! p); split; congruence. Qed.

Lemma deref_not_fuel w p : deref w p <> OutOfFuel.
Proof. unfold deref. by destruct (heap w !! p). Qed.

Lemma heap_modify w p q f :
  heap (modify p f w) !! q
  = if decide (p = q) then f <$> heap w !! q else heap w !! q.
Proof.
  unfold modify. simpl. destruct (decide (p = q)) as [->|Hne].
  - apply lookup_alter_eq.
  - by apply lookup_alter_ne.
Qed.

Lemma heap_modify_eq w p f d :
  heap w !! p = Some d -> heap (modify p f w) !! p = Some (f d).
Proof. intros Hp. rewrite heap_modify, decide_True by done. by rewrite Hp. Qed.

Lemma heap_modify_ne w p q f :
  p <> q -> heap (modify p f w) !! q = heap w !! q.
Proof. intros Hne. by rewrite heap_modify, decide_False. Qed.

Lemma dom_modify w p f : dom (heap (modify p f w)) = dom (heap w).
Proof. unfold modify. simpl. apply dom_alter_L. Qed.

End HeapFacts.

(** ** Unloading a plugin that is not loaded *)

Section Unload.
Import PluginSpec.

(** C10.  [unloadPlugin] on a spec whose [plugin] is null returns at once:
    the world after the call is the world before it, so that no member of
    any spec changes (the state in particular) and no call to the plugin or
    to the loader is made. *)
Theorem unloadPlugin_null_is_noop (env : Env) (this : nat) (w : World)
    (d : PluginSpecPrivate) :
  heap w !! this = Some d ->
  plugin d = None ->
  unloadPlugin env this w = Ok w.
Proof.
  intros Hthis Hplugin. unfold unloadPlugin.
  apply deref_Ok in Hthis. rewrite Hthis. simpl. by rewrite Hplugin.
Qed.

End Unload.

Lemma unloadPlugin_null_is_noop_witness :
  let w := SpecNotions.worldOf [PluginSpec.new] in
  PluginSpec.heap w !! 0%nat = Some PluginSpec.new
  /\ PluginSpec.plugin PluginSpec.new = None
  /\ PluginSpec.unloadPlugin (SpecNotions.exampleEnv true false) 0 w = Ok w.
Proof.
  split; [reflexivity|]. split; [reflexivity|].
  apply (unloadPlugin_null_is_noop _ 0%nat _ PluginSpec.new); reflexivity.
Defined.

(** ** Reading the description file *)

Section Read.
Import PluginSpec SpecNotions.
Implicit Types (d : PluginSpecPrivate) (reader : QXmlStreamReader.QXmlStreamReader).

Lemma sameRuntime_refl d : sameRuntime d d.
Proof. by repeat split. Qed.

Lemma sameRuntime_trans d1 d2 d3 :
  sameRuntime d1 d2 -> sameRuntime d2 d3 -> sameRuntime d1 d3.
Proof. unfold sameRuntime. intros (?&?&?&?&?) (?&?&?&?&?). repeat split; congruence. Qed.

Lemma sameRuntime_reportError err d : sameRuntime d (reportError err d).
Proof. unfold reportError. case_decide; by repeat split. Qed.

Lemma readDependencyEntry_sameRuntime reader d :
  sameRuntime d (readDependencyEntry reader d).2.
Proof.
  unfold readDependencyEntry. case_decide; simpl.
  - apply sameRuntime_reportError.
  - by repeat split.
Qed.

Lemma readDependenciesLoop_sameRuntime rounds reader d :
  sameRuntime d (readDependenciesLoop rounds reader d).2.
Proof.
  revert reader d. induction rounds as [|rounds IH]; intros reader d; simpl.
  - apply sameRuntime_refl.
  - destruct (QXmlStreamReader.atEnd reader); [apply sameRuntime_refl|].
    destruct (QXmlStreamReader.token _); try apply IH.
    destruct (String.eqb _ _); [|apply IH].
    pose proof (readDependencyEntry_sameRuntime (QXmlStreamReader.readNext reader) d) as H.
    destruct (readDependencyEntry _ d) as [reader' d']. simpl in H.
    eapply sameRuntime_trans; [exact H|apply IH].
Qed.

Lemma readPluginSpecLoop_sameRuntime rounds reader d :
  sameRuntime d (readPluginSpecLoop rounds reader d).2.
Proof.
  revert reader d. induction rounds as [|rounds IH]; intros reader d; simpl.
  - apply sameRuntime_refl.
  - destruct (QXmlStreamReader.atEnd reader); [apply sameRuntime_refl|].
    destruct (QXmlStreamReader.token _); try apply IH.
    repeat (destruct (String.eqb _ _)).
    + destruct (QXmlStreamReader.readElementText _) as [text reader'].
      eapply sameRuntime_trans; [|apply IH]. by repeat split.
    + destruct (QXmlStreamReader.readElementText _) as [text reader'].
      eapply sameRuntime_trans; [|apply IH]. by repeat split.
    + unfold readDependencies.
      pose proof (readDependenciesLoop_sameRuntime
                    (S (length (QXmlStreamReader.input (QXmlStreamReader.readNext reader))))
                    (QXmlStreamReader.readNext reader) d) as H.
      destruct (readDependenciesLoop _ _ d) as [reader' d']. simpl in H.
      eapply sameRuntime_trans; [exact H|apply IH].
    + apply IH.
Qed.

Lemma readPluginSpec_sameRuntime reader d :
  sameRuntime d (readPluginSpec reader d).2.
Proof.
  unfold readPluginSpec. cbv zeta. destruct (negb _); cbn [snd].
  - apply sameRuntime_reportError.
  - case_decide; cbn [snd].
    + eapply sameRuntime_trans; [|apply sameRuntime_reportError]. by repeat split.
    + eapply sameRuntime_trans; [|apply readPluginSpecLoop_sameRuntime].
      destruct (isValidVersion _); by repeat split.
Qed.

Lemma readLoop_sameRuntime rounds reader d :
  sameRuntime d (readLoop rounds reader d).2.
Proof.
  revert reader d. induction rounds as [|rounds IH]; intros reader d; simpl.
  - apply sameRuntime_refl.
  - destruct (QXmlStreamReader.atEnd reader); [apply sameRuntime_refl|].
    destruct (QXmlStreamReader.token _); try apply IH.
    pose proof (readPluginSpec_sameRuntime (QXmlStreamReader.readNext reader) d) as H.
    destruct (readPluginSpec _ d) as [reader' d']. simpl in H.
    eapply sameRuntime_trans; [exact H|apply IH].
Qed.

(** When [read] returns true the spec is in state Read, enabled, has no
    plugin and no edges. *)
Lemma read_true file specFileName d d' :
  read file specFileName d = (true, d') ->
  state d' = Read /\ enabled d' = true /\ plugin d' = None
  /\ providesSpecs d' = [] /\ dependencySpecs d' = [].
Proof.
  unfold read. destruct file as [| |absolutePath fileName_ xml]; [done|done|].
  pose proof (readLoop_sameRuntime (S (length xml)) (QXmlStreamReader.start xml)
                (set_fileName fileName_ (set_filePath absolutePath (cleared d))))
    as (Hs & Hp & He & Hpr & Hde).
  destruct (readLoop _ _ _) as [reader d1]. simpl in *.
  destruct (QXmlStreamReader.hasError reader); [done|].
  intros [= <-]. simpl. by repeat split.
Qed.

(** When [read] returns false the state is Invalid and an error is
    recorded. *)
Lemma read_false file specFileName d d' :
  read file specFileName d = (false, d') ->
  state d' = Invalid /\ hasError d' = true.
Proof.
  unfold read. destruct file as [| |absolutePath fileName_ xml].
  - intros [= <-]. unfold reportError. case_decide; by split.
  - intros [= <-]. unfold reportError. case_decide; by split.
  - pose proof (readLoop_sameRuntime (S (length xml)) (QXmlStreamReader.start xml)
                  (set_fileName fileName_ (set_filePath absolutePath (cleared d))))
      as (Hs & _).
    destruct (readLoop _ _ _) as [reader d1]. simpl in *.
    destruct (QXmlStreamReader.hasError reader); [|done].
    intros [= <-]. unfold reportError. case_decide; by split.
Qed.

(** A missing file, an unreadable file, and a document the XML reader
    rejects make [read] fail. *)
Lemma read_fails_on_file_errors specFileName d :
  (read Missing specFileName d).1 = false
  /\ (read Unreadable specFileName d).1 = false
  /\ forall absolutePath fileName_ xml,
       QXmlStreamReader.hasError
         (readLoop (S (length xml)) (QXmlStreamReader.start xml)
            (set_fileName fileName_ (set_filePath absolutePath (cleared d)))).1
         = true ->
       (read (Readable absolutePath fileName_ xml) specFileName d).1 = false.
Proof.
  split; [done|]. split; [done|]. intros absolutePath fileName_ xml. unfold read.
  destruct (readLoop _ _ _) as [reader d1]. simpl. by intros ->.
Qed.

End Read.

(** ** The states a spec goes through *)

Section RoundTrip.
Import PluginSpec SpecNotions.

(** C5, evaluated where it fails.  For a well-formed document whose top
    level element is not [plugin], and for one whose [plugin] element has no
    [name] attribute, [read] records the error ([hasError] is set and the
    error text filled in), but it returns true and leaves the spec in state
    Read: [read] tests only the error flag of the XML reader, never its own
    [hasError]. *)
Theorem read_records_error_yet_succeeds :
  let wrongTopLevel :=
    Readable "/plugins" "wrong.spec"
      [QXmlStreamReader.StartDocument;
       QXmlStreamReader.StartElement "library" [("name", "Core")];
       QXmlStreamReader.EndElement "library";
       QXmlStreamReader.EndDocument] in
  let missingName :=
    Readable "/plugins" "anonymous.spec"
      [QXmlStreamReader.StartDocument;
       QXmlStreamReader.StartElement "plugin" [("version", "1.0")];
       QXmlStreamReader.EndElement "plugin";
       QXmlStreamReader.EndDocument] in
  (exists d, read wrongTopLevel "wrong.spec" new = (true, d)
     /\ state d = Read /\ hasError d = true
     /\ errorString d = "Expected element 'plugin' as top level element")
  /\ (exists d, read missingName "anonymous.spec" new = (true, d)
     /\ state d = Read /\ hasError d = true
     /\ errorString d = "Expected attribut 'name' at element plugin").
Proof. split; eexists; (split; [vm_compute; reflexivity|]); by repeat split. Qed.

Lemma heap_emit e w : heap (emit e w) = heap w.
Proof. done. Qed.

(** C4.  A spec that [read] a description file successfully, declares no
    dependencies, and for which [resolveDependencies] over the set holding
    only itself succeeded, is in state Resolved; when then [loadPlugin]
    gives a plugin, [unloadPlugin] completes, and after it the state is
    Resolved again and [plugin] is null. *)
Theorem state_round_trip (env : Env) (file : FileEntry) (specFileName : string)
    (d0 d1 : PluginSpecPrivate) (this : nat) (w1 w2 : World) :
  read file specFileName d0 = (true, d1) ->
  dependencies d1 = [] ->
  heap w1 !! this = Some d1 ->
  resolveDependencies this [this] w1 = Ok (true, w2) ->
  member state w2 this = Some Resolved
  /\ forall p w3,
       loadPlugin env this w2 = Ok (Some p, w3) ->
       exists w4, unloadPlugin env this w3 = Ok w4
         /\ member state w4 this = Some Resolved
         /\ member plugin w4 this = Some None.
Proof.
  intros Hread Hdeps Hthis Hresolve.
  destruct (read_true _ _ _ _ Hread) as (Hstate & _ & Hplugin & _ & _).
  unfold resolveDependencies in Hresolve.
  rewrite (proj2 (deref_Ok _ _ _) Hthis) in Hresolve. simpl in Hresolve.
  destruct (hasError d1) eqn:Herr; [done|].
  rewrite decide_False in Hresolve by (rewrite Hstate; done).
  rewrite (proj2 (deref_Ok _ _ _) Hthis) in Hresolve. simpl in Hresolve.
  rewrite Hstate, Hdeps in Hresolve. simpl in Hresolve.
  rewrite (proj2 (deref_Ok _ _ _) Hthis) in Hresolve. simpl in Hresolve.
  rewrite Herr in Hresolve. injection Hresolve as <-.
  set (d2 := set_state Resolved (set_dependencySpecs [] d1)).
  assert (H2 : heap (modify this (fun d => set_state Resolved (set_dependencySpecs [] d)) w1)
                 !! this = Some d2) by exact (heap_modify_eq w1 this _ d1 Hthis).
  split; [unfold member; by rewrite H2|].
  intros p w3 Hload. unfold loadPlugin in Hload.
  rewrite (proj2 (deref_Ok _ _ _) H2) in Hload. simpl in Hload.
  destruct (isLibrary env _); [|done]. destruct (fileExists env _); [|done].
  simpl in Hload. destruct (loaderInstance env _ _) as [err| |p'].
  - injection Hload as Hp _. congruence.
  - done.
  - injection Hload as -> <-.
    match goal with |- context [unloadPlugin env this ?w] => set (w3 := w) end.
    set (d3 := set_state Loaded (set_plugin (Some p) d2)).
    assert (H3 : heap w3 !! this = Some d3).
    { unfold w3, d3.
      apply (heap_modify_eq _ this
               (fun d => set_state Loaded (set_plugin (Some p) d)) d2).
      by rewrite heap_emit. }
    unfold unloadPlugin. rewrite (proj2 (deref_Ok _ _ _) H3). simpl.
    eexists; split; [reflexivity|].
    unfold member. rewrite heap_modify, decide_True by done.
    destruct (loaderUnload env _ _); rewrite ?heap_emit, H3; done.
Qed.

Lemma state_round_trip_witness :
  let env := exampleEnv true false in
  let d1 := readSpec "Core" [] in
  let w1 := worldOf [d1] in
  let w2 := modify 0 (fun d => set_state Resolved (set_dependencySpecs [] d)) w1 in
  read (specFile "Core" []) "Core.spec" new = (true, d1)
  /\ dependencies d1 = []
  /\ heap w1 !! 0%nat = Some d1
  /\ resolveDependencies 0 [0%nat] w1 = Ok (true, w2)
  /\ member state w2 0 = Some Resolved
  /\ exists p w3,
       loadPlugin env 0 w2 = Ok (Some p, w3)
       /\ exists w4, unloadPlugin env 0 w3 = Ok w4
            /\ member state w4 0 = Some Resolved
            /\ member plugin w4 0 = Some None.
Proof.
  intros env d1 w1 w2.
  assert (H1 : read (specFile "Core" []) "Core.spec" new = (true, d1))
    by (vm_compute; reflexivity).
  assert (H2 : dependencies d1 = []) by (vm_compute; reflexivity).
  assert (H3 : heap w1 !! 0%nat = Some d1) by (vm_compute; reflexivity).
  assert (H4 : resolveDependencies 0 [0%nat] w1 = Ok (true, w2))
    by (vm_compute; reflexivity).
  split; [exact H1|]. split; [exact H2|]. split; [exact H3|]. split; [exact H4|].
  destruct (state_round_trip env _ _ _ _ _ _ _ H1 H2 H3 H4) as [Hstate Hload].
  split; [exact Hstate|].
  destruct (loadPlugin env 0 w2) as [[[p|] w3]| |] eqn:E;
    try (vm_compute in E; discriminate E).
  exists p, w3. split; [reflexivity|]. exact (Hload p w3 eq_refl).
Defined.

End RoundTrip.

(** ** Resolving dependencies *)

Section Resolve.
Import PluginSpec SpecNotions ResolveNotions.
Implicit Types (w v : World) (p this : nat) (d : PluginSpecPrivate).

(** C2, evaluated where it fails.  Spec A declares no dependency; spec B
    declares a dependency on A and one on a plugin that does not exist.
    After [resolveDependencies] on both, over the set of both, B is in
    [A.providesSpecs] but A is not in [B.dependencySpecs]: the reverse edge
    is appended as soon as A is found, the forward edges are stored only
    when no dependency is missing. *)
Theorem failed_resolution_keeps_reverse_edge :
  let w := worldOf [readSpec "A" []; readSpec "B" ["A"; "Missing"]] in
  let m := PluginManager.mk [(None, 0%nat); (None, 1%nat)] [] "" in
  exists w',
    PluginManager.resolveEach m [0; 1]%nat w = Ok w'
    /\ member providesSpecs w' 0 = Some [1%nat]
    /\ member dependencySpecs w' 1 = Some []
    /\ member state w' 1 = Some Read
    /\ member hasError w' 1 = Some true.
Proof. eexists. split; [vm_compute; reflexivity|]. by repeat split. Qed.

(** With that reverse edge in place, and A loaded, the walk of
    [unloadQueue] from A reaches B, which is not Resolved, and stops at the
    assertion [state >= PluginSpec::Resolved]. *)
Lemma reverse_edge_fails_unloadQueue_assertion :
  let w := worldOf [readSpec "A" []; readSpec "B" ["A"; "Missing"]] in
  let m := PluginManager.mk [(None, 0%nat); (None, 1%nat)] [] "" in
  exists w1 p w2,
    PluginManager.resolveEach m [0; 1]%nat w = Ok w1
    /\ loadPlugin (exampleEnv true false) 0 w1 = Ok (Some p, w2)
    /\ PluginSpec.unloadQueue 5 0 (mkQueues [] []) w2 = AssertionFailed.
Proof.
  eexists _, _, _. split; [vm_compute; reflexivity|].
  split; vm_compute; reflexivity.
Qed.

Lemma SameNames_refl w : SameNames w w.
Proof. done. Qed.

Lemma SameNames_trans w1 w2 w3 :
  SameNames w1 w2 -> SameNames w2 w3 -> SameNames w1 w3.
Proof. intros H1 H2 p. by rewrite H1. Qed.

Lemma SameNames_sym w1 w2 : SameNames w1 w2 -> SameNames w2 w1.
Proof. intros H p. by rewrite H. Qed.

Lemma SameNames_modify w p f :
  (forall d, name (f d) = name d) -> SameNames w (modify p f w).
Proof.
  intros Hf q. unfold member. rewrite heap_modify. case_decide; [|done].
  destruct (heap w !! q); simpl; [by rewrite Hf|done].
Qed.

Lemma name_reportError err d : name (reportError err d) = name d.
Proof. unfold reportError. by case_decide. Qed.

Lemma findSpec_SameNames w v specs dependencyName :
  SameNames w v ->
  findSpec w specs dependencyName = findSpec v specs dependencyName.
Proof.
  intros Hwv. induction specs as [|spec specs IH]; simpl; [done|].
  specialize (Hwv spec). unfold member, deref in *.
  destruct (heap w !! spec) as [dw|], (heap v !! spec) as [dv|];
    simpl in *; try done.
  injection Hwv as ->. by rewrite IH.
Qed.

Lemma loopStep_refl this p d : loopStep this [] p d d.
Proof.
  unfold loopStep. split_and!; try done. intros x. split; [by left|].
  intros [?|[_ []%elem_of_nil]]. done.
Qed.

Lemma loopStep_append this p d :
  loopStep this [p] p d (set_providesSpecs (providesSpecs d ++ [this]) d).
Proof.
  unfold loopStep. split_and!; try done. intros x. simpl.
  rewrite elem_of_app, !list_elem_of_singleton. split.
  - intros [?| ->]; [by left|by right].
  - intros [?|[ -> _]]; [by left|by right].
Qed.

Lemma loopStep_reportError this p err d :
  loopStep this [] p d (reportError err d).
Proof.
  pose proof (sameRuntime_reportError err d) as (S1 & _ & _ & P1 & DS1).
  unfold loopStep. rewrite name_reportError, S1, P1, DS1.
  split_and!; try done.
  - unfold reportError. by case_decide.
  - intros x. split; [by left|]. intros [?|[_ []%elem_of_nil]]. done.
Qed.

Lemma loopStep_trans this new1 new2 p d1 d2 d3 :
  loopStep this new1 p d1 d2 -> loopStep this new2 p d2 d3 ->
  loopStep this (new1 ++ new2) p d1 d3.
Proof.
  intros (N1 & S1 & D1 & DS1 & E1 & P1) (N2 & S2 & D2 & DS2 & E2 & P2).
  unfold loopStep. split_and!; try congruence; [auto|].
  intros x. rewrite P2, P1, elem_of_app. tauto.
Qed.

(** One run of the loop: which specs it resolved and what it changed. *)
Lemma resolveLoop_step this specs deps acc w res wl :
  resolveLoop this specs deps acc w = Ok (res, wl) ->
  exists new, res = acc ++ new
    /\ forall p, option_Forall2 (loopStep this new p) (heap w !! p) (heap wl !! p).
Proof.
  revert acc w. induction deps as [|dep deps IH]; intros acc w Hloop;
    simpl in Hloop.
  - injection Hloop as <- <-. exists []. rewrite app_nil_r. split; [done|].
    intros p. destruct (heap w !! p); constructor. apply loopStep_refl.
  - apply bind_Ok in Hloop as ([spec|] & Hfind & Hloop).
    + destruct (IH _ _ Hloop) as (new & -> & Hstep).
      exists (spec :: new). rewrite <- app_assoc. split; [done|].
      intros p. specialize (Hstep p). rewrite heap_modify in Hstep.
      destruct (heap w !! p) as [d|] eqn:Hp.
      * case_decide as Hsp; simpl in Hstep;
          inversion Hstep as [x0 d' Hd' Ex Ey|]; subst; constructor.
        -- apply (loopStep_trans _ [p] new _ _ _ _ (loopStep_append _ _ _) Hd').
        -- eapply (loopStep_trans _ [] (spec :: new)); [apply loopStep_refl|].
           destruct Hd' as (N2 & S2 & D2 & DS2 & E2 & P2).
           unfold loopStep. split_and!; try done.
           intros x. rewrite P2, elem_of_cons. intuition congruence.
      * case_decide; simpl in Hstep; inversion Hstep; constructor.
    + apply bind_Ok in Hloop as (d0 & Hthis & Hloop).
      destruct (IH _ _ Hloop) as (new & -> & Hstep).
      exists new. split; [done|].
      intros p. specialize (Hstep p). rewrite heap_modify in Hstep.
      destruct (heap w !! p) as [d|] eqn:Hp.
      * case_decide as Htp; simpl in Hstep;
          inversion Hstep as [x0 d' Hd' Ex Ey|]; subst; constructor; [|done].
        apply (loopStep_trans _ [] new _ _ _ _ (loopStep_reportError _ _ _ _) Hd').
      * case_decide; simpl in Hstep; inversion Hstep; constructor.
Qed.

Lemma resolveLoop_SameNames this specs deps acc w res wl :
  resolveLoop this specs deps acc w = Ok (res, wl) -> SameNames w wl.
Proof.
  intros Hloop p. destruct (resolveLoop_step _ _ _ _ _ _ _ Hloop) as (new & _ & Hstep).
  unfold member. destruct (Hstep p) as [d d' (N & _)|]; simpl; [by rewrite N|done].
Qed.

Lemma SameNames_modify_both w v p f :
  (forall d, name (f d) = name d) ->
  SameNames w v -> SameNames (modify p f w) (modify p f v).
Proof.
  intros Hf Hwv.
  eapply SameNames_trans; [apply SameNames_sym, SameNames_modify, Hf|].
  eapply SameNames_trans; [exact Hwv|]. by apply SameNames_modify.
Qed.

(** A run of the loop in which every dependency was found goes the same way
    in any world with the same names, and reports no error there either. *)
Lemma resolveLoop_replay this specs deps acc w v res wl :
  SameNames w v ->
  resolveLoop this specs deps acc w = Ok (res, wl) ->
  (exists d, heap wl !! this = Some d /\ hasError d = false) ->
  exists vl, resolveLoop this specs deps acc v = Ok (res, vl)
    /\ option_Forall2 (fun d d' => hasError d' = hasError d)
         (heap v !! this) (heap vl !! this).
Proof.
  revert acc w v. induction deps as [|dep deps IH];
    intros acc w v Hwv Hloop (dl & Hdl & Herr); simpl in Hloop |- *.
  - injection Hloop as <- <-. exists v. split; [done|].
    destruct (heap v !! this); by constructor.
  - rewrite <- (findSpec_SameNames w v) by done.
    apply bind_Ok in Hloop as ([spec|] & Hfind & Hloop); rewrite Hfind; simpl.
    + set (f := fun ds => set_providesSpecs (providesSpecs ds ++ [this]) ds) in *.
      destruct (IH _ _ (modify spec f v) (SameNames_modify_both _ _ spec f
                                            (fun _ => eq_refl) Hwv) Hloop)
        as (vl & Hvl & Hrel); [by exists dl|].
      exists vl. split; [done|]. rewrite heap_modify in Hrel.
      destruct (heap v !! this) as [dv|]; [|by case_decide].
      case_decide; simpl in Hrel; inversion Hrel; subst; by constructor.
    + exfalso. apply bind_Ok in Hloop as (d0 & Hthis & Hloop).
      apply deref_Ok in Hthis.
      destruct (resolveLoop_step _ _ _ _ _ _ _ Hloop) as (new & _ & Hstep).
      specialize (Hstep this). rewrite (heap_modify_eq _ _ _ _ Hthis), Hdl in Hstep.
      inversion Hstep as [x0 d' (_ & _ & _ & _ & E & _) Ex Ey|]; subst.
      rewrite E in Herr; [done|]. unfold reportError. by case_decide.
Qed.

(** What re-resolution does keep.  When a call of [resolveDependencies]
    completes, a second call with the same argument completes with the same
    result; the [dependencySpecs] list of every spec is what it was after
    the first call, and the [providesSpecs] list of every spec has the same
    members, whatever their number of occurrences. *)
Theorem second_resolution_keeps_edge_sets (this : nat) (specs : list nat)
    (w w1 : World) (resolved : bool) :
  resolveDependencies this specs w = Ok (resolved, w1) ->
  exists w2,
    resolveDependencies this specs w1 = Ok (resolved, w2)
    /\ forall p,
         option_Forall2
           (fun d1 d2 => dependencySpecs d2 = dependencySpecs d1
                         /\ sameMembers (providesSpecs d2) (providesSpecs d1))
           (heap w1 !! p) (heap w2 !! p).
Proof.
  intros Hfirst.
  assert (Hsame : forall v p,
             option_Forall2
               (fun d1 d2 => dependencySpecs d2 = dependencySpecs d1
                             /\ sameMembers (providesSpecs d2) (providesSpecs d1))
               (heap v !! p) (heap v !! p)).
  { intros v p. destruct (heap v !! p); constructor. by split. }
  unfold resolveDependencies in Hfirst.
  apply bind_Ok in Hfirst as (d & Hd & Hfirst).
  destruct (hasError d) eqn:Herr.
  { injection Hfirst as <- <-. exists w. split; [|apply Hsame].
    unfold resolveDependencies. rewrite Hd. simpl. by rewrite Herr. }
  set (w' := if decide (state d = Resolved) then modify this (set_state Read) w
             else w) in *.
  apply bind_Ok in Hfirst as (d' & Hd' & Hfirst).
  apply bind_Ok in Hfirst as ([] & Hassert & Hfirst).
  apply bind_Ok in Hfirst as ([res wl] & Hloop & Hfirst).
  apply bind_Ok in Hfirst as (d2 & Hd2 & Hfirst).
  apply deref_Ok in Hd', Hd2.
  destruct (hasError d2) eqn:Herr2.
  { injection Hfirst as <- <-. exists wl. split; [|apply Hsame].
    unfold resolveDependencies. rewrite (proj2 (deref_Ok _ _ _) Hd2). simpl.
    by rewrite Herr2. }
  injection Hfirst as <- <-.
  set (g := fun d => set_state Resolved (set_dependencySpecs res d)).
  destruct (resolveLoop_step _ _ _ _ _ _ _ Hloop) as (new & Hnew & Hstep1).
  simpl in Hnew. subst new.
  assert (Hdeps : dependencies d2 = dependencies d').
  { specialize (Hstep1 this). rewrite Hd', Hd2 in Hstep1.
    inversion Hstep1 as [x0 y0 (_ & _ & D & _) Ex Ey|]. done. }
  set (w1 := modify this g wl).
  set (w1' := modify this (set_state Read) w1).
  assert (H1 : heap w1 !! this = Some (g d2)) by exact (heap_modify_eq wl this g d2 Hd2).
  assert (H1' : heap w1' !! this = Some (set_state Read (g d2)))
    by exact (heap_modify_eq w1 this _ _ H1).
  assert (Hnames : SameNames w' w1').
  { eapply SameNames_trans; [by eapply resolveLoop_SameNames|].
    eapply SameNames_trans; by apply SameNames_modify. }
  destruct (resolveLoop_replay _ _ _ _ _ w1' _ _ Hnames Hloop) as (vl & Hvl & Hrel);
    [by exists d2|].
  rewrite H1' in Hrel.
  inversion Hrel as [x0 d5 Herr5 Ex Hd5|]; subst. symmetry in Hd5. simpl in Herr5.
  exists (modify this g vl). split.
  - unfold resolveDependencies.
    rewrite (proj2 (deref_Ok _ _ _) H1). simpl. rewrite Herr2.
    fold w1'.
    rewrite (proj2 (deref_Ok _ _ _) H1'). simpl.
    rewrite Hdeps, Hvl. simpl.
    rewrite (proj2 (deref_Ok _ _ _) Hd5). simpl. by rewrite Herr5, Herr2.
  - intros p.
    destruct (resolveLoop_step _ _ _ _ _ _ _ Hvl) as (new & Hnew & Hstep2).
    simpl in Hnew. subst new.
    specialize (Hstep1 p). specialize (Hstep2 p).
    unfold w1', w1 in Hstep2. rewrite !heap_modify in Hstep2.
    unfold w1. rewrite !heap_modify.
    destruct (heap wl !! p) as [dl|] eqn:Hdl.
    + inversion Hstep1 as [d0p y0 (_ & _ & _ & _ & _ & P1) Ex Ey|]; subst.
      destruct (decide (this = p)) as [->|Hne]; simpl in Hstep2 |- *.
      * inversion Hstep2 as [x1 dv (_ & _ & _ & DS2 & _ & P2) Ex' Ey'|]; subst.
        simpl. constructor. split; [done|]. intros x. simpl in P2 |- *.
        rewrite P2. split; [|by left]. intros [?|[-> Hin]]; [done|].
        apply P1. by right.
      * inversion Hstep2 as [x1 dv (_ & _ & _ & DS2 & _ & P2) Ex' Ey'|]; subst.
        constructor. split; [done|]. intros x.
        rewrite P2. split; [|by left]. intros [?|[-> Hin]]; [done|].
        apply P1. by right.
    + destruct (decide (this = p)); simpl in Hstep2 |- *;
        inversion Hstep2; constructor.
Qed.

(** C7, evaluated where it fails.  Spec B declares a dependency on spec A.
    [resolveDependencies] of B over the set of both succeeds and leaves B
    Resolved, with [B.dependencySpecs = [A]] and [A.providesSpecs = [B]].
    A second call with the same argument succeeds again, with the same
    [B.dependencySpecs], but [A.providesSpecs] is now [[B; B]]: the call
    goes back from Resolved to Read and replaces [dependencySpecs], while
    [providesSpecs.append] adds the reverse edge again, without a test for
    membership. *)
Lemma second_resolution_duplicates_reverse_edge :
  let w := worldOf [readSpec "A" []; readSpec "B" ["A"]] in
  exists w1 w2,
    resolveDependencies 1 [0; 1]%nat w = Ok (true, w1)
    /\ resolveDependencies 1 [0; 1]%nat w1 = Ok (true, w2)
    /\ member state w1 1 = Some Resolved
    /\ member state w2 1 = Some Resolved
    /\ member providesSpecs w1 0 = Some [1%nat]
    /\ member providesSpecs w2 0 = Some [1; 1]%nat
    /\ member dependencySpecs w1 1 = Some [0%nat]
    /\ member dependencySpecs w2 1 = Some [0%nat].
Proof.
  eexists _, _. split; [vm_compute; reflexivity|].
  split; [vm_compute; reflexivity|]. by repeat split.
Qed.

Lemma second_resolution_keeps_edge_sets_witness :
  let w := worldOf [readSpec "A" []; readSpec "B" ["A"]] in
  exists w1,
    resolveDependencies 1 [0; 1]%nat w = Ok (true, w1)
    /\ exists w2,
         resolveDependencies 1 [0; 1]%nat w1 = Ok (true, w2)
         /\ forall p,
              option_Forall2
                (fun d1 d2 => dependencySpecs d2 = dependencySpecs d1
                              /\ sameMembers (providesSpecs d2) (providesSpecs d1))
                (heap w1 !! p) (heap w2 !! p).
Proof.
  intros w.
  destruct (resolveDependencies 1 [0; 1]%nat w) as [[[|] w1]| |] eqn:E;
    try (vm_compute in E; discriminate E).
  exists w1. split; [reflexivity|].
  exact (second_resolution_keeps_edge_sets 1 [0; 1]%nat w w1 true E).
Defined.

End Resolve.

(** * Propagation of the indirectly-disabled flag *)

Section ScanFacts.
Import PluginSpec SpecNotions Propagation.
Implicit Types (w v : World) (p q : nat) (d : PluginSpecPrivate).

Lemma anyUnavailable_frame w v l :
  (forall r, r ∈ l -> heap v !! r = heap w !! r) ->
  anyUnavailable v l = anyUnavailable w l.
Proof.
  induction l as [|r l IH]; intros Hl; simpl; [done|].
  unfold deref. rewrite (Hl r) by apply list_elem_of_here.
  destruct (heap w !! r) as [dr|]; simpl; [|done].
  destruct (unavailable dr); [done|].
  apply IH. intros r' Hr'. apply Hl. by apply list_elem_of_further.
Qed.

Lemma anyUnavailable_total w l :
  (forall r, r ∈ l -> is_Some (heap w !! r)) ->
  exists b, anyUnavailable w l = Ok b.
Proof.
  induction l as [|r l IH]; intros Hl; simpl; [by exists false|].
  destruct (Hl r) as [dr Hr]; [apply list_elem_of_here|].
  unfold deref. rewrite Hr. simpl. destruct (unavailable dr); [by exists true|].
  apply IH. intros r' Hr'. apply Hl. by apply list_elem_of_further.
Qed.

(** What the scan answers. *)
Lemma anyUnavailable_true w l :
  anyUnavailable w l = Ok true ->
  exists q dq, q ∈ l /\ heap w !! q = Some dq /\ unavailable dq = true.
Proof.
  induction l as [|r l IH]; simpl; [done|]. intros Hscan.
  apply bind_Ok in Hscan as (dr & Hr%deref_Ok & Hscan).
  destruct (unavailable dr) eqn:Hu.
  - exists r, dr. split; [apply list_elem_of_here|done].
  - destruct (IH Hscan) as (q & dq & Hq & Hdq & Hun).
    exists q, dq. split; [by apply list_elem_of_further|done].
Qed.

Lemma anyUnavailable_false w l :
  anyUnavailable w l = Ok false ->
  forall q dq, q ∈ l -> heap w !! q = Some dq -> unavailable dq = false.
Proof.
  induction l as [|r l IH]; simpl; [by intros _ q dq ?%elem_of_nil|].
  intros Hscan q dq Hq Hdq.
  apply bind_Ok in Hscan as (dr & Hr%deref_Ok & Hscan).
  destruct (unavailable dr) eqn:Hu; [done|].
  apply elem_of_cons in Hq as [->|Hq]; [congruence|]. by eapply IH.
Qed.

(** In a closed set, a flag that is locally right says what [Consistent]
    asks for. *)
Lemma LocallyOk_Consistent w :
  Closed w -> (forall p, LocallyOk w p) <-> Consistent w.
Proof.
  intros Hclosed. split.
  - intros Hok p d Hp. specialize (Hok p d Hp). split.
    + intros Hflag. rewrite Hflag in Hok. by apply anyUnavailable_true.
    + intros (q & dq & Hq & Hdq & Hun).
      destruct (indirectlyDisabled d) eqn:Hflag; [done|].
      rewrite <- Hun. symmetry. by eapply anyUnavailable_false.
  - intros Hcons p d Hp.
    destruct (anyUnavailable_total w (dependencySpecs d)) as [b Hb].
    { intros r Hr. eapply Hclosed; [exact Hp|by left]. }
    rewrite Hb. f_equal. destruct (Hcons p d Hp) as [H1 H2].
    destruct b.
    + symmetry. apply H2. by apply anyUnavailable_true.
    + destruct (indirectlyDisabled d) eqn:Hflag; [|done].
      destruct H1 as (q & dq & Hq & Hdq & Hun); [done|].
      by rewrite (anyUnavailable_false _ _ Hb q dq Hq Hdq) in Hun.
Qed.

End ScanFacts.

Section Propagate.
Import PluginSpec SpecNotions Propagation.
Implicit Types (w v : World) (p q : nat) (d : PluginSpecPrivate).

Lemma flagOnly_refl d : flagOnly d d.
Proof. by destruct d. Qed.

Lemma flagOnly_set b d0 d :
  flagOnly d0 d -> flagOnly d0 (set_indirectlyDisabled b d).
Proof. unfold flagOnly. intros H. by rewrite H. Qed.

Lemma flagOnly_dependencySpecs d0 d :
  flagOnly d0 d -> dependencySpecs d = dependencySpecs d0.
Proof. unfold flagOnly. intros H. by rewrite H. Qed.

Lemma flagOnly_providesSpecs d0 d :
  flagOnly d0 d -> providesSpecs d = providesSpecs d0.
Proof. unfold flagOnly. intros H. by rewrite H. Qed.

Lemma flagOnly_circular d0 d :
  flagOnly d0 d -> circularDependencyDetected d = circularDependencyDetected d0.
Proof. unfold flagOnly. intros H. by rewrite H. Qed.

Lemma FlagsOnly_refl w : FlagsOnly w w.
Proof. intros p. destruct (heap w !! p); constructor. apply flagOnly_refl. Qed.

Lemma FlagsOnly_modify w0 w p b :
  FlagsOnly w0 w -> FlagsOnly w0 (modify p (set_indirectlyDisabled b) w).
Proof.
  intros H q. rewrite heap_modify. case_decide; [|apply H].
  destruct (H q); constructor. by apply flagOnly_set.
Qed.

Lemma FlagsOnly_lookup w0 w p d :
  FlagsOnly w0 w -> heap w !! p = Some d ->
  exists d0, heap w0 !! p = Some d0 /\ flagOnly d0 d.
Proof.
  intros H Hp. specialize (H p). rewrite Hp in H.
  inversion H as [d0 d' Hflag E0 E|]; subst. by exists d0.
Qed.

Lemma FlagsOnly_lookup0 w0 w p d0 :
  FlagsOnly w0 w -> heap w0 !! p = Some d0 ->
  exists d, heap w !! p = Some d /\ flagOnly d0 d.
Proof.
  intros H Hp. specialize (H p). rewrite Hp in H.
  inversion H as [d0' d Hflag E0 E|]; subst. by exists d.
Qed.

(** The edges of the graph are read in any world that differs in flags
    only. *)
Lemma FlagsOnly_dependsOn w0 w p d r :
  FlagsOnly w0 w -> heap w !! p = Some d -> r ∈ dependencySpecs d ->
  dependsOn w0 p r.
Proof.
  intros H Hp Hr. destruct (FlagsOnly_lookup _ _ _ _ H Hp) as (d0 & Hd0 & Hflag).
  exists d0. split; [done|]. by rewrite <- (flagOnly_dependencySpecs _ _ Hflag).
Qed.

Lemma below_dependsOn w0 q p r :
  dependsOn w0 p r -> below w0 q r -> below w0 q p.
Proof.
  intros Hpr [->|Hrq]; right.
  - by apply tc_once.
  - by eapply tc_l.
Qed.

(** A spec that was not touched, and none of whose dependencies was, keeps
    a right flag. *)
Lemma LocallyOk_frame w w' p :
  heap w' !! p = heap w !! p ->
  (forall d r, heap w !! p = Some d -> r ∈ dependencySpecs d ->
     heap w' !! r = heap w !! r) ->
  LocallyOk w p -> LocallyOk w' p.
Proof.
  intros Hp Hframe Hok d Hd. rewrite Hp in Hd.
  rewrite <- (Hok d Hd). apply anyUnavailable_frame. intros r Hr.
  by eapply Hframe.
Qed.

Lemma offStack_same w0 w w' :
  resolvedPluginsStack w' = resolvedPluginsStack w -> offStack w0 w' = offStack w0 w.
Proof. unfold offStack. by intros ->. Qed.

(** The [foreach] over specs, each of which propagates. *)
Lemma propagate_each w0 depth qs w :
  Propagates w0 depth ->
  FlagsOnly w0 w ->
  (forall q, q ∈ qs ->
     is_Some (heap w0 !! q)
     /\ forall s, s ∈ resolvedPluginsStack w -> dependentOf w0 q s) ->
  (size (offStack w0 w) < depth)%nat ->
  exists w',
    forEach (fun providesSpec w => resolveIndirectlyDisabled depth true providesSpec w)
      qs w = Ok w'
    /\ FlagsOnly w0 w'
    /\ resolvedPluginsStack w' = resolvedPluginsStack w
    /\ trace w' = trace w
    /\ rtc recompute (heap w) (heap w')
    /\ (forall p, (forall q, q ∈ qs -> ~ below w0 q p) -> heap w' !! p = heap w !! p)
    /\ (forall p, LocallyOk w p \/ (exists q, q ∈ qs /\ below w0 q p) -> LocallyOk w' p).
Proof.
  intros Hprop. revert w. induction qs as [|q qs IH]; intros w Hflags Hqs Hsize.
  - exists w. simpl. split_and!; try done.
    intros p [Hok|(q & Hq%elem_of_nil & _)]; done.
  - destruct (Hqs q) as [Hq Hstack]; [apply list_elem_of_here|].
    destruct (Hprop q w Hflags Hq Hstack Hsize)
      as (w1 & Hrun & Hflags1 & Hstack1 & Htrace1 & Hsteps1 & Hframe1 & Hok1).
    destruct (IH w1) as (w' & Hrun' & Hflags' & Hstack' & Htrace' & Hsteps' & Hframe' & Hok');
      [done| |by rewrite (offStack_same _ _ _ Hstack1)|].
    { intros q' Hq'. rewrite Hstack1. apply Hqs. by apply list_elem_of_further. }
    exists w'. simpl. rewrite Hrun. simpl. split_and!; try done.
    + congruence.
    + congruence.
    + by etrans.
    + intros p Hp. rewrite Hframe', Hframe1; [done| |].
      * apply Hp, list_elem_of_here.
      * intros q' Hq'. by apply Hp, list_elem_of_further.
    + intros p Hp. apply Hok'. destruct Hp as [Hok|(q' & Hq' & Hb)].
      * left. apply Hok1. by left.
      * apply elem_of_cons in Hq' as [->|Hq'].
        -- left. apply Hok1. by right.
        -- right. by exists q'.
Qed.

End Propagate.

Section Graph.
Import PluginSpec SpecNotions Propagation.
Implicit Types (w v : World) (p q : nat) (d : PluginSpecPrivate).

Variable w0 : World.
Hypothesis Hclosed : Closed w0.
Hypothesis Hsym : Symmetric w0.
Hypothesis Hacyc : Acyclic w0.
Hypothesis Hnoflag : NoCycleFlagged w0.

Lemma offStack_push this w :
  is_Some (heap w0 !! this) -> this ∉ resolvedPluginsStack w ->
  (size (offStack w0 (push this w)) < size (offStack w0 w))%nat.
Proof.
  intros Hthis%elem_of_dom Hnotin. apply subset_size.
  unfold offStack. split.
  - intros x. rewrite !elem_of_difference, !elem_of_list_to_set.
    intros [Hx Hn]. split; [done|]. intros Hin. apply Hn. simpl.
    by apply list_elem_of_further.
  - intros Hsub. specialize (Hsub this).
    rewrite !elem_of_difference, !elem_of_list_to_set in Hsub.
    destruct Hsub as [_ Hn]; [done|]. apply Hn. simpl. apply list_elem_of_here.
Qed.

Lemma dependentOf_last p r :
  dependentOf w0 p r -> exists q, below w0 q p /\ dependsOn w0 q r.
Proof.
  induction 1 as [p r Hedge|p q r Hedge Hrest (q' & Hbelow & Hlast)].
  - exists p. split; [by left|done].
  - exists q'. split; [|done]. by eapply below_dependsOn.
Qed.

Lemma below_through q this p :
  dependsOn w0 q this -> below w0 q p -> below w0 this p.
Proof.
  intros Hedge [->|Hpq]; right.
  - by apply tc_once.
  - eapply tc_r; [exact Hpq|exact Hedge].
Qed.

Lemma LocallyOk_heap w w' p :
  heap w' = heap w -> LocallyOk w p -> LocallyOk w' p.
Proof. intros Hheap. apply LocallyOk_frame; intros; by rewrite Hheap. Qed.

(** The call on a spec that is not on the stack, whose cycle flag is clear:
    the flag is cleared, the spec pushed, the dependencies scanned, the flag
    set to what the scan gave, the dependents visited, the spec popped. *)
Lemma resolve_force_unfold depth this w d b :
  heap w !! this = Some d ->
  circularDependencyDetected d = false ->
  this ∉ resolvedPluginsStack w ->
  let wa := push this (modify this (set_indirectlyDisabled false) w) in
  anyUnavailable wa (dependencySpecs d) = Ok b ->
  resolveIndirectlyDisabled (S depth) true this w
  = (wl ← forEach
            (fun providesSpec w => resolveIndirectlyDisabled depth true providesSpec w)
            (providesSpecs d)
            (if b then modify this (set_indirectlyDisabled true) wa else wa);
     pop this wl).
Proof.
  intros Hd Hc Hs wa Hb. simpl. unfold deref. rewrite Hd. simpl. rewrite Hc.
  rewrite (proj2 (contains_false _ _) Hs). simpl. fold wa. rewrite Hb. simpl.
  by destruct b.
Qed.

(** Every forced propagation call in an acyclic set returns, given depth
    for the specs not on the stack: it recomputes the flag of the spec and
    of its transitive dependents and touches nothing else. *)
Lemma propagates depth : Propagates w0 depth.
Proof.
  induction depth as [|depth IH]; intros this w Hflags [d0 Hd0] Hstack Hsize; [lia|].
  destruct (FlagsOnly_lookup0 _ _ _ _ Hflags Hd0) as (d & Hd & Hfd).
  assert (Hnotin : this ∉ resolvedPluginsStack w).
  { intros Hin. by apply (Hacyc this), Hstack. }
  assert (Hself : this ∉ dependencySpecs d).
  { intros Hin. apply (Hacyc this), tc_once.
    exact (FlagsOnly_dependsOn w0 w this d this Hflags Hd Hin). }
  assert (Hcirc : circularDependencyDetected d = false).
  { rewrite (flagOnly_circular _ _ Hfd). by eapply Hnoflag. }
  set (wa := push this (modify this (set_indirectlyDisabled false) w)).
  assert (Hflagsa : FlagsOnly w0 wa).
  { exact (FlagsOnly_modify w0 w this false Hflags). }
  assert (Hdeps : forall r, r ∈ dependencySpecs d -> heap wa !! r = heap w !! r).
  { intros r Hr. apply heap_modify_ne. by intros ->. }
  destruct (anyUnavailable_total wa (dependencySpecs d)) as [b Hb].
  { intros r Hr. destruct (Hclosed this d0 r Hd0) as [dr0 Hr0].
    { left. by rewrite <- (flagOnly_dependencySpecs _ _ Hfd). }
    destruct (FlagsOnly_lookup0 _ _ _ _ Hflagsa Hr0) as (dr & Hdr & _).
    by exists dr. }
  set (wb := if b then modify this (set_indirectlyDisabled true) wa else wa).
  assert (Hheapb : heap wb = alter (set_indirectlyDisabled b) this (heap w)).
  { unfold wb, wa. destruct b; simpl; [|done].
    rewrite alter_alter_eq. by apply alter_ext. }
  assert (Hflagsb : FlagsOnly w0 wb).
  { unfold wb. destruct b; [by apply FlagsOnly_modify|done]. }
  assert (Hstackb : resolvedPluginsStack wb = this :: resolvedPluginsStack w).
  { unfold wb. by destruct b. }
  assert (Htraceb : trace wb = trace w).
  { unfold wb. by destruct b. }
  assert (Hedges : forall q, q ∈ providesSpecs d ->
            is_Some (heap w0 !! q) /\ dependsOn w0 q this).
  { intros q Hq. rewrite (flagOnly_providesSpecs _ _ Hfd) in Hq.
    destruct (Hclosed this d0 q Hd0) as [dq0 Hq0]; [by right|].
    split; [by exists dq0|]. exists dq0. split; [done|].
    by apply (Hsym this q d0 dq0 Hd0 Hq0). }
  destruct (propagate_each w0 depth (providesSpecs d) wb IH Hflagsb)
    as (wl & Hrun & Hflagsl & Hstackl & Htracel & Hstepsl & Hframel & Hokl).
  { intros q Hq. destruct (Hedges q Hq) as [Hsome Hedge]. split; [done|].
    rewrite Hstackb. intros s [->|Hs]%elem_of_cons; [by apply tc_once|].
    eapply tc_l; [exact Hedge|by apply Hstack]. }
  { pose proof (offStack_push this w (ex_intro _ d0 Hd0) Hnotin) as Hlt.
    unfold offStack in *. rewrite Hstackb. simpl in *. lia. }
  pose proof (resolve_force_unfold depth this w d b Hd Hcirc Hnotin Hb) as Hunfold.
  fold wa in Hunfold. fold wb in Hunfold. rewrite Hrun in Hunfold. simpl in Hunfold.
  unfold pop in Hunfold. rewrite Hstackl, Hstackb, decide_True in Hunfold by done.
  eexists. split; [exact Hunfold|]. simpl.
  assert (Hscanb : anyUnavailable wb (dependencySpecs d) = Ok b).
  { rewrite <- Hb. apply anyUnavailable_frame. intros r Hr.
    rewrite Hheapb, lookup_alter_ne by (by intros ->). by rewrite Hdeps. }
  assert (Hthisb : LocallyOk wb this).
  { intros d' Hd'. rewrite Hheapb, lookup_alter_eq, Hd in Hd'.
    injection Hd' as <-. exact Hscanb. }
  split_and!.
  - exact Hflagsl.
  - done.
  - congruence.
  - eapply rtc_l; [|exact Hstepsl]. exists this, d, b. split_and!; [done| |done].
    rewrite <- Hb. apply anyUnavailable_frame. intros r Hr. simpl. by rewrite Hdeps.
  - intros p Hnot. rewrite Hframel.
    + rewrite Hheapb. apply lookup_alter_ne. intros ->. apply Hnot. by left.
    + intros q Hq Hbelow. apply Hnot. destruct (Hedges q Hq) as [_ Hedge].
      by eapply below_through.
  - intros p Hp. apply (LocallyOk_heap wl); [done|]. apply Hokl.
    assert (Hdependent : dependentOf w0 p this ->
              exists q, q ∈ providesSpecs d /\ below w0 q p).
    { intros (q & Hbelow & (dq0 & Hq0 & Hin))%dependentOf_last.
      exists q. split; [|done]. rewrite (flagOnly_providesSpecs _ _ Hfd).
      by apply (Hsym this q d0 dq0 Hd0 Hq0). }
    destruct (decide (p = this)) as [->|Hne]; [by left|].
    destruct Hp as [Hok|[->|Hdep]]; [|done|by right; apply Hdependent].
    destruct (heap w !! p) as [dp|] eqn:Hdp.
    + destruct (decide (this ∈ dependencySpecs dp)) as [Hin|Hnin].
      * right. apply Hdependent, tc_once.
        exact (FlagsOnly_dependsOn w0 w p dp this Hflags Hdp Hin).
      * left. apply (LocallyOk_frame w); [| |done].
        -- rewrite Hheapb. by apply lookup_alter_ne.
        -- intros dp' r Hdp' Hr. rewrite Hheapb. apply lookup_alter_ne.
           intros ->. congruence.
    + left. apply (LocallyOk_frame w); [| |done].
      * rewrite Hheapb. by apply lookup_alter_ne.
      * intros dp' r Hdp'. congruence.
Qed.

End Graph.

Section Disable.
Import PluginSpec SpecNotions Propagation.
Implicit Types (w v : World) (p q : nat) (d : PluginSpecPrivate).

Lemma setEnabled_flagOnly_members b d :
  dependencySpecs (setEnabled b d) = dependencySpecs d
  /\ providesSpecs (setEnabled b d) = providesSpecs d
  /\ circularDependencyDetected (setEnabled b d) = circularDependencyDetected d
  /\ indirectlyDisabled (setEnabled b d) = indirectlyDisabled d.
Proof. unfold setEnabled. by destruct (persistent d && negb b). Qed.

Lemma dependsOn_setEnabled w x b q p :
  dependsOn (modify x (setEnabled b) w) q p <-> dependsOn w q p.
Proof.
  unfold dependsOn. setoid_rewrite heap_modify. case_decide as Hx; [|done].
  subst q. destruct (heap w !! x) as [dx|]; simpl.
  - destruct (setEnabled_flagOnly_members b dx) as (Hdeps & _). split.
    + intros (d & [= <-] & Hin). exists dx. by rewrite <- Hdeps.
    + intros (d & [= <-] & Hin). eexists. split; [done|]. by rewrite Hdeps.
  - split; by intros (d & [=] & _).
Qed.

Lemma dependentOf_setEnabled w x b q p :
  dependentOf (modify x (setEnabled b) w) q p <-> dependentOf w q p.
Proof.
  split; apply (tc_congruence id); intros q' p'; by apply dependsOn_setEnabled.
Qed.

Lemma lookup_setEnabled w x b p d :
  heap (modify x (setEnabled b) w) !! p = Some d ->
  exists d0, heap w !! p = Some d0
    /\ dependencySpecs d = dependencySpecs d0
    /\ providesSpecs d = providesSpecs d0
    /\ circularDependencyDetected d = circularDependencyDetected d0
    /\ indirectlyDisabled d = indirectlyDisabled d0.
Proof.
  rewrite heap_modify. case_decide as Hx.
  - subst p. destruct (heap w !! x) as [dx|]; simpl; [|done].
    intros [= <-]. exists dx. split; [done|]. apply setEnabled_flagOnly_members.
  - intros Hp. by exists d.
Qed.

Lemma is_Some_setEnabled w x b p :
  is_Some (heap (modify x (setEnabled b) w) !! p) <-> is_Some (heap w !! p).
Proof.
  rewrite heap_modify. case_decide; [|done]. by rewrite fmap_is_Some.
Qed.

(** Disabling a spec leaves the graph as it is. *)
Lemma ResolvedSet_setEnabled w x b :
  ResolvedSet w -> ResolvedSet (modify x (setEnabled b) w).
Proof.
  intros [Hclosed Hsym Hacyc Hnoflag Hstack]. split.
  - intros p d q (d0 & Hd0 & Hdeps & Hprov & _)%lookup_setEnabled Hq.
    apply is_Some_setEnabled. apply (Hclosed p d0 q Hd0). by rewrite <- Hdeps, <- Hprov.
  - intros p q dp dq (dp0 & Hp0 & _ & Hprov & _)%lookup_setEnabled
      (dq0 & Hq0 & Hdeps & _)%lookup_setEnabled.
    rewrite Hprov, Hdeps. by apply Hsym.
  - intros p Hp%dependentOf_setEnabled. by apply (Hacyc p).
  - intros p d (d0 & Hd0 & _ & _ & Hcirc & _)%lookup_setEnabled.
    rewrite Hcirc. by eapply Hnoflag.
  - done.
Qed.

(** A right flag is set as soon as one dependency is unavailable. *)
Lemma LocallyOk_unavailable w p d r dr :
  LocallyOk w p -> heap w !! p = Some d -> r ∈ dependencySpecs d ->
  heap w !! r = Some dr -> unavailable dr = true ->
  indirectlyDisabled d = true.
Proof.
  intros Hok Hp Hr Hdr Hun. specialize (Hok d Hp).
  destruct (indirectlyDisabled d); [done|].
  by rewrite (anyUnavailable_false _ _ Hok r dr Hr Hdr) in Hun.
Qed.

End Disable.

Section Checked.
Import PluginSpec SpecNotions Propagation Checks.
Implicit Types (w v : World) (p q : nat) (d : PluginSpecPrivate).

Lemma specs_forallb w (f : nat * PluginSpecPrivate -> bool) :
  forallb f (specs w) = true <->
  forall p d, heap w !! p = Some d -> f (p, d) = true.
Proof.
  rewrite forallb_forall. unfold specs. split.
  - intros H p d Hp. apply H, list_elem_of_In. by apply elem_of_map_to_list.
  - intros H [p d] Hin%list_elem_of_In%elem_of_map_to_list. by apply H.
Qed.

Lemma list_forallb {A} (f : A -> bool) (l : list A) :
  forallb f l = true <-> forall x, x ∈ l -> f x = true.
Proof.
  rewrite forallb_forall. split; intros H x Hx; apply H; by apply list_elem_of_In.
Qed.

Lemma rankedb_dependentOf w q p :
  rankedb w = true -> dependentOf w q p -> (p < q)%nat.
Proof.
  unfold rankedb. intros Hranked.
  pose proof (proj1 (specs_forallb _ _) Hranked) as Hranked'. clear Hranked.
  rename Hranked' into Hranked.
  induction 1 as [q p (d & Hq & Hin)|q r p (d & Hq & Hin) _ IH].
  - specialize (Hranked q d Hq). simpl in Hranked.
    rewrite list_forallb in Hranked. by apply Nat.ltb_lt, Hranked.
  - specialize (Hranked q d Hq). simpl in Hranked.
    rewrite list_forallb in Hranked.
    specialize (Hranked r Hin). apply Nat.ltb_lt in Hranked. lia.
Qed.

Lemma rankedb_Acyclic w : rankedb w = true -> Acyclic w.
Proof. intros Hranked p Hp%(rankedb_dependentOf w p p Hranked). lia. Qed.

(** The checks of the graph are sound. *)
Lemma graphb_sound w :
  closedb w = true -> symmetricb w = true -> rankedb w = true ->
  noCycleFlaggedb w = true -> resolvedPluginsStack w = [] ->
  ResolvedSet w.
Proof.
  unfold closedb, symmetricb, noCycleFlaggedb.
  intros Hclosed Hsym Hranked Hnoflag Hstack.
  pose proof (proj1 (specs_forallb _ _) Hclosed) as Hclosed1.
  pose proof (proj1 (specs_forallb _ _) Hsym) as Hsym1.
  pose proof (proj1 (specs_forallb _ _) Hnoflag) as Hnoflag1.
  clear Hclosed Hsym Hnoflag.
  split.
  - intros p d q Hp Hq. pose proof (Hclosed1 p d Hp) as Hclosed. simpl in Hclosed.
    rewrite list_forallb in Hclosed. specialize (Hclosed q).
    unfold inSet in Hclosed. destruct (heap w !! q); [done|].
    rewrite elem_of_app in Hclosed. by specialize (Hclosed Hq).
  - intros p q dp dq Hp Hq. pose proof (Hsym1 p dp Hp) as Hsym. simpl in Hsym.
    pose proof (proj1 (specs_forallb _ _) Hsym q dq Hq) as Hsym'. simpl in Hsym'.
    clear Hsym. rename Hsym' into Hsym.
    apply Bool.eqb_prop in Hsym. rewrite <- !contains_true. by rewrite Hsym.
  - by apply rankedb_Acyclic.
  - intros p d Hp. pose proof (Hnoflag1 p d Hp) as Hnoflag. simpl in Hnoflag.
    by apply negb_true_iff.
  - done.
Qed.

Lemma resolvedSetb_sound w :
  resolvedSetb w = true -> ResolvedSet w /\ Consistent w.
Proof.
  unfold resolvedSetb, closedb, symmetricb, noCycleFlaggedb, consistentb.
  rewrite !andb_true_iff.
  intros [[[[[Hclosed Hsym] Hranked] Hnoflag] Hcons] Hstack].
  pose proof (proj1 (specs_forallb _ _) Hclosed) as Hclosed1.
  pose proof (proj1 (specs_forallb _ _) Hsym) as Hsym1.
  pose proof (proj1 (specs_forallb _ _) Hnoflag) as Hnoflag1.
  pose proof (proj1 (specs_forallb _ _) Hcons) as Hcons1.
  clear Hclosed Hsym Hnoflag Hcons.
  assert (Hclosed' : Closed w).
  { intros p d q Hp Hq. pose proof (Hclosed1 p d Hp) as Hclosed. simpl in Hclosed.
    rewrite list_forallb in Hclosed. specialize (Hclosed q).
    unfold inSet in Hclosed. destruct (heap w !! q); [done|].
    rewrite elem_of_app in Hclosed. by specialize (Hclosed Hq). }
  split; [split|].
  - exact Hclosed'.
  - intros p q dp dq Hp Hq. pose proof (Hsym1 p dp Hp) as Hsym. simpl in Hsym.
    pose proof (proj1 (specs_forallb _ _) Hsym q dq Hq) as Hsym'. simpl in Hsym'.
    clear Hsym. rename Hsym' into Hsym.
    apply Bool.eqb_prop in Hsym. rewrite <- !contains_true. by rewrite Hsym.
  - by apply rankedb_Acyclic.
  - intros p d Hp. pose proof (Hnoflag1 p d Hp) as Hnoflag. simpl in Hnoflag.
    by apply negb_true_iff.
  - by destruct (resolvedPluginsStack w).
  - apply LocallyOk_Consistent; [done|]. intros p d Hp.
    pose proof (Hcons1 p d Hp) as Hcons. simpl in Hcons.
    destruct (anyUnavailable w (dependencySpecs d)) as [b| |]; [|done..].
    by apply Bool.eqb_prop in Hcons as ->.
Qed.

Lemma coversb_sound w order :
  coversb w order = true -> forall p, p ∈ order <-> is_Some (heap w !! p).
Proof.
  unfold coversb. rewrite andb_true_iff. intros [Hin Hall] p.
  pose proof (proj1 (specs_forallb _ _) Hall) as Hall'.
  rewrite list_forallb in Hin. split.
  - intros Hp%Hin. unfold inSet in Hp. by destruct (heap w !! p).
  - intros [d Hd]. specialize (Hall' p d Hd). by apply contains_true in Hall'.
Qed.

End Checked.

Section DisableOne.
Import PluginSpec SpecNotions Propagation.
Implicit Types (w v : World) (p q : nat) (d : PluginSpecPrivate).

Variables (w0 : World) (x : nat).
Hypothesis Hset : ResolvedSet w0.
Hypothesis Hcons : Consistent w0.

(** One recomputation leaves every spec that does not depend on [x] as it
    is after [x] was disabled: its dependencies are as before, and its flag
    was right before. *)
Lemma recompute_keeps_others h h' :
  (forall p, ~ dependentOf w0 p x ->
     h !! p = heap (modify x (setEnabled false) w0) !! p) ->
  recompute h h' ->
  forall p, ~ dependentOf w0 p x ->
    h' !! p = heap (modify x (setEnabled false) w0) !! p.
Proof.
  intros Hinv (p & d & b & Hp & Hscan & ->) p' Hp'.
  destruct (decide (p = p')) as [<-|Hne]; [|rewrite lookup_alter_ne by done; auto].
  rewrite <- (Hinv p Hp'), lookup_alter_eq, Hp. simpl. f_equal.
  assert (b = indirectlyDisabled d) as ->; [|by destruct d].
  rewrite Hinv in Hp by done.
  apply lookup_setEnabled in Hp as (d0 & Hd0 & Hdeps & _ & _ & Hind).
  pose proof (proj2 (LocallyOk_Consistent w0 (rs_closed _ Hset)) Hcons p d0 Hd0)
    as Hok.
  assert (Hsame : anyUnavailable (mkWorld h [] []) (dependencySpecs d)
                  = anyUnavailable w0 (dependencySpecs d0)).
  { rewrite Hdeps. apply anyUnavailable_frame. intros r Hr. simpl.
    assert (Hedge : dependsOn w0 p r) by (by exists d0).
    rewrite Hinv.
    - apply heap_modify_ne. intros ->. apply Hp'. by apply tc_once.
    - intros Hdep. apply Hp'. by eapply tc_l. }
  congruence.
Qed.

Lemma recomputes_keep_others h h' :
  rtc recompute h h' ->
  (forall p, ~ dependentOf w0 p x ->
     h !! p = heap (modify x (setEnabled false) w0) !! p) ->
  forall p, ~ dependentOf w0 p x ->
    h' !! p = heap (modify x (setEnabled false) w0) !! p.
Proof.
  induction 1 as [|h1 h2 h3 Hstep _ IH]; [done|]. intros Hinv.
  apply IH. by eapply recompute_keeps_others.
Qed.

End DisableOne.

Section DisablePropagates.
Import PluginSpec SpecNotions Propagation Checks.
Implicit Types (w v : World) (p q : nat) (d : PluginSpecPrivate).

Lemma FlagsOnly_Closed w0 w : FlagsOnly w0 w -> Closed w0 -> Closed w.
Proof.
  intros Hflags Hclosed p d q Hp Hq.
  destruct (FlagsOnly_lookup _ _ _ _ Hflags Hp) as (d0 & Hd0 & Hf).
  rewrite (flagOnly_dependencySpecs _ _ Hf), (flagOnly_providesSpecs _ _ Hf) in Hq.
  destruct (Hclosed p d0 q Hd0 Hq) as [dq0 Hdq0].
  destruct (FlagsOnly_lookup0 _ _ _ _ Hflags Hdq0) as (dq & Hdq & _). by exists dq.
Qed.

(** C3, amended.  In an acyclic resolved set, after [setEnabled(false)] has
    taken effect on a spec [x] (so [x] is not persistent), the loop
    [resolveIndirectlyDisabled(true)] over all specs of the set, in any
    order and with depth for every spec, returns; afterwards
    [indirectlyDisabled] is true for every transitive dependent of [x], and
    the flag of every spec says whether one of its dependencies is
    unavailable.  When the flags said so before [x] was disabled, the flag
    of every spec that is not a transitive dependent of [x] is what it was
    before. *)
Theorem disabling_propagates_to_dependents
    (w0 : World) (order : list nat) (depth : nat) (x : nat)
    (dx : PluginSpecPrivate) :
  ResolvedSet w0 ->
  heap w0 !! x = Some dx ->
  isEnabled (setEnabled false dx) = false ->
  (forall p, p ∈ order <-> is_Some (heap w0 !! p)) ->
  (size (heap w0) < depth)%nat ->
  exists w2,
    PluginManager.resolveIndirectlyDisabledEach depth order
      (modify x (setEnabled false) w0) = Ok w2
    /\ (forall q, dependentOf w0 q x ->
          member indirectlyDisabled w2 q = Some true)
    /\ Consistent w2
    /\ (Consistent w0 ->
        forall q, ~ dependentOf w0 q x ->
          member indirectlyDisabled w2 q = member indirectlyDisabled w0 q).
Proof.
  intros Hset Hx Hoff Horder Hdepth.
  set (w1 := modify x (setEnabled false) w0).
  destruct (ResolvedSet_setEnabled w0 x false Hset)
    as [Hclosed1 Hsym1 Hacyc1 Hnoflag1 Hstack1].
  fold w1 in Hclosed1, Hsym1, Hacyc1, Hnoflag1, Hstack1.
  destruct (propagate_each w1 depth order w1
              (propagates w1 Hclosed1 Hsym1 Hacyc1 Hnoflag1 depth)
              (FlagsOnly_refl w1))
    as (w2 & Hrun & Hflags & _ & _ & Hsteps & _ & Hok).
  { intros q Hq. split; [by apply is_Some_setEnabled, Horder|].
    rewrite Hstack1. by intros s ?%elem_of_nil. }
  { unfold offStack. rewrite Hstack1. simpl.
    rewrite difference_empty_L, size_dom.
    rewrite <- (size_dom (D:=gset nat)), dom_alter_L, size_dom. exact Hdepth. }
  exists w2. split; [exact Hrun|].
  assert (Hall : forall p, LocallyOk w2 p).
  { intros p d Hp. refine (Hok p _ d Hp). right. exists p. split; [|by left].
    destruct (FlagsOnly_lookup _ _ _ _ Hflags Hp) as (d1 & Hd1 & _).
    apply Horder, (is_Some_setEnabled w0 x false p). by exists d1. }
  assert (Hx2 : exists dx2, heap w2 !! x = Some dx2 /\ unavailable dx2 = true).
  { destruct (FlagsOnly_lookup0 _ _ _ _ Hflags (heap_modify_eq w0 x _ dx Hx))
      as (dx2 & Hdx2 & Hf).
    exists dx2. split; [done|]. rewrite Hf. unfold unavailable.
    change (isEnabled (set_indirectlyDisabled (indirectlyDisabled dx2)
                         (setEnabled false dx)))
      with (isEnabled (setEnabled false dx)).
    rewrite Hoff. simpl. apply orb_true_iff. left. apply orb_true_r. }
  assert (Hedge : forall q r dr, dependsOn w0 q r -> heap w2 !! r = Some dr ->
            unavailable dr = true ->
            member indirectlyDisabled w2 q = Some true).
  { intros q r dr (dq0 & Hq0 & Hin) Hr Hun.
    destruct (proj2 (is_Some_setEnabled w0 x false q)) as [dq1 Hq1]; [by exists dq0|].
    fold w1 in Hq1.
    destruct (FlagsOnly_lookup0 _ _ _ _ Hflags Hq1) as (dq2 & Hq2 & Hfq).
    apply lookup_setEnabled in Hq1 as (dq0' & Hq0' & Hdeps & _).
    assert (dq0' = dq0) as -> by congruence.
    unfold member. rewrite Hq2. simpl. f_equal.
    eapply (LocallyOk_unavailable w2 q dq2 r dr); [apply Hall|done| |done..].
    by rewrite (flagOnly_dependencySpecs _ _ Hfq), Hdeps. }
  split; [|split].
  - destruct Hx2 as (dx2 & Hx2 & Hunx). clear - Hedge Hx2 Hunx.
    intros q Hq. unfold dependentOf in Hq.
    induction Hq as [q r Hqr|q r s Hqr Hrs IH].
    + by apply (Hedge q r _ Hqr Hx2).
    + specialize (IH Hx2). unfold member in IH.
      destruct (heap w2 !! r) as [dr|] eqn:Hr; [|done]. injection IH as IH.
      apply (Hedge q r dr Hqr Hr). unfold unavailable. rewrite IH.
      by destruct (hasError dr).
  - apply LocallyOk_Consistent; [|done]. by eapply FlagsOnly_Closed.
  - intros Hcons.
    assert (Hothers : forall p, ~ dependentOf w0 p x -> heap w2 !! p = heap w1 !! p).
    { by apply (recomputes_keep_others w0 x Hset Hcons (heap w1)). }
    intros q Hq. unfold member. rewrite Hothers by done.
    unfold w1. rewrite heap_modify. case_decide as Hqx; [|done]. subst q.
    rewrite Hx. simpl. f_equal. apply setEnabled_flagOnly_members.
Qed.

Lemma disabling_propagates_to_dependents_witness :
  let specs := [readSpec "A" []; readSpec "B" ["A"]; readSpec "C" ["B"];
                readSpec "D" []] in
  let m := PluginManager.mk [(None, 0); (None, 1); (None, 2); (None, 3)]%nat [] "" in
  let order := [0; 1; 2; 3]%nat in
  exists w0,
    PluginManager.resolveDependencies 5 m (worldOf specs) = Ok w0
    /\ resolvedSetb w0 = true
    /\ coversb w0 order = true
    /\ exists w2,
         PluginManager.resolveIndirectlyDisabledEach 5 order
           (modify 0 (setEnabled false) w0) = Ok w2
         /\ (forall q, dependentOf w0 q 0 ->
               member indirectlyDisabled w2 q = Some true)
         /\ Consistent w2
         /\ (forall q, ~ dependentOf w0 q 0 ->
               member indirectlyDisabled w2 q = member indirectlyDisabled w0 q).
Proof.
  intros specs m order.
  destruct (PluginManager.resolveDependencies 5 m (worldOf specs))
    as [w0| |] eqn:E; try (vm_compute in E; discriminate E).
  vm_compute in E. injection E as <-.
  eexists. split; [reflexivity|].
  match goal with |- resolvedSetb ?w = true /\ _ =>
    assert (Hset : resolvedSetb w = true) by (vm_compute; reflexivity);
    assert (Hcovers : coversb w order = true) by (vm_compute; reflexivity)
  end.
  split; [exact Hset|]. split; [exact Hcovers|].
  destruct (resolvedSetb_sound _ Hset) as [Hresolved Hcons].
  match type of Hresolved with ResolvedSet ?w0 =>
    destruct (heap w0 !! 0%nat) as [dx|] eqn:Hx;
      [|vm_compute in Hx; discriminate Hx]
  end.
  destruct (disabling_propagates_to_dependents _ order 5 0 dx Hresolved Hx)
    as (w2 & Hrun & Hdependents & Hcons2 & Hothers).
  - vm_compute in Hx. injection Hx as <-. vm_compute. reflexivity.
  - exact (coversb_sound _ _ Hcovers).
  - vm_compute. lia.
  - exists w2. split; [exact Hrun|]. split; [exact Hdependents|].
    split; [exact Hcons2|]. exact (Hothers Hcons).
Defined.

(** The counterexample to C3 as stated.  "B" depends on "A", "X" stands
    alone; all are resolved.  [loadPlugin] fails on "A" and reports the
    error, which leaves "A" Resolved and the flag of "B" as it was.  After
    "X" is disabled, the propagation sets the flag of "B", which does not
    depend on "X". *)
Lemma disabling_changes_stale_flag :
  let specs := [readSpec "A" []; readSpec "B" ["A"]; readSpec "X" []] in
  let m := PluginManager.mk [(None, 0); (None, 1); (None, 2)]%nat [] "" in
  let order := [0; 1; 2]%nat in
  exists w w0 w2,
    PluginManager.resolveDependencies 5 m (worldOf specs) = Ok w
    /\ loadPlugin brokenLoaderEnv 0 w = Ok (None, w0)
    /\ member hasError w0 0 = Some true
    /\ ResolvedSet w0
    /\ (forall p d, heap w0 !! p = Some d -> state d = Resolved)
    /\ PluginManager.resolveIndirectlyDisabledEach 5 order
         (modify 2 (setEnabled false) w0) = Ok w2
    /\ ~ dependentOf w0 1 2
    /\ member indirectlyDisabled w0 1 = Some false
    /\ member indirectlyDisabled w2 1 = Some true.
Proof.
  intros specs m order.
  destruct (PluginManager.resolveDependencies 5 m (worldOf specs))
    as [w| |] eqn:E; try (vm_compute in E; discriminate E).
  vm_compute in E. injection E as <-.
  eexists _, _, _. split; [reflexivity|].
  split; [vm_compute; reflexivity|].
  split; [vm_compute; reflexivity|].
  match goal with |- ResolvedSet ?w0 /\ _ =>
    assert (Hranked : rankedb w0 = true) by (vm_compute; reflexivity);
    assert (Hset : ResolvedSet w0)
      by (apply graphb_sound; vm_compute; reflexivity);
    assert (Hstates : forallb (fun pd => bool_decide (state pd.2 = Resolved))
                        (Checks.specs w0) = true) by (vm_compute; reflexivity)
  end.
  split; [exact Hset|]. split.
  { intros p d Hp. pose proof (proj1 (specs_forallb _ _) Hstates p d Hp) as H.
    by apply bool_decide_eq_true in H. }
  split; [vm_compute; reflexivity|]. split.
  { intros Hdep%(rankedb_dependentOf _ _ _ Hranked). lia. }
  split; vm_compute; reflexivity.
Qed.

End DisablePropagates.

(** * Runs of [initializePlugins] *)

Section Ensures.
Import RunNotions.

Lemma ensures_bind {A B : Type} (m : Result A) (f : A -> Result B) (P : A -> Prop)
    (Q : B -> Prop) :
  ensures m P -> (forall a, P a -> ensures (f a) Q) -> ensures (m ≫= f) Q.
Proof. destruct m as [a| |]; simpl; auto. Qed.

Lemma ensures_mono {A : Type} (m : Result A) (P Q : A -> Prop) :
  ensures m P -> (forall a, P a -> Q a) -> ensures m Q.
Proof. destruct m as [a| |]; simpl; auto. Qed.

Lemma ensures_Ok {A : Type} (m : Result A) (P : A -> Prop) (a : A) :
  ensures m P -> m = Ok a -> P a.
Proof. by intros H ->. Qed.

Lemma ensures_not_fuel {A : Type} (m : Result A) (P : A -> Prop) :
  ensures m P -> m <> OutOfFuel.
Proof. by intros H ->. Qed.

Lemma ensures_and {A : Type} (r : Result A) (P Q : A -> Prop) :
  ensures r P -> ensures r Q -> ensures r (fun a => P a /\ Q a).
Proof. by destruct r. Qed.

Lemma ensures_forEach {A S : Type} (body : A -> S -> Result S) (I : S -> Prop)
    (l : list A) (s : S) :
  I s -> (forall x s, x ∈ l -> I s -> ensures (body x s) I) ->
  ensures (forEach body l s) I.
Proof.
  revert s. induction l as [|x l IH]; intros s Hs Hbody; simpl; [done|].
  eapply ensures_bind.
  - apply Hbody; [apply list_elem_of_here|done].
  - intros s' Hs'. apply IH; [done|]. intros y s'' Hy. apply Hbody.
    by apply list_elem_of_further.
Qed.

End Ensures.

Section Simple.
Import PluginSpec RunNotions.
Implicit Types (w v : World) (p q : nat) (d : PluginSpecPrivate).

Lemma ensures_deref w p :
  ensures (deref w p) (fun d => heap w !! p = Some d).
Proof. unfold deref. by destruct (heap w !! p). Qed.

Lemma ensures_assert (c : bool) : ensures (assert_ c) (fun _ => c = true).
Proof. by destruct c. Qed.

Lemma anyUnavailable_ensures w l : ensures (anyUnavailable w l) (fun _ => True).
Proof.
  induction l as [|r l IH]; simpl; [done|].
  eapply ensures_bind; [apply ensures_deref|]. intros dr _.
  by destruct (unavailable dr).
Qed.

Lemma pluginOrderFrom_ensures w this stack pluginOrder :
  ensures (pluginOrderFrom w this stack pluginOrder) (fun _ => True).
Proof.
  revert pluginOrder. induction stack as [|s stack IH]; intros pluginOrder; simpl;
    [done|].
  eapply ensures_bind; [apply ensures_deref|]. intros ds _.
  by case_decide.
Qed.

Lemma joinNames_ensures w l : ensures (joinNames w l) (fun _ => True).
Proof.
  induction l as [|p l IH]; [done|].
  destruct l as [|p' l].
  - simpl. eapply ensures_bind; [apply ensures_deref|]. done.
  - change (joinNames w (p :: p' :: l))
      with (dp ← deref w p; text ← joinNames w (p' :: l);
            Ok (name dp +:+ " -> " +:+ text)).
    eapply ensures_bind; [apply ensures_deref|]. intros dp _.
    eapply ensures_bind; [apply IH|]. done.
Qed.

Lemma circularityText_ensures w l name_ :
  ensures (circularityText w l name_) (fun _ => True).
Proof.
  unfold circularityText. eapply ensures_bind; [apply joinNames_ensures|]. done.
Qed.

Lemma allLoaded_ensures w l : ensures (allLoaded w l) (fun _ => True).
Proof.
  induction l as [|r l IH]; simpl; [done|].
  eapply ensures_bind; [apply ensures_deref|]. intros dr _.
  by destruct (plugin dr).
Qed.

End Simple.

Section PropagationReturns.
Import PluginSpec Propagation RunNotions.
Implicit Types (w v : World) (p q : nat) (d : PluginSpecPrivate).
Local Arguments mbind : simpl never.

Lemma notFlagged_elem w p :
  p ∈ notFlagged w <->
  exists d, heap w !! p = Some d /\ circularDependencyDetected d = false.
Proof.
  unfold notFlagged. rewrite elem_of_dom. unfold is_Some.
  setoid_rewrite map_lookup_filter_Some. simpl. split.
  - intros (d & Hd & Hc). by exists d.
  - intros (d & Hd & Hc). by exists d.
Qed.

Lemma notFlagged_modify w p f :
  (forall d, circularDependencyDetected d = true ->
             circularDependencyDetected (f d) = true) ->
  notFlagged (modify p f w) ⊆ notFlagged w.
Proof.
  intros Hf q. rewrite !notFlagged_elem, heap_modify. case_decide; [subst q|done].
  destruct (heap w !! p) as [d|]; simpl; [|by intros (? & [=] & _)].
  intros (d' & [= <-] & Hc). exists d. split; [done|].
  destruct (circularDependencyDetected d) eqn:E; [|done]. by rewrite (Hf d E) in Hc.
Qed.

Lemma notFlagged_flagged w this d f :
  heap w !! this = Some d -> circularDependencyDetected d = false ->
  (forall d, circularDependencyDetected (f d) = true) ->
  notFlagged (modify this f w) ⊂ notFlagged w.
Proof.
  intros Hd Hc Hf. split.
  - apply notFlagged_modify. intros d' _. apply Hf.
  - intros Hsub. specialize (Hsub this). rewrite !notFlagged_elem in Hsub.
    destruct Hsub as (d' & Hd' & Hc'); [by exists d|].
    rewrite (heap_modify_eq _ _ _ _ Hd) in Hd'. injection Hd' as <-.
    by rewrite Hf in Hc'.
Qed.

Lemma circular_reportError err d :
  circularDependencyDetected (reportError err d) = circularDependencyDetected d.
Proof. unfold reportError. by case_decide. Qed.

Lemma Propagated_refl w : Propagated w w.
Proof. by repeat split. Qed.

Lemma Propagated_trans w1 w2 w3 :
  Propagated w1 w2 -> Propagated w2 w3 -> Propagated w1 w3.
Proof.
  intros (Hs1 & Hd1 & Ht1 & Hn1) (Hs2 & Hd2 & Ht2 & Hn2).
  split_and!; [congruence..|]. by etrans.
Qed.

Lemma Propagated_measure w w' :
  Propagated w w' -> (propagationMeasure w' <= propagationMeasure w)%nat.
Proof.
  intros (Hs & Hd & _ & Hn). unfold propagationMeasure, offStack.
  rewrite Hs, Hd. apply subseteq_size in Hn. lia.
Qed.

(** The specs off the stack after a push. *)
Lemma offStack_push_le this w v :
  dom (heap v) = dom (heap w) ->
  resolvedPluginsStack v = this :: resolvedPluginsStack w ->
  (size (offStack v v) <= size (offStack w w))%nat.
Proof.
  intros Hd Hs. apply subseteq_size. unfold offStack. rewrite Hd, Hs.
  intros x. rewrite !elem_of_difference, !elem_of_list_to_set.
  intros [Hx Hn]. split; [done|]. intros Hin. apply Hn. by apply list_elem_of_further.
Qed.

Lemma offStack_push_lt this w v d :
  dom (heap v) = dom (heap w) ->
  resolvedPluginsStack v = this :: resolvedPluginsStack w ->
  heap w !! this = Some d -> this ∉ resolvedPluginsStack w ->
  (size (offStack v v) < size (offStack w w))%nat.
Proof.
  intros Hd Hs Hthis Hnotin. apply subset_size. unfold offStack. rewrite Hd, Hs.
  split.
  - intros x. rewrite !elem_of_difference, !elem_of_list_to_set.
    intros [Hx Hn]. split; [done|]. intros Hin. apply Hn.
    by apply list_elem_of_further.
  - intros Hsub. specialize (Hsub this).
    rewrite !elem_of_difference, !elem_of_list_to_set in Hsub.
    destruct Hsub as [_ Hn]; [|apply Hn, list_elem_of_here].
    split; [|done]. apply elem_of_dom. by exists d.
Qed.

(** The [foreach] over the dependents, given that each call returns. *)
Lemma propagation_each_ensures depth force w l :
  (forall this v, (propagationMeasure v < depth)%nat ->
     ensures (resolveIndirectlyDisabled depth force this v) (Propagated v)) ->
  (propagationMeasure w < depth)%nat ->
  ensures (forEach (fun providesSpec w =>
                      resolveIndirectlyDisabled depth force providesSpec w) l w)
    (Propagated w).
Proof.
  intros Hcall Hw. apply ensures_forEach; [apply Propagated_refl|].
  intros x v _ Hv. eapply ensures_mono.
  - apply Hcall. apply Propagated_measure in Hv. lia.
  - intros v'. by apply Propagated_trans.
Qed.

Lemma pop_ensures this w w0 :
  resolvedPluginsStack w = this :: resolvedPluginsStack w0 ->
  dom (heap w) = dom (heap w0) -> trace w = trace w0 ->
  notFlagged w ⊆ notFlagged w0 ->
  ensures (pop this w) (Propagated w0).
Proof.
  intros Hs Hd Ht Hn. unfold pop. rewrite Hs, decide_True by done. simpl.
  by repeat split.
Qed.

(** A call of [resolveIndirectlyDisabled] at any spec of any world returns
    or fails an assertion when the depth exceeds the measure; the stack, the
    set of specs and the trace are kept, and no cycle flag is cleared. *)
Lemma resolveIndirectlyDisabled_ensures depth :
  forall force this w,
    (propagationMeasure w < depth)%nat ->
    ensures (resolveIndirectlyDisabled depth force this w) (Propagated w).
Proof.
  induction depth as [|depth IH]; intros force this w Hmeasure; [lia|].
  simpl. eapply ensures_bind; [apply ensures_deref|]. intros d Hd. simpl.
  destruct (circularDependencyDetected d) eqn:Hcirc; [apply Propagated_refl|].
  destruct (QList.contains (resolvedPluginsStack w) this) eqn:Hstack.
  - apply contains_true in Hstack.
    set (w1 := modify this _ w).
    assert (Hflag : notFlagged w1 ⊂ notFlagged w).
    { by apply (notFlagged_flagged w this d). }
    eapply ensures_bind; [apply pluginOrderFrom_ensures|]. intros pluginOrder _.
    eapply ensures_bind.
    + apply (propagation_each_ensures depth true (push this w1)); [apply IH|].
      apply subset_size in Hflag.
      pose proof (offStack_push_le this w (push this w1) (dom_modify _ _ _) eq_refl).
      unfold propagationMeasure in *.
      change (notFlagged (push this w1)) with (notFlagged w1). lia.
    + intros w2 (Hs2 & Hd2 & Ht2 & Hn2). apply pop_ensures.
      * exact Hs2.
      * rewrite dom_modify, Hd2. apply dom_modify.
      * exact Ht2.
      * etrans; [apply notFlagged_modify|].
        { intros d' Hd'. by rewrite circular_reportError. }
        etrans; [exact Hn2|]. apply Hflag.
  - apply contains_false in Hstack.
    destruct (negb force && indirectlyDisabled d); [apply Propagated_refl|].
    set (wa := if force then modify this (set_indirectlyDisabled false) w else w).
    assert (Hda : dom (heap wa) = dom (heap w)).
    { unfold wa. destruct force; [apply dom_modify|done]. }
    assert (Hna : notFlagged wa ⊆ notFlagged w).
    { unfold wa. destruct force; [by apply notFlagged_modify|done]. }
    assert (Hsa : resolvedPluginsStack wa = resolvedPluginsStack w).
    { unfold wa. by destruct force. }
    assert (Hta : trace wa = trace w).
    { unfold wa. by destruct force. }
    eapply ensures_bind; [apply anyUnavailable_ensures|]. intros disabled _.
    set (wb := if disabled then modify this (set_indirectlyDisabled true) (push this wa)
               else push this wa).
    assert (Hdb : dom (heap wb) = dom (heap w)).
    { unfold wb. destruct disabled; [rewrite dom_modify|]; exact Hda. }
    assert (Hnb : notFlagged wb ⊆ notFlagged w).
    { unfold wb. destruct disabled; [|exact Hna].
      etrans; [by apply notFlagged_modify|exact Hna]. }
    assert (Hsb : resolvedPluginsStack wb = this :: resolvedPluginsStack w).
    { unfold wb. destruct disabled; simpl; by rewrite Hsa. }
    assert (Htb : trace wb = trace w).
    { unfold wb. by destruct disabled. }
    assert (Hmb : (propagationMeasure wb < depth)%nat).
    { pose proof (offStack_push_lt this w wb d Hdb Hsb Hd Hstack).
      apply subseteq_size in Hnb. unfold propagationMeasure in *. lia. }
    eapply ensures_bind with (P := Propagated wb).
    + destruct (disabled || force); [|apply Propagated_refl].
      apply propagation_each_ensures; [apply IH|exact Hmb].
    + intros w2 (Hs2 & Hd2 & Ht2 & Hn2). apply pop_ensures.
      * congruence.
      * congruence.
      * congruence.
      * by etrans.
Qed.

Lemma propagationMeasure_bound w :
  (propagationMeasure w <= 2 * size (heap w))%nat.
Proof.
  unfold propagationMeasure, offStack.
  assert (size (dom (heap w) ∖ list_to_set (resolvedPluginsStack w))
          <= size (dom (heap w)))%nat as H1.
  { apply subseteq_size. intros x. rewrite elem_of_difference. tauto. }
  assert (size (notFlagged w) <= size (dom (heap w)))%nat as H2.
  { apply subseteq_size. intros x. rewrite notFlagged_elem, elem_of_dom.
    intros (d & Hd & _). by exists d. }
  rewrite size_dom in H1, H2. lia.
Qed.

End PropagationReturns.

Section QueuesReturn.
Import PluginSpec Propagation RunNotions.
Implicit Types (w v : World) (p : nat) (q : Queues) (d : PluginSpecPrivate).
Local Arguments mbind : simpl never.

Lemma Queued_refl b q w : Queued q w (b, q, w).
Proof. by repeat split. Qed.

Lemma Queued_trans q w b1 q1 w1 r :
  Queued q w (b1, q1, w1) -> Queued q1 w1 r -> Queued q w r.
Proof.
  intros (Hd1 & Ht1 & Hc1) (Hd2 & Ht2 & Hc2). simpl in *.
  split_and!; [congruence..|]. by etrans.
Qed.

Lemma unchecked_le q w q' w' :
  dom (heap w') = dom (heap w) ->
  circularityCheckQueue q ⊆ circularityCheckQueue q' ->
  (size (unchecked q' w') <= size (unchecked q w))%nat.
Proof.
  intros Hd Hc. apply subseteq_size. unfold unchecked. rewrite Hd.
  intros x. rewrite !elem_of_difference, !elem_of_list_to_set.
  intros [Hx Hn]. split; [done|]. intros Hin. by apply Hn, Hc.
Qed.

Lemma unchecked_lt this q w d :
  heap w !! this = Some d -> this ∉ circularityCheckQueue q ->
  (size (unchecked (mkQueues (queue q) (circularityCheckQueue q ++ [this])) w)
   < size (unchecked q w))%nat.
Proof.
  intros Hd Hnotin. apply subset_size. unfold unchecked. simpl. split.
  - intros x. rewrite !elem_of_difference, !elem_of_list_to_set.
    intros [Hx Hn]. split; [done|]. intros Hin. apply Hn.
    apply elem_of_app. by left.
  - intros Hsub. specialize (Hsub this).
    rewrite !elem_of_difference, !elem_of_list_to_set in Hsub.
    destruct Hsub as [_ Hn].
    + split; [|done]. apply elem_of_dom. by exists d.
    + apply Hn, elem_of_app. right. apply list_elem_of_here.
Qed.

Lemma Queued_measure q w b q' w' (depth : nat) :
  Queued q w (b, q', w') -> (size (unchecked q w) < depth)%nat ->
  (size (unchecked q' w') < depth)%nat.
Proof.
  intros (Hd & _ & Hc) Hlt. simpl in *.
  pose proof (unchecked_le q w q' w' Hd Hc). lia.
Qed.

Lemma loadDependencies_ensures (depth : nat)
    (loadQueue_ : nat -> Queues -> World -> Result (bool * Queues * World))
    this dependencySpecs_ :
  (forall p q w, (size (unchecked q w) < depth)%nat ->
     ensures (loadQueue_ p q w) (Queued q w)) ->
  forall q w, (size (unchecked q w) < depth)%nat ->
    ensures (loadDependencies loadQueue_ this dependencySpecs_ q w) (Queued q w).
Proof.
  intros Hcall. induction dependencySpecs_ as [|pluginSpec rest IH];
    intros q w Hsize; simpl; [apply Queued_refl|].
  eapply ensures_bind; [by apply Hcall|].
  intros [[loaded q1] w1] Hq1. destruct loaded.
  - eapply ensures_mono.
    + apply IH. by eapply Queued_measure.
    + intros r Hr. exact (Queued_trans _ _ _ _ _ r Hq1 Hr).
  - eapply ensures_bind; [apply ensures_deref|]. intros d _.
    eapply ensures_bind; [apply ensures_deref|]. intros dp _. simpl.
    destruct Hq1 as (Hd1 & Ht1 & Hc1). simpl in *.
    split_and!; simpl; [by rewrite dom_alter_L|done..].
Qed.

(** [loadQueue] at any spec of any world returns or fails an assertion
    when the depth exceeds the number of specs not yet in the circularity
    check queue. *)
Lemma loadQueue_ensures depth :
  forall this q w, (size (unchecked q w) < depth)%nat ->
    ensures (loadQueue depth this q w) (Queued q w).
Proof.
  induction depth as [|depth IH]; intros this q w Hsize; [lia|].
  simpl. eapply ensures_bind; [apply ensures_deref|]. intros d Hd. simpl in Hd.
  eapply ensures_bind; [apply ensures_assert|]. intros _ _.
  destruct (negb (enabled d) || indirectlyDisabled d); [apply Queued_refl|].
  destruct (QList.contains (queue q) this); [apply Queued_refl|].
  destruct (QList.contains (circularityCheckQueue q) this) eqn:Hcheck.
  - eapply ensures_bind; [apply circularityText_ensures|]. intros text _.
    simpl. split_and!; simpl; [by rewrite dom_alter_L|done..].
  - apply contains_false in Hcheck.
    pose proof (unchecked_lt this q w d Hd Hcheck) as Hlt.
    eapply ensures_bind.
    + apply (loadDependencies_ensures depth); [exact IH|]. lia.
    + intros [[loaded q1] w1] (Hd1 & Ht1 & Hc1). simpl in *.
      assert (circularityCheckQueue q ⊆ circularityCheckQueue q1).
      { intros y Hy. apply Hc1, elem_of_app. by left. }
      by destruct loaded.
Qed.

(** The same for [unloadQueue]. *)
Lemma unloadQueue_ensures depth :
  forall this q w, (size (unchecked q w) < depth)%nat ->
    ensures (unloadQueue depth this q w) (Queued q w).
Proof.
  induction depth as [|depth IH]; intros this q w Hsize; [lia|].
  simpl. eapply ensures_bind; [apply ensures_deref|]. intros d Hd. simpl in Hd.
  eapply ensures_bind; [apply ensures_assert|]. intros _ _.
  destruct ((negb (enabled d) || indirectlyDisabled d) && lt (state d) Loaded);
    [apply Queued_refl|].
  destruct (QList.contains (queue q) this); [apply Queued_refl|].
  destruct (QList.contains (circularityCheckQueue q) this) eqn:Hcheck.
  - eapply ensures_bind; [apply circularityText_ensures|]. intros text _.
    simpl. split_and!; simpl; [by rewrite dom_alter_L|done..].
  - apply contains_false in Hcheck.
    pose proof (unchecked_lt this q w d Hd Hcheck) as Hlt.
    set (q0 := mkQueues (queue q) (circularityCheckQueue q ++ [this])) in *.
    eapply ensures_bind.
    + apply (ensures_forEach _ (fun s => Queued q0 w (true, s.1, s.2)));
        [apply Queued_refl|].
      intros pluginSpec [q1 w1] _ Hq1. simpl in Hq1.
      eapply ensures_bind.
      * apply IH. apply (Queued_measure _ _ _ _ _ _ Hq1). lia.
      * intros [[b2 q2] w2] Hq2. simpl.
        exact (Queued_trans _ _ _ _ _ (true, q2, w2) Hq1 Hq2).
    + intros [q1 w1] (Hd1 & Ht1 & Hc1). simpl in *.
      split_and!; simpl; [done..|].
      intros y Hy. apply Hc1, elem_of_app. by left.
Qed.

Lemma unchecked_fresh queue_ w :
  (size (unchecked (mkQueues queue_ []) w) <= size (heap w))%nat.
Proof.
  unfold unchecked. simpl. rewrite difference_empty_L, size_dom. lia.
Qed.

End QueuesReturn.

Section ManagerReturns.
Import PluginSpec Propagation RunNotions PluginManager.
Implicit Types (w v : World) (p : nat) (d : PluginSpecPrivate)
  (m : PluginManagerPrivate).
Local Arguments mbind : simpl never.

Lemma CalmStep_refl w : CalmStep w w.
Proof. split; [done|]. exists []. by rewrite app_nil_r. Qed.

Lemma CalmStep_trans w1 w2 w3 : CalmStep w1 w2 -> CalmStep w2 w3 -> CalmStep w1 w3.
Proof.
  intros (Hd1 & ev1 & Ht1 & Hc1) (Hd2 & ev2 & Ht2 & Hc2). split; [congruence|].
  exists (ev1 ++ ev2). rewrite Ht2, Ht1, app_assoc. split; [done|].
  by apply Forall_app.
Qed.

Lemma CalmStep_modify w p f : CalmStep w (modify p f w).
Proof. split; [apply dom_modify|]. exists []. by rewrite app_nil_r. Qed.

Lemma CalmStep_emit w e : calm e = true -> CalmStep w (emit e w).
Proof. intros He. split; [done|]. exists [e]. split; [done|]. by constructor. Qed.

Lemma CalmStep_size w w' : CalmStep w w' -> size (heap w') = size (heap w).
Proof. intros [Hd _]. by rewrite <- !(size_dom (D:=gset nat)), Hd. Qed.

Lemma dom_size w w' :
  dom (heap w') = dom (heap w) -> size (heap w') = size (heap w).
Proof. intros Hd. by rewrite <- !(size_dom (D:=gset nat)), Hd. Qed.

Ltac calm_steps :=
  repeat first
    [ apply CalmStep_refl
    | eapply CalmStep_trans; [|apply CalmStep_modify]
    | eapply CalmStep_trans; [|by apply CalmStep_emit] ].

Lemma initializePlugin_ensures env this w :
  ensures (initializePlugin env this w) (fun r => CalmStep w r.2).
Proof.
  unfold initializePlugin. eapply ensures_bind; [apply ensures_deref|].
  intros d _. destruct (plugin d) as [p|]; [|done].
  eapply ensures_bind; [apply ensures_assert|]. intros _ _.
  destruct (pluginInitialize env (trace w) p); simpl; calm_steps.
Qed.

Lemma unloadPlugin_ensures env this w :
  ensures (unloadPlugin env this w) (CalmStep w).
Proof.
  unfold unloadPlugin. eapply ensures_bind; [apply ensures_deref|].
  intros d _. destruct (plugin d) as [p|]; [|apply CalmStep_refl].
  simpl. destruct (ge (state d) Initialized), (loaderUnload env _ _); calm_steps.
Qed.

Lemma unloadPlugins_ensures env unloadQueue_ m w :
  ensures (unloadPlugins env unloadQueue_ m w) (fun r => CalmStep w r.2).
Proof.
  unfold unloadPlugins. apply ensures_forEach; [apply CalmStep_refl|].
  intros pluginSpec [m1 w1] _ Hw1. simpl in Hw1.
  eapply ensures_bind; [apply ensures_deref|]. intros d _.
  eapply ensures_bind; [apply unloadPlugin_ensures|]. intros w2 Hw2. simpl.
  by eapply CalmStep_trans.
Qed.

Lemma specsByName_ensures w pluginSpecs byName :
  ensures (specsByName w pluginSpecs byName) (fun _ => True).
Proof.
  revert byName. induction pluginSpecs as [|p l IH]; intros byName; simpl; [done|].
  eapply ensures_bind; [apply ensures_deref|]. intros d _. apply IH.
Qed.

(** The manager's [loadQueue] returns or fails an assertion, given depth
    for every spec; it leaves the specs and the trace. *)
Lemma manager_loadQueue_ensures depth m w :
  (size (heap w) < depth)%nat ->
  ensures (PluginManager.loadQueue depth m w)
    (fun r => dom (heap r.2) = dom (heap w) /\ trace r.2 = trace w).
Proof.
  intros Hsize. unfold PluginManager.loadQueue.
  eapply ensures_bind; [apply specsByName_ensures|]. intros pluginSpecs _.
  apply ensures_forEach; [done|].
  intros pluginSpec [queue_ w1] _ [Hd1 Ht1]. simpl in Hd1, Ht1.
  eapply ensures_bind; [apply ensures_deref|]. intros d _.
  destruct (ge (state d) Resolved); [|done].
  eapply ensures_bind.
  - apply (loadQueue_ensures depth).
    pose proof (unchecked_fresh queue_ w1). rewrite (dom_size _ _ Hd1) in *. lia.
  - intros [[b q] w2] (Hd2 & Ht2 & _). simpl in *. split; congruence.
Qed.

Lemma LoopEnds_step w w1 m m1 end_ :
  CalmStep w w1 ->
  pluginWhichRequestedShutdown m1 = pluginWhichRequestedShutdown m ->
  LoopEnds w1 m1 end_ -> LoopEnds w m end_.
Proof.
  intros (_ & ev1 & Ht1 & Hc1) Hm. destruct end_ as [m' w'|b m' w']; simpl.
  - intros (events & pluginSpec & d & p & text & Ht & Hc & Hd & Hp & Hname).
    exists (ev1 ++ events), pluginSpec, d, p, text.
    rewrite Ht, Ht1, <- !app_assoc. split; [done|]. split; [by apply Forall_app|].
    done.
  - intros (events & Ht & Hc & Hname). exists (ev1 ++ events).
    rewrite Ht, Ht1, <- !app_assoc. split; [done|]. split; [by apply Forall_app|].
    congruence.
Qed.

(** A failed [initializePlugin]: the call of [IPlugin::initialize] that
    returned false and the warning are what it emits, and the spec keeps its
    plugin and its name. *)
Lemma initializePlugin_failed env this w :
  ensures (initializePlugin env this w)
    (fun r => r.1 = false ->
       exists d1 p text,
         trace r.2 = trace w ++ [PluginInitialize p false; Warning text]
         /\ heap r.2 !! this = Some d1 /\ plugin d1 = Some p).
Proof.
  unfold initializePlugin. eapply ensures_bind; [apply ensures_deref|].
  intros d Hd. simpl in Hd. destruct (plugin d) as [p|] eqn:Hp; [|done].
  eapply ensures_bind; [apply ensures_assert|]. intros _ _.
  destruct (pluginInitialize env (trace w) p); simpl; [done|]. intros _.
  eexists _, p, _. split; [by rewrite <- app_assoc|]. split.
  - rewrite !lookup_alter_eq, Hd. simpl. reflexivity.
  - simpl. unfold reportError. by case_decide.
Qed.

Lemma unloadPlugins_keeps_request env unloadQueue_ m w :
  ensures (unloadPlugins env unloadQueue_ m w)
    (fun r => pluginWhichRequestedShutdown r.1 = pluginWhichRequestedShutdown m).
Proof.
  unfold unloadPlugins. apply ensures_forEach; [done|].
  intros pluginSpec [m1 w1] _ Hm1. simpl in Hm1.
  eapply ensures_bind; [apply ensures_deref|]. intros d _.
  eapply ensures_bind; [apply unloadPlugin_ensures|]. intros w2 _. simpl. done.
Qed.

(** The loop of [initializePlugins] ends, given depth for twice the number
    of specs. *)
Lemma initializeLoop_ensures depth env pluginLoadQueue :
  forall allInitialized m w,
    (2 * size (heap w) < depth)%nat ->
    ensures (initializeLoop depth env pluginLoadQueue allInitialized m w)
      (LoopEnds w m).
Proof.
  induction pluginLoadQueue as [|pluginSpec rest IH]; intros allInitialized m w Hsize;
    simpl.
  { exists []. by rewrite app_nil_r. }
  eapply ensures_bind; [apply ensures_deref|]. intros d _.
  destruct (bool_decide (state d = Loaded)); [|by apply IH].
  set (w0 := emit (MonitorSetStatus (name d)) w).
  eapply ensures_bind.
  { apply ensures_and; [apply initializePlugin_ensures|apply initializePlugin_failed]. }
  intros [initialized w1] [Hw1 Hfailed]. simpl in Hw1, Hfailed.
  assert (Hstep1 : CalmStep w w1).
  { eapply CalmStep_trans; [|exact Hw1]. by apply CalmStep_emit. }
  pose proof (CalmStep_size _ _ Hstep1) as Hsize1.
  destruct initialized.
  { eapply ensures_mono; [apply IH; lia|]. intros end_.
    by apply LoopEnds_step. }
  destruct (Hfailed eq_refl) as (d1' & p' & text & Ht1 & Hd1' & Hp').
  eapply ensures_bind; [apply ensures_deref|]. intros d1 Hd1. simpl in Hd1.
  assert (d1 = d1') as -> by congruence. rewrite Hp'.
  destruct (pluginIsShutdownRequested env (trace w1) p') eqn:Hrequested.
  { cbn [ensures LoopEnds].
    exists [MonitorSetStatus (name d)], pluginSpec, d1', p', text.
    split; [simpl; rewrite Ht1, <- !app_assoc; reflexivity|].
    split; [by repeat constructor|]. done. }
  set (w2 := emit (PluginIsShutdownRequested p' false) w1).
  assert (Hstep2 : CalmStep w w2).
  { eapply CalmStep_trans; [exact Hstep1|]. by apply CalmStep_emit. }
  eapply ensures_bind.
  { apply (unloadQueue_ensures depth).
    pose proof (unchecked_fresh [] w2). pose proof (CalmStep_size _ _ Hstep2). lia. }
  intros [[b q] w3] (Hd3 & Ht3 & _). simpl in Hd3, Ht3.
  eapply ensures_bind.
  { apply ensures_and; [apply unloadPlugins_ensures|apply unloadPlugins_keeps_request]. }
  intros [m4 w4] [Hw4 Hm4]. simpl in Hw4, Hm4.
  assert (Hstep4 : CalmStep w w4).
  { eapply CalmStep_trans; [exact Hstep2|]. eapply CalmStep_trans; [|exact Hw4].
    split; [done|]. exists []. by rewrite app_nil_r. }
  pose proof (CalmStep_size _ _ Hstep4) as Hsize4.
  eapply ensures_bind.
  { apply (resolveIndirectlyDisabled_ensures depth).
    pose proof (propagationMeasure_bound w4). lia. }
  intros w5 (_ & Hd5 & Ht5 & _).
  assert (Hstep5 : CalmStep w w5).
  { eapply CalmStep_trans; [exact Hstep4|]. split; [done|].
    exists []. by rewrite app_nil_r. }
  eapply ensures_mono.
  - apply IH. rewrite (CalmStep_size _ _ Hstep5). lia.
  - intros end_. by apply LoopEnds_step.
Qed.

Lemma calm_quiet events :
  Forall (fun e => calm e = true) events ->
  existsb isShutdownRequest events = false
  /\ emitted PluginsInitialized events = 0%nat.
Proof.
  induction 1 as [|e events He _ [IH1 IH2]]; [done|].
  unfold emitted in *. simpl. rewrite IH1. rewrite filter_cons. split.
  - rewrite orb_false_r. by destruct e as [| | | | |? []| | |].
  - case_decide as Heq; [by subst e|done].
Qed.

End ManagerReturns.

Section Notification.
Import PluginSpec SpecNotions Propagation RunNotions PluginManager.
Implicit Types (w v : World) (m : PluginManagerPrivate).
Local Arguments mbind : simpl never.

Lemma emitted_app ev events1 events2 :
  emitted ev (events1 ++ events2)
  = (emitted ev events1 + emitted ev events2)%nat.
Proof. unfold emitted. by rewrite filter_app, length_app. Qed.

(** A run of [initializePlugins] that is given depth: what it returns,
    emits and leaves in [pluginWhichRequestedShutdown], if no assertion
    fails. *)
Lemma initializePlugins_ensures depth env m w :
  (2 * size (heap w) < depth)%nat ->
  ensures (initializePlugins depth env m w)
    (fun r =>
       exists events,
         trace r.2 = trace w ++ events
         /\ if existsb isShutdownRequest events
            then r.1.1 = false
                 /\ emitted PluginsInitialized events = 0%nat
                 /\ exists before pluginSpec d p text,
                      events = before ++ [PluginInitialize p false; Warning text;
                                          PluginIsShutdownRequested p true]
                      /\ heap r.2 !! pluginSpec = Some d /\ plugin d = Some p
                      /\ pluginWhichRequestedShutdown r.1.2 = name d
            else emitted PluginsInitialized events = 1%nat
                 /\ last events = Some PluginsInitialized
                 /\ pluginWhichRequestedShutdown r.1.2 = "").
Proof.
  intros Hsize. unfold initializePlugins.
  eapply ensures_bind; [apply manager_loadQueue_ensures; lia|].
  intros [pluginLoadQueue w1] [Hd1 Ht1]. simpl in Hd1, Ht1.
  eapply ensures_bind.
  { apply initializeLoop_ensures. rewrite (dom_size _ _ Hd1). exact Hsize. }
  intros [m' w'|allInitialized m' w']; simpl.
  - intros (events & pluginSpec & d & p & text & Ht & Hcalm & Hd & Hp & Hname).
    exists (events ++ [PluginInitialize p false; Warning text;
                       PluginIsShutdownRequested p true]).
    destruct (calm_quiet _ Hcalm) as [Hquiet Hnone].
    rewrite Ht, Ht1. split; [done|].
    rewrite existsb_app, emitted_app, Hnone. simpl. rewrite orb_true_r.
    split; [done|]. split; [done|]. by exists events, pluginSpec, d, p, text.
  - intros (events & Ht & Hcalm & Hname). exists (events ++ [PluginsInitialized]).
    destruct (calm_quiet _ Hcalm) as [Hquiet Hnone].
    rewrite Ht, Ht1, <- app_assoc. split; [done|].
    rewrite existsb_app, emitted_app, Hnone, Hquiet. simpl.
    split; [done|]. split; [apply last_snoc|]. by rewrite Hname.
Qed.

(** C6, amended.  A run of [initializePlugins] with depth for twice the
    number of specs does not lack depth; when it returns, it has emitted
    [pluginsInitialized] exactly once, as its last event, and
    [pluginWhichRequestedShutdown] is empty, unless a plugin that failed to
    initialize answered yes to [isShutdownRequested]: then the failed call
    of [initialize], its warning and that answer are the last events of the
    run, which returns false with the name of the spec of that plugin in
    [pluginWhichRequestedShutdown] and has not emitted the notification. *)
Theorem initializePlugins_notifies_unless_shutdown depth env m w :
  (2 * size (heap w) < depth)%nat ->
  initializePlugins depth env m w <> OutOfFuel
  /\ forall allInitialized m' w',
       initializePlugins depth env m w = Ok (allInitialized, m', w') ->
       exists events,
         trace w' = trace w ++ events
         /\ if existsb isShutdownRequest events
            then allInitialized = false
                 /\ emitted PluginsInitialized events = 0%nat
                 /\ exists before pluginSpec d p text,
                      events = before ++ [PluginInitialize p false; Warning text;
                                          PluginIsShutdownRequested p true]
                      /\ heap w' !! pluginSpec = Some d /\ plugin d = Some p
                      /\ pluginWhichRequestedShutdown m' = name d
            else emitted PluginsInitialized events = 1%nat
                 /\ last events = Some PluginsInitialized
                 /\ pluginWhichRequestedShutdown m' = "".
Proof.
  intros Hsize. pose proof (initializePlugins_ensures depth env m w Hsize) as H.
  split; [by eapply ensures_not_fuel|].
  intros allInitialized m' w' Hrun.
  exact (ensures_Ok _ _ _ H Hrun).
Qed.

Lemma initializePlugins_notifies_unless_shutdown_witness :
  let env := exampleEnv false true in
  exists m w,
    LoadedExample.loaded env = Ok (m, w)
    /\ (2 * size (heap w) < 5)%nat
    /\ (exists m' w', initializePlugins 5 env m w = Ok (false, m', w')
                      /\ pluginWhichRequestedShutdown m' = "A")
    /\ initializePlugins 5 env m w <> OutOfFuel
    /\ forall allInitialized m' w',
         initializePlugins 5 env m w = Ok (allInitialized, m', w') ->
         exists events,
           trace w' = trace w ++ events
           /\ if existsb isShutdownRequest events
              then allInitialized = false
                   /\ emitted PluginsInitialized events = 0%nat
                   /\ exists before pluginSpec d p text,
                        events = before ++ [PluginInitialize p false; Warning text;
                                            PluginIsShutdownRequested p true]
                        /\ heap w' !! pluginSpec = Some d /\ plugin d = Some p
                        /\ pluginWhichRequestedShutdown m' = name d
              else emitted PluginsInitialized events = 1%nat
                   /\ last events = Some PluginsInitialized
                   /\ pluginWhichRequestedShutdown m' = "".
Proof.
  intros env.
  destruct (LoadedExample.loaded env) as [[m w]| |] eqn:E;
    try (vm_compute in E; discriminate E).
  vm_compute in E. injection E as <- <-.
  eexists _, _. split; [reflexivity|].
  match goal with |- (2 * size (heap ?w) < 5)%nat /\ _ =>
    assert (Hsize : (2 * size (heap w) < 5)%nat) by (vm_compute; lia)
  end.
  split; [exact Hsize|].
  split; [eexists _, _; split; vm_compute; reflexivity|].
  exact (initializePlugins_notifies_unless_shutdown 5 env _ _ Hsize).
Defined.

(** A plugin that fails to initialize and requests the shutdown: the run
    returns false and the notification is not in the trace. *)
Lemma initializePlugins_returns_without_notification :
  let env := exampleEnv false true in
  exists m w m' w',
    LoadedExample.loaded env = Ok (m, w)
    /\ initializePlugins 5 env m w = Ok (false, m', w')
    /\ pluginWhichRequestedShutdown m' = "A"
    /\ emitted PluginsInitialized (trace w') = 0%nat.
Proof.
  intros env. eexists _, _, _, _.
  split; [vm_compute; reflexivity|].
  split; [vm_compute; reflexivity|].
  split; vm_compute; reflexivity.
Qed.

End Notification.

(** * Further properties of the dependency graph *)

Section Cycles.
Import CallNotions.

Lemma forallb_false_elem {A : Type} (f : A -> bool) (l : list A) :
  forallb f l = false -> exists x, x ∈ l /\ f x = false.
Proof.
  induction l as [|a l IH]; simpl; [done|].
  destruct (f a) eqn:Ha; simpl.
  - intros (x & Hx & Hfx)%IH. exists x. split; [by apply list_elem_of_further|done].
  - intros _. exists a. split; [apply list_elem_of_here|done].
Qed.

Lemma tc_contract (E : nat -> nat -> bool) x n m :
  tc (fun a b => contract E x a b = true) n m ->
  tc (fun a b => E a b = true) n m.
Proof.
  assert (Hstep : forall a b, contract E x a b = true ->
                              tc (fun a b => E a b = true) a b).
  { intros a b. unfold contract. rewrite orb_true_iff, andb_true_iff.
    intros [Hab|[Hax Hxb]]; [by apply tc_once|].
    eapply tc_l; [exact Hax|]. by apply tc_once. }
  induction 1 as [a b Hab|a b c Hab _ IH]; [by apply Hstep|].
  eapply tc_trans; [by apply Hstep|done].
Qed.

(** In a finite non-empty set where every element is related to an element
    of the set, some element is on a cycle. *)
Lemma stuck_cycle (k : nat) :
  forall (E : nat -> nat -> bool) (S : list nat),
    (length S <= k)%nat -> S <> [] ->
    (forall n, n ∈ S -> exists m, m ∈ S /\ E n m = true) ->
    exists n, n ∈ S /\ tc (fun a b => E a b = true) n n.
Proof.
  induction k as [|k IH]; intros E S Hlen Hne Hsucc.
  { destruct S; [done|simpl in Hlen; lia]. }
  destruct S as [|x S0]; [done|]. simpl in Hlen.
  destruct (E x x) eqn:Hxx.
  { exists x. split; [apply list_elem_of_here|by apply tc_once]. }
  set (S' := filter (fun n => n <> x) S0).
  assert (Hin' : forall n, n ∈ S' <-> n ∈ x :: S0 /\ n <> x).
  { intros n. unfold S'. rewrite list_elem_of_filter, elem_of_cons. tauto. }
  assert (Hsucc' : forall n, n ∈ S' ->
            exists m, m ∈ S' /\ contract E x n m = true).
  { intros n [Hn Hnx]%Hin'. destruct (Hsucc n Hn) as (m & Hm & Hnm).
    destruct (decide (m = x)) as [->|Hmx].
    - destruct (Hsucc x) as (m' & Hm' & Hxm'); [apply list_elem_of_here|].
      exists m'. split.
      + apply Hin'. split; [done|]. intros ->. congruence.
      + unfold contract. by rewrite Hnm, Hxm', orb_true_r.
    - exists m. split; [by apply Hin'|]. unfold contract. by rewrite Hnm. }
  destruct S' as [|y S''] eqn:HS'.
  - destruct (Hsucc x) as (m & Hm & Hxm); [apply list_elem_of_here|].
    assert (m <> x) as Hmx by (intros ->; congruence).
    assert (m ∈ []) as []%elem_of_nil. by apply Hin'.
  - destruct (IH (contract E x) (y :: S'')) as (n & Hn & Hcycle); [|done|done|].
    { rewrite <- HS'. unfold S'. pose proof (length_filter (fun n => n <> x) S0). lia. }
    exists n. split; [by apply Hin'|]. by eapply tc_contract.
Qed.

End Cycles.

Section SortMore.
Context {T : Type} `{EqDecision T}.
Import DependencyGraph EdgeMatrix GraphSpec CallNotions.
Variable lessThan : T -> T -> bool.
Variable sortIndependent : bool.
Hypothesis lessThan_total :
  sortIndependent = true ->
  forall a b, a <> b -> lessThan a b = true \/ lessThan b a = true.

Implicit Types g : DependencyGraph T.

(** Where the loop breaks, every node number left has an edge to a node
    number left. *)
Lemma sortLoop_stuck fuel g remaining cache cache' rest :
  sortLoop fuel g remaining cache = Some (cache', rest) ->
  forall n, n ∈ rest -> exists m, m ∈ rest /\ hasEdge g n m = true.
Proof.
  revert remaining cache.
  induction fuel as [|fuel IH]; intros remaining cache; simpl;
    destruct (List.find _ remaining) as [n0|] eqn:Hfind.
  - by destruct (m_nodes g !! n0).
  - intros [= <- <-] n Hn. apply list_elem_of_In in Hn.
    pose proof (find_none _ _ Hfind n Hn) as Hdep. unfold independent in Hdep.
    apply forallb_false_elem in Hdep as (m & Hm & Hedge).
    exists m. split; [done|]. by apply negb_false_iff.
  - destruct (m_nodes g !! n0); simpl; [|done]. apply IH.
  - intros [= <- <-] n Hn. apply list_elem_of_In in Hn.
    pose proof (find_none _ _ Hfind n Hn) as Hdep. unfold independent in Hdep.
    apply forallb_false_elem in Hdep as (m & Hm & Hedge).
    exists m. split; [done|]. by apply negb_false_iff.
Qed.

(** What a fresh sort of a well-formed graph gives: the node numbers in
    some order [emitted], which no edge of the matrix contradicts, then
    those [rest] on which the loop is stuck. *)
Lemma freshSort_emitted g :
  Inv lessThan sortIndependent g ->
  exists emitted out rest,
    freshSort lessThan sortIndependent g = Some (out, rest)
    /\ emitted ++ rest ≡ₚ seq 0 (length (m_nodes g))
    /\ Forall2 (fun n x => m_nodes g !! n = Some x) emitted out
    /\ (forall i n m, emitted !! i = Some n ->
          m ∈ drop i emitted ++ rest -> hasEdge g n m = false)
    /\ (forall n, n ∈ rest -> exists m, m ∈ rest /\ hasEdge g n m = true).
Proof.
  intros [Hnd Hsq Hsize _]. unfold freshSort.
  pose proof (nodeNumbers_perm _ _ lessThan_total _ Hnd) as Hperm.
  set (rn := nodeNumbers lessThan sortIndependent (m_nodes g)) in *.
  destruct (sortLoop_total (length rn) g rn []) as
    (emitted & out & rest & Hloop & Hp & Hout & Hord); [|done|].
  { rewrite Hperm. apply Forall_forall. intros n Hn%elem_of_seq. lia. }
  exists emitted, out, rest. rewrite Hloop. split; [done|].
  split; [by rewrite <- Hp|]. split; [done|]. split; [done|].
  by eapply sortLoop_stuck.
Qed.

Lemma Forall2_lookup_perm (nodes : list T) (emitted : list nat) (out : list T) :
  Forall2 (fun n x => nodes !! n = Some x) emitted out ->
  emitted ≡ₚ seq 0 (length nodes) -> out ≡ₚ nodes.
Proof.
  intros Hout Hperm.
  assert (Hmap : omap (fun n => nodes !! n) emitted = out).
  { clear Hperm. induction Hout as [|n x emitted out Hn _ IH]; [done|].
    cbn [omap list_omap]. rewrite Hn. simpl. f_equal. exact IH. }
  assert (Hall : omap (fun n => nodes !! n) (seq 0 (length nodes)) = nodes).
  { clear. induction nodes as [|x nodes IH] using rev_ind; [done|].
    rewrite length_app, Nat.add_1_r, seq_S, omap_app. simpl.
    rewrite list_lookup_middle by done. f_equal. rewrite <- IH at 2.
    apply list_omap_ext. apply Forall2_same_length_lookup_2; [done|].
    intros i n n' Hn Hn'. assert (n' = n) as -> by congruence.
    apply lookup_seq in Hn as [-> Hi]. simpl.
    by rewrite lookup_app_l by lia. }
  rewrite <- Hmap.
  transitivity (omap (fun n => nodes !! n) (seq 0 (length nodes)));
    [by apply omap_Permutation|by rewrite Hall].
Qed.

(** In a graph whose fresh sort leaves nothing, edges only lead to node
    numbers emitted earlier: no node number is on a cycle. *)
Lemma freshSort_acyclic g l n :
  Inv lessThan sortIndependent g ->
  freshSort lessThan sortIndependent g = Some (l, []) ->
  ~ tc (fun a b => hasEdge g a b = true) n n.
Proof.
  intros HI Hfresh Hcycle.
  destruct (freshSort_emitted g HI)
    as (emitted & out & rest & Hfresh' & Hperm & _ & Hord & _).
  rewrite Hfresh in Hfresh'. injection Hfresh' as -> <-.
  rewrite app_nil_r in Hperm.
  assert (Hnd : NoDup emitted) by (rewrite Hperm; apply NoDup_seq).
  assert (Hin : forall a b, hasEdge g a b = true -> a ∈ emitted /\ b ∈ emitted).
  { intros a b Hab%hasEdge_range. pose proof (inv_size _ _ _ HI).
    rewrite Hperm, !elem_of_seq. lia. }
  assert (Hback : forall a b, tc (fun a b => hasEdge g a b = true) a b ->
            forall j, emitted !! j = Some a ->
            exists i, (i < j)%nat /\ emitted !! i = Some b).
  { induction 1 as [a b Hab|a b c Hab _ IH]; intros j Hj.
    - destruct (Hin a b Hab) as [Ha Hb].
      destruct (emitted_order g emitted a b) as (i & j' & Hij & Hi & Hj'); try done.
      { intros i n' m Hi Hm. apply (Hord i); [done|]. by rewrite app_nil_r. }
      assert (j' = j) as -> by (by eapply NoDup_lookup). by exists i.
    - destruct (Hin a b Hab) as [Ha Hb].
      destruct (emitted_order g emitted a b) as (i & j' & Hij & Hi & Hj'); try done.
      { intros i n' m Hi Hm. apply (Hord i); [done|]. by rewrite app_nil_r. }
      assert (j' = j) as -> by (by eapply NoDup_lookup).
      destruct (IH i Hi) as (i' & Hi' & Hc). exists i'. split; [lia|done]. }
  assert (n ∈ emitted) as [j Hj]%list_elem_of_lookup.
  { apply tc_rtc_r with (z := n) in Hcycle; [|done].
    inversion Hcycle as [? ? Hab|? b ? Hab _]; subst; by apply (Hin _ _ Hab). }
  destruct (Hback n n Hcycle j Hj) as (i & Hij & Hi).
  assert (i = j) by (by eapply NoDup_lookup). lia.
Qed.

(** [sort] fails its assertion exactly when some node number is on a cycle
    of edges of the matrix. *)
Lemma sort_None_cycle g :
  Inv lessThan sortIndependent g ->
  sort lessThan sortIndependent g = None <->
  exists n, tc (fun a b => hasEdge g a b = true) n n.
Proof.
  intros HI. split.
  - intros Hsort. unfold sort in Hsort.
    destruct (m_cacheIsValid g); [done|].
    fold (freshSort lessThan sortIndependent g) in Hsort.
    destruct (freshSort_emitted g HI)
      as (emitted & out & rest & Hfresh & _ & _ & _ & Hstuck).
    rewrite Hfresh in Hsort. simpl in Hsort.
    destruct rest as [|n0 rest]; [done|].
    destruct (stuck_cycle (length (n0 :: rest)) (hasEdge g) (n0 :: rest))
      as (n & _ & Hcycle); [done|done|done|]. by exists n.
  - intros [n Hcycle].
    destruct (sort lessThan sortIndependent g) as [[l g']|] eqn:Hsort; [|done].
    destruct (sort_fresh _ _ _ _ _ HI Hsort) as [Hfresh _].
    by destruct (freshSort_acyclic g l n HI Hfresh).
Qed.

Lemma call_nodes c g g' :
  call lessThan sortIndependent c g = Some g' ->
  m_nodes g' = m_nodes g ++ addedNodes [c].
Proof.
  destruct c as [node|d r|]; simpl.
  - unfold addNode. destruct (QList.contains _ _); [done|]. by intros [= <-].
  - unfold addEdge. destruct (_ && _); [|done]. intros [= <-]. simpl.
    by rewrite app_nil_r.
  - unfold sort. destruct (m_cacheIsValid g); simpl.
    + intros [= <-]. by rewrite app_nil_r.
    + destruct (sortLoop _ _ _ _) as [[cache rest]|]; simpl; [|done].
      destruct rest; simpl; [|done]. intros [= <-]. simpl. by rewrite app_nil_r.
Qed.

Lemma run_nodes calls g g' :
  run lessThan sortIndependent calls g = Some g' ->
  m_nodes g' = m_nodes g ++ addedNodes calls.
Proof.
  unfold run. revert g. induction calls as [|c calls IH]; intros g; simpl.
  - intros [= <-]. by rewrite app_nil_r.
  - destruct (call lessThan sortIndependent c g) as [g1|] eqn:Hcall; [|done].
    simpl. intros Hrun. rewrite (IH _ Hrun), (call_nodes _ _ _ Hcall), <- app_assoc.
    f_equal. by destruct c.
Qed.

(** Only [addEdge] sets a bit of the matrix. *)
Lemma call_sound (E : T -> T -> Prop) c g g' :
  Inv lessThan sortIndependent g ->
  (forall d r, Recorded g d r -> E d r) ->
  call lessThan sortIndependent c g = Some g' ->
  forall d r, Recorded g' d r -> E d r \/ c = AddEdge d r.
Proof.
  intros HI HE Hcall d r Hrec. destruct c as [node|d0 r0|]; simpl in Hcall.
  - left. apply HE.
    destruct (addNode_Inv lessThan sortIndependent _ _ _ HI Hcall) as (HI' & Hn & He).
    destruct (Recorded_index _ _ _ Hrec) as (di & ri & Hdi & Hri & Hedge).
    rewrite <- (hasEdge_edges g g') in Hedge by done.
    apply hasEdge_range in Hedge as Hrange. pose proof (inv_size _ _ _ HI).
    rewrite Hn, lookup_app_l in Hdi, Hri by lia.
    by apply (index_Recorded g d r di ri); [apply HI|..].
  - destruct (addEdge_Inv lessThan sortIndependent _ _ _ _ HI Hcall)
      as (di & ri & Hdi & Hri & HI' & Hn & Hbit).
    destruct (Recorded_index _ _ _ Hrec) as (di' & ri' & Hdi' & Hri' & Hedge).
    rewrite hasEdge_bit, Hbit in Hedge by apply HI'. rewrite Hn in Hdi', Hri'.
    case_decide as Hdec.
    + right. destruct Hdec as [-> ->]. congruence.
    + left. apply HE. apply (index_Recorded g d r di' ri'); [apply HI|done..|].
      by rewrite hasEdge_bit by apply HI.
  - left. apply HE.
    destruct (sort lessThan sortIndependent g) as [[l g'']|] eqn:Hsort; [|done].
    simpl in Hcall. injection Hcall as ->.
    destruct (sort_fresh _ _ _ _ _ HI Hsort) as (_ & Hn & He & HI').
    destruct Hrec as (Hd & Hr & Hedge).
    unfold Recorded. rewrite <- Hn. rewrite (hasEdge_edges g g') by done. auto.
Qed.

Lemma run_sound (E : T -> T -> Prop) calls g g' :
  Inv lessThan sortIndependent g ->
  (forall d r, Recorded g d r -> E d r) ->
  run lessThan sortIndependent calls g = Some g' ->
  forall d r, Recorded g' d r -> E d r \/ added calls d r.
Proof.
  unfold run, added.
  revert E g. induction calls as [|c calls IH]; intros E g HI HE Hrun; simpl in Hrun.
  - injection Hrun as <-. intros d r Hrec. left. by apply HE.
  - destruct (call lessThan sortIndependent c g) as [g1|] eqn:Hcall; [|done].
    simpl in Hrun.
    destruct (call_Inv lessThan sortIndependent (fun _ _ => False) _ _ _ HI
                ltac:(done) Hcall) as [HI1 _].
    pose proof (call_sound E _ _ _ HI HE Hcall) as HE1.
    intros d r Hrec.
    destruct (IH (fun d r => E d r \/ c = AddEdge d r) _ HI1 HE1 Hrun d r Hrec)
      as [[?| ->]|?]; [by left|right..].
    + apply list_elem_of_here.
    + by apply list_elem_of_further.
Qed.

End SortMore.

Lemma nat_ltb_total (sortIndependent : bool) :
  sortIndependent = true ->
  forall a b : nat, a <> b -> (a <? b)%nat = true \/ (b <? a)%nat = true.
Proof. intros _ a b Hne. rewrite !Nat.ltb_lt. lia. Qed.

Section GraphCalls.
Context {T : Type} `{EqDecision T}.
Import DependencyGraph EdgeMatrix GraphSpec CallNotions.
Variable lessThan : T -> T -> bool.
Variable sortIndependent : bool.
Hypothesis lessThan_total :
  sortIndependent = true ->
  forall a b, a <> b -> lessThan a b = true \/ lessThan b a = true.

Implicit Types g : DependencyGraph T.

Lemma run_empty_Inv calls g :
  run lessThan sortIndependent calls empty = Some g ->
  Inv lessThan sortIndependent g
  /\ m_nodes g = addedNodes calls
  /\ forall d r, Recorded g d r <-> added calls d r.
Proof.
  intros Hrun.
  destruct (run_Inv lessThan sortIndependent (fun _ _ => False) _ _ _
              (empty_Inv lessThan sortIndependent) ltac:(done) Hrun) as [HI HE].
  split; [done|]. split; [by rewrite (run_nodes _ _ _ _ _ Hrun)|].
  intros d r. split.
  - intros Hrec.
    assert (HE0 : forall d' r' : T, Recorded (@empty T) d' r' -> False).
    { intros d' r' (Hd & _). by apply elem_of_nil in Hd. }
    by destruct (run_sound lessThan sortIndependent (fun _ _ => False) calls
                   empty g (empty_Inv lessThan sortIndependent) HE0 Hrun d r Hrec)
      as [[]|Hadded].
  - intros Hadded. apply HE. by right.
Qed.

(** X1.  After any calls that succeed on a new graph, a [sort] that succeeds
    returns every node given to [addNode] exactly once. *)
Theorem sort_returns_every_node calls g l g' :
  run lessThan sortIndependent calls empty = Some g ->
  sort lessThan sortIndependent g = Some (l, g') ->
  l ≡ₚ addedNodes calls /\ NoDup l.
Proof.
  intros Hrun Hsort. destruct (run_empty_Inv _ _ Hrun) as (HI & Hnodes & _).
  destruct (sort_fresh _ _ _ _ _ HI Hsort) as [Hfresh _].
  destruct (freshSort_emitted lessThan sortIndependent lessThan_total g HI)
    as (emitted & out & rest & Hfresh' & Hperm & Hout & _).
  rewrite Hfresh in Hfresh'. injection Hfresh' as <- <-.
  rewrite app_nil_r in Hperm.
  assert (l ≡ₚ m_nodes g) as Hl by (by eapply Forall2_lookup_perm).
  split; [by rewrite Hl, Hnodes|]. rewrite Hl. apply HI.
Qed.

(** X2.  After any calls that succeed on a new graph, the pairs of nodes
    with an edge in the matrix are exactly the pairs given to [addEdge]:
    growing the matrix neither drops nor sets a bit. *)
Theorem edges_are_those_added calls g d r :
  run lessThan sortIndependent calls empty = Some g ->
  Recorded g d r <-> added calls d r.
Proof. intros Hrun. by apply run_empty_Inv. Qed.

Lemma cycle_of_numbers g (R : T -> T -> Prop) n m :
  Inv lessThan sortIndependent g ->
  (forall d r, Recorded g d r -> R d r) ->
  tc (fun a b => hasEdge g a b = true) n m ->
  exists x y, m_nodes g !! n = Some x /\ m_nodes g !! m = Some y /\ tc R x y.
Proof.
  intros HI HR.
  assert (Hstep : forall a b, hasEdge g a b = true ->
            exists x y, m_nodes g !! a = Some x /\ m_nodes g !! b = Some y /\ R x y).
  { intros a b Hab. apply hasEdge_range in Hab as Hrange.
    pose proof (inv_size _ _ _ HI).
    destruct (lookup_lt_is_Some_2 (m_nodes g) a) as [x Hx]; [lia|].
    destruct (lookup_lt_is_Some_2 (m_nodes g) b) as [y Hy]; [lia|].
    exists x, y. split; [done|]. split; [done|]. apply HR.
    by apply (index_Recorded g x y a b); [apply HI|..]. }
  induction 1 as [a b Hab|a b c Hab _ (y & z & Hy & Hz & Hyz)].
  - destruct (Hstep a b Hab) as (x & y & Hx & Hy & Hxy).
    exists x, y. split; [done|]. split; [done|]. by apply tc_once.
  - destruct (Hstep a b Hab) as (x & y' & Hx & Hy' & Hxy).
    assert (y' = y) as -> by congruence.
    exists x, z. split; [done|]. split; [done|]. by eapply tc_l.
Qed.

Lemma cycle_of_nodes g (R : T -> T -> Prop) x y :
  Inv lessThan sortIndependent g ->
  (forall d r, R d r -> Recorded g d r) ->
  tc R x y ->
  exists n m, m_nodes g !! n = Some x /\ m_nodes g !! m = Some y
              /\ tc (fun a b => hasEdge g a b = true) n m.
Proof.
  intros HI HR.
  induction 1 as [x y Hxy|x y z Hxy _ (b & c & Hb & Hc & Hbc)].
  - destruct (Recorded_index _ _ _ (HR _ _ Hxy)) as (n & m & Hn & Hm & Hedge).
    exists n, m. split; [done|]. split; [done|]. by apply tc_once.
  - destruct (Recorded_index _ _ _ (HR _ _ Hxy)) as (n & b' & Hn & Hb' & Hedge).
    assert (b' = b) as ->.
    { eapply NoDup_lookup; [apply HI|done..]. }
    exists n, c. split; [done|]. split; [done|]. by eapply tc_l.
Qed.

(** X3.  After any calls that succeed on a new graph, [sort] fails its
    assertion "Circular dependency detected!" exactly when the edges given to
    [addEdge] contain a cycle. *)
Theorem sort_fails_exactly_on_cycles calls g :
  run lessThan sortIndependent calls empty = Some g ->
  sort lessThan sortIndependent g = None <-> exists x, tc (added calls) x x.
Proof.
  intros Hrun. destruct (run_empty_Inv _ _ Hrun) as (HI & _ & Hrec).
  rewrite (sort_None_cycle lessThan sortIndependent lessThan_total g HI). split.
  - intros [n Hcycle].
    destruct (cycle_of_numbers g (added calls) n n HI) as (x & y & Hx & Hy & Hxy);
      [by intros d r ?%Hrec|done|].
    assert (y = x) as -> by congruence. by exists x.
  - intros [x Hcycle].
    destruct (cycle_of_nodes g (added calls) x x HI) as (n & m & Hn & Hm & Hnm);
      [by intros d r ?%Hrec|done|].
    assert (m = n) as ->.
    { eapply NoDup_lookup; [apply HI|done..]. }
    by exists n.
Qed.

End GraphCalls.

Section GraphCallsExamples.
Import DependencyGraph GraphSpec CallNotions.

Lemma sort_returns_every_node_witness :
  let calls := [AddNode 3; AddNode 1; AddNode 2; AddEdge 1 3; Sort; AddNode 0]%nat in
  exists g l g',
    run Nat.ltb true calls empty = Some g
    /\ sort Nat.ltb true g = Some (l, g')
    /\ l ≡ₚ addedNodes calls /\ NoDup l.
Proof.
  intros calls. eexists _, _, _.
  split; [vm_compute; reflexivity|]. split; [vm_compute; reflexivity|].
  eapply (sort_returns_every_node Nat.ltb true (nat_ltb_total true) calls);
    vm_compute; reflexivity.
Defined.

Lemma edges_are_those_added_witness :
  let calls := [AddNode 3; AddNode 1; AddEdge 3 1; AddNode 2; AddEdge 1 2]%nat in
  exists g,
    run Nat.ltb true calls empty = Some g
    /\ (Recorded g 1%nat 2%nat <-> added calls 1%nat 2%nat).
Proof.
  intros calls. eexists. split; [vm_compute; reflexivity|].
  apply (edges_are_those_added Nat.ltb true calls).
  vm_compute. reflexivity.
Defined.

Lemma sort_fails_exactly_on_cycles_witness :
  let calls := [AddNode 1; AddNode 2; AddEdge 1 2; AddEdge 2 1]%nat in
  exists g,
    run Nat.ltb true calls empty = Some g
    /\ (sort Nat.ltb true g = None <-> exists x, tc (added calls) x x).
Proof.
  intros calls. eexists. split; [vm_compute; reflexivity|].
  apply (sort_fails_exactly_on_cycles Nat.ltb true (nat_ltb_total true) calls).
  vm_compute. reflexivity.
Defined.

End GraphCallsExamples.

(** ** Graphs without edges *)

Section NoEdges.
Context {T : Type} `{EqDecision T}.
Import DependencyGraph.
Implicit Types g : DependencyGraph T.

Lemma independent_no_edges g remaining n :
  m_edges g = [] -> independent g remaining n = true.
Proof.
  intros He. unfold independent. apply forallb_forall. intros m _.
  unfold hasEdge. rewrite He. simpl.
  by destruct (Nat.ltb_spec (Nat.max n m) 0); [lia|].
Qed.

(** Without edges the loop emits the node numbers in the order it was
    given them. *)
Lemma sortLoop_no_edges g remaining :
  m_edges g = [] ->
  forall fuel cache out,
    (length remaining <= fuel)%nat ->
    Forall2 (fun n x => m_nodes g !! n = Some x) remaining out ->
    sortLoop fuel g remaining cache = Some (cache ++ out, []).
Proof.
  intros He. induction remaining as [|n rest IH]; intros fuel cache out Hfuel Hout.
  - apply Forall2_nil_inv_l in Hout as ->. rewrite app_nil_r. by destruct fuel.
  - apply Forall2_cons_inv_l in Hout as (x & out' & Hx & Hout & ->).
    destruct fuel as [|fuel]; [simpl in Hfuel; lia|].
    cbn [sortLoop List.find]. rewrite independent_no_edges by done.
    rewrite Hx. cbn [mbind option_bind QList.removeOne].
    rewrite decide_True by done.
    rewrite (IH fuel (cache ++ [x]) out'); [|simpl in Hfuel; lia|done].
    by rewrite <- app_assoc.
Qed.

Lemma Forall2_lookup_seq (l : list T) :
  Forall2 (fun n x => l !! n = Some x) (seq 0 (length l)) l.
Proof.
  apply Forall2_same_length_lookup_2; [by rewrite length_seq|].
  intros i n x Hn Hx. apply lookup_seq in Hn as [-> _]. done.
Qed.

End NoEdges.

Section QMapEnds.
Context {K V : Type}.
Variable lessThan : K -> K -> bool.

(** A key greater than every key of the map goes to the end, ... *)
Lemma insert_last (k : K) (v : V) (m : list (K * V)) :
  Forall (fun kv => lessThan kv.1 k = true) m ->
  QMap.insert lessThan k v m = m ++ [(k, v)].
Proof.
  induction 1 as [|[k' v'] m Hk Hm IH]; simpl; [done|].
  simpl in Hk. by rewrite Hk, IH.
Qed.

(** ... and one less than every key to the front. *)
Lemma insert_first (k : K) (v : V) (m : list (K * V)) :
  Forall (fun kv => lessThan kv.1 k = false /\ lessThan k kv.1 = true) m ->
  QMap.insert lessThan k v m = (k, v) :: m.
Proof.
  destruct 1 as [|[k' v'] m [Hk1 Hk2] Hm]; simpl; [done|].
  simpl in Hk1, Hk2. by rewrite Hk1, Hk2.
Qed.

End QMapEnds.

Section WrapperNoEdges.
Import DependencyGraph CallNotions.

Lemma slaveOf_addNode (key : nat -> Z) (n : nat) :
  (forall i, (i < n)%nat -> key i <> key n) ->
  addNode (key n) (slaveOf key n) = Some (slaveOf key (S n)).
Proof.
  intros Hkey. unfold slaveOf at 2. rewrite seq_S, fmap_app.
  unfold addNode, slaveOf. cbn [m_nodes m_edges m_cache].
  rewrite (proj2 (contains_false _ _)).
  - done.
  - intros (i & Hi & [_ Hlt]%elem_of_seq)%list_elem_of_fmap.
    by apply (Hkey i); [lia|].
Qed.

Lemma nodeNumbers_fifo (n : nat) :
  nodeNumbers Z.ltb true (Z.of_nat <$> seq 0 n) = seq 0 n.
Proof.
  unfold nodeNumbers, QMap.values.
  assert (nodeNumbersByValues Z.ltb (Z.of_nat <$> seq 0 n)
          = (fun i => (Z.of_nat i, i)) <$> seq 0 n) as ->.
  { unfold nodeNumbersByValues. induction n as [|n IH]; [done|].
    rewrite seq_S, !fmap_app, foldl_app, IH. simpl.
    rewrite length_fmap, length_seq. apply insert_last.
    apply Forall_fmap, Forall_forall. intros i [_ Hi]%elem_of_seq. simpl.
    apply Z.ltb_lt. lia. }
  rewrite <- list_fmap_compose. apply list_fmap_id.
Qed.

Lemma nodeNumbers_lifo (n : nat) :
  nodeNumbers Z.ltb true ((fun i => - Z.of_nat i) <$> seq 0 n) = reverse (seq 0 n).
Proof.
  unfold nodeNumbers, QMap.values.
  assert (nodeNumbersByValues Z.ltb ((fun i => - Z.of_nat i) <$> seq 0 n)
          = (fun i => (- Z.of_nat i, i)) <$> reverse (seq 0 n)) as ->.
  { unfold nodeNumbersByValues. induction n as [|n IH]; [done|].
    rewrite seq_S, !fmap_app, foldl_app, IH. simpl.
    rewrite length_fmap, length_reverse, length_seq, reverse_app. simpl.
    apply insert_first.
    apply Forall_fmap, Forall_forall. intros i [_ Hi]%elem_of_reverse%elem_of_seq.
    simpl. split; [apply Z.ltb_ge|apply Z.ltb_lt]; lia. }
  rewrite <- list_fmap_compose. apply list_fmap_id.
Qed.

End WrapperNoEdges.

Section SlaveSort.
Import DependencyGraph.

(** The sort of a slave graph without edges gives its nodes in the order
    of [nodeNumbers]. *)
Lemma slaveOf_sort (key : nat -> Z) (n : nat) (numbers : list nat) :
  nodeNumbers Z.ltb true (key <$> seq 0 n) = numbers ->
  numbers ≡ₚ seq 0 n ->
  exists slave, sort Z.ltb true (slaveOf key n) = Some (key <$> numbers, slave).
Proof.
  intros Hnumbers Hperm. unfold sort, slaveOf. cbn [m_cacheIsValid m_nodes].
  rewrite Hnumbers.
  rewrite (sortLoop_no_edges (mk (key <$> seq 0 n) [] false []) numbers eq_refl
             (length numbers) [] (key <$> numbers));
    [by eexists|done|].
  apply Forall2_fmap_r, Forall_Forall2_diag, Forall_forall.
  intros i Hi. rewrite Hperm in Hi. apply elem_of_seq in Hi as [_ Hi].
  cbn [m_nodes]. rewrite list_lookup_fmap, lookup_seq_lt by lia. done.
Qed.

Lemma at_of_nat {T : Type} (nodes : list T) (i : nat) :
  QList.at_ nodes (Z.of_nat i) = nodes !! i.
Proof.
  unfold QList.at_. destruct (Z.ltb_spec (Z.of_nat i) 0); [lia|].
  by rewrite Nat2Z.id.
Qed.

End SlaveSort.

Section FifoNoEdges.
Context {T : Type} `{EqDecision T}.
Import FifoDependencyGraph.

Lemma fifo_run_nodes (nodes nodes0 : list T) :
  NoDup (nodes0 ++ nodes) ->
  run (AddNode <$> nodes) (mk nodes0 (slaveOf Z.of_nat (length nodes0)))
  = Some (mk (nodes0 ++ nodes) (slaveOf Z.of_nat (length (nodes0 ++ nodes)))).
Proof.
  unfold run. revert nodes0. induction nodes as [|x nodes IH]; intros nodes0 Hnd.
  - by rewrite app_nil_r.
  - rewrite fmap_cons. cbn [runCalls call]. unfold addNode. cbn [m_nodes m_slave].
    rewrite (proj2 (contains_false _ _)).
    2:{ apply NoDup_app in Hnd as (_ & Hx & _). intros Hin.
        apply (Hx x Hin), list_elem_of_here. }
    unfold QList.count. rewrite slaveOf_addNode by lia. cbn [mbind option_bind].
    replace (S (length nodes0)) with (length (nodes0 ++ [x]))
      by (rewrite length_app; simpl; lia).
    rewrite IH by (by rewrite <- app_assoc). by rewrite <- app_assoc.
Qed.

(** X4.  A [FifoDependencyGraph] given distinct nodes and no edge sorts the
    nodes in the order they were added. *)
Theorem fifo_sort_without_edges (nodes : list T) :
  NoDup nodes ->
  exists g g',
    run (AddNode <$> nodes) empty = Some g
    /\ sort g = Some (nodes, g').
Proof.
  intros Hnd. pose proof (fifo_run_nodes nodes [] Hnd) as Hrun.
  destruct (slaveOf_sort Z.of_nat (length nodes) (seq 0 (length nodes)))
    as [slave Hsort]; [apply nodeNumbers_fifo|done|].
  eexists _, _. split; [exact Hrun|].
  unfold sort. cbn [m_slave m_nodes app]. rewrite Hsort.
  cbn [mbind option_bind].
  assert (mapM (fun i => QList.at_ nodes i) (Z.of_nat <$> seq 0 (length nodes))
          = Some nodes) as ->; [|reflexivity].
  apply mapM_Some, Forall2_fmap_l.
  apply Forall2_same_length_lookup_2; [by rewrite length_seq|].
  intros i n x Hn Hx. apply lookup_seq in Hn as [-> _]. simpl.
  by rewrite at_of_nat.
Qed.

End FifoNoEdges.

Section LifoNoEdges.
Context {T : Type} `{EqDecision T}.
Import LifoDependencyGraph.

Lemma lifo_run_nodes (nodes nodes0 : list T) :
  NoDup (nodes0 ++ nodes) ->
  run (AddNode <$> nodes)
    (mk nodes0 (slaveOf (fun i => - Z.of_nat i) (length nodes0)))
  = Some (mk (nodes0 ++ nodes)
            (slaveOf (fun i => - Z.of_nat i) (length (nodes0 ++ nodes)))).
Proof.
  unfold run. revert nodes0. induction nodes as [|x nodes IH]; intros nodes0 Hnd.
  - by rewrite app_nil_r.
  - rewrite fmap_cons. cbn [runCalls call]. unfold addNode. cbn [m_nodes m_slave].
    rewrite (proj2 (contains_false _ _)).
    2:{ apply NoDup_app in Hnd as (_ & Hx & _). intros Hin.
        apply (Hx x Hin), list_elem_of_here. }
    unfold QList.count.
    rewrite (slaveOf_addNode (fun i => - Z.of_nat i)) by lia.
    cbn [mbind option_bind].
    replace (S (length nodes0)) with (length (nodes0 ++ [x]))
      by (rewrite length_app; simpl; lia).
    rewrite IH by (by rewrite <- app_assoc). by rewrite <- app_assoc.
Qed.

(** X5.  A [LifoDependencyGraph] given distinct nodes and no edge sorts the
    nodes in the reverse of the order they were added. *)
Theorem lifo_sort_without_edges (nodes : list T) :
  NoDup nodes ->
  exists g g',
    run (AddNode <$> nodes) empty = Some g
    /\ sort g = Some (reverse nodes, g').
Proof.
  intros Hnd. pose proof (lifo_run_nodes nodes [] Hnd) as Hrun.
  destruct (slaveOf_sort (fun i => - Z.of_nat i) (length nodes)
              (reverse (seq 0 (length nodes))))
    as [slave Hsort]; [apply nodeNumbers_lifo|apply reverse_Permutation|].
  eexists _, _. split; [exact Hrun|].
  unfold sort. cbn [m_slave m_nodes app]. rewrite Hsort.
  cbn [mbind option_bind].
  assert (mapM (fun i => QList.at_ nodes (- i))
            ((fun i => - Z.of_nat i) <$> reverse (seq 0 (length nodes)))
          = Some (reverse nodes)) as ->; [|reflexivity].
  apply mapM_Some, Forall2_fmap_l.
  apply Forall2_same_length_lookup_2; [by rewrite !length_reverse, length_seq|].
  intros i n x Hn Hx. simpl. rewrite Z.opp_involutive, at_of_nat.
  apply reverse_lookup_Some in Hn as [Hn Hi], Hx as [Hx _].
  rewrite length_seq in Hn, Hi. apply lookup_seq in Hn as [-> _]. done.
Qed.

End LifoNoEdges.

Section NoEdgesExamples.

Lemma nodup_3_1_2 : NoDup [3; 1; 2]%nat.
Proof.
  repeat (apply NoDup_cons; split; [rewrite ?elem_of_cons, elem_of_nil; lia|]).
  apply NoDup_nil_2.
Qed.

Lemma fifo_sort_without_edges_witness :
  NoDup [3; 1; 2]%nat
  /\ exists g g',
       FifoDependencyGraph.run (FifoDependencyGraph.AddNode <$> [3; 1; 2]%nat)
         FifoDependencyGraph.empty = Some g
       /\ FifoDependencyGraph.sort g = Some ([3; 1; 2]%nat, g').
Proof.
  split; [exact nodup_3_1_2|].
  exact (fifo_sort_without_edges [3; 1; 2]%nat nodup_3_1_2).
Defined.

Lemma lifo_sort_without_edges_witness :
  NoDup [3; 1; 2]%nat
  /\ exists g g',
       LifoDependencyGraph.run (LifoDependencyGraph.AddNode <$> [3; 1; 2]%nat)
         LifoDependencyGraph.empty = Some g
       /\ LifoDependencyGraph.sort g = Some (reverse [3; 1; 2]%nat, g').
Proof.
  split; [exact nodup_3_1_2|].
  exact (lifo_sort_without_edges [3; 1; 2]%nat nodup_3_1_2).
Defined.

End NoEdgesExamples.

(** * Further properties of [UniqueId] and [Configuration] *)

Section Interning.
Import UniqueId UniqueIds IdNotions.
Implicit Types (m : gmap string Z) (id : string) (uid : Z).

Lemma Interned_empty : Interned ∅.
Proof. split; intros *; by rewrite ?lookup_empty. Qed.

Lemma int32_size m :
  Z.of_nat (size m) <= INT_MAX -> size_ m = Z.of_nat (size m).
Proof. intros H. unfold size_. apply int32_small. unfold INT_MAX in H. lia. Qed.

(** The only key with the value of [id] is [id], in whatever order the
    hash holds its items. *)
Lemma key_interned m items id uid :
  Interned m -> items ≡ₚ map_to_list m -> m !! id = Some uid ->
  key items uid = id.
Proof.
  intros HI Hitems Hid. unfold key.
  destruct (filter _ items) as [|[k v] rest] eqn:Hfilter.
  - assert ((id, uid) ∈ filter (fun kv : string * Z => kv.2 = uid) items) as Hin.
    { apply list_elem_of_filter. split; [done|].
      rewrite Hitems. by apply elem_of_map_to_list. }
    rewrite Hfilter in Hin. by apply elem_of_nil in Hin.
  - assert ((k, v) ∈ filter (fun kv : string * Z => kv.2 = uid) items) as Hin.
    { rewrite Hfilter. apply list_elem_of_here. }
    apply list_elem_of_filter in Hin as [Hv Hin]. simpl in Hv. subst v.
    rewrite Hitems in Hin. apply elem_of_map_to_list in Hin.
    by apply (interned_inj _ HI k id uid).
Qed.

Lemma uniqueId_step m id :
  Interned m -> Z.of_nat (size m) < INT_MAX -> id <> "" ->
  exists uid m',
    uniqueId id m = Some (uid, m')
    /\ Interned m'
    /\ m' !! id = Some uid
    /\ (forall id' uid', m !! id' = Some uid' -> m' !! id' = Some uid')
    /\ (size m' <= S (size m))%nat.
Proof.
  intros HI Hsize Hid. unfold uniqueId. rewrite decide_False by done.
  destruct (m !! id) as [it|] eqn:Hlookup.
  - exists it, m. split_and!; try done. lia.
  - assert (Huid : int32 (Z.of_nat (size m)) = Z.of_nat (size m)).
    { apply int32_size. lia. }
    rewrite Huid. eexists _, _. split; [done|].
    assert (Hsize' : size (<[id:=Z.of_nat (size m)]> m) = S (size m)).
    { by apply map_size_insert_None. }
    split_and!.
    + split.
      * intros id' uid'. rewrite Hsize'.
        destruct (decide (id' = id)) as [->|Hne].
        -- rewrite lookup_insert_eq. intros [= <-]. lia.
        -- rewrite lookup_insert_ne by done. intros H%(interned_range _ HI). lia.
      * intros id1 id2 uid.
        destruct (decide (id1 = id)) as [->|Hne1], (decide (id2 = id)) as [->|Hne2];
          rewrite ?lookup_insert_eq, ?lookup_insert_ne by done; try done.
        -- intros [= <-] H%(interned_range _ HI). lia.
        -- intros H%(interned_range _ HI) [= <-]. lia.
        -- apply (interned_inj _ HI).
      * rewrite lookup_insert_ne by done. apply HI.
    + apply lookup_insert_eq.
    + intros id' uid' Hid'. rewrite lookup_insert_ne; [done|]. congruence.
    + lia.
Qed.

(** X6.  Constructing a [UniqueId] from a non-empty string, while fewer
    identifiers than [INT_MAX] exist, keeps the identifiers of all strings,
    gives a valid identifier, and [toString] and [fromInt] give back the
    string and the identifier, in whatever order the hash holds its items. *)
Theorem uniqueId_round_trip m id :
  Interned m -> Z.of_nat (size m) < INT_MAX -> id <> "" ->
  exists uid m',
    uniqueId id m = Some (uid, m')
    /\ Interned m'
    /\ hasUniqueId id m' = true
    /\ (forall id' uid', m !! id' = Some uid' -> m' !! id' = Some uid')
    /\ isValid uid = true
    /\ fromInt uid m' = Some uid
    /\ forall items, items ≡ₚ map_to_list m' -> toString items uid m' = Some id.
Proof.
  intros HI Hsize Hid.
  destruct (uniqueId_step m id HI Hsize Hid)
    as (uid & m' & Hrun & HI' & Hlookup & Hkeep & Hsize').
  exists uid, m'. pose proof (interned_range _ HI' _ _ Hlookup) as Hrange.
  assert (Hknown : isKnown uid m' = true).
  { unfold isKnown, INVALID_ID. rewrite int32_size by lia.
    apply andb_true_iff. split; [apply Z.leb_le|apply Z.ltb_lt]; lia. }
  split_and!; try done.
  - unfold hasUniqueId. apply bool_decide_eq_true. by exists uid.
  - unfold isValid, INVALID_ID. apply negb_true_iff, Z.eqb_neq. lia.
  - unfold fromInt. by rewrite Hknown.
  - intros items Hitems. unfold toString. rewrite Hknown.
    by rewrite (key_interned m' items id uid).
Qed.

Lemma uniqueId_round_trip_witness :
  Interned ∅ /\ Z.of_nat (size (∅ : gmap string Z)) < INT_MAX /\ "core" <> ""
  /\ exists uid m',
       uniqueId "core" ∅ = Some (uid, m')
       /\ Interned m'
       /\ hasUniqueId "core" m' = true
       /\ (forall id' uid', (∅ : gmap string Z) !! id' = Some uid' ->
             m' !! id' = Some uid')
       /\ isValid uid = true
       /\ fromInt uid m' = Some uid
       /\ forall items, items ≡ₚ map_to_list m' ->
            toString items uid m' = Some "core".
Proof.
  assert (H1 : Z.of_nat (size (∅ : gmap string Z)) < INT_MAX) by (vm_compute; reflexivity).
  assert (H2 : "core" <> "") by discriminate.
  split; [exact Interned_empty|]. split; [exact H1|]. split; [exact H2|].
  exact (uniqueId_round_trip ∅ "core" Interned_empty H1 H2).
Defined.

Lemma construct_interns ids :
  forall m,
    Interned m -> Z.of_nat (size m) + Z.of_nat (length ids) <= INT_MAX ->
    Forall (fun id => id <> "") ids ->
    exists uids m',
      construct ids m = Some (uids, m')
      /\ Interned m'
      /\ (forall id uid, m !! id = Some uid -> m' !! id = Some uid)
      /\ Forall2 (fun id uid => m' !! id = Some uid) ids uids
      /\ (size m' <= size m + length ids)%nat.
Proof.
  induction ids as [|id ids IH]; intros m HI Hsize Hne.
  - exists [], m. simpl. split_and!; try done. lia.
  - apply Forall_cons in Hne as [Hid Hne]. simpl in Hsize.
    destruct (uniqueId_step m id HI) as (uid & m1 & Hrun & HI1 & Hlookup & Hkeep & Hsize1);
      [lia|done|].
    destruct (IH m1 HI1) as (uids & m' & Hrest & HI' & Hkeep' & Hall & Hsize');
      [lia|done|].
    exists (uid :: uids), m'. simpl. rewrite Hrun. simpl. rewrite Hrest. simpl.
    split_and!; try done.
    + intros id' uid' H. by apply Hkeep', Hkeep.
    + constructor; [by apply Hkeep'|done].
    + lia.
Qed.

(** X7.  Of the identifiers constructed in turn from non-empty strings,
    starting with no identifier at all, two are equal exactly when their
    strings are equal. *)
Theorem construct_equal_iff ids :
  Z.of_nat (length ids) <= INT_MAX ->
  Forall (fun id => id <> "") ids ->
  exists uids m,
    construct ids ∅ = Some (uids, m)
    /\ length uids = length ids
    /\ forall i j id1 id2 uid1 uid2,
         ids !! i = Some id1 -> ids !! j = Some id2 ->
         uids !! i = Some uid1 -> uids !! j = Some uid2 ->
         (uid1 = uid2 <-> id1 = id2).
Proof.
  intros Hlen Hne.
  destruct (construct_interns ids ∅ Interned_empty)
    as (uids & m & Hrun & HI & _ & Hall & _); [by rewrite map_size_empty|done|].
  exists uids, m. split; [done|].
  split; [symmetry; by eapply Forall2_length|].
  intros i j id1 id2 uid1 uid2 Hi Hj Hui Huj.
  destruct (Forall2_lookup_l _ _ _ _ _ Hall Hi) as (u1 & Hu1 & H1).
  destruct (Forall2_lookup_l _ _ _ _ _ Hall Hj) as (u2 & Hu2 & H2).
  assert (u1 = uid1) as -> by congruence. assert (u2 = uid2) as -> by congruence.
  split.
  - intros <-. by apply (interned_inj _ HI id1 id2 uid1).
  - intros <-. congruence.
Qed.

Lemma construct_equal_iff_witness :
  let ids := ["core"; "gui"; "core"] in
  Z.of_nat (length ids) <= INT_MAX
  /\ Forall (fun id => id <> "") ids
  /\ exists uids m,
       construct ids ∅ = Some (uids, m)
       /\ length uids = length ids
       /\ forall i j id1 id2 uid1 uid2,
            ids !! i = Some id1 -> ids !! j = Some id2 ->
            uids !! i = Some uid1 -> uids !! j = Some uid2 ->
            (uid1 = uid2 <-> id1 = id2).
Proof.
  intros ids.
  assert (H1 : Z.of_nat (length ids) <= INT_MAX) by (vm_compute; discriminate).
  assert (H2 : Forall (fun id => id <> "") ids) by (repeat constructor; discriminate).
  split; [exact H1|]. split; [exact H2|].
  exact (construct_equal_iff ids H1 H2).
Defined.

End Interning.

Section CompareMore.
Import QString Configuration.

Lemma decimalFrom_nonneg acc s v :
  decimalFrom acc s = Some v -> 0 <= acc -> 0 <= v.
Proof.
  revert acc. induction s as [|c s IH]; intros acc; simpl.
  - by intros [= <-].
  - destruct (isDigit c) eqn:Hc; [|done]. intros Hv Hacc.
    apply (IH _ Hv). pose proof (isDigit_value _ Hc). lia.
Qed.

Lemma toInt_range s : 0 <= toInt s <= INT_MAX.
Proof.
  unfold toInt, decimal, INT_MAX.
  destruct s as [|c s]; [lia|].
  destruct (decimalFrom 0 (String c s)) as [v|] eqn:Hv; [|lia].
  apply decimalFrom_nonneg in Hv; [|lia].
  destruct (Z.leb_spec v 2147483647); lia.
Qed.

Lemma firstDifference_swap sv1 sv2 :
  firstDifference sv2 sv1 = Z.opp <$> firstDifference sv1 sv2.
Proof.
  revert sv2. induction sv1 as [|a sv1 IH]; intros [|b sv2]; simpl; try done.
  pose proof (toInt_range a). pose proof (toInt_range b). unfold INT_MAX in *.
  rewrite !int32_small by lia.
  destruct (Z.eqb_spec (toInt a - toInt b) 0), (Z.eqb_spec (toInt b - toInt a) 0);
    try lia; [apply IH|]. simpl. f_equal. lia.
Qed.

(** X8.  The default version compare function is antisymmetric on
    well-formed versions: swapping the versions negates the result, so a
    version compares equal to itself. *)
Theorem defaultVersionCompareFunction_antisymmetric (v1 v2 : Version) (cmp : Z) :
  count (split "." v1) <= INT_MAX -> count (split "." v2) <= INT_MAX ->
  defaultVersionCompareFunction v1 v2 = Some cmp ->
  defaultVersionCompareFunction v2 v1 = Some (- cmp)
  /\ (v1 = v2 -> cmp = 0).
Proof.
  intros H1 H2 Hcmp.
  assert (Hswap : defaultVersionCompareFunction v2 v1 = Some (- cmp)).
  { unfold defaultVersionCompareFunction in *.
    rewrite andb_comm. destruct (_ && _); [|done].
    rewrite firstDifference_swap.
    destruct (firstDifference (split "." v1) (split "." v2)) as [c|]; simpl.
    - by injection Hcmp as <-.
    - injection Hcmp as <-. f_equal. unfold count, INT_MAX in *.
      rewrite !int32_small by lia. lia. }
  split; [done|]. intros <-. rewrite Hcmp in Hswap. injection Hswap. lia.
Qed.

Lemma defaultVersionCompareFunction_antisymmetric_witness :
  count (split "." "4.6.5") <= INT_MAX /\ count (split "." "4.8") <= INT_MAX
  /\ defaultVersionCompareFunction "4.6.5" "4.8" = Some (-2)
  /\ defaultVersionCompareFunction "4.8" "4.6.5" = Some (- -2)
  /\ ("4.6.5" = "4.8" -> -2 = 0).
Proof.
  assert (H1 : count (split "." "4.6.5") <= INT_MAX) by (vm_compute; discriminate).
  assert (H2 : count (split "." "4.8") <= INT_MAX) by (vm_compute; discriminate).
  assert (H3 : defaultVersionCompareFunction "4.6.5" "4.8" = Some (-2))
    by (vm_compute; reflexivity).
  split; [exact H1|]. split; [exact H2|]. split; [exact H3|].
  exact (defaultVersionCompareFunction_antisymmetric "4.6.5" "4.8" (-2) H1 H2 H3).
Defined.

End CompareMore.

Section SatisfiesMore.
Import Configuration ConfigurationNotions.
Implicit Types (this required : Configuration) (reg : Registry).

(** X9.  Against a plain enumeration, the requirement that a resource
    exists is satisfied exactly when the enumeration lists the resource,
    with or without a version. *)
Theorem satisfies_exists_plain reg this (resource : Resource) :
  plain this = true ->
  satisfies reg this (CExists resource)
  = Some (bool_decide (resource ∈ resources this)).
Proof.
  simpl. induction this as [r|l IHl t r IHr|r IHr|r t v]; simpl; try done.
  - intros _. f_equal. apply bool_decide_ext. rewrite list_elem_of_singleton.
    split; congruence.
  - destruct t; try done. rewrite andb_true_iff. intros [Hl Hr].
    rewrite (IHl Hl). simpl.
    destruct (bool_decide (resource ∈ resources l)) eqn:Hin.
    + apply bool_decide_eq_true in Hin.
      f_equal. symmetry. apply bool_decide_eq_true, elem_of_app. by left.
    + apply bool_decide_eq_false in Hin.
      rewrite (IHr Hr). f_equal. apply bool_decide_ext. rewrite elem_of_app. tauto.
  - destruct t; try done. intros _. f_equal. apply bool_decide_ext.
    rewrite list_elem_of_singleton. split; congruence.
Qed.

Lemma satisfies_exists_plain_witness :
  let this := comma (CExists 1) (comma (eq 2 "4.7") (CExists 3)) in
  plain this = true
  /\ satisfies ∅ this (CExists 2) = Some (bool_decide (2 ∈ resources this)).
Proof.
  intros this. split; [reflexivity|].
  exact (satisfies_exists_plain ∅ this 2 eq_refl).
Defined.

(** X10.  Against a plain enumeration all of whose versions of the resource
    can be compared with the required one, a version requirement returns,
    and it is satisfied exactly when the enumeration lists the resource with
    a version that stands in the relation. *)
Theorem satisfies_relation_plain reg this (resource : Resource)
    (relation : Type_) (version : Version) :
  plain this = true -> isRelation relation = true ->
  (forall thisVersion, (resource, thisVersion) ∈ versions this ->
     is_Some (compare reg resource thisVersion version)) ->
  exists b,
    satisfies reg this (CRelation resource relation version) = Some b
    /\ (b = true <->
        exists thisVersion,
          (resource, thisVersion) ∈ versions this
          /\ satisfiesVersion reg resource thisVersion relation version
             = Some true).
Proof.
  intros Hplain Hrel. simpl. rewrite Hrel.
  induction this as [r|l IHl t r IHr|r IHr|r t v]; simpl; try done.
  - intros _. exists false. split; [done|]. split; [done|].
    by intros (? & ?%elem_of_nil & _).
  - destruct t; try done. simpl in Hplain.
    apply andb_true_iff in Hplain as [Hl Hr]. intros Hvers.
    destruct (IHl Hl) as (bl & -> & Hbl).
    { intros v' Hv'. apply Hvers, elem_of_app. by left. }
    destruct (IHr Hr) as (br & Hbr' & Hbr).
    { intros v' Hv'. apply Hvers, elem_of_app. by right. }
    simpl. destruct bl.
    + exists true. split; [done|]. split; [|done]. intros _.
      destruct (proj1 Hbl eq_refl) as (v' & Hv' & Hsat).
      exists v'. split; [|done]. apply elem_of_app. by left.
    + exists br. split; [done|]. rewrite Hbr. split.
      * intros (v' & Hv' & Hsat). exists v'. split; [|done].
        apply elem_of_app. by right.
      * intros (v' & [Hv'|Hv']%elem_of_app & Hsat).
        -- assert (false = true) as [=]. apply Hbl. by exists v'.
        -- by exists v'.
  - destruct t; try done. intros Hvers. case_bool_decide as Hres.
    + subst r. destruct (Hvers v) as [cmp Hcmp]; [apply list_elem_of_here|].
      assert (exists b, satisfiesVersion reg resource v relation version = Some b)
        as [b Hb].
      { unfold satisfiesVersion. rewrite Hcmp. simpl.
        clear Hvers. destruct relation; try done; by eexists. }
      exists b. split; [done|]. split.
      * intros ->. exists v. split; [apply list_elem_of_here|done].
      * intros (v' & ->%list_elem_of_singleton%(inj (pair resource)) & Hsat).
        congruence.
    + exists false. split; [done|]. split; [done|].
      intros (v' & [= ? _]%list_elem_of_singleton & _). done.
Qed.

Lemma satisfies_relation_plain_witness :
  let this := comma (CExists 1) (eq 2 "4.7") in
  plain this = true /\ isRelation Ge = true
  /\ (forall thisVersion, (2, thisVersion) ∈ versions this ->
        is_Some (compare ∅ 2 thisVersion "4.6.5"))
  /\ exists b,
       satisfies ∅ this (CRelation 2 Ge "4.6.5") = Some b
       /\ (b = true <->
           exists thisVersion,
             (2, thisVersion) ∈ versions this
             /\ satisfiesVersion ∅ 2 thisVersion Ge "4.6.5" = Some true).
Proof.
  intros this.
  assert (H : forall thisVersion, (2, thisVersion) ∈ versions this ->
                is_Some (compare ∅ 2 thisVersion "4.6.5")).
  { intros v Hv. simpl in Hv. apply list_elem_of_singleton in Hv.
    injection Hv as ->. vm_compute. by eexists. }
  split; [reflexivity|]. split; [reflexivity|]. split; [exact H|].
  exact (satisfies_relation_plain ∅ this 2 Ge "4.6.5" eq_refl eq_refl H).
Defined.

(** X11.  The evaluation of a requirement built by the operators against
    a plain enumeration fails no assertion, when every version the
    enumeration gives for a resource can be compared with every version the
    requirement names for it. *)
Theorem satisfies_returns reg this required :
  plain this = true -> wellTyped required = true ->
  (forall resource thisVersion version,
     (resource, thisVersion) ∈ versions this ->
     (resource, version) ∈ versions required ->
     is_Some (compare reg resource thisVersion version)) ->
  is_Some (satisfies reg this required).
Proof.
  intros Hplain.
  induction required as [r|l IHl t r IHr|r IHr|r t v]; simpl; intros Htyped Hvers.
  - pose proof (satisfies_exists_plain reg this r Hplain) as H. simpl in H.
    rewrite H. by eexists.
  - apply andb_true_iff in Htyped as [[Ht Hl]%andb_true_iff Hr].
    destruct IHl as [bl Hbl]; [done| |].
    { intros ? ? ? ? ?. apply Hvers; [done|]. apply elem_of_app. by left. }
    destruct IHr as [br Hbr]; [done| |].
    { intros ? ? ? ? ?. apply Hvers; [done|]. apply elem_of_app. by right. }
    rewrite Hbl. simpl. destruct t; try done; destruct bl; by eexists.
  - destruct IHr as [br Hbr]; [done|done|]. rewrite Hbr. by eexists.
  - destruct (satisfies_relation_plain reg this r t v Hplain Htyped) as (b & Hb & _).
    { intros v' Hv'. apply Hvers; [done|]. apply list_elem_of_here. }
    simpl in Hb. rewrite Hb. by eexists.
Qed.

Lemma satisfies_returns_witness :
  let this := comma (CExists 1) (eq 2 "4.7") in
  let required :=
    comma (CExists 1) (or_ (not_ (CExists 3)) (and_ (ge 2 "4.6.5") (lt 2 "4.8"))) in
  plain this = true /\ wellTyped required = true
  /\ (forall resource thisVersion version,
        (resource, thisVersion) ∈ versions this ->
        (resource, version) ∈ versions required ->
        is_Some (compare ∅ resource thisVersion version))
  /\ is_Some (satisfies ∅ this required).
Proof.
  intros this required.
  assert (H : forall resource thisVersion version,
                (resource, thisVersion) ∈ versions this ->
                (resource, version) ∈ versions required ->
                is_Some (compare ∅ resource thisVersion version)).
  { intros r v' v Hv' Hv. simpl in Hv', Hv.
    apply list_elem_of_singleton in Hv'. injection Hv' as -> ->.
    apply elem_of_cons in Hv as [Hv|Hv%list_elem_of_singleton];
      injection Hv as ->; vm_compute; by eexists. }
  split; [reflexivity|]. split; [reflexivity|]. split; [exact H|].
  exact (satisfies_returns ∅ this required eq_refl eq_refl H).
Defined.

(** X12.  De Morgan's laws hold for requirements, failed assertions
    included: both sides evaluate the same operands in the same order. *)
Theorem satisfies_de_morgan reg this (a b : Configuration) :
  satisfies reg this (not_ (and_ a b))
  = satisfies reg this (or_ (not_ a) (not_ b))
  /\ satisfies reg this (not_ (or_ a b))
     = satisfies reg this (and_ (not_ a) (not_ b))
  /\ satisfies reg this (not_ (not_ a)) = satisfies reg this a.
Proof.
  simpl.
  destruct (satisfies reg this a) as [[]|], (satisfies reg this b) as [[]|]; done.
Qed.

End SatisfiesMore.

(** * The load queue *)

Section LoadOrder.
Import PluginSpec Propagation RunNotions LoadNotions.
Implicit Types (w v : World) (p : nat) (q : Queues) (d : PluginSpecPrivate).
Local Arguments mbind : simpl never.

Lemma errorsOnly_refl d : errorsOnly d d.
Proof. by destruct d. Qed.

Lemma errorsOnly_trans d1 d2 d3 :
  errorsOnly d1 d2 -> errorsOnly d2 d3 -> errorsOnly d1 d3.
Proof. unfold errorsOnly. intros H12 H23. rewrite H23, H12. done. Qed.

Lemma errorsOnly_reportError err d : errorsOnly d (reportError err d).
Proof. unfold errorsOnly, reportError. case_decide; by destruct d. Qed.

Lemma errorsOnly_members d d' :
  errorsOnly d d' ->
  dependencySpecs d' = dependencySpecs d /\ enabled d' = enabled d
  /\ indirectlyDisabled d' = indirectlyDisabled d.
Proof. unfold errorsOnly. intros ->. done. Qed.

Lemma ErrorsOnly_refl w : ErrorsOnly w w.
Proof.
  split; [|done]. intros p. destruct (heap w !! p); constructor.
  apply errorsOnly_refl.
Qed.

Lemma ErrorsOnly_trans w1 w2 w3 :
  ErrorsOnly w1 w2 -> ErrorsOnly w2 w3 -> ErrorsOnly w1 w3.
Proof.
  intros (H12 & Hs12 & Ht12) (H23 & Hs23 & Ht23). split; [|split; congruence].
  intros p. specialize (H12 p). specialize (H23 p).
  destruct H12 as [d1 d2 H12|]; inversion H23 as [? d3 H23'|]; subst; constructor.
  by eapply errorsOnly_trans.
Qed.

Lemma ErrorsOnly_reportError w p err : ErrorsOnly w (modify p (reportError err) w).
Proof.
  split; [|done]. intros p'. rewrite heap_modify. case_decide.
  - destruct (heap w !! p'); constructor. apply errorsOnly_reportError.
  - destruct (heap w !! p'); constructor. apply errorsOnly_refl.
Qed.

Lemma ErrorsOnly_dom w w' : ErrorsOnly w w' -> dom (heap w') = dom (heap w).
Proof.
  intros [H _]. apply set_eq. intros p. rewrite !elem_of_dom.
  specialize (H p). destruct H; split; intros [? ?]; done.
Qed.

Lemma LoadOrder_ErrorsOnly w w' queue_ :
  ErrorsOnly w w' -> LoadOrder w queue_ -> LoadOrder w' queue_.
Proof.
  intros [H _] [Hnd Horder]. split; [done|]. intros i s Hi.
  destruct (Horder i s Hi) as (d & Hd & He & Hi' & Hdeps).
  specialize (H s). rewrite Hd in H. inversion H as [? d' Hdd' E1 E2|]; subst.
  destruct (errorsOnly_members _ _ Hdd') as (Hdeps' & He' & Hi'').
  exists d'. split; [done|]. split; [congruence|]. split; [congruence|].
  by rewrite Hdeps'.
Qed.

Lemma LoadQueued_refl this q w :
  LoadOrder w (queue q) -> forall b, (b = true -> this ∈ queue q) ->
  LoadQueued this q w (b, q, w).
Proof.
  intros Horder b Hb. split_and!; simpl; try done.
  - apply ErrorsOnly_refl.
  - intros s Hs. by left.
Qed.

Lemma LoadOrder_measure q w q' w' (depth : nat) :
  ErrorsOnly w w' -> circularityCheckQueue q ⊆ circularityCheckQueue q' ->
  (size (unchecked q w) < depth)%nat -> (size (unchecked q' w') < depth)%nat.
Proof.
  intros Hw%ErrorsOnly_dom Hc Hlt. pose proof (unchecked_le q w q' w' Hw Hc). lia.
Qed.

Lemma prefix_elem_of {A} (l1 l2 : list A) x : l1 `prefix_of` l2 -> x ∈ l1 -> x ∈ l2.
Proof. intros [k ->] Hx. apply elem_of_app. by left. Qed.

Lemma loadDependencies_order (depth : nat)
    (loadQueue_ : nat -> Queues -> World -> Result (bool * Queues * World))
    this dependencySpecs_ :
  (forall p q w, (size (unchecked q w) < depth)%nat -> LoadOrder w (queue q) ->
     ensures (loadQueue_ p q w) (LoadQueued p q w)) ->
  forall q w, (size (unchecked q w) < depth)%nat -> LoadOrder w (queue q) ->
    ensures (loadDependencies loadQueue_ this dependencySpecs_ q w)
      (DependenciesQueued dependencySpecs_ q w).
Proof.
  intros Hcall. induction dependencySpecs_ as [|pluginSpec rest IH];
    intros q w Hsize Horder; simpl.
  { split_and!; simpl; try done; [apply ErrorsOnly_refl|by left|].
    by intros _ t ?%elem_of_nil. }
  eapply ensures_bind; [by apply Hcall|].
  intros [[loaded q1] w1] (Hw1 & Ho1 & Hp1 & Hc1 & Hs1 & Hl1). simpl in *.
  destruct loaded.
  - eapply ensures_mono.
    + apply IH; [by eapply LoadOrder_measure|done].
    + intros [[loaded2 q2] w2] (Hw2 & Ho2 & Hp2 & Hc2 & Hs2 & Hl2). simpl in *.
      split_and!; simpl.
      * by eapply ErrorsOnly_trans.
      * done.
      * by etrans.
      * by etrans.
      * intros s Hs. destruct (Hs2 s Hs) as [Hin|Hnin]; [by apply Hs1|].
        right. intros Hin. by apply Hnin, Hc1.
      * intros Hloaded t [-> |Ht]%elem_of_cons; [|by apply Hl2].
        eapply prefix_elem_of; [exact Hp2|]. by apply Hl1.
  - eapply ensures_bind; [apply ensures_deref|]. intros d _.
    eapply ensures_bind; [apply ensures_deref|]. intros dp _. simpl.
    assert (Hw2 : ErrorsOnly w1 (modify this
              (reportError ("Plugin " +:+ name d +:+ " cannot be loaded because dependency "
                    +:+ name dp +:+ " failed.")) w1)) by apply ErrorsOnly_reportError.
    split_and!; simpl; try done.
    + by eapply ErrorsOnly_trans.
    + by eapply LoadOrder_ErrorsOnly.
Qed.

(** [loadQueue] appends to a queue in load order only specs in load order,
    and its [this] when it returns true. *)
Lemma loadQueue_order depth :
  forall this q w, (size (unchecked q w) < depth)%nat -> LoadOrder w (queue q) ->
    ensures (loadQueue depth this q w) (LoadQueued this q w).
Proof.
  induction depth as [|depth IH]; intros this q w Hsize Horder; [lia|].
  simpl. eapply ensures_bind; [apply ensures_deref|]. intros d Hd. simpl in Hd.
  eapply ensures_bind; [apply ensures_assert|]. intros _ _.
  destruct (negb (enabled d) || indirectlyDisabled d) eqn:Hoff;
    [by apply LoadQueued_refl|].
  destruct (QList.contains (queue q) this) eqn:Hqueued.
  { apply contains_true in Hqueued. by apply LoadQueued_refl. }
  apply contains_false in Hqueued.
  destruct (QList.contains (circularityCheckQueue q) this) eqn:Hcheck.
  - eapply ensures_bind; [apply circularityText_ensures|]. intros text _. simpl.
    pose proof (ErrorsOnly_reportError w this text) as Hw.
    split_and!; simpl; try done.
    + by eapply LoadOrder_ErrorsOnly.
    + by left.
  - apply contains_false in Hcheck.
    pose proof (unchecked_lt this q w d Hd Hcheck) as Hlt.
    set (q0 := mkQueues (queue q) (circularityCheckQueue q ++ [this])) in *.
    eapply ensures_bind.
    + apply (loadDependencies_order depth); [exact IH|lia|done].
    + intros [[loaded q1] w1] (Hw1 & Ho1 & Hp1 & Hc1 & Hs1 & Hl1). simpl in *.
      assert (Hsub : circularityCheckQueue q ⊆ circularityCheckQueue q1).
      { intros y Hy. apply Hc1, elem_of_app. by left. }
      assert (Hkeep : forall s, s ∈ queue q1 ->
                s ∈ queue q \/ s ∉ circularityCheckQueue q).
      { intros s Hs. destruct (Hs1 s Hs) as [?|Hnin]; [by left|].
        right. intros Hin. apply Hnin, elem_of_app. by left. }
      destruct loaded; [|by split_and!].
      assert (Hnotin : this ∉ queue q1).
      { intros Hin. destruct (Hs1 this Hin) as [?|Hnin]; [done|].
        apply Hnin, elem_of_app. right. apply list_elem_of_here. }
      split_and!; simpl.
      * done.
      * destruct Ho1 as [Hnd Horder1]. split.
        -- apply NoDup_app. split; [done|]. split; [|apply NoDup_singleton].
           intros s Hs ->%list_elem_of_singleton. done.
        -- intros i s Hi. apply lookup_app_Some in Hi as [Hi|[Hlen Hi]].
           ++ destruct (Horder1 i s Hi) as (ds & Hds & He & Hind & Hdeps).
              exists ds. split_and!; try done. intros t Ht.
              destruct (Hdeps t Ht) as (j & Hj & Hjt). exists j. split; [done|].
              by apply lookup_app_l_Some.
           ++ apply list_lookup_singleton_Some in Hi as [Hi <-].
              destruct Hw1 as [Hheap _]. specialize (Hheap this).
              rewrite Hd in Hheap. inversion Hheap as [? d1 Hdd1 E1 E2|]; subst.
              destruct (errorsOnly_members _ _ Hdd1) as (Hdeps' & He' & Hi').
              apply orb_false_iff in Hoff as [He%negb_false_iff Hind].
              exists d1. split_and!; [done|congruence|congruence|].
              intros t Ht. rewrite Hdeps' in Ht.
              destruct (proj1 (list_elem_of_lookup _ _) (Hl1 eq_refl t Ht)) as [j Hj].
              exists j. split; [|by apply lookup_app_l_Some].
              apply lookup_lt_Some in Hj. lia.
      * destruct Hp1 as [k ->]. exists (k ++ [this]). by rewrite app_assoc.
      * done.
      * intros s [Hs| ->%list_elem_of_singleton]%elem_of_app; [by apply Hkeep|].
        by right.
      * intros _. apply elem_of_app. right. apply list_elem_of_here.
Qed.

End LoadOrder.

Section ManagerLoadOrder.
Import PluginSpec Propagation RunNotions LoadNotions.
Implicit Types (w v : World) (m : PluginManager.PluginManagerPrivate).
Local Arguments mbind : simpl never.

Lemma manager_loadQueue_order depth m w :
  (size (heap w) < depth)%nat ->
  ensures (PluginManager.loadQueue depth m w)
    (fun r => ErrorsOnly w r.2 /\ LoadOrder r.2 r.1).
Proof.
  intros Hsize. unfold PluginManager.loadQueue.
  eapply ensures_bind; [apply specsByName_ensures|]. intros pluginSpecs _.
  apply ensures_forEach.
  { split; [apply ErrorsOnly_refl|]. split; [constructor|].
    intros i s Hi. by destruct i. }
  intros pluginSpec [queue_ w1] _ [Hw1 Ho1]. simpl in Hw1, Ho1.
  eapply ensures_bind; [apply ensures_deref|]. intros d _.
  destruct (ge (state d) Resolved); [|done].
  eapply ensures_bind.
  - apply (loadQueue_order depth); [|done].
    pose proof (unchecked_fresh queue_ w1).
    rewrite (dom_size _ _ (ErrorsOnly_dom _ _ Hw1)) in *. lia.
  - intros [[b q] w2] (Hw2 & Ho2 & _). simpl in *.
    split; [by eapply ErrorsOnly_trans|done].
Qed.

(** X13.  The load queue of the manager, computed with depth for every
    spec, is in load order: it holds no spec twice, only specs that are
    enabled and not indirectly disabled, and every spec after all of its
    dependencies; computing it changes nothing but error members of
    specs. *)
Theorem loadQueue_in_load_order depth m w :
  (size (heap w) < depth)%nat ->
  PluginManager.loadQueue depth m w <> OutOfFuel
  /\ forall queue_ w',
       PluginManager.loadQueue depth m w = Ok (queue_, w') ->
       LoadOrder w' queue_ /\ ErrorsOnly w w'.
Proof.
  intros Hsize. pose proof (manager_loadQueue_order depth m w Hsize) as H.
  split; [by eapply ensures_not_fuel|].
  intros queue_ w' Hrun. by destruct (ensures_Ok _ _ _ H Hrun).
Qed.

Lemma loadQueue_in_load_order_witness :
  let m := PluginManager.mk [(None, 0); (None, 1)]%nat [] "" in
  exists w,
    LoadedExample.resolved = Ok w
    /\ (size (heap w) < 5)%nat
    /\ PluginManager.loadQueue 5 m w = Ok ([0; 1]%nat, w)
    /\ PluginManager.loadQueue 5 m w <> OutOfFuel
    /\ forall queue_ w',
         PluginManager.loadQueue 5 m w = Ok (queue_, w') ->
         LoadOrder w' queue_ /\ ErrorsOnly w w'.
Proof.
  intros m.
  destruct LoadedExample.resolved as [w| |] eqn:E;
    try (vm_compute in E; discriminate E).
  vm_compute in E. injection E as <-.
  eexists. split; [reflexivity|].
  match goal with |- (size (heap ?w) < 5)%nat /\ _ =>
    assert (Hsize : (size (heap w) < 5)%nat) by (vm_compute; lia)
  end.
  split; [exact Hsize|]. split; [vm_compute; reflexivity|].
  exact (loadQueue_in_load_order 5 m _ Hsize).
Defined.

End ManagerLoadOrder.

(** * Further properties of the plugin specs *)

Section Touch.
Import PluginSpec Propagation RunNotions TouchNotions.
Implicit Types (w v : World) (p : nat) (d : PluginSpecPrivate).
Local Arguments mbind : simpl never.

Lemma flagsAndErrors_refl d : flagsAndErrors d d.
Proof. by destruct d. Qed.

Lemma flagsAndErrors_trans d1 d2 d3 :
  flagsAndErrors d1 d2 -> flagsAndErrors d2 d3 -> flagsAndErrors d1 d3.
Proof. unfold flagsAndErrors. intros H12 H23. rewrite H23, H12. done. Qed.

Lemma FlagsAndErrors_refl w : FlagsAndErrors w w.
Proof. intros p. destruct (heap w !! p); constructor. apply flagsAndErrors_refl. Qed.

Lemma FlagsAndErrors_trans w1 w2 w3 :
  FlagsAndErrors w1 w2 -> FlagsAndErrors w2 w3 -> FlagsAndErrors w1 w3.
Proof.
  intros H12 H23 p. specialize (H12 p). specialize (H23 p).
  destruct H12 as [d1 d2 H12|]; inversion H23 as [? d3 H23'|]; subst; constructor.
  by eapply flagsAndErrors_trans.
Qed.

Lemma FlagsAndErrors_modify w p f :
  (forall d, flagsAndErrors d (f d)) -> FlagsAndErrors w (modify p f w).
Proof.
  intros Hf p'. rewrite heap_modify. case_decide.
  - destruct (heap w !! p'); constructor. apply Hf.
  - destruct (heap w !! p'); constructor. apply flagsAndErrors_refl.
Qed.

Lemma flagsAndErrors_reportError err d : flagsAndErrors d (reportError err d).
Proof. unfold flagsAndErrors, reportError. case_decide; by destruct d. Qed.

Lemma flagsAndErrors_indirectlyDisabled b d :
  flagsAndErrors d (set_indirectlyDisabled b d).
Proof. by destruct d. Qed.

Lemma flagsAndErrors_circular d :
  flagsAndErrors d (set_circularDependencyDetected true (set_indirectlyDisabled true d)).
Proof. by destruct d. Qed.

Lemma pop_heap this w w' : pop this w = Ok w' -> heap w' = heap w.
Proof.
  unfold pop. destruct (resolvedPluginsStack w); [done|].
  case_decide; [|done]. by intros [= <-].
Qed.

Lemma ensures_pop this w (P : World -> Prop) :
  (forall w', heap w' = heap w -> P w') -> ensures (pop this w) P.
Proof.
  intros HP. destruct (pop this w) as [w'| |] eqn:Hpop; simpl; try done.
  - by apply HP, (pop_heap this).
  - unfold pop in Hpop. destruct (resolvedPluginsStack w); [done|].
    by case_decide.
Qed.

Lemma FlagsAndErrors_heap w w' v :
  heap v = heap w' -> FlagsAndErrors w w' -> FlagsAndErrors w v.
Proof. intros Hv H p. rewrite Hv. apply H. Qed.

(** A call of [resolveIndirectlyDisabled] changes at most the two flags of
    the propagation and the error members of specs. *)
Lemma resolveIndirectlyDisabled_touches depth :
  forall force this w,
    (propagationMeasure w < depth)%nat ->
    ensures (resolveIndirectlyDisabled depth force this w) (FlagsAndErrors w).
Proof.
  induction depth as [|depth IH]; intros force this w Hmeasure; [lia|].
  pose proof (resolveIndirectlyDisabled_ensures (S depth) force this w Hmeasure)
    as Hreturns.
  assert (Heach : forall force v l, (propagationMeasure v < depth)%nat ->
            ensures (forEach (fun providesSpec w =>
                        resolveIndirectlyDisabled depth force providesSpec w) l v)
              (FlagsAndErrors v)).
  { intros force' v l Hv.
    eapply ensures_mono with (P := fun s => Propagated v s /\ FlagsAndErrors v s);
      [|by intros s [_ ?]].
    apply ensures_forEach; [split; [apply Propagated_refl|apply FlagsAndErrors_refl]|].
    intros x s _ [Hs Ht]. eapply ensures_mono.
    - apply ensures_and.
      + apply (resolveIndirectlyDisabled_ensures depth force' x s).
        apply Propagated_measure in Hs. lia.
      + apply IH. apply Propagated_measure in Hs. lia.
    - intros s' [Hs' Ht']. split; [by eapply Propagated_trans|].
      by eapply FlagsAndErrors_trans. }
  simpl. eapply ensures_bind; [apply ensures_deref|]. intros d Hd. simpl.
  destruct (circularDependencyDetected d) eqn:Hcirc; [apply FlagsAndErrors_refl|].
  destruct (QList.contains (resolvedPluginsStack w) this) eqn:Hstack.
  - apply contains_true in Hstack.
    set (w1 := modify this _ w).
    assert (Hw1 : FlagsAndErrors w w1).
    { apply FlagsAndErrors_modify. intros d'. apply flagsAndErrors_circular. }
    assert (Hflag : notFlagged w1 ⊂ notFlagged w).
    { by apply (notFlagged_flagged w this d). }
    eapply ensures_bind; [apply pluginOrderFrom_ensures|]. intros pluginOrder _.
    eapply ensures_bind.
    + apply (Heach true (push this w1)).
      apply subset_size in Hflag.
      pose proof (offStack_push_le this w (push this w1) (dom_modify _ _ _) eq_refl).
      unfold propagationMeasure in *.
      change (notFlagged (push this w1)) with (notFlagged w1). lia.
    + intros w2 Hw2. apply ensures_pop. intros w' Hw'.
      eapply FlagsAndErrors_heap; [exact Hw'|].
      eapply FlagsAndErrors_trans; [exact Hw1|].
      eapply FlagsAndErrors_trans; [exact Hw2|].
      apply FlagsAndErrors_modify. intros d'. apply flagsAndErrors_reportError.
  - apply contains_false in Hstack.
    destruct (negb force && indirectlyDisabled d); [apply FlagsAndErrors_refl|].
    set (wa := if force then modify this (set_indirectlyDisabled false) w else w).
    assert (Hwa : FlagsAndErrors w wa).
    { unfold wa. destruct force; [|apply FlagsAndErrors_refl].
      apply FlagsAndErrors_modify. intros d'. apply flagsAndErrors_indirectlyDisabled. }
    assert (Hda : dom (heap wa) = dom (heap w)).
    { unfold wa. destruct force; [apply dom_modify|done]. }
    assert (Hna : notFlagged wa ⊆ notFlagged w).
    { unfold wa. destruct force; [by apply notFlagged_modify|done]. }
    assert (Hsa : resolvedPluginsStack wa = resolvedPluginsStack w).
    { unfold wa. by destruct force. }
    eapply ensures_bind; [apply anyUnavailable_ensures|]. intros disabled _.
    set (wb := if disabled then modify this (set_indirectlyDisabled true) (push this wa)
               else push this wa).
    assert (Hwb : FlagsAndErrors w wb).
    { eapply FlagsAndErrors_trans; [exact Hwa|]. unfold wb.
      destruct disabled; [|exact (FlagsAndErrors_refl wa)].
      exact (FlagsAndErrors_modify wa this _ (flagsAndErrors_indirectlyDisabled true)). }
    assert (Hdb : dom (heap wb) = dom (heap w)).
    { unfold wb. destruct disabled; [rewrite dom_modify|]; exact Hda. }
    assert (Hnb : notFlagged wb ⊆ notFlagged w).
    { unfold wb. destruct disabled; [|exact Hna].
      etrans; [by apply notFlagged_modify|exact Hna]. }
    assert (Hsb : resolvedPluginsStack wb = this :: resolvedPluginsStack w).
    { unfold wb. destruct disabled; simpl; by rewrite Hsa. }
    assert (Hmb : (propagationMeasure wb < depth)%nat).
    { pose proof (offStack_push_lt this w wb d Hdb Hsb Hd Hstack).
      apply subseteq_size in Hnb. unfold propagationMeasure in *. lia. }
    eapply ensures_bind with (P := FlagsAndErrors wb).
    + destruct (disabled || force); [|apply FlagsAndErrors_refl].
      by apply Heach.
    + intros w2 Hw2. apply ensures_pop. intros w' Hw'.
      eapply FlagsAndErrors_heap; [exact Hw'|].
      by eapply FlagsAndErrors_trans.
Qed.

(** X14.  On any set of specs, cycles of dependencies included, a call of
    [resolveIndirectlyDisabled] with depth for twice the number of specs
    does not lack depth; when it returns it has kept the stack and the
    trace, has cleared no cycle flag, and has changed at most the flags
    [indirectlyDisabled] and [circularDependencyDetected] and the error
    members of specs. *)
Theorem resolveIndirectlyDisabled_any_graph depth force this w :
  (2 * size (heap w) < depth)%nat ->
  resolveIndirectlyDisabled depth force this w <> OutOfFuel
  /\ forall w',
       resolveIndirectlyDisabled depth force this w = Ok w' ->
       resolvedPluginsStack w' = resolvedPluginsStack w
       /\ trace w' = trace w
       /\ notFlagged w' ⊆ notFlagged w
       /\ FlagsAndErrors w w'.
Proof.
  intros Hsize. pose proof (propagationMeasure_bound w) as Hbound.
  assert (Hmeasure : (propagationMeasure w < depth)%nat) by lia.
  pose proof (resolveIndirectlyDisabled_ensures depth force this w Hmeasure) as H1.
  pose proof (resolveIndirectlyDisabled_touches depth force this w Hmeasure) as H2.
  split; [by eapply ensures_not_fuel|].
  intros w' Hrun. destruct (ensures_Ok _ _ _ H1 Hrun) as (Hs & _ & Ht & Hn).
  split_and!; try done. exact (ensures_Ok _ _ _ H2 Hrun).
Qed.

End Touch.

Section TouchExample.
Import PluginSpec SpecNotions Propagation RunNotions TouchNotions.

Lemma resolveIndirectlyDisabled_any_graph_witness :
  exists w,
    CyclicExample.edges = Ok w
    /\ (2 * size (heap w) < 5)%nat
    /\ member circularDependencyDetected w 0 = Some false
    /\ (exists w', resolveIndirectlyDisabled 5 true 0 w = Ok w'
                   /\ member circularDependencyDetected w' 0 = Some true)
    /\ resolveIndirectlyDisabled 5 true 0 w <> OutOfFuel
    /\ forall w',
         resolveIndirectlyDisabled 5 true 0 w = Ok w' ->
         resolvedPluginsStack w' = resolvedPluginsStack w
         /\ trace w' = trace w
         /\ notFlagged w' ⊆ notFlagged w
         /\ FlagsAndErrors w w'.
Proof.
  destruct CyclicExample.edges as [w| |] eqn:E;
    try (vm_compute in E; discriminate E).
  vm_compute in E. injection E as <-.
  eexists. split; [reflexivity|].
  match goal with |- (2 * size (heap ?w) < 5)%nat /\ _ =>
    assert (Hsize : (2 * size (heap w) < 5)%nat) by (vm_compute; lia)
  end.
  split; [exact Hsize|]. split; [vm_compute; reflexivity|].
  split; [eexists; split; vm_compute; reflexivity|].
  exact (resolveIndirectlyDisabled_any_graph 5 true 0 _ Hsize).
Defined.

End TouchExample.

Section ResolveMore.
Import PluginSpec SpecNotions ResolveNotions.
Implicit Types (w v : World) (p : nat) (d : PluginSpecPrivate).

Lemma findSpec_Some w specs dependencyName spec :
  findSpec w specs dependencyName = Ok (Some spec) ->
  spec ∈ specs /\ member name w spec = Some dependencyName.
Proof.
  induction specs as [|s specs IH]; simpl; [done|]. intros Hfind.
  apply bind_Ok in Hfind as (ds & Hds%deref_Ok & Hfind).
  destruct (String.eqb (name ds) dependencyName) eqn:Hname.
  - injection Hfind as <-. split; [apply list_elem_of_here|].
    unfold member. rewrite Hds. simpl. f_equal. by apply String.eqb_eq.
  - destruct (IH Hfind) as [Hin Hn]. split; [by apply list_elem_of_further|done].
Qed.

(** When the loop leaves [this] without error, it has resolved every
    dependency, in order, to a spec of the set with the name asked for. *)
Lemma resolveLoop_found this specs deps acc w res wl :
  resolveLoop this specs deps acc w = Ok (res, wl) ->
  member hasError wl this = Some false ->
  exists new, res = acc ++ new
    /\ Forall2 (fun dep s => s ∈ specs
                  /\ member name w s = Some (PluginDependency.name dep)) deps new.
Proof.
  revert acc w. induction deps as [|dep deps IH]; intros acc w Hloop Hok;
    simpl in Hloop.
  - injection Hloop as <- <-. exists []. by rewrite app_nil_r.
  - apply bind_Ok in Hloop as ([spec|] & Hfind & Hloop).
    + destruct (IH _ _ Hloop Hok) as (new & Hnew & Hall).
      exists (spec :: new). rewrite Hnew, <- app_assoc. split; [done|].
      constructor; [by apply findSpec_Some|].
      eapply Forall2_impl; [exact Hall|]. intros dep' s [Hs Hn]. split; [done|].
      rewrite <- Hn. by apply SameNames_modify.
    + apply bind_Ok in Hloop as (d0 & Hthis%deref_Ok & Hloop).
      destruct (resolveLoop_step _ _ _ _ _ _ _ Hloop) as (new & _ & Hstep).
      specialize (Hstep this). rewrite (heap_modify_eq _ _ _ _ Hthis) in Hstep.
      unfold member in Hok.
      inversion Hstep as [x0 d' (_ & _ & _ & _ & Herr & _) Ex Ey|]; subst.
      rewrite <- Ey in Hok. simpl in Hok. injection Hok as Hok.
      rewrite Herr in Hok; [done|]. unfold reportError. by case_decide.
Qed.

(** X15.  What [resolveDependencies] leaves when it returns: on success
    the spec is Resolved and without error, its [dependencySpecs] are, in
    the order of its dependencies, specs of the given set with the names
    asked for (versions are not looked at), and each of them has the spec in
    its [providesSpecs]; on failure the spec has an error and its
    [dependencySpecs] are what they were. *)
Theorem resolveDependencies_result this specs w (resolved : bool) w' :
  resolveDependencies this specs w = Ok (resolved, w') ->
  exists d d',
    heap w !! this = Some d /\ heap w' !! this = Some d'
    /\ if resolved then
         state d' = Resolved /\ hasError d' = false
         /\ Forall2 (fun dep s => s ∈ specs
                       /\ member name w s = Some (PluginDependency.name dep))
              (dependencies d) (dependencySpecs d')
         /\ forall s, s ∈ dependencySpecs d' ->
              exists ds', heap w' !! s = Some ds' /\ this ∈ providesSpecs ds'
       else hasError d' = true /\ dependencySpecs d' = dependencySpecs d.
Proof.
  unfold resolveDependencies. intros Hrun.
  apply bind_Ok in Hrun as (d & Hd%deref_Ok & Hrun).
  destruct (hasError d) eqn:Herr.
  { injection Hrun as <- <-. by exists d, d. }
  set (w0 := if decide (state d = Resolved) then modify this (set_state Read) w else w)
    in Hrun.
  assert (Hnames : SameNames w w0).
  { unfold w0. case_decide; [by apply SameNames_modify|apply SameNames_refl]. }
  apply bind_Ok in Hrun as (d0 & Hd0%deref_Ok & Hrun).
  assert (Hd0' : dependencies d0 = dependencies d /\ dependencySpecs d0 = dependencySpecs d).
  { unfold w0 in Hd0. case_decide.
    - rewrite (heap_modify_eq _ _ _ _ Hd) in Hd0. by injection Hd0 as <-.
    - by assert (d0 = d) as -> by congruence. }
  destruct Hd0' as [Hdeps0 Hspecs0].
  apply bind_Ok in Hrun as ([] & _ & Hrun).
  apply bind_Ok in Hrun as ([res wl] & Hloop & Hrun).
  apply bind_Ok in Hrun as (dl & Hdl%deref_Ok & Hrun).
  destruct (resolveLoop_step _ _ _ _ _ _ _ Hloop) as (new & Hres & Hstep).
  simpl in Hres. subst res.
  destruct (hasError dl) eqn:Herrl.
  - injection Hrun as <- <-. exists d, dl. split; [done|]. split; [done|].
    split; [done|]. specialize (Hstep this). rewrite Hd0, Hdl in Hstep.
    inversion Hstep as [? ? (_ & _ & _ & Hkeep & _) E1 E2|]; subst. congruence.
  - injection Hrun as <- <-. eexists d, _. split; [done|].
    split; [by apply heap_modify_eq|]. simpl. split; [done|]. split; [done|].
    destruct (resolveLoop_found _ _ _ _ _ _ _ Hloop) as (new' & Hnew' & Hall).
    { unfold member. by rewrite Hdl, <- Herrl. }
    simpl in Hnew'. subst new'. split.
    + rewrite <- Hdeps0. eapply Forall2_impl; [exact Hall|].
      intros dep s [Hs Hn]. split; [done|]. by rewrite (Hnames s).
    + intros s Hs.
      assert (Hsl : is_Some (heap wl !! s)).
      { apply list_elem_of_lookup in Hs as [i Hi].
        destruct (Forall2_lookup_r _ _ _ _ _ Hall Hi) as (dep & _ & _ & Hn).
        rewrite (resolveLoop_SameNames _ _ _ _ _ _ _ Hloop s) in Hn.
        unfold member in Hn. destruct (heap wl !! s); [done|discriminate Hn]. }
      destruct Hsl as [dsl Hsl]. specialize (Hstep s). rewrite Hsl in Hstep.
      inversion Hstep as [ds ? (_ & _ & _ & _ & _ & Hprov) E1 E2|]; subst.
      destruct (decide (this = s)) as [->|Hne].
      * rewrite lookup_alter_eq, Hsl. eexists. split; [done|]. simpl.
        apply Hprov. by right.
      * rewrite lookup_alter_ne, Hsl by done. eexists. split; [done|].
        apply Hprov. by right.
Qed.

End ResolveMore.

Section ResolveExample.
Import PluginSpec SpecNotions.

Lemma resolveDependencies_result_witness :
  exists w',
    resolveDependencies 1 [0; 1]%nat (worldOf LoadedExample.specs) = Ok (true, w')
    /\ member dependencySpecs w' 1%nat = Some [0%nat]
    /\ exists d d',
         heap (worldOf LoadedExample.specs) !! 1%nat = Some d
         /\ heap w' !! 1%nat = Some d'
         /\ state d' = Resolved /\ hasError d' = false
         /\ Forall2 (fun dep s => s ∈ [0; 1]%nat
                       /\ member name (worldOf LoadedExample.specs) s
                          = Some (PluginDependency.name dep))
              (dependencies d) (dependencySpecs d')
         /\ forall s, s ∈ dependencySpecs d' ->
              exists ds', heap w' !! s = Some ds' /\ (1%nat) ∈ providesSpecs ds'.
Proof.
  destruct (resolveDependencies 1 [0; 1]%nat (worldOf LoadedExample.specs))
    as [[b w']| |] eqn:E; try (vm_compute in E; discriminate E).
  pose proof E as E'. vm_compute in E'. injection E' as <- <-.
  eexists. split; [reflexivity|]. split; [vm_compute; reflexivity|].
  exact (resolveDependencies_result 1 [0; 1]%nat _ true _ E).
Defined.

End ResolveExample.
(** * The unload queue *)

Section UnloadOrder.
Import PluginSpec Propagation RunNotions LoadNotions UnloadNotions.
Implicit Types (w v : World) (p : nat) (q : Queues) (d : PluginSpecPrivate).
Local Arguments mbind : simpl never.

Lemma errorsOnly_skipped d d' :
  errorsOnly d d' -> providesSpecs d' = providesSpecs d /\ skipped d' = skipped d.
Proof. unfold errorsOnly. intros ->. done. Qed.

Lemma errorsOnly_state d d' : errorsOnly d d' -> state d' = state d.
Proof. unfold errorsOnly. intros ->. done. Qed.

Lemma ensures_forEach_done {A S : Type} (body : A -> S -> Result S)
    (I : list A -> S -> Prop) (l : list A) (s : S) :
  I [] s ->
  (forall done x s, I done s -> ensures (body x s) (I (done ++ [x]))) ->
  ensures (forEach body l s) (I l).
Proof.
  intros Hs Hbody.
  enough (forall done s, I done s -> ensures (forEach body l s) (I (done ++ l)))
    as H by exact (H [] s Hs).
  clear s Hs. induction l as [|x l IH]; intros done s Hs; simpl.
  - by rewrite app_nil_r.
  - eapply ensures_bind; [by apply Hbody|]. intros s' Hs'. simpl.
    replace (done ++ x :: l) with ((done ++ [x]) ++ l) by by rewrite <- app_assoc.
    by apply IH.
Qed.

Lemma ErrorsAdded_refl w : ErrorsAdded w w.
Proof. split; [apply ErrorsOnly_refl|]. intros p d d' Hd Hd'. congruence. Qed.

Lemma ErrorsAdded_trans w1 w2 w3 :
  ErrorsAdded w1 w2 -> ErrorsAdded w2 w3 -> ErrorsAdded w1 w3.
Proof.
  intros [H12 He12] [H23 He23]. split; [by eapply ErrorsOnly_trans|].
  intros p d1 d3 Hd1 Hd3 Herr. destruct H12 as [H12 _]. specialize (H12 p).
  rewrite Hd1 in H12. inversion H12 as [? d2 _ E1 E2|]; subst.
  symmetry in E2. eapply He23; [done..|]. by eapply He12.
Qed.

Lemma ErrorsAdded_reportError w p err : ErrorsAdded w (modify p (reportError err) w).
Proof.
  split; [apply ErrorsOnly_reportError|]. intros p' d d' Hd Hd' Herr.
  rewrite heap_modify, Hd in Hd'. case_decide; simpl in Hd'; injection Hd' as <-;
    [|done]. unfold reportError. by case_decide.
Qed.

Lemma ErrorsAdded_dom w w' : ErrorsAdded w w' -> dom (heap w') = dom (heap w).
Proof. intros [H _]. by apply ErrorsOnly_dom. Qed.

Lemma excused_ErrorsAdded w w' t : ErrorsAdded w w' -> excused w t -> excused w' t.
Proof.
  intros [[H _] He] (dt & Hdt & Hex). specialize (H t). rewrite Hdt in H.
  inversion H as [? dt' Hdd E1 E2|]; subst. symmetry in E2.
  destruct (errorsOnly_skipped _ _ Hdd) as [_ Hskip].
  exists dt'. split; [done|]. destruct Hex as [Hs|Herr].
  - left. congruence.
  - right. by eapply He.
Qed.

Lemma UnloadOrder_ErrorsAdded w w' queue_ :
  ErrorsAdded w w' -> UnloadOrder w queue_ -> UnloadOrder w' queue_.
Proof.
  intros Hww' [Hnd Horder]. split; [done|]. intros i s Hi.
  destruct (Horder i s Hi) as (d & Hd & Hskip & Hprov).
  pose proof Hww' as [[H _] _]. specialize (H s). rewrite Hd in H.
  inversion H as [? d' Hdd' E1 E2|]; subst.
  destruct (errorsOnly_skipped _ _ Hdd') as [Hprov' Hskip'].
  exists d'. split; [done|]. split; [congruence|]. intros t Ht.
  rewrite Hprov' in Ht. destruct (Hprov t Ht) as [?|Hex]; [by left|].
  right. by eapply excused_ErrorsAdded.
Qed.

Lemma UnloadOrder_measure q w q' w' (depth : nat) :
  ErrorsAdded w w' -> circularityCheckQueue q ⊆ circularityCheckQueue q' ->
  (size (unchecked q w) < depth)%nat -> (size (unchecked q' w') < depth)%nat.
Proof.
  intros Hw%ErrorsAdded_dom Hc Hlt. pose proof (unchecked_le q w q' w' Hw Hc). lia.
Qed.

(** The loop of [unloadQueue] over [providesSpecs]. *)
Lemma unloadDependents_order (depth : nat)
    (unloadQueue_ : nat -> Queues -> World -> Result (bool * Queues * World))
    providesSpecs_ :
  (forall p q w, (size (unchecked q w) < depth)%nat -> UnloadOrder w (queue q) ->
     ensures (unloadQueue_ p q w) (UnloadQueued p q w)) ->
  forall q w, (size (unchecked q w) < depth)%nat -> UnloadOrder w (queue q) ->
    ensures (forEach (fun pluginSpec '(q, w) =>
                        '(_, q, w) ← unloadQueue_ pluginSpec q w; Ok (q, w))
               providesSpecs_ (q, w))
      (DependentsQueued providesSpecs_ q w).
Proof.
  intros Hcall. induction providesSpecs_ as [|pluginSpec rest IH];
    intros q w Hsize Horder; simpl.
  { split_and!; simpl; try done; [apply ErrorsAdded_refl|by left|].
    by intros t ?%elem_of_nil. }
  eapply (ensures_bind _ _ (fun r => UnloadQueued pluginSpec q w (true, r.1, r.2))).
  { eapply ensures_bind; [by apply Hcall|].
    intros [[b q1] w1] H. exact H. }
  intros [q1 w1] (Hw1 & Ho1 & Hp1 & Hc1 & Hs1 & Hl1 & _). simpl in *.
  eapply ensures_mono.
  - apply IH; [by eapply UnloadOrder_measure|done].
  - intros [q2 w2] (Hw2 & Ho2 & Hp2 & Hc2 & Hs2 & Hl2). simpl in *.
    split_and!; simpl.
    + by eapply ErrorsAdded_trans.
    + done.
    + by etrans.
    + by etrans.
    + intros s Hs. destruct (Hs2 s Hs) as [Hin|Hnin]; [by apply Hs1|].
      right. intros Hin. by apply Hnin, Hc1.
    + intros t [-> |Ht]%elem_of_cons; [|by apply Hl2].
      destruct Hl1 as [Hin|Hex].
      * left. by eapply prefix_elem_of.
      * right. by eapply excused_ErrorsAdded.
Qed.

(** [unloadQueue] appends to a queue in unload order only specs in unload
    order, and its [this] unless the test leaves it out or it is met a
    second time on the way. *)
Lemma unloadQueue_order depth :
  forall this q w, (size (unchecked q w) < depth)%nat -> UnloadOrder w (queue q) ->
    ensures (unloadQueue depth this q w) (UnloadQueued this q w).
Proof.
  induction depth as [|depth IH]; intros this q w Hsize Horder; [lia|].
  simpl. eapply ensures_bind; [apply ensures_deref|]. intros d Hd. simpl in Hd.
  eapply ensures_bind; [apply ensures_assert|]. intros _ _.
  fold (skipped d).
  destruct (skipped d) eqn:Hskip.
  { split_and!; simpl; try done.
    - apply ErrorsAdded_refl.
    - intros s Hs. by left.
    - right. exists d. split; [done|]. by left.
    - intros _ d' Hd'. congruence. }
  destruct (QList.contains (queue q) this) eqn:Hqueued.
  { apply contains_true in Hqueued. split_and!; simpl; try done.
    - apply ErrorsAdded_refl.
    - intros s Hs. by left.
    - by left. }
  apply contains_false in Hqueued.
  destruct (QList.contains (circularityCheckQueue q) this) eqn:Hcheck.
  - apply contains_true in Hcheck.
    eapply ensures_bind; [apply circularityText_ensures|]. intros text _. simpl.
    pose proof (ErrorsAdded_reportError w this text) as Hw.
    split_and!; simpl; try done.
    + by eapply UnloadOrder_ErrorsAdded.
    + intros s Hs. by left.
    + right. eexists. split; [by apply heap_modify_eq|]. right.
      unfold reportError. by case_decide.
  - apply contains_false in Hcheck.
    pose proof (unchecked_lt this q w d Hd Hcheck) as Hlt.
    set (q0 := mkQueues (queue q) (circularityCheckQueue q ++ [this])) in *.
    eapply ensures_bind.
    + apply (unloadDependents_order depth); [exact IH|lia|done].
    + intros [q1 w1] (Hw1 & Ho1 & Hp1 & Hc1 & Hs1 & Hl1). simpl in *.
      assert (Hnotin : this ∉ queue q1).
      { intros Hin. destruct (Hs1 this Hin) as [?|Hnin]; [done|].
        apply Hnin, elem_of_app. right. apply list_elem_of_here. }
      assert (Hthis : this ∈ queue q1 ++ [this]).
      { apply elem_of_app. right. apply list_elem_of_here. }
      split_and!; simpl.
      * done.
      * destruct Ho1 as [Hnd Horder1]. split.
        -- apply NoDup_app. split; [done|]. split; [|apply NoDup_singleton].
           intros s Hs ->%list_elem_of_singleton. done.
        -- intros i s Hi. apply lookup_app_Some in Hi as [Hi|[Hlen Hi]].
           ++ destruct (Horder1 i s Hi) as (ds & Hds & Hsk & Hprov).
              exists ds. split_and!; try done. intros t Ht.
              destruct (Hprov t Ht) as [(j & Hj & Hjt)|Hex]; [|by right].
              left. exists j. split; [done|]. by apply lookup_app_l_Some.
           ++ apply list_lookup_singleton_Some in Hi as [Hi <-].
              pose proof Hw1 as [[Hheap _] _]. specialize (Hheap this).
              rewrite Hd in Hheap. inversion Hheap as [? d1 Hdd1 E1 E2|]; subst.
              destruct (errorsOnly_skipped _ _ Hdd1) as [Hprov' Hskip'].
              exists d1. split_and!; [done|congruence|].
              intros t Ht. rewrite Hprov' in Ht.
              destruct (Hl1 t Ht) as [Hin|Hex]; [|by right]. left.
              destruct (proj1 (list_elem_of_lookup _ _) Hin) as [j Hj].
              exists j. split; [|by apply lookup_app_l_Some].
              apply lookup_lt_Some in Hj. lia.
      * destruct Hp1 as [k ->]. exists (k ++ [this]). by rewrite app_assoc.
      * intros y Hy. apply Hc1, elem_of_app. by left.
      * intros s [Hs| ->%list_elem_of_singleton]%elem_of_app; [|by right].
        destruct (Hs1 s Hs) as [?|Hnin]; [by left|].
        right. intros Hin. apply Hnin, elem_of_app. by left.
      * by left.
      * done.
Qed.

End UnloadOrder.

Section ManagerUnloadOrder.
Import PluginSpec Propagation RunNotions LoadNotions UnloadNotions.
Implicit Types (w v : World) (m : PluginManager.PluginManagerPrivate).
Local Arguments mbind : simpl never.

Lemma manager_unloadQueue_order depth m w :
  (size (heap w) < depth)%nat ->
  ensures (PluginManager.unloadQueue depth m w)
    (fun r => ErrorsAdded w r.2 /\ UnloadOrder r.2 r.1
              /\ forall s d, s ∈ QMultiMap.values (PluginManager.m_pluginToSpec m) ->
                   heap w !! s = Some d -> ge (state d) Loaded = true -> s ∈ r.1).
Proof.
  intros Hsize. unfold PluginManager.unloadQueue.
  apply (ensures_forEach_done _
           (fun done r => ErrorsAdded w r.2 /\ UnloadOrder r.2 r.1
              /\ forall s d, s ∈ done -> heap w !! s = Some d ->
                   ge (state d) Loaded = true -> s ∈ r.1)).
  { split; [apply ErrorsAdded_refl|]. split.
    - split; [constructor|]. intros i s Hi. by destruct i.
    - by intros s d ?%elem_of_nil. }
  intros done pluginSpec [queue_ w1] (Hw1 & Ho1 & Hc1). simpl in Hw1, Ho1, Hc1.
  eapply ensures_bind; [apply ensures_deref|]. intros d1 Hd1. simpl in Hd1.
  assert (Hstate : forall d, heap w !! pluginSpec = Some d -> state d1 = state d).
  { intros d Hd. pose proof Hw1 as [[Hheap _] _]. specialize (Hheap pluginSpec).
    rewrite Hd, Hd1 in Hheap. inversion Hheap as [? ? Hdd|]; subst.
    by apply errorsOnly_state. }
  destruct (ge (state d1) Loaded) eqn:Hloaded.
  - eapply ensures_bind.
    + apply (unloadQueue_order depth); [|done].
      pose proof (unchecked_fresh queue_ w1).
      rewrite (dom_size _ _ (ErrorsAdded_dom _ _ Hw1)) in *. lia.
    + intros [[b q] w2] (Hw2 & Ho2 & Hp2 & _ & _ & _ & Hthis). simpl in *.
      split; [by eapply ErrorsAdded_trans|]. split; [done|].
      intros s d [Hs| ->%list_elem_of_singleton]%elem_of_app Hd Hge.
      * eapply prefix_elem_of; [exact Hp2|]. by eapply Hc1.
      * apply (Hthis (not_elem_of_nil _) d1 Hd1). unfold skipped.
        unfold ge in Hloaded. unfold lt.
        apply andb_false_iff. right. apply Nat.ltb_ge. by apply Nat.leb_le.
  - simpl. split; [done|]. split; [done|].
    intros s d [Hs| ->%list_elem_of_singleton]%elem_of_app Hd Hge.
    + by eapply Hc1.
    + rewrite (Hstate d Hd) in Hloaded. congruence.
Qed.

(** X16.  The unload queue of the manager, computed with depth for every
    spec, is in unload order: it holds no spec twice, none that is disabled
    and not loaded, and every spec after the specs that depend on it, but
    for dependents that are disabled and not loaded or carry an error;
    every registered spec that is loaded is in it; computing it changes
    nothing but error members of specs, and takes no error back. *)
Theorem unloadQueue_in_unload_order depth m w :
  (size (heap w) < depth)%nat ->
  PluginManager.unloadQueue depth m w <> OutOfFuel
  /\ forall queue_ w',
       PluginManager.unloadQueue depth m w = Ok (queue_, w') ->
       UnloadOrder w' queue_ /\ ErrorsAdded w w'
       /\ forall s d, s ∈ QMultiMap.values (PluginManager.m_pluginToSpec m) ->
            heap w !! s = Some d -> ge (state d) Loaded = true -> s ∈ queue_.
Proof.
  intros Hsize. pose proof (manager_unloadQueue_order depth m w Hsize) as H.
  split; [by eapply ensures_not_fuel|].
  intros queue_ w' Hrun.
  by destruct (ensures_Ok _ _ _ H Hrun) as (? & ? & ?).
Qed.

End ManagerUnloadOrder.

Section UnloadExample.
Import PluginSpec SpecNotions LoadNotions UnloadNotions.

Lemma unloadQueue_in_unload_order_witness :
  let env := exampleEnv true false in
  exists m w,
    LoadedExample.loaded env = Ok (m, w)
    /\ (size (heap w) < 5)%nat
    /\ PluginManager.unloadQueue 5 m w = Ok ([1; 0]%nat, w)
    /\ PluginManager.unloadQueue 5 m w <> OutOfFuel
    /\ forall queue_ w',
         PluginManager.unloadQueue 5 m w = Ok (queue_, w') ->
         UnloadOrder w' queue_ /\ ErrorsAdded w w'
         /\ forall s d, s ∈ QMultiMap.values (PluginManager.m_pluginToSpec m) ->
              heap w !! s = Some d -> ge (state d) Loaded = true -> s ∈ queue_.
Proof.
  intros env.
  destruct (LoadedExample.loaded env) as [[m w]| |] eqn:E;
    try (vm_compute in E; discriminate E).
  vm_compute in E. injection E as <- <-.
  eexists _, _. split; [reflexivity|].
  match goal with |- (size (heap ?w) < 5)%nat /\ _ =>
    assert (Hsize : (size (heap w) < 5)%nat) by (vm_compute; lia)
  end.
  split; [exact Hsize|]. split; [vm_compute; reflexivity|].
  exact (unloadQueue_in_unload_order 5 _ _ Hsize).
Defined.

End UnloadExample.
(** * Unloading all plugins *)

Section UnloadAll.
Import PluginSpec RunNotions SpecNotions LoadNotions UnloadNotions RegisterNotions.
Import PluginManager.
Implicit Types (w v : World) (p : nat) (d : PluginSpecPrivate)
  (m : PluginManagerPrivate) (items : list (option nat * nat)).
Local Arguments mbind : simpl never.

Lemma elem_of_insert key value items kv :
  kv ∈ QMultiMap.insert key value items <-> kv = (key, value) \/ kv ∈ items.
Proof.
  induction items as [|[k v] items IH]; simpl.
  - rewrite list_elem_of_singleton, elem_of_nil. tauto.
  - destruct (QMultiMap.keyLessThan k key); rewrite !elem_of_cons; [|tauto].
    rewrite IH. tauto.
Qed.

Lemma elem_of_remove key value items kv :
  kv ∈ QMultiMap.remove key value items <-> kv <> (key, value) /\ kv ∈ items.
Proof. unfold QMultiMap.remove. by rewrite list_elem_of_filter. Qed.

Lemma elem_of_values items s :
  s ∈ QMultiMap.values items <-> exists k, (k, s) ∈ items.
Proof.
  unfold QMultiMap.values. rewrite list_elem_of_fmap. split.
  - intros ([k s'] & -> & Hin). by exists k.
  - intros [k Hin]. by exists (k, s).
Qed.

Lemma elem_of_uniqueKeys items k :
  k ∈ QMultiMapKeys.uniqueKeys items -> exists s, (k, s) ∈ items.
Proof.
  induction items as [|[k0 s0] items IH]; simpl; [by intros ?%elem_of_nil|].
  destruct items as [|[k1 s1] items'].
  - intros ->%list_elem_of_singleton. exists s0. apply list_elem_of_here.
  - case_decide.
    + intros Hk. destruct (IH Hk) as [s Hs]. exists s. by apply list_elem_of_further.
    + intros [-> |Hk]%elem_of_cons.
      * exists s0. apply list_elem_of_here.
      * destruct (IH Hk) as [s Hs]. exists s. by apply list_elem_of_further.
Qed.

Lemma errorsOnly_plugin d d' : errorsOnly d d' -> plugin d' = plugin d.
Proof. unfold errorsOnly. intros ->. done. Qed.

(** [unloadPlugin] leaves its spec without plugin and no other spec
    touched. *)
Lemma unloadPlugin_plugin env this w :
  ensures (unloadPlugin env this w)
    (fun w' => forall p, member plugin w' p
                         = if decide (p = this) then Some None else member plugin w p).
Proof.
  unfold unloadPlugin. eapply ensures_bind; [apply ensures_deref|].
  intros d Hd. simpl in Hd. destruct (plugin d) as [pl|] eqn:Hpl.
  - simpl. intros p. unfold member.
    destruct (ge (state d) Initialized), (loaderUnload env _ _); simpl;
      (destruct (decide (p = this)) as [->|Hne];
       [by rewrite lookup_alter_eq, Hd|by rewrite lookup_alter_ne]).
  - simpl. intros p. unfold member. case_decide; [|done]. subst. rewrite Hd. simpl. by rewrite Hpl.
Qed.

(** After [unloadPlugins(queue)] every item of the map has as key the plugin
    of its spec, the specs of the queue have none, and every item was there
    before or is of the queue. *)
Lemma unloadPlugins_keys env unloadQueue_ m w :
  (forall k s, (k, s) ∈ m_pluginToSpec m -> member plugin w s = Some k) ->
  ensures (unloadPlugins env unloadQueue_ m w)
    (fun r =>
       (forall k s, (k, s) ∈ m_pluginToSpec r.1 -> member plugin r.2 s = Some k)
       /\ (forall s, s ∈ unloadQueue_ -> member plugin r.2 s = Some None)
       /\ (forall k s, (k, s) ∈ m_pluginToSpec r.1 ->
             (k, s) ∈ m_pluginToSpec m \/ s ∈ unloadQueue_)
       /\ (forall s, s ∈ QMultiMap.values (m_pluginToSpec m) ->
             s ∈ QMultiMap.values (m_pluginToSpec r.1))).
Proof.
  intros Hkeys. unfold unloadPlugins.
  apply (ensures_forEach_done _
    (fun done r =>
       (forall k s, (k, s) ∈ m_pluginToSpec r.1 -> member plugin r.2 s = Some k)
       /\ (forall s, s ∈ done -> member plugin r.2 s = Some None)
       /\ (forall k s, (k, s) ∈ m_pluginToSpec r.1 ->
             (k, s) ∈ m_pluginToSpec m \/ s ∈ done)
       /\ (forall s, s ∈ QMultiMap.values (m_pluginToSpec m) ->
             s ∈ QMultiMap.values (m_pluginToSpec r.1)))).
  { split_and!; simpl; try done.
    - by intros s ?%elem_of_nil.
    - intros k s Hin. by left. }
  intros done this [m1 w1] (H1 & H2 & H3 & H4). simpl in H1, H2, H3, H4.
  eapply ensures_bind; [apply ensures_deref|]. intros d Hd. simpl in Hd.
  eapply ensures_bind; [apply unloadPlugin_plugin|]. intros w2 Hw2. simpl.
  split_and!.
  - intros k s [[= -> ->]|[Hne Hin]%elem_of_remove]%elem_of_insert.
    + rewrite Hw2. by rewrite decide_True.
    + rewrite Hw2. case_decide as Hs; [|by apply H1]. subst s.
      pose proof (H1 k this Hin) as Hk. unfold member in Hk. rewrite Hd in Hk.
      simpl in Hk. injection Hk as Hk. by rewrite Hk in Hne.
  - intros s [Hs| ->%list_elem_of_singleton]%elem_of_app; rewrite Hw2;
      case_decide; try done. by apply H2.
  - intros k s [[= -> ->]|[Hne Hin]%elem_of_remove]%elem_of_insert.
    + right. apply elem_of_app. right. apply list_elem_of_here.
    + destruct (H3 k s Hin) as [?|Hs]; [by left|]. right. apply elem_of_app. by left.
  - intros s Hs. apply H4 in Hs. apply elem_of_values in Hs as [k Hin].
    apply elem_of_values. destruct (decide ((k, s) = (plugin d, this))) as [[= -> ->]|Hne].
    + exists None. apply elem_of_insert. by left.
    + exists k. apply elem_of_insert. right. by apply elem_of_remove.
Qed.

Lemma unloadPlugins_all depth env m w :
  (size (heap w) < depth)%nat -> Registered m w ->
  ensures (PublicPluginManager.unloadPlugins depth env m w)
    (fun r => PublicPluginManager.plugins r.1 = []
              /\ forall s, s ∈ PublicPluginManager.pluginSpecs m ->
                   s ∈ PublicPluginManager.pluginSpecs r.1
                   /\ member plugin r.2 s = Some None).
Proof.
  intros Hsize Hreg. unfold PublicPluginManager.unloadPlugins.
  eapply ensures_bind; [by apply manager_unloadQueue_order|].
  intros [queue_ w1] (Hw1 & Ho1 & Hcover). simpl in Hw1, Ho1, Hcover.
  assert (Hplugin : forall s d, heap w !! s = Some d ->
            member plugin w1 s = Some (plugin d)).
  { intros s d Hd. destruct Hw1 as [[Hheap _] _]. specialize (Hheap s).
    rewrite Hd in Hheap. inversion Hheap as [? d1 Hdd E1 E2|]; subst.
    unfold member. rewrite <- E2. simpl. f_equal. by apply errorsOnly_plugin. }
  eapply ensures_mono.
  - apply unloadPlugins_keys. intros k s Hin.
    destruct (Hreg k s Hin) as (d & Hd & Hk & _). rewrite <- Hk. by apply Hplugin.
  - intros [m2 w2] (H1 & H2 & H3 & H4). simpl in *.
    assert (Hnone : forall k s, (k, s) ∈ m_pluginToSpec m2 -> k = None).
    { intros k s Hin.
      assert (Hs : s ∈ queue_ \/ k = None).
      { destruct (H3 k s Hin) as [Hin0|Hs]; [|by left].
        destruct (Hreg k s Hin0) as (d & Hd & Hk & Hloaded).
        destruct k as [pl|]; [|by right]. left.
        eapply Hcover; [|exact Hd|by apply Hloaded].
        apply elem_of_values. by eexists. }
      destruct Hs as [Hs|Hk]; [|done].
      pose proof (H1 k s Hin) as Hks. rewrite (H2 s Hs) in Hks. congruence. }
    split.
    + unfold PublicPluginManager.plugins.
      destruct (filter _ _) as [|k l] eqn:Hfilter; [done|].
      assert (Hk : k ∈ filter (fun plugin => plugin <> None)
                     (QMultiMapKeys.uniqueKeys (m_pluginToSpec m2))).
      { rewrite Hfilter. apply list_elem_of_here. }
      apply list_elem_of_filter in Hk as [Hne Hk].
      apply elem_of_uniqueKeys in Hk as [s Hin]. by apply Hnone in Hin.
    + intros s Hs. pose proof (H4 s Hs) as Hs2. split; [done|].
      apply elem_of_values in Hs2 as [k Hin].
      rewrite (H1 k s Hin). f_equal. by eapply Hnone.
Qed.

Lemma registeredb_sound m w : registeredb m w = true -> Registered m w.
Proof.
  unfold registeredb, Registered. intros Hall k s Hin.
  pose proof (proj1 (forallb_forall _ _) Hall (k, s)) as H. simpl in H.
  specialize (H (proj1 (list_elem_of_In _ _) Hin)).
  destruct (heap w !! s) as [d|]; [|done].
  apply andb_true_iff in H as [Hk%bool_decide_eq_true H].
  exists d. split; [done|]. split; [done|]. intros Hne.
  apply orb_true_iff in H as [Hnone%bool_decide_eq_true|H]; done.
Qed.

(** X17.  [PluginManager::unloadPlugins], given depth for every spec and a
    map that agrees with the specs, does not run out of depth, and when it
    returns no plugin is left: [plugins] is empty, and every spec that was
    registered is still registered and has no plugin. *)
Theorem unloadPlugins_leaves_no_plugin depth env m w :
  (size (heap w) < depth)%nat -> Registered m w ->
  PublicPluginManager.unloadPlugins depth env m w <> OutOfFuel
  /\ forall m' w',
       PublicPluginManager.unloadPlugins depth env m w = Ok (m', w') ->
       PublicPluginManager.plugins m' = []
       /\ forall s, s ∈ PublicPluginManager.pluginSpecs m ->
            s ∈ PublicPluginManager.pluginSpecs m'
            /\ member plugin w' s = Some None.
Proof.
  intros Hsize Hreg. pose proof (unloadPlugins_all depth env m w Hsize Hreg) as H.
  split; [by eapply ensures_not_fuel|].
  intros m' w' Hrun. exact (ensures_Ok _ _ _ H Hrun).
Qed.

Lemma unloadPlugins_leaves_no_plugin_witness :
  let env := exampleEnv true false in
  exists m w,
    LoadedExample.loaded env = Ok (m, w)
    /\ (size (heap w) < 5)%nat /\ Registered m w
    /\ PublicPluginManager.plugins m <> []
    /\ (exists r, PublicPluginManager.unloadPlugins 5 env m w = Ok r)
    /\ PublicPluginManager.unloadPlugins 5 env m w <> OutOfFuel
    /\ forall m' w',
         PublicPluginManager.unloadPlugins 5 env m w = Ok (m', w') ->
         PublicPluginManager.plugins m' = []
         /\ forall s, s ∈ PublicPluginManager.pluginSpecs m ->
              s ∈ PublicPluginManager.pluginSpecs m'
              /\ member plugin w' s = Some None.
Proof.
  intros env.
  destruct (LoadedExample.loaded env) as [[m w]| |] eqn:E;
    try (vm_compute in E; discriminate E).
  vm_compute in E. injection E as <- <-.
  eexists _, _. split; [reflexivity|].
  match goal with |- (size (heap ?w) < 5)%nat /\ Registered ?m _ /\ _ =>
    assert (Hsize : (size (heap w) < 5)%nat) by (vm_compute; lia);
    assert (Hreg : Registered m w)
      by (apply registeredb_sound; vm_compute; reflexivity)
  end.
  split; [exact Hsize|]. split; [exact Hreg|].
  split; [vm_compute; discriminate|].
  split; [eexists; vm_compute; reflexivity|].
  exact (unloadPlugins_leaves_no_plugin 5 env _ _ Hsize Hreg).
Defined.

End UnloadAll.
(** * What [initializePlugins] returns *)

Section Returns.
Import PluginSpec SpecNotions Propagation RunNotions ReturnNotions PluginManager.
Implicit Types (w v : World) (p : nat) (d : PluginSpecPrivate)
  (m : PluginManagerPrivate).
Local Arguments mbind : simpl never.

Lemma failures_refl w : failures w w false.
Proof. exists []. by rewrite app_nil_r. Qed.

Lemma failures_trace w w' : trace w' = trace w -> failures w w' false.
Proof. intros Ht. exists []. by rewrite app_nil_r. Qed.

Lemma failures_trans w1 w2 w3 b1 b2 :
  failures w1 w2 b1 -> failures w2 w3 b2 -> failures w1 w3 (b1 || b2).
Proof.
  intros (ev1 & Ht1 & Hb1) (ev2 & Ht2 & Hb2). exists (ev1 ++ ev2).
  rewrite Ht2, Ht1, app_assoc. split; [done|]. by rewrite existsb_app, Hb1, Hb2.
Qed.

Lemma failures_emit w e : failures w (emit e w) (isFailure e).
Proof. exists [e]. split; [done|]. simpl. by rewrite orb_false_r. Qed.

Lemma failures_then_emit w w1 b e :
  failures w w1 b -> isFailure e = false -> failures w (emit e w1) b.
Proof.
  intros H He. pose proof (failures_trans _ _ _ _ _ H (failures_emit w1 e)) as H'.
  by rewrite He, orb_false_r in H'.
Qed.

Lemma failures_then_modify w w1 b p f :
  failures w w1 b -> failures w (modify p f w1) b.
Proof. intros (events & Ht & Hb). by exists events. Qed.

Ltac failure_steps :=
  repeat first
    [ apply failures_refl
    | apply failures_then_modify
    | apply failures_then_emit; [|reflexivity] ].

Lemma initializePlugin_failures env this w :
  ensures (initializePlugin env this w) (fun r => failures w r.2 (negb r.1)).
Proof.
  unfold initializePlugin. eapply ensures_bind; [apply ensures_deref|].
  intros d _. destruct (plugin d) as [p|]; [|done].
  eapply ensures_bind; [apply ensures_assert|]. intros _ _.
  destruct (pluginInitialize env (trace w) p); simpl.
  - apply failures_then_modify. apply (failures_emit w (PluginInitialize p true)).
  - do 2 apply failures_then_modify. apply failures_then_emit; [|done].
    apply (failures_emit w (PluginInitialize p false)).
Qed.

Lemma unloadPlugin_failures env this w :
  ensures (unloadPlugin env this w) (fun w' => failures w w' false).
Proof.
  unfold unloadPlugin. eapply ensures_bind; [apply ensures_deref|].
  intros d _. destruct (plugin d) as [p|]; [|apply failures_refl].
  simpl.
  destruct (ge (state d) Initialized), (loaderUnload env _ _); failure_steps.
Qed.

Lemma unloadPlugins_failures env unloadQueue_ m w :
  ensures (unloadPlugins env unloadQueue_ m w) (fun r => failures w r.2 false).
Proof.
  unfold unloadPlugins. apply ensures_forEach; [apply failures_refl|].
  intros pluginSpec [m1 w1] _ Hw1. simpl in Hw1.
  eapply ensures_bind; [apply ensures_deref|]. intros d _.
  eapply ensures_bind; [apply unloadPlugin_failures|]. intros w2 Hw2. simpl.
  exact (failures_trans _ _ _ _ _ Hw1 Hw2).
Qed.

Lemma LoopResult_step w w1 (failed allInitialized : bool) end_ :
  failures w w1 failed ->
  LoopResult w1 (allInitialized && negb failed) end_ ->
  LoopResult w allInitialized end_.
Proof.
  intros H1. destruct end_ as [m' w'|b m' w']; simpl.
  - intros H2. pose proof (failures_trans _ _ _ _ _ H1 H2) as H.
    by rewrite orb_true_r in H.
  - intros (failed2 & H2 & ->). exists (failed || failed2).
    split; [by eapply failures_trans|].
    by destruct allInitialized, failed, failed2.
Qed.

(** The loop of [initializePlugins]: what it leaves in [allInitialized]. *)
Lemma initializeLoop_result depth env pluginLoadQueue :
  forall allInitialized m w,
    (2 * size (heap w) < depth)%nat ->
    ensures (initializeLoop depth env pluginLoadQueue allInitialized m w)
      (LoopResult w allInitialized).
Proof.
  induction pluginLoadQueue as [|pluginSpec rest IH]; intros allInitialized m w Hsize;
    simpl.
  { exists false. split; [apply failures_refl|]. by rewrite andb_true_r. }
  eapply ensures_bind; [apply ensures_deref|]. intros d _.
  destruct (bool_decide (state d = Loaded)); [|by apply IH].
  set (w0 := emit (MonitorSetStatus (name d)) w).
  eapply ensures_bind.
  { apply ensures_and; [apply initializePlugin_ensures|apply initializePlugin_failures]. }
  intros [initialized w1] [Hw1 Hf1]. simpl in Hw1, Hf1.
  assert (Hstep1 : CalmStep w w1).
  { eapply CalmStep_trans; [|exact Hw1]. by apply CalmStep_emit. }
  assert (Hfail1 : failures w w1 (negb initialized)).
  { exact (failures_trans _ _ _ _ _ (failures_emit w (MonitorSetStatus (name d))) Hf1). }
  pose proof (CalmStep_size _ _ Hstep1) as Hsize1.
  destruct initialized.
  { eapply ensures_mono; [apply (IH allInitialized); lia|]. intros end_ Hend.
    apply (LoopResult_step w w1 false); [done|]. by rewrite andb_true_r. }
  simpl in Hfail1.
  eapply ensures_bind; [apply ensures_deref|]. intros d1 _.
  destruct (plugin d1) as [p|]; [|done].
  destruct (pluginIsShutdownRequested env (trace w1) p) eqn:Hrequested.
  { cbn [ensures LoopResult]. by apply failures_then_emit. }
  set (w2 := emit (PluginIsShutdownRequested p false) w1).
  assert (Hstep2 : CalmStep w w2).
  { eapply CalmStep_trans; [exact Hstep1|]. by apply CalmStep_emit. }
  assert (Hfail2 : failures w w2 true) by by apply failures_then_emit.
  eapply ensures_bind.
  { apply (unloadQueue_ensures depth).
    pose proof (unchecked_fresh [] w2). pose proof (CalmStep_size _ _ Hstep2). lia. }
  intros [[b q] w3] (Hd3 & Ht3 & _). simpl in Hd3, Ht3.
  eapply ensures_bind.
  { apply ensures_and; [apply unloadPlugins_ensures|apply unloadPlugins_failures]. }
  intros [m4 w4] [Hw4 Hf4]. simpl in Hw4, Hf4.
  assert (Hstep4 : CalmStep w w4).
  { eapply CalmStep_trans; [exact Hstep2|]. eapply CalmStep_trans; [|exact Hw4].
    split; [done|]. exists []. by rewrite app_nil_r. }
  assert (Hfail4 : failures w w4 true).
  { pose proof (failures_trans _ _ _ _ _ Hfail2
                  (failures_trans _ _ _ _ _ (failures_trace w2 w3 Ht3) Hf4)) as H.
    exact H. }
  pose proof (CalmStep_size _ _ Hstep4) as Hsize4.
  eapply ensures_bind.
  { apply (resolveIndirectlyDisabled_ensures depth).
    pose proof (propagationMeasure_bound w4). lia. }
  intros w5 (_ & Hd5 & Ht5 & _).
  assert (Hfail5 : failures w w5 true).
  { pose proof (failures_trans _ _ _ _ _ Hfail4 (failures_trace w4 w5 Ht5)) as H.
    exact H. }
  eapply ensures_mono.
  - apply (IH false). rewrite (dom_size _ _ Hd5). lia.
  - intros end_ Hend. apply (LoopResult_step w w5 true); [done|].
    by rewrite andb_false_r.
Qed.

(** X18.  A run of [initializePlugins] with depth for twice the number of
    specs does not lack depth; when it returns, it returns true exactly when
    none of the calls of [IPlugin::initialize] it made returned false. *)
Theorem initializePlugins_true_iff_no_failure depth env m w :
  (2 * size (heap w) < depth)%nat ->
  initializePlugins depth env m w <> OutOfFuel
  /\ forall allInitialized m' w',
       initializePlugins depth env m w = Ok (allInitialized, m', w') ->
       exists events,
         trace w' = trace w ++ events
         /\ allInitialized = negb (existsb isFailure events).
Proof.
  intros Hsize.
  assert (H : ensures (initializePlugins depth env m w)
                (fun r => exists events, trace r.2 = trace w ++ events
                            /\ r.1.1 = negb (existsb isFailure events))).
  { unfold initializePlugins.
    eapply ensures_bind; [apply manager_loadQueue_ensures; lia|].
    intros [pluginLoadQueue w1] [Hd1 Ht1]. simpl in Hd1, Ht1.
    eapply ensures_bind.
    { apply initializeLoop_result. rewrite (dom_size _ _ Hd1). exact Hsize. }
    intros [m' w'|allInitialized m' w']; simpl.
    - intros (events & Ht & Hfailed). exists events. rewrite Ht, Ht1, Hfailed. done.
    - intros (failed & (events & Ht & Hfailed) & ->).
      exists (events ++ [PluginsInitialized]).
      rewrite Ht, Ht1, <- app_assoc. split; [done|].
      rewrite existsb_app, Hfailed. simpl. by rewrite !orb_false_r. }
  split; [by eapply ensures_not_fuel|].
  intros allInitialized m' w' Hrun. exact (ensures_Ok _ _ _ H Hrun).
Qed.

Lemma initializePlugins_true_iff_no_failure_witness :
  let env := exampleEnv false false in
  exists m w,
    LoadedExample.loaded env = Ok (m, w)
    /\ (2 * size (heap w) < 5)%nat
    /\ (exists m' w', initializePlugins 5 env m w = Ok (false, m', w'))
    /\ initializePlugins 5 env m w <> OutOfFuel
    /\ forall allInitialized m' w',
         initializePlugins 5 env m w = Ok (allInitialized, m', w') ->
         exists events,
           trace w' = trace w ++ events
           /\ allInitialized = negb (existsb isFailure events).
Proof.
  intros env.
  destruct (LoadedExample.loaded env) as [[m w]| |] eqn:E;
    try (vm_compute in E; discriminate E).
  vm_compute in E. injection E as <- <-.
  eexists _, _. split; [reflexivity|].
  match goal with |- (2 * size (heap ?w) < 5)%nat /\ _ =>
    assert (Hsize : (2 * size (heap w) < 5)%nat) by (vm_compute; lia)
  end.
  split; [exact Hsize|].
  split; [eexists _, _; vm_compute; reflexivity|].
  exact (initializePlugins_true_iff_no_failure 5 env _ _ Hsize).
Defined.

End Returns.
(** * Comparing plugin versions *)

Section Versions.
Import PluginSpec PluginSpecVersions.
Implicit Types (s : string) (reg : list string).

Lemma capturedDigits_digits s :
  snd <$> capturedDigits s = digits s.
Proof. destruct s as [|c s]; simpl; [done|]. by destruct (QString.isDigit c). Qed.

Lemma capturedGroup_optionalGroup separator s :
  snd <$> capturedGroup separator s = optionalGroup separator s.
Proof.
  destruct s as [|c s]; simpl; [done|].
  destruct (Ascii.eqb c separator); [apply capturedDigits_digits|done].
Qed.

(** The match with captures is the match of [isValidVersion]. *)
Lemma exactMatch_isValidVersion (version_ : string) :
  isValidVersion version_ = bool_decide (is_Some (exactMatch version_)).
Proof.
  unfold isValidVersion, exactMatch.
  rewrite <- capturedDigits_digits.
  destruct (capturedDigits version_) as [[c1 s1]|]; simpl; [|done].
  rewrite <- capturedGroup_optionalGroup.
  destruct (capturedGroup "." s1) as [[c2 s2]|]; simpl; [|done].
  rewrite <- capturedGroup_optionalGroup.
  destruct (capturedGroup "." s2) as [[c3 s3]|]; simpl; [|done].
  rewrite <- capturedGroup_optionalGroup.
  destruct (capturedGroup "_" s3) as [[c4 s4]|]; simpl; [|done].
  by destruct s4.
Qed.

Lemma versionCompareLoop_swap rounds i reg1 reg2 :
  versionCompareLoop rounds i reg1 reg2 = - versionCompareLoop rounds i reg2 reg1.
Proof.
  revert i. induction rounds as [|rounds IH]; intros i; simpl; [done|].
  rewrite (IH (S i)).
  destruct (Z.ltb_spec (QString.toInt (cap reg1 (i + 1)))
                       (QString.toInt (cap reg2 (i + 1))));
    destruct (Z.ltb_spec (QString.toInt (cap reg2 (i + 1)))
                         (QString.toInt (cap reg1 (i + 1))));
    rewrite ?Z.gtb_ltb;
    repeat match goal with
    | |- context [?a <? ?b] => destruct (Z.ltb_spec a b)
    end; lia.
Qed.

Lemma versionCompareLoop_range rounds i reg1 reg2 :
  versionCompareLoop rounds i reg1 reg2 ∈ [-1; 0; 1].
Proof.
  revert i. induction rounds as [|rounds IH]; intros i; simpl.
  - set_solver.
  - repeat case_match; [set_solver|set_solver|apply IH].
Qed.

Lemma versionCompareLoop_trans rounds i reg1 reg2 reg3 :
  versionCompareLoop rounds i reg1 reg2 = -1 ->
  versionCompareLoop rounds i reg2 reg3 = -1 ->
  versionCompareLoop rounds i reg1 reg3 = -1.
Proof.
  revert i. induction rounds as [|rounds IH]; intros i; simpl; [done|].
  rewrite !Z.gtb_ltb.
  repeat match goal with
  | |- context [?a <? ?b] => destruct (Z.ltb_spec a b)
  end; try done; try lia. apply IH.
Qed.

(** X19.  [versionCompare] is antisymmetric: swapping the versions negates
    the result; it returns -1, 0 or 1, and 0 whenever one of the versions is
    not valid. *)
Theorem versionCompare_antisymmetric (version1 version2 : string) :
  versionCompare version1 version2 = - versionCompare version2 version1
  /\ versionCompare version1 version2 ∈ [-1; 0; 1]
  /\ if isValidVersion version1 && isValidVersion version2 then True
     else versionCompare version1 version2 = 0.
Proof.
  rewrite !exactMatch_isValidVersion. unfold versionCompare.
  destruct (exactMatch version1) as [reg1|], (exactMatch version2) as [reg2|];
    try (split_and!; [done|set_solver|done]).
  split_and!; [apply versionCompareLoop_swap|apply versionCompareLoop_range|].
  rewrite !bool_decide_eq_true_2 by by eexists. done.
Qed.

(** X20.  "Less than" by [versionCompare] is transitive. *)
Theorem versionCompare_transitive (version1 version2 version3 : string) :
  versionCompare version1 version2 = -1 ->
  versionCompare version2 version3 = -1 ->
  versionCompare version1 version3 = -1.
Proof.
  unfold versionCompare.
  destruct (exactMatch version1) as [reg1|]; [|done].
  destruct (exactMatch version2) as [reg2|]; [|done].
  destruct (exactMatch version3) as [reg3|]; [|done].
  apply versionCompareLoop_trans.
Qed.

Lemma versionCompare_transitive_witness :
  versionCompare "1.2" "1.10" = -1
  /\ versionCompare "1.10" "2_1" = -1
  /\ versionCompare "1.2" "2_1" = -1.
Proof.
  assert (H12 : versionCompare "1.2" "1.10" = -1) by (vm_compute; reflexivity).
  assert (H23 : versionCompare "1.10" "2_1" = -1) by (vm_compute; reflexivity).
  split; [exact H12|]. split; [exact H23|].
  exact (versionCompare_transitive "1.2" "1.10" "2_1" H12 H23).
Defined.

End Versions.
(** * What [read] stores *)

Section ReadStores.
Import PluginSpec ReadNotions.
Implicit Types (d : PluginSpecPrivate) (reader : QXmlStreamReader.QXmlStreamReader).

Lemma WellRead_ext d d' :
  version d' = version d -> dependencies d' = dependencies d ->
  WellRead d -> WellRead d'.
Proof. unfold WellRead. by intros -> ->. Qed.

Lemma WellRead_reportError err d : WellRead d -> WellRead (reportError err d).
Proof. apply WellRead_ext; unfold reportError; by case_decide. Qed.

Lemma stored_checked (version_ : string) :
  stored (if isValidVersion version_ then version_ else "").
Proof. destruct (isValidVersion version_) eqn:H; [by right|by left]. Qed.

Lemma readDependencyEntry_WellRead reader d :
  WellRead d -> WellRead (readDependencyEntry reader d).2.
Proof.
  intros Hd. unfold readDependencyEntry. case_decide as Hname; simpl.
  - by apply WellRead_reportError.
  - destruct Hd as [Hv Hdeps]. split; [done|]. simpl.
    intros dep [Hdep| ->%list_elem_of_singleton]%elem_of_app; [by apply Hdeps|].
    split; [done|]. apply stored_checked.
Qed.

Lemma readDependenciesLoop_WellRead rounds reader d :
  WellRead d -> WellRead (readDependenciesLoop rounds reader d).2.
Proof.
  revert reader d. induction rounds as [|rounds IH]; intros reader d Hd; simpl;
    [done|].
  destruct (QXmlStreamReader.atEnd reader); [done|].
  destruct (QXmlStreamReader.token _) eqn:Htoken; try by apply IH.
  destruct (String.eqb _ "dependency"); [|by apply IH].
  pose proof (readDependencyEntry_WellRead (QXmlStreamReader.readNext reader) d Hd) as H.
  destruct (readDependencyEntry _ d) as [reader' d']. by apply IH.
Qed.

Lemma readPluginSpecLoop_WellRead rounds reader d :
  WellRead d -> WellRead (readPluginSpecLoop rounds reader d).2.
Proof.
  revert reader d. induction rounds as [|rounds IH]; intros reader d Hd; simpl;
    [done|].
  destruct (QXmlStreamReader.atEnd reader); [done|].
  destruct (QXmlStreamReader.token _) eqn:Htoken; try by apply IH.
  destruct (String.eqb _ "description").
  { destruct (QXmlStreamReader.readElementText _) as [text reader']. by apply IH. }
  destruct (String.eqb _ "category").
  { destruct (QXmlStreamReader.readElementText _) as [text reader']. by apply IH. }
  destruct (String.eqb _ "dependencyList"); [|by apply IH].
  unfold readDependencies.
  pose proof (readDependenciesLoop_WellRead
                (S (length (QXmlStreamReader.input (QXmlStreamReader.readNext reader))))
                (QXmlStreamReader.readNext reader) d Hd) as H.
  destruct (readDependenciesLoop _ _ d) as [reader' d']. by apply IH.
Qed.

Lemma readPluginSpec_WellRead reader d :
  WellRead d -> WellRead (readPluginSpec reader d).2.
Proof.
  intros Hd. unfold readPluginSpec.
  destruct (negb _); [by apply WellRead_reportError|].
  case_decide; [by apply WellRead_reportError|].
  apply readPluginSpecLoop_WellRead. destruct Hd as [_ Hdeps].
  destruct (isValidVersion _) eqn:Hvalid; (split; [|done]); simpl.
  - by right.
  - by left.
Qed.

Lemma readLoop_WellRead rounds reader d :
  WellRead d -> WellRead (readLoop rounds reader d).2.
Proof.
  revert reader d. induction rounds as [|rounds IH]; intros reader d Hd; simpl;
    [done|].
  destruct (QXmlStreamReader.atEnd reader); [done|].
  destruct (QXmlStreamReader.token _) eqn:Htoken; try by apply IH.
  pose proof (readPluginSpec_WellRead (QXmlStreamReader.readNext reader) d Hd) as H.
  destruct (readPluginSpec _ d) as [reader' d']. by apply IH.
Qed.

(** X21.  Whatever the file holds and whatever the spec held, after [read]
    the version of the spec is valid or empty, and so is the version of
    every dependency, and every dependency has a name. *)
Theorem read_stores_valid_versions (file : FileEntry) (specFileName : string) d :
  WellRead (read file specFileName d).2.
Proof.
  assert (Hcleared : WellRead (cleared d)).
  { split; [by left|]. by intros dep ?%elem_of_nil. }
  unfold read. destruct file as [| |absolutePath fileName_ xml];
    [by apply WellRead_reportError..|].
  pose proof (readLoop_WellRead (S (length xml)) (QXmlStreamReader.start xml)
                (set_fileName fileName_ (set_filePath absolutePath (cleared d)))
                Hcleared) as H.
  destruct (readLoop _ _ _) as [reader d'].
  destruct (QXmlStreamReader.hasError reader);
    [by apply WellRead_reportError|done].
Qed.

End ReadStores.

Section Persistent.
Import PluginSpec.
Implicit Types (d : PluginSpecPrivate).

Lemma setEnabled_persistent (enabled_ : bool) d :
  persistent d = true -> enabled d = true ->
  persistent (setEnabled enabled_ d) = true /\ enabled (setEnabled enabled_ d) = true.
Proof.
  intros Hp He. unfold setEnabled. rewrite Hp. destruct enabled_; simpl; [|done].
  by split.
Qed.

Lemma setEnabled_calls (calls : list bool) d :
  persistent d = true -> enabled d = true ->
  let d' := foldl (fun d enabled_ => setEnabled enabled_ d) d calls in
  persistent d' = true /\ enabled d' = true /\ isEnabled d' = true.
Proof.
  revert d. induction calls as [|enabled_ calls IH]; intros d Hp He; simpl.
  - unfold isEnabled. by rewrite Hp, He.
  - destruct (setEnabled_persistent enabled_ d Hp He) as [Hp' He']. by apply IH.
Qed.

(** X22.  Once [setPersistent(true)] was called, no sequence of calls of
    [setEnabled] disables the plugin: it stays persistent and enabled. *)
Theorem persistent_stays_enabled (calls : list bool) d :
  let d' := foldl (fun d enabled_ => setEnabled enabled_ d) (setPersistent true d) calls in
  persistent d' = true /\ enabled d' = true /\ isEnabled d' = true.
Proof. by apply setEnabled_calls. Qed.

End Persistent.
(** * Striped graphs without edges *)

Section Ascending.
Import StripeNotions.
Context {A : Type}.
Implicit Types (before : A -> A -> Prop) (l : list A).

Lemma ascending_nil before : ascending before [].
Proof. intros a b x y _ Ha. by rewrite lookup_nil in Ha. Qed.

Lemma ascending_cons before x l :
  ascending before (x :: l) <-> Forall (before x) l /\ ascending before l.
Proof.
  split.
  - intros Hasc. split.
    + apply Forall_forall. intros y [i Hi]%list_elem_of_lookup.
      apply (Hasc 0%nat (S i) x y); [lia|done|done].
    + intros a b y z Hab Ha Hb. apply (Hasc (S a) (S b) y z); [lia|done|done].
  - intros [Hx Hasc] a b y z Hab Ha Hb. destruct b as [|b]; [lia|]. simpl in Hb.
    destruct a as [|a]; simpl in Ha.
    + injection Ha as <-. rewrite Forall_forall in Hx. apply Hx.
      by eapply list_elem_of_lookup_2.
    + apply (Hasc a b y z); [lia|done|done].
Qed.

End Ascending.

Section QMapSorted.
Import StripeNotions.
Context {K V : Type}.
Variable lessThan : K -> K -> bool.
Hypothesis lessThan_trans :
  forall a b c, lessThan a b = true -> lessThan b c = true -> lessThan a c = true.
Hypothesis lessThan_total :
  forall a b, lessThan a b = false -> lessThan b a = false -> a = b.

(** A new key goes to its place among the ascending keys. *)
Lemma insert_sorted (k : K) (v : V) (m : list (K * V)) :
  ascending (fun p q : K * V => lessThan p.1 q.1 = true) m -> k ∉ m.*1 ->
  QMap.insert lessThan k v m ≡ₚ (k, v) :: m
  /\ ascending (fun p q : K * V => lessThan p.1 q.1 = true)
       (QMap.insert lessThan k v m).
Proof.
  induction m as [|[k' v'] m IH]; intros Hasc Hk; simpl.
  { split; [done|]. apply ascending_cons. split; [constructor|apply ascending_nil]. }
  apply ascending_cons in Hasc as [Hk' Hasc].
  rewrite fmap_cons, not_elem_of_cons in Hk. destruct Hk as [Hne Hk].
  destruct (lessThan k' k) eqn:Hlt1.
  - destruct (IH Hasc Hk) as [Hperm Hasc']. split.
    + rewrite Hperm. apply Permutation_swap.
    + apply ascending_cons. split; [|done]. rewrite Hperm. by constructor.
  - destruct (lessThan k k') eqn:Hlt2.
    + split; [done|]. apply ascending_cons. split.
      * constructor; [done|]. eapply Forall_impl; [exact Hk'|].
        intros [k2 v2] Hk2. simpl in *.
        by eapply lessThan_trans.
      * apply ascending_cons. by split.
    + by destruct Hne, (lessThan_total k k').
Qed.

End QMapSorted.

Section NodeNumbersSorted.
Import StripeNotions.
Context {K : Type}.
Variable lessThan : K -> K -> bool.
Hypothesis lessThan_trans :
  forall a b c, lessThan a b = true -> lessThan b c = true -> lessThan a c = true.
Hypothesis lessThan_total :
  forall a b, lessThan a b = false -> lessThan b a = false -> a = b.

Lemma imap_keys (nodes : list K) :
  (imap (fun i node => (node, i)) nodes).*1 = nodes.
Proof.
  rewrite fmap_imap. simpl. induction nodes as [|x l IH] using rev_ind; [done|].
  rewrite imap_app. simpl. by rewrite IH.
Qed.

Lemma imap_numbers (nodes : list K) :
  (imap (fun i node => (node, i)) nodes).*2 = seq 0 (length nodes).
Proof.
  rewrite fmap_imap. simpl. induction nodes as [|x l IH] using rev_ind; [done|].
  rewrite imap_app, length_app, seq_app. simpl. by rewrite IH, Nat.add_0_r.
Qed.

(** [nodeNumbersByValues] of distinct nodes holds every node with its
    number, in ascending order of the nodes. *)
Lemma nodeNumbersByValues_sorted (nodes : list K) :
  NoDup nodes ->
  DependencyGraph.nodeNumbersByValues lessThan nodes
    ≡ₚ imap (fun i node => (node, i)) nodes
  /\ ascending (fun p q : K * nat => lessThan p.1 q.1 = true)
       (DependencyGraph.nodeNumbersByValues lessThan nodes).
Proof.
  unfold DependencyGraph.nodeNumbersByValues.
  induction nodes as [|x l IH] using rev_ind; intros Hnd.
  { split; [done|apply ascending_nil]. }
  apply NoDup_app in Hnd as (Hnd & Hx & _).
  destruct (IH Hnd) as [Hperm Hasc]. rewrite foldl_app. simpl.
  set (m := foldl _ [] l) in *.
  destruct (insert_sorted lessThan lessThan_trans lessThan_total x (length m) m Hasc)
    as [Hperm' Hasc'].
  { rewrite Hperm, imap_keys. intros Hin. apply (Hx x Hin), list_elem_of_here. }
  split; [|done]. rewrite Hperm', imap_app. simpl.
  rewrite (Permutation_length Hperm), length_imap, Nat.add_0_r, Hperm.
  by rewrite Permutation_app_comm.
Qed.

End NodeNumbersSorted.

Section SlaveWith.
Import DependencyGraph StripeNotions.
Context {K : Type} `{EqDecision K}.

Lemma slaveWith_addNode (key : nat -> K) (n : nat) :
  (forall i, (i < n)%nat -> key i <> key n) ->
  addNode (key n) (slaveWith key n) = Some (slaveWith key (S n)).
Proof.
  intros Hkey. unfold slaveWith at 2. rewrite seq_S, fmap_app.
  unfold addNode, slaveWith. cbn [m_nodes m_edges m_cache].
  rewrite (proj2 (contains_false _ _)).
  - done.
  - intros (i & Hi & [_ Hlt]%elem_of_seq)%list_elem_of_fmap.
    by apply (Hkey i); [lia|].
Qed.

(** The sort of a slave graph without edges gives its nodes in the order
    of [nodeNumbers]. *)
Lemma slaveWith_sort (lessThan : K -> K -> bool) (key : nat -> K) (n : nat)
    (numbers : list nat) :
  nodeNumbers lessThan true (key <$> seq 0 n) = numbers ->
  numbers ≡ₚ seq 0 n ->
  exists slave, sort lessThan true (slaveWith key n) = Some (key <$> numbers, slave).
Proof.
  intros Hnumbers Hperm. unfold sort, slaveWith. cbn [m_cacheIsValid m_nodes].
  rewrite Hnumbers.
  rewrite (sortLoop_no_edges (mk (key <$> seq 0 n) [] false []) numbers eq_refl
             (length numbers) [] (key <$> numbers));
    [by eexists|done|].
  apply Forall2_fmap_r, Forall_Forall2_diag, Forall_forall.
  intros i Hi. rewrite Hperm in Hi. apply elem_of_seq in Hi as [_ Hi].
  cbn [m_nodes]. rewrite list_lookup_fmap, lookup_seq_lt by lia. done.
Qed.

End SlaveWith.

Section Pairs.
Import StripeNotions.

Lemma qpair_lessThan_trans (a b c : Z * Z) :
  qpair_lessThan a b = true -> qpair_lessThan b c = true ->
  qpair_lessThan a c = true.
Proof.
  unfold qpair_lessThan. destruct a as [a1 a2], b as [b1 b2], c as [c1 c2]. simpl.
  repeat match goal with
  | |- context [?x <? ?y] => destruct (Z.ltb_spec x y)
  end; simpl; try done; lia.
Qed.

Lemma qpair_lessThan_connex (a b : Z * Z) :
  qpair_lessThan a b = false -> qpair_lessThan b a = false -> a = b.
Proof.
  unfold qpair_lessThan. destruct a as [a1 a2], b as [b1 b2]. simpl.
  repeat match goal with
  | |- context [?x <? ?y] => destruct (Z.ltb_spec x y)
  end; simpl; try done. intros _ _. f_equal; lia.
Qed.

(** The node numbers of a slave graph of pairs: every number once, in
    ascending order of the pairs. *)
Lemma nodeNumbers_pairs (key : nat -> Z * Z) (n : nat) :
  NoDup (key <$> seq 0 n) ->
  let numbers := DependencyGraph.nodeNumbers qpair_lessThan true (key <$> seq 0 n) in
  numbers ≡ₚ seq 0 n
  /\ ascending (fun i j => qpair_lessThan (key i) (key j) = true) numbers.
Proof.
  intros Hnd numbers.
  destruct (nodeNumbersByValues_sorted qpair_lessThan qpair_lessThan_trans
              qpair_lessThan_connex _ Hnd) as [Hperm Hasc].
  unfold numbers, DependencyGraph.nodeNumbers, QMap.values.
  set (m := DependencyGraph.nodeNumbersByValues _ _) in *. split.
  - by rewrite Hperm, imap_numbers, length_fmap, length_seq.
  - assert (Hkey : forall a k i, m !! a = Some (k, i) -> k = key i).
    { intros a k i Ha. apply list_elem_of_lookup_2 in Ha. rewrite Hperm in Ha.
      apply list_elem_of_lookup in Ha as [b Hb]. apply list_lookup_imap_Some in Hb
        as (k' & Hk' & [= -> ->]).
      apply list_lookup_fmap_Some in Hk' as (i' & -> & Hi').
      by apply lookup_seq in Hi' as [-> _]. }
    intros a b i j Hab Ha Hb.
    apply list_lookup_fmap_Some in Ha as ([ki i'] & -> & Ha).
    apply list_lookup_fmap_Some in Hb as ([kj j'] & -> & Hb). simpl.
    pose proof (Hasc a b _ _ Hab Ha Hb) as Hlt. simpl in Hlt.
    by rewrite (Hkey _ _ _ Ha), (Hkey _ _ _ Hb) in Hlt.
Qed.

End Pairs.

Section StripedFifoNoEdges.
Context {T : Type} `{EqDecision T}.
Import StripeNotions StripedFifoDependencyGraph.
Implicit Types items : list (T * Z).

Lemma stripeOf_middle items0 (x : T) (stripe : Z) items :
  stripeOf (items0 ++ (x, stripe) :: items) (length items0) = stripe.
Proof. unfold stripeOf. by rewrite list_lookup_middle. Qed.

Lemma striped_fifo_run all items0 items :
  items0 ++ items = all -> NoDup all.*1 ->
  run ((fun item => AddNode item.1 item.2) <$> items)
    (mk items0.*1 items0.*2 (slaveWith (fifoKey all) (length items0)))
  = Some (mk all.*1 all.*2 (slaveWith (fifoKey all) (length all))).
Proof.
  unfold run. revert items0. induction items as [|[x stripe] items IH];
    intros items0 Hall Hnd.
  - rewrite app_nil_r in Hall. by subst.
  - rewrite fmap_cons. cbn [runCalls call fst snd]. unfold addNode.
    cbn [m_nodes m_slave m_stripes].
    rewrite (proj2 (contains_false _ _)).
    2:{ rewrite <- Hall, fmap_app, fmap_cons in Hnd.
        apply NoDup_app in Hnd as (_ & Hx & _). intros Hin.
        apply (Hx x Hin), list_elem_of_here. }
    unfold QList.count. rewrite length_fmap.
    replace (stripe, Z.of_nat (length items0)) with (fifoKey all (length items0))
      by (unfold fifoKey; by rewrite <- Hall, stripeOf_middle).
    rewrite slaveWith_addNode.
    2:{ intros i Hi [= _ Heq]. lia. }
    cbn [mbind option_bind].
    specialize (IH (items0 ++ [(x, stripe)])).
    rewrite !fmap_app, length_app in IH. simpl in IH.
    rewrite Nat.add_1_r in IH. apply IH; [by rewrite <- app_assoc|done].
Qed.

Lemma fifoKey_NoDup items (n : nat) : NoDup (fifoKey items <$> seq 0 n).
Proof.
  apply NoDup_fmap_2; [|apply NoDup_seq]. intros i j [= _ Heq]. lia.
Qed.

(** X23.  A [StripedFifoDependencyGraph] given distinct nodes and no edge
    sorts the nodes by stripe, lower stripes first, and the nodes of one
    stripe in the order they were added. *)
Theorem striped_fifo_sort_without_edges items :
  NoDup items.*1 ->
  exists g g' retv,
    run ((fun item => AddNode item.1 item.2) <$> items) empty = Some g
    /\ sort g = Some (retv, g')
    /\ StripeOrder fifoBefore items retv.
Proof.
  intros Hnd. pose proof (striped_fifo_run items [] items eq_refl Hnd) as Hrun.
  set (numbers := DependencyGraph.nodeNumbers qpair_lessThan true
                    (fifoKey items <$> seq 0 (length items))).
  destruct (nodeNumbers_pairs (fifoKey items) (length items) (fifoKey_NoDup _ _))
    as [Hperm Hasc]. fold numbers in Hperm, Hasc.
  destruct (slaveWith_sort qpair_lessThan (fifoKey items) (length items) numbers
              eq_refl Hperm) as [slave Hsort].
  assert (Hretv : is_Some (mapM (fun n => items.*1 !! n) numbers)).
  { apply mapM_is_Some, Forall_forall. intros n Hn. rewrite Hperm in Hn.
    apply elem_of_seq in Hn as [_ Hn]. apply lookup_lt_is_Some.
    rewrite length_fmap. lia. }
  destruct Hretv as [retv Hretv]. apply mapM_Some in Hretv.
  eexists _, _, retv. split; [exact Hrun|]. split.
  - unfold sort. cbn [m_slave m_nodes m_stripes app length]. rewrite Hsort.
    cbn [mbind option_bind].
    assert (mapM (fun i : Z * Z => QList.at_ items.*1 i.2) (fifoKey items <$> numbers)
            = Some retv) as ->; [|reflexivity].
    apply mapM_Some, Forall2_fmap_l. eapply Forall2_impl; [exact Hretv|].
    intros n x Hx. simpl. by rewrite at_of_nat.
  - exists numbers. split; [done|]. split; [done|].
    intros a b i j Hab Ha Hb. pose proof (Hasc a b i j Hab Ha Hb) as Hlt.
    unfold qpair_lessThan, fifoKey in Hlt. simpl in Hlt. unfold fifoBefore.
    repeat match type of Hlt with
    | context [?x <? ?y] => destruct (Z.ltb_spec x y)
    end; simpl in Hlt; try done; lia.
Qed.

End StripedFifoNoEdges.

Section StripedLifoNoEdges.
Context {T : Type} `{EqDecision T}.
Import StripeNotions StripedLifoDependencyGraph.
Implicit Types items : list (T * Z).

Lemma striped_lifo_run all items0 items :
  items0 ++ items = all -> NoDup all.*1 ->
  run ((fun item => AddNode item.1 item.2) <$> items)
    (mk items0.*1 items0.*2 (slaveWith (lifoKey all) (length items0)))
  = Some (mk all.*1 all.*2 (slaveWith (lifoKey all) (length all))).
Proof.
  unfold run. revert items0. induction items as [|[x stripe] items IH];
    intros items0 Hall Hnd.
  - rewrite app_nil_r in Hall. by subst.
  - rewrite fmap_cons. cbn [runCalls call fst snd]. unfold addNode.
    cbn [m_nodes m_slave m_stripes].
    rewrite (proj2 (contains_false _ _)).
    2:{ rewrite <- Hall, fmap_app, fmap_cons in Hnd.
        apply NoDup_app in Hnd as (_ & Hx & _). intros Hin.
        apply (Hx x Hin), list_elem_of_here. }
    unfold QList.count. rewrite length_fmap.
    replace (stripe, - Z.of_nat (length items0)) with (lifoKey all (length items0))
      by (unfold lifoKey; by rewrite <- Hall, stripeOf_middle).
    rewrite slaveWith_addNode.
    2:{ intros i Hi [= _ Heq]. lia. }
    cbn [mbind option_bind].
    specialize (IH (items0 ++ [(x, stripe)])).
    rewrite !fmap_app, length_app in IH. simpl in IH.
    rewrite Nat.add_1_r in IH. apply IH; [by rewrite <- app_assoc|done].
Qed.

Lemma lifoKey_NoDup items (n : nat) : NoDup (lifoKey items <$> seq 0 n).
Proof.
  apply NoDup_fmap_2; [|apply NoDup_seq]. intros i j [= _ Heq]. lia.
Qed.

(** X24.  A [StripedLifoDependencyGraph] given distinct nodes and no edge
    sorts the nodes by stripe, lower stripes first, and the nodes of one
    stripe in the reverse of the order they were added. *)
Theorem striped_lifo_sort_without_edges items :
  NoDup items.*1 ->
  exists g g' retv,
    run ((fun item => AddNode item.1 item.2) <$> items) empty = Some g
    /\ sort g = Some (retv, g')
    /\ StripeOrder lifoBefore items retv.
Proof.
  intros Hnd. pose proof (striped_lifo_run items [] items eq_refl Hnd) as Hrun.
  set (numbers := DependencyGraph.nodeNumbers qpair_lessThan true
                    (lifoKey items <$> seq 0 (length items))).
  destruct (nodeNumbers_pairs (lifoKey items) (length items) (lifoKey_NoDup _ _))
    as [Hperm Hasc]. fold numbers in Hperm, Hasc.
  destruct (slaveWith_sort qpair_lessThan (lifoKey items) (length items) numbers
              eq_refl Hperm) as [slave Hsort].
  assert (Hretv : is_Some (mapM (fun n => items.*1 !! n) numbers)).
  { apply mapM_is_Some, Forall_forall. intros n Hn. rewrite Hperm in Hn.
    apply elem_of_seq in Hn as [_ Hn]. apply lookup_lt_is_Some.
    rewrite length_fmap. lia. }
  destruct Hretv as [retv Hretv]. apply mapM_Some in Hretv.
  eexists _, _, retv. split; [exact Hrun|]. split.
  - unfold sort. cbn [m_slave m_nodes m_stripes app length]. rewrite Hsort.
    cbn [mbind option_bind].
    assert (mapM (fun i : Z * Z => QList.at_ items.*1 (- i.2)) (lifoKey items <$> numbers)
            = Some retv) as ->; [|reflexivity].
    apply mapM_Some, Forall2_fmap_l. eapply Forall2_impl; [exact Hretv|].
    intros n x Hx. simpl. by rewrite Z.opp_involutive, at_of_nat.
  - exists numbers. split; [done|]. split; [done|].
    intros a b i j Hab Ha Hb. pose proof (Hasc a b i j Hab Ha Hb) as Hlt.
    unfold qpair_lessThan, lifoKey in Hlt. simpl in Hlt. unfold lifoBefore.
    repeat match type of Hlt with
    | context [?x <? ?y] => destruct (Z.ltb_spec x y)
    end; simpl in Hlt; try done; lia.
Qed.

End StripedLifoNoEdges.

Section StripedExamples.
Import StripeNotions.

Lemma striped_fifo_sort_without_edges_witness :
  let items : list (nat * Z) := [(3%nat, 1); (1%nat, 0); (2%nat, 1)] in
  NoDup items.*1
  /\ (exists g g',
        StripedFifoDependencyGraph.run
          ((fun item => StripedFifoDependencyGraph.AddNode item.1 item.2) <$> items)
          StripedFifoDependencyGraph.empty = Some g
        /\ StripedFifoDependencyGraph.sort g = Some ([1; 3; 2]%nat, g'))
  /\ exists g g' retv,
       StripedFifoDependencyGraph.run
         ((fun item => StripedFifoDependencyGraph.AddNode item.1 item.2) <$> items)
         StripedFifoDependencyGraph.empty = Some g
       /\ StripedFifoDependencyGraph.sort g = Some (retv, g')
       /\ StripeOrder fifoBefore items retv.
Proof.
  intros items.
  assert (Hnd : NoDup items.*1) by exact nodup_3_1_2.
  split; [exact Hnd|]. split; [eexists _, _; split; vm_compute; reflexivity|].
  exact (striped_fifo_sort_without_edges items Hnd).
Defined.

Lemma striped_lifo_sort_without_edges_witness :
  let items : list (nat * Z) := [(3%nat, 1); (1%nat, 0); (2%nat, 1)] in
  NoDup items.*1
  /\ (exists g g',
        StripedLifoDependencyGraph.run
          ((fun item => StripedLifoDependencyGraph.AddNode item.1 item.2) <$> items)
          StripedLifoDependencyGraph.empty = Some g
        /\ StripedLifoDependencyGraph.sort g = Some ([1; 2; 3]%nat, g'))
  /\ exists g g' retv,
       StripedLifoDependencyGraph.run
         ((fun item => StripedLifoDependencyGraph.AddNode item.1 item.2) <$> items)
         StripedLifoDependencyGraph.empty = Some g
       /\ StripedLifoDependencyGraph.sort g = Some (retv, g')
       /\ StripeOrder lifoBefore items retv.
Proof.
  intros items.
  assert (Hnd : NoDup items.*1) by exact nodup_3_1_2.
  split; [exact Hnd|]. split; [eexists _, _; split; vm_compute; reflexivity|].
  exact (striped_lifo_sort_without_edges items Hnd).
Defined.

End StripedExamples.
(** * Loading the plugins *)

Section LoadEach.
Import PluginSpec RunNotions SpecNotions RegisterNotions LoadingNotions.
Import PluginManager PluginManagerLoad.
Implicit Types (w v : World) (p : nat) (d : PluginSpecPrivate)
  (m : PluginManagerPrivate).
Local Arguments mbind : simpl never.

Lemma allLoaded_true w dependencySpecs_ :
  allLoaded w dependencySpecs_ = Ok true ->
  forall t, t ∈ dependencySpecs_ ->
    exists dt, heap w !! t = Some dt /\ plugin dt <> None.
Proof.
  induction dependencySpecs_ as [|t' rest IH]; simpl; [by intros _ t ?%elem_of_nil|].
  intros Hall. apply bind_Ok in Hall as (dd & Hdd%deref_Ok & Hall).
  destruct (plugin dd) as [pl|] eqn:Hpl; [|done].
  intros t [-> |Ht]%elem_of_cons; [|by apply IH].
  exists dd. split; [done|]. by rewrite Hpl.
Qed.

Lemma heap_modify_this w this f d :
  heap w !! this = Some d ->
  forall p, heap (modify this f w) !! p
            = if decide (p = this) then Some (f d) else heap w !! p.
Proof.
  intros Hd p. rewrite heap_modify. destruct (decide (p = this)) as [->|Hne].
  - by rewrite decide_True, Hd.
  - by rewrite decide_False.
Qed.

(** What [loadPlugin] returns and leaves, at a spec without plugin: either
    it returns a plugin, which the spec now has, in state Loaded with every
    dependency loaded; or it returns null and the spec is as before but for
    error members. *)
Lemma loadPlugin_result env this w d (plugin_ : option nat) w' :
  heap w !! this = Some d -> plugin d = None ->
  loadPlugin env this w = Ok (plugin_, w') ->
  exists d',
    (forall p, heap w' !! p = if decide (p = this) then Some d' else heap w !! p)
    /\ plugin d' = plugin_ /\ dependencySpecs d' = dependencySpecs d
    /\ match plugin_ with
       | Some _ => state d' = Loaded
                   /\ forall t, t ∈ dependencySpecs d ->
                        exists dt, heap w !! t = Some dt /\ plugin dt <> None
       | None => state d' = state d
       end.
Proof.
  intros Hd Hnone Hload. unfold loadPlugin in Hload.
  apply bind_Ok in Hload as (d0 & Hd0%deref_Ok & Hload).
  assert (d0 = d) as -> by congruence.
  apply bind_Ok in Hload as ([] & _ & Hload).
  apply bind_Ok in Hload as ([] & _ & Hload).
  apply bind_Ok in Hload as ([] & _ & Hload).
  apply bind_Ok in Hload as (ready & Hready & Hload).
  destruct ready.
  - destruct (loaderInstance env (trace w) _) as [err| |pl]; simpl in Hload.
    + injection Hload as <- <-. eexists. split.
      { intros p. by rewrite (heap_modify_this _ _ _ d). }
      rewrite Hnone. unfold reportError. by case_decide.
    + injection Hload as <- <-. eexists. split.
      { intros p. erewrite heap_modify_this.
        2:{ simpl. by rewrite lookup_alter_eq, Hd. }
        simpl. destruct (decide (p = this)) as [->|Hne]; [done|].
        by rewrite lookup_alter_ne. }
      unfold reportError. by case_decide.
    + injection Hload as <- <-. eexists. split.
      { intros p. by rewrite (heap_modify_this _ _ _ d). }
      split_and!; try done. by apply allLoaded_true.
  - injection Hload as <- <-. exists d. split.
    { intros p. case_decide; by subst. }
    done.
Qed.

Lemma loadPlugin_Resolved env this w r :
  loadPlugin env this w = Ok r ->
  exists d, heap w !! this = Some d /\ state d = Resolved.
Proof.
  unfold loadPlugin. intros Hload.
  apply bind_Ok in Hload as (d & Hd%deref_Ok & Hload).
  apply bind_Ok in Hload as ([] & Hstate%assert_Ok & _).
  exists d. split; [done|]. by apply bool_decide_eq_true in Hstate.
Qed.

Lemma loadPlugin_returns env this w :
  ensures (loadPlugin env this w) (fun _ => True).
Proof.
  unfold loadPlugin. eapply ensures_bind; [apply ensures_deref|]. intros d _.
  eapply ensures_bind; [apply ensures_assert|]. intros _ _.
  eapply ensures_bind; [apply ensures_assert|]. intros _ _.
  eapply ensures_bind; [apply ensures_assert|]. intros _ _.
  eapply ensures_bind; [apply allLoaded_ensures|]. intros ready _.
  destruct ready; [|done]. by destruct (loaderInstance env (trace w) _).
Qed.

(** A step of the loop of [loadPlugins] keeps the map in agreement with
    the specs, and the loaded specs with loaded dependencies. *)
Lemma loadEach_step env this m w (plugin_ : option nat) w' :
  Registered m w -> Loading w ->
  loadPlugin env this w = Ok (plugin_, w') ->
  let m' := match plugin_ with
            | Some p =>
                set_m_pluginToSpec
                  (QMultiMap.insert (Some p) this
                     (QMultiMap.remove None this (m_pluginToSpec m))) m
            | None => m
            end in
  Registered m' w' /\ Loading w'
  /\ forall s, s ∈ QMultiMap.values (m_pluginToSpec m) ->
       s ∈ QMultiMap.values (m_pluginToSpec m').
Proof.
  intros Hreg Hloading Hload.
  destruct (loadPlugin_Resolved _ _ _ _ Hload) as (d & Hd & Hstate).
  assert (Hnone : plugin d = None).
  { destruct (Hloading this d Hd) as [Hiff _]. rewrite Hstate in Hiff.
    destruct (plugin d) as [pl|]; [|done].
    discriminate (proj1 Hiff ltac:(done)). }
  destruct (loadPlugin_result _ _ _ _ _ _ Hd Hnone Hload)
    as (d' & Hheap & Hplugin & Hdeps & Hcase).
  assert (Hloading' : Loading w').
  { intros s ds Hs. rewrite Hheap in Hs. case_decide as Heq.
    - injection Hs as <-. subst s. rewrite Hplugin. destruct plugin_ as [pl|].
      + destruct Hcase as [Hst Hall]. rewrite Hst. split; [done|].
        intros _ t Ht. rewrite Hdeps in Ht. destruct (Hall t Ht) as (dt & Hdt & Hpt).
        rewrite Hheap. case_decide; [|by exists dt].
        exists d'. split; [done|]. by rewrite Hplugin.
      + rewrite Hcase, Hstate. split; [done|]. done.
    - destruct (Hloading s ds Hs) as [Hiff Hall]. split; [done|].
      intros Hge t Ht. destruct (Hall Hge t Ht) as (dt & Hdt & Hpt).
      rewrite Hheap. case_decide as Ht'; [|by exists dt]. subst t.
      assert (dt = d) as -> by congruence. done. }
  split_and!; [|done|].
  - intros k s Hin. rewrite Hheap. destruct plugin_ as [pl|]; simpl in Hin.
    + apply elem_of_insert in Hin as [[= -> ->]|[Hne Hin]%elem_of_remove].
      * rewrite decide_True by done. exists d'. split; [done|]. split; [done|].
        intros _. by rewrite (proj1 Hcase).
      * destruct (Hreg k s Hin) as (ds & Hds & Hk & Hl). case_decide as Heq.
        -- subst s. assert (ds = d) as -> by congruence.
           rewrite Hnone in Hk. by subst k.
        -- by exists ds.
    + destruct (Hreg k s Hin) as (ds & Hds & Hk & Hl). case_decide as Heq.
      * subst s. assert (ds = d) as -> by congruence.
        exists d'. split; [done|]. split; [congruence|].
        intros Hne. rewrite <- Hk, Hnone in Hne. done.
      * by exists ds.
  - intros s Hs. destruct plugin_ as [pl|]; [|done]. simpl.
    apply elem_of_values in Hs as [k Hin]. apply elem_of_values.
    destruct (decide ((k, s) = (None, this))) as [[= -> ->]|Hne].
    + exists (Some pl). apply elem_of_insert. by left.
    + exists k. apply elem_of_insert. right. by apply elem_of_remove.
Qed.

Lemma loadEach_keeps env pluginLoadQueue m w :
  Registered m w -> Loading w ->
  ensures (loadEach env pluginLoadQueue m w)
    (fun r => Registered r.1 r.2 /\ Loading r.2
              /\ forall s, s ∈ QMultiMap.values (m_pluginToSpec m) ->
                   s ∈ QMultiMap.values (m_pluginToSpec r.1)).
Proof.
  intros Hreg Hloading. unfold loadEach. apply ensures_forEach; [done|].
  intros this [m1 w1] _ (Hreg1 & Hloading1 & Hvalues1). simpl in Hreg1, Hloading1, Hvalues1.
  pose proof (loadPlugin_returns env this w1) as Hreturns.
  destruct (loadPlugin env this w1) as [[plugin_ w2]| |] eqn:Hload; [|done..].
  destruct (loadEach_step _ _ _ _ _ _ Hreg1 Hloading1 Hload) as (Hreg2 & Hloading2 & Hvalues2).
  unfold mbind. simpl. destruct plugin_ as [pl|]; simpl.
  - split_and!; [done..|]. intros s Hs. by apply Hvalues2, Hvalues1.
  - split_and!; [done..|]. intros s Hs. by apply Hvalues2, Hvalues1.
Qed.

Lemma loadingb_sound w : loadingb w = true -> Loading w.
Proof.
  unfold loadingb, Loading. intros Hall s d Hs.
  pose proof (proj1 (forallb_forall _ _) Hall (s, d)) as H. simpl in H.
  specialize (H (proj1 (list_elem_of_In _ _) (proj2 (elem_of_map_to_list _ _ _) Hs))).
  apply andb_true_iff in H as [Heq%bool_decide_eq_true Hdeps]. split.
  - rewrite <- Heq. by rewrite bool_decide_eq_true.
  - intros Hge t Ht. rewrite Hge in Hdeps. simpl in Hdeps.
    pose proof (proj1 (forallb_forall _ _) Hdeps t (proj1 (list_elem_of_In _ _) Ht)) as Hdt.
    simpl in Hdt. destruct (heap w !! t) as [dt|]; [|done].
    exists dt. split; [done|]. by apply bool_decide_eq_true in Hdt.
Qed.

(** X25.  The loop of [loadPlugins] over the load queue keeps the map of
    the manager in agreement with the specs and the loaded specs with
    loaded dependencies: when it returns, every item of the map has as key
    the plugin of its spec, a spec has a plugin exactly when it is loaded,
    every spec a loaded spec depends on has a plugin, and every spec that
    was registered still is. *)
Theorem loadEach_registers_loaded env pluginLoadQueue m w :
  Registered m w -> Loading w ->
  loadEach env pluginLoadQueue m w <> OutOfFuel
  /\ forall m' w',
       loadEach env pluginLoadQueue m w = Ok (m', w') ->
       Registered m' w' /\ Loading w'
       /\ forall s, s ∈ PublicPluginManager.pluginSpecs m ->
            s ∈ PublicPluginManager.pluginSpecs m'.
Proof.
  intros Hreg Hloading.
  pose proof (loadEach_keeps env pluginLoadQueue m w Hreg Hloading) as H.
  split; [by eapply ensures_not_fuel|].
  intros m' w' Hrun. exact (ensures_Ok _ _ _ H Hrun).
Qed.

Lemma loadEach_registers_loaded_witness :
  let env := exampleEnv true false in
  let m := PluginManager.mk [(None, 0); (None, 1)]%nat [] "" in
  exists w,
    LoadedExample.resolved = Ok w
    /\ Registered m w /\ Loading w
    /\ (exists m' w', loadEach env [0; 1]%nat m w = Ok (m', w')
                      /\ length (PublicPluginManager.plugins m') = 2%nat)
    /\ loadEach env [0; 1]%nat m w <> OutOfFuel
    /\ forall m' w',
         loadEach env [0; 1]%nat m w = Ok (m', w') ->
         Registered m' w' /\ Loading w'
         /\ forall s, s ∈ PublicPluginManager.pluginSpecs m ->
              s ∈ PublicPluginManager.pluginSpecs m'.
Proof.
  intros env m.
  destruct LoadedExample.resolved as [w| |] eqn:E;
    try (vm_compute in E; discriminate E).
  vm_compute in E. injection E as <-.
  eexists. split; [reflexivity|].
  match goal with |- Registered _ ?w /\ _ =>
    assert (Hreg : Registered m w)
      by (apply registeredb_sound; vm_compute; reflexivity);
    assert (Hloading : Loading w)
      by (apply loadingb_sound; vm_compute; reflexivity)
  end.
  split; [exact Hreg|]. split; [exact Hloading|].
  split; [eexists _, _; split; vm_compute; reflexivity|].
  exact (loadEach_registers_loaded env [0; 1]%nat m _ Hreg Hloading).
Defined.

End LoadEach.
(** * [Aggregation11]: one outer object per inner object *)

Section PairLists.
Context {K V : Type}.
Implicit Types (m : list (K * V)).

Lemma NoDup_fst_agree m k v v' :
  NoDup m.*1 -> (k, v) ∈ m -> (k, v') ∈ m -> v = v'.
Proof.
  induction m as [|[k0 v0] m IH]; [by intros _ ?%elem_of_nil|].
  rewrite fmap_cons. intros [Hk0 Hnd]%NoDup_cons.
  intros [Heq1|H1]%elem_of_cons [Heq2|H2]%elem_of_cons; simplify_eq; try done.
  - destruct Hk0. apply list_elem_of_fmap. by exists (k0, v').
  - destruct Hk0. apply list_elem_of_fmap. by exists (k0, v).
  - by apply IH.
Qed.

Lemma NoDup_snd_agree m k k' v :
  NoDup m.*2 -> (k, v) ∈ m -> (k', v) ∈ m -> k = k'.
Proof.
  induction m as [|[k0 v0] m IH]; [by intros _ ?%elem_of_nil|].
  rewrite fmap_cons. intros [Hv0 Hnd]%NoDup_cons.
  intros [Heq1|H1]%elem_of_cons [Heq2|H2]%elem_of_cons; simplify_eq; try done.
  - destruct Hv0. apply list_elem_of_fmap. by exists (k', v0).
  - destruct Hv0. apply list_elem_of_fmap. by exists (k, v0).
  - by apply IH.
Qed.

End PairLists.

Section AggregationFacts.
Context {INNER_T : Type} `{EqDecision INNER_T}.
Import Aggregation11 AggregationNotions.
Variable lessThan : INNER_T -> INNER_T -> bool.
Variable defaultInner : INNER_T.
Hypothesis lessThan_irrefl : forall k, lessThan k k = false.
Hypothesis lessThan_total :
  forall k1 k2, lessThan k1 k2 = false -> lessThan k2 k1 = false -> k1 = k2.
Implicit Types (m : list (INNER_T * nat)) (a : Aggregation11 INNER_T)
  (k inner : INNER_T) (p outer : nat).

Lemma sameKey_eq k1 k2 : sameKey lessThan k1 k2 = true <-> k1 = k2.
Proof.
  unfold sameKey. rewrite andb_true_iff, !negb_true_iff. split.
  - intros [H1 H2]. by apply lessThan_total.
  - intros ->. by rewrite lessThan_irrefl.
Qed.

Lemma sameKey_ne k1 k2 : sameKey lessThan k1 k2 = false <-> k1 <> k2.
Proof. rewrite <- sameKey_eq. by destruct (sameKey lessThan k1 k2). Qed.

Lemma contains_elem m k : contains lessThan m k = true <-> k ∈ m.*1.
Proof.
  unfold contains. rewrite existsb_exists, list_elem_of_fmap. split.
  - intros ([k' p] & Hin%list_elem_of_In & Hk%sameKey_eq). simpl in Hk. subst.
    by exists (k, p).
  - intros ([k' p] & -> & Hin). exists (k', p). split; [by apply list_elem_of_In|].
    by apply sameKey_eq.
Qed.

Lemma value_elem m k p :
  NoDup m.*1 -> (value lessThan m k = Some p <-> (k, p) ∈ m).
Proof.
  intros Hnd. unfold value. split.
  - destruct (List.find _ m) as [[k' p']|] eqn:Hfind; [|done]. simpl. intros [= ->].
    apply find_some in Hfind as [Hin%list_elem_of_In Hk%sameKey_eq]. simpl in Hk.
    by subst.
  - intros Hin. destruct (List.find _ m) as [[k' p']|] eqn:Hfind.
    + apply find_some in Hfind as [Hin'%list_elem_of_In Hk%sameKey_eq]. simpl in Hk.
      subst k'. simpl. f_equal. by eapply NoDup_fst_agree.
    + pose proof (find_none _ _ Hfind (k, p) (proj1 (list_elem_of_In _ _) Hin)) as H.
      simpl in H. apply sameKey_ne in H. done.
Qed.

Lemma key_elem m k p : NoDup m.*2 -> (k, p) ∈ m -> key defaultInner m p = k.
Proof.
  intros Hnd Hin. unfold key.
  destruct (List.find _ m) as [[k' p']|] eqn:Hfind.
  - apply find_some in Hfind as [Hin'%list_elem_of_In Hp%bool_decide_eq_true].
    simpl in Hp. subst p'. simpl. by eapply NoDup_snd_agree.
  - pose proof (find_none _ _ Hfind (k, p) (proj1 (list_elem_of_In _ _) Hin)) as H.
    simpl in H. by apply bool_decide_eq_false in H.
Qed.

Lemma elem_of_removed m k kv :
  kv ∈ (remove lessThan m k).1 <-> kv ∈ m /\ kv.1 <> k.
Proof.
  unfold remove. simpl. rewrite list_elem_of_filter, sameKey_ne. tauto.
Qed.

Lemma removed_count m k :
  NoDup m.*1 -> k ∈ m.*1 -> (remove lessThan m k).2 = 1%nat.
Proof.
  unfold remove. simpl. induction m as [|[k0 p0] m IH]; [by intros _ ?%elem_of_nil|].
  rewrite fmap_cons. intros [Hk0 Hnd]%NoDup_cons Hin. rewrite filter_cons. simpl.
  destruct (decide (k0 = k)) as [->|Hne].
  - rewrite decide_True by by apply sameKey_eq. simpl. f_equal.
    apply length_zero_iff_nil. destruct (filter _ m) as [|kv l] eqn:Hf; [done|].
    assert (Hkv : kv ∈ filter (fun kv => sameKey lessThan kv.1 k = true) m)
      by (rewrite Hf; apply list_elem_of_here).
    apply list_elem_of_filter in Hkv as [Hk%sameKey_eq Hkv]. destruct Hk0.
    apply list_elem_of_fmap. by exists kv.
  - rewrite decide_False by by rewrite sameKey_eq. apply IH; [done|].
    apply elem_of_cons in Hin as [?|?]; [by subst|done].
Qed.

Lemma inserted m k p :
  k ∉ m.*1 -> QMap.insert lessThan k p m ≡ₚ (k, p) :: m.
Proof.
  intros Hk. apply insert_fresh. apply Forall_forall. intros [k' p'] Hin. simpl.
  destruct (lessThan k k') eqn:H1; [by left|]. right.
  destruct (lessThan k' k) eqn:H2; [done|]. destruct Hk.
  rewrite (lessThan_total k k' H1 H2). apply list_elem_of_fmap. by exists (k', p').
Qed.

Lemma removed_NoDup m k :
  NoDup m.*1 -> NoDup m.*2 ->
  NoDup (remove lessThan m k).1.*1 /\ NoDup (remove lessThan m k).1.*2.
Proof.
  intros H1 H2. unfold remove. simpl. split.
  - eapply sublist_NoDup; first [exact H1|apply fmap_sublist, sublist_filter].
  - eapply sublist_NoDup; first [exact H2|apply fmap_sublist, sublist_filter].
Qed.

Lemma OneToOne_outer a k p :
  OneToOne a -> (k, p) ∈ outerByInnerMap a -> p ∈ held a.
Proof.
  intros Ha Hin. apply (outers_held a Ha). apply list_elem_of_fmap. by exists (k, p).
Qed.

Lemma OneToOne_inner a p :
  OneToOne a -> p ∈ held a -> exists k, (k, p) ∈ outerByInnerMap a.
Proof.
  intros Ha Hp. apply (outers_held a Ha), list_elem_of_fmap in Hp as ([k p'] & -> & Hin).
  by exists k.
Qed.

Lemma OneToOne_empty : OneToOne (@empty INNER_T).
Proof.
  split; simpl.
  - constructor.
  - constructor.
  - intros outer. by rewrite !elem_of_nil.
  - by intros outer ?%elem_of_nil.
Qed.

(** One more shared pointer to an outer object of the map. *)
Lemma OneToOne_share a k p :
  OneToOne a -> (k, p) ∈ outerByInnerMap a ->
  OneToOne (mk (outerByInnerMap a) (p :: held a) (allocated a)).
Proof.
  intros Ha Hin. pose proof (OneToOne_outer a k p Ha Hin) as Hp.
  destruct Ha as [H1 H2 H3 H4]. split; simpl; [done|done| |].
  - intros outer. rewrite H3, elem_of_cons. split; [by right|].
    intros [-> |?]; done.
  - intros outer [-> |?]%elem_of_cons; by apply H4.
Qed.

(** The map with a new inner object for an outer object that is held and
    not in the map. *)
Lemma OneToOne_insert m k p held_ allocated_ :
  NoDup m.*1 -> NoDup m.*2 -> k ∉ m.*1 -> p ∉ m.*2 ->
  (forall outer, outer ∈ held_ <-> outer = p \/ outer ∈ m.*2) ->
  (forall outer, outer ∈ held_ -> (outer < allocated_)%nat) ->
  OneToOne (mk (QMap.insert lessThan k p m) held_ allocated_).
Proof.
  intros H1 H2 Hk Hp Hheld Halloc. pose proof (inserted m k p Hk) as Hperm.
  split; simpl; [| | |done].
  - rewrite Hperm, fmap_cons. by constructor.
  - rewrite Hperm, fmap_cons. by constructor.
  - intros outer. rewrite Hperm, fmap_cons, elem_of_cons, Hheld. done.
Qed.

Lemma create_OneToOne inner a :
  OneToOne a ->
  exists outer a',
    create lessThan inner a = Some (outer, a')
    /\ OneToOne a'
    /\ (inner, outer) ∈ outerByInnerMap a'
    /\ outer ∈ held a'
    /\ (forall k p, (k, p) ∈ outerByInnerMap a -> (k, p) ∈ outerByInnerMap a')
    /\ (inner ∈ (outerByInnerMap a).*1 -> (inner, outer) ∈ outerByInnerMap a)
    /\ (inner ∉ (outerByInnerMap a).*1 -> outer = allocated a).
Proof.
  intros Ha. unfold create.
  destruct (contains lessThan (outerByInnerMap a) inner) eqn:Hc; simpl.
  - apply contains_elem in Hc. pose proof Hc as Hc'.
    apply list_elem_of_fmap in Hc' as ([k p] & -> & Hin). simpl in *.
    rewrite (proj2 (value_elem _ _ _ (inners_NoDup a Ha)) Hin). simpl.
    rewrite bool_decide_eq_true_2 by by eapply OneToOne_outer. simpl.
    eexists _, _. split; [done|]. split; [by eapply OneToOne_share|].
    simpl. split_and!; try done. apply list_elem_of_here.
  - assert (Hk : inner ∉ (outerByInnerMap a).*1).
    { intros Hin%contains_elem. congruence. }
    assert (Hp : allocated a ∉ (outerByInnerMap a).*2).
    { intros Hin%(outers_held a Ha). apply (held_allocated a Ha) in Hin. lia. }
    pose proof (inserted _ _ (allocated a) Hk) as Hperm.
    eexists _, _. split; [done|]. split; [|simpl; split_and!].
    + apply OneToOne_insert; try done; try apply Ha.
      * intros outer. rewrite elem_of_cons, (outers_held a Ha). done.
      * intros outer [-> |Hin%(held_allocated a Ha)]%elem_of_cons; lia.
    + rewrite Hperm. apply list_elem_of_here.
    + apply list_elem_of_here.
    + intros k p Hin. rewrite Hperm. by apply list_elem_of_further.
    + done.
    + done.
Qed.

Lemma probe_OneToOne inner a :
  OneToOne a ->
  exists probe a',
    aggregation11Probe lessThan inner a = Some (probe, a')
    /\ OneToOne a'
    /\ outerByInnerMap a' = outerByInnerMap a
    /\ match probe with
       | Some outer => (inner, outer) ∈ outerByInnerMap a
       | None => inner ∉ (outerByInnerMap a).*1 /\ a' = a
       end.
Proof.
  intros Ha. unfold aggregation11Probe.
  destruct (contains lessThan (outerByInnerMap a) inner) eqn:Hc; simpl.
  - apply contains_elem in Hc.
    apply list_elem_of_fmap in Hc as ([k p] & -> & Hin). simpl in *.
    rewrite (proj2 (value_elem _ _ _ (inners_NoDup a Ha)) Hin). simpl.
    rewrite bool_decide_eq_true_2 by by eapply OneToOne_outer. simpl.
    eexists _, _. split; [done|]. split; [by eapply OneToOne_share|]. done.
  - eexists _, _. split; [done|]. split; [done|]. split; [done|]. split; [|done].
    intros Hin%contains_elem. congruence.
Qed.

Lemma release_OneToOne outer a :
  OneToOne a ->
  exists a',
    release lessThan defaultInner outer a = Some a'
    /\ OneToOne a'
    /\ held a' = (if bool_decide (outer ∈ held a)
                  then QList.removeOne (held a) outer else held a)
    /\ allocated a' = allocated a
    /\ forall k p, (k, p) ∈ outerByInnerMap a' <->
                   (k, p) ∈ outerByInnerMap a /\ p ∈ held a'.
Proof.
  intros Ha. unfold release.
  destruct (bool_decide (outer ∈ held a)) eqn:Hheld.
  2:{ exists a. split; [done|]. split; [done|]. split; [done|]. split; [done|].
      intros k p. split; [|tauto]. intros Hin. split; [done|].
      by eapply OneToOne_outer. }
  apply bool_decide_eq_true in Hheld.
  pose proof (removeOne_Permutation _ _ Hheld) as Hperm. simpl.
  assert (Hmem : forall p, p ∈ held a <-> p = outer \/ p ∈ QList.removeOne (held a) outer).
  { intros p. by rewrite Hperm at 1; rewrite elem_of_cons. }
  destruct (bool_decide (outer ∈ QList.removeOne (held a) outer)) eqn:Hstill.
  - apply bool_decide_eq_true in Hstill. eexists. split; [done|]. simpl.
    assert (Hsame : forall p, p ∈ QList.removeOne (held a) outer <-> p ∈ held a).
    { intros p. rewrite (Hmem p). split; [tauto|]. intros [-> |?]; done. }
    split; [|split; [done|split; [done|]]].
    + destruct Ha as [H1 H2 H3 H4]. split; simpl; [done|done| |].
      * intros p. by rewrite H3, Hsame.
      * intros p Hp%Hsame. by apply H4.
    + intros k p. rewrite Hsame. split; [|tauto]. intros Hin. split; [done|].
      by eapply OneToOne_outer.
  - apply bool_decide_eq_false in Hstill. unfold destroy.
    cbn [outerByInnerMap held allocated].
    destruct (OneToOne_inner a outer Ha Hheld) as [k0 Hk0].
    rewrite (key_elem _ _ _ (outers_NoDup a Ha) Hk0).
    destruct (remove lessThan (outerByInnerMap a) k0) as [m1 nRemoved] eqn:Hremove.
    assert (Hcount : nRemoved = 1%nat).
    { change nRemoved with (m1, nRemoved).2. rewrite <- Hremove.
      apply removed_count; [apply Ha|]. apply list_elem_of_fmap. by exists (k0, outer). }
    rewrite bool_decide_eq_true_2 by done. eexists. split; [done|]. simpl.
    assert (Hm1 : forall k p, (k, p) ∈ m1 <->
              (k, p) ∈ outerByInnerMap a /\ p ∈ QList.removeOne (held a) outer).
    { intros k p. change m1 with (m1, nRemoved).1. rewrite <- Hremove, elem_of_removed.
      simpl. split.
      - intros [Hin Hne]. split; [done|].
        pose proof (OneToOne_outer a k p Ha Hin) as Hp. apply Hmem in Hp as [-> |?]; [|done].
        destruct Hne. by eapply NoDup_snd_agree; [apply Ha|..].
      - intros [Hin Hp]. split; [done|]. intros ->.
        assert (p = outer) as -> by (by eapply NoDup_fst_agree; [apply Ha|..]). done. }
    split; [|split; [done|split; [done|exact Hm1]]].
    destruct (removed_NoDup (outerByInnerMap a) k0 (inners_NoDup a Ha) (outers_NoDup a Ha))
      as [Hn1 Hn2]. rewrite Hremove in Hn1, Hn2. simpl in Hn1, Hn2.
    split; simpl; [done|done| |].
    + intros p. rewrite list_elem_of_fmap. split.
      * intros ([k p'] & -> & Hin). by apply Hm1 in Hin as [_ ?].
      * intros Hp. assert (Hp' : p ∈ held a) by (apply Hmem; by right).
        destruct (OneToOne_inner a p Ha Hp') as [k Hk]. exists (k, p). split; [done|].
        by apply Hm1.
    + intros p Hp. apply (held_allocated a Ha), Hmem. by right.
Qed.

Lemma reset_OneToOne this newInner a a' :
  OneToOne a ->
  aggregation11ResetInner lessThan defaultInner this newInner a = Some a' ->
  OneToOne a' /\ held a' = held a
  /\ exists oldInner outer,
       (oldInner, outer) ∈ outerByInnerMap a
       /\ newInner ∉ (outerByInnerMap a).*1
       /\ (this ∈ held a -> outer = this)
       /\ forall k p, (k, p) ∈ outerByInnerMap a' <->
                      (k, p) = (newInner, outer)
                      \/ ((k, p) ∈ outerByInnerMap a /\ k <> oldInner).
Proof.
  intros Ha. unfold aggregation11ResetInner.
  destruct (probe_OneToOne newInner a Ha) as (probe & a1 & -> & _ & _ & Hprobe).
  cbn [mbind option_bind]. destruct probe as [?|]; [done|].
  destruct Hprobe as [Hnew _].
  set (oldInner := key defaultInner (outerByInnerMap a) this).
  destruct (value lessThan (outerByInnerMap a) oldInner) as [outer|] eqn:Hvalue; [|done].
  apply (value_elem _ _ _ (inners_NoDup a Ha)) in Hvalue. simpl.
  rewrite bool_decide_eq_true_2 by by eapply OneToOne_outer. simpl. intros [= <-].
  set (m1 := (remove lessThan (outerByInnerMap a) oldInner).1).
  assert (Hm1 : forall k p, (k, p) ∈ m1 <-> (k, p) ∈ outerByInnerMap a /\ k <> oldInner).
  { intros k p. unfold m1. by rewrite elem_of_removed. }
  destruct (removed_NoDup (outerByInnerMap a) oldInner (inners_NoDup a Ha)
              (outers_NoDup a Ha)) as [Hn1 Hn2]. fold m1 in Hn1, Hn2.
  assert (Hk : newInner ∉ m1.*1).
  { intros ([k p] & -> & Hin%Hm1)%list_elem_of_fmap. destruct Hin as [Hin _].
    apply Hnew, list_elem_of_fmap. by exists (k, p). }
  assert (Hp : outer ∉ m1.*2).
  { intros ([k p] & -> & Hin%Hm1)%list_elem_of_fmap. destruct Hin as [Hin Hne].
    simpl in *. destruct Hne. by eapply NoDup_snd_agree; [apply Ha|..]. }
  split; [|split; [done|]].
  - apply OneToOne_insert; try done; [|apply Ha]. intros p.
    rewrite <- (outers_held a Ha), !list_elem_of_fmap. split.
    + intros ([k p'] & -> & Hin). simpl.
      destruct (decide (k = oldInner)) as [->|Hne].
      * left. by eapply NoDup_fst_agree; [apply Ha|..].
      * right. exists (k, p'). split; [done|]. by apply Hm1.
    + intros [-> |([k p'] & -> & [Hin _]%Hm1)]; [by exists (oldInner, outer)|].
      by exists (k, p').
  - exists oldInner, outer. split; [done|]. split; [done|]. split.
    + intros Hthis. destruct (OneToOne_inner a this Ha Hthis) as [k Hkthis].
      assert (k = oldInner) as ->.
      { unfold oldInner. symmetry. by apply key_elem; [apply Ha|]. }
      by eapply NoDup_fst_agree; [apply Ha|..].
    + intros k p. cbn [outerByInnerMap].
      change (filter _ (outerByInnerMap a)) with m1.
      rewrite (inserted m1 newInner outer Hk), elem_of_cons.
      by rewrite Hm1.
Qed.

Lemma reset_returns this newInner a :
  OneToOne a -> this ∈ held a -> newInner ∉ (outerByInnerMap a).*1 ->
  is_Some (aggregation11ResetInner lessThan defaultInner this newInner a).
Proof.
  intros Ha Hthis Hnew. unfold aggregation11ResetInner, aggregation11Probe.
  assert (contains lessThan (outerByInnerMap a) newInner = false) as ->.
  { apply not_true_iff_false. by rewrite contains_elem. }
  cbn [mbind option_bind].
  destruct (OneToOne_inner a this Ha Hthis) as [k Hk].
  rewrite (key_elem _ _ _ (outers_NoDup a Ha) Hk).
  rewrite (proj2 (value_elem _ _ _ (inners_NoDup a Ha)) Hk). simpl.
  by rewrite bool_decide_eq_true_2.
Qed.

Lemma call_OneToOne c a a' :
  OneToOne a -> call lessThan defaultInner c a = Some a' -> OneToOne a'.
Proof.
  intros Ha. destruct c as [inner|inner|outer|this newInner]; simpl.
  - destruct (create_OneToOne inner a Ha) as (outer & a1 & -> & Ha1 & _). simpl.
    by intros [= <-].
  - destruct (probe_OneToOne inner a Ha) as (probe & a1 & -> & Ha1 & _). simpl.
    by intros [= <-].
  - destruct (release_OneToOne outer a Ha) as (a1 & -> & Ha1 & _). by intros [= <-].
  - intros Hreset. by destruct (reset_OneToOne _ _ _ _ Ha Hreset).
Qed.

Lemma call_returns c a :
  OneToOne a -> unconditional c = true ->
  is_Some (call lessThan defaultInner c a).
Proof.
  intros Ha. destruct c as [inner|inner|outer|this newInner]; simpl; [| | |done].
  - destruct (create_OneToOne inner a Ha) as (outer & a1 & -> & _). by eexists.
  - destruct (probe_OneToOne inner a Ha) as (probe & a1 & -> & _). by eexists.
  - destruct (release_OneToOne outer a Ha) as (a1 & -> & _). by eexists.
Qed.

Lemma run_OneToOne calls a a' :
  OneToOne a -> run lessThan defaultInner calls a = Some a' -> OneToOne a'.
Proof.
  unfold run. revert a. induction calls as [|c calls IH]; intros a Ha; simpl.
  - by intros [= <-].
  - destruct (call lessThan defaultInner c a) as [a1|] eqn:Hcall; [|done]. simpl.
    apply IH. by eapply call_OneToOne.
Qed.

Lemma run_returns calls a :
  OneToOne a -> forallb unconditional calls = true ->
  is_Some (run lessThan defaultInner calls a).
Proof.
  unfold run. revert a. induction calls as [|c calls IH]; intros a Ha; simpl.
  - by eexists.
  - intros [Hc Hcalls]%andb_true_iff.
    destruct (call_returns c a Ha Hc) as [a1 Hcall]. rewrite Hcall. simpl.
    apply IH; [|done]. by eapply call_OneToOne.
Qed.

End AggregationFacts.

Section AggregationProperties.
Context {INNER_T : Type} `{EqDecision INNER_T}.
Import Aggregation11 AggregationNotions.
Variable lessThan : INNER_T -> INNER_T -> bool.
Variable defaultInner : INNER_T.
Hypothesis lessThan_irrefl : forall k, lessThan k k = false.
Hypothesis lessThan_total :
  forall k1 k2, lessThan k1 k2 = false -> lessThan k2 k1 = false -> k1 = k2.
Implicit Types (a : Aggregation11 INNER_T) (inner : INNER_T) (outer : nat).

(** X26.  No sequence of calls of [create] and [aggregation11Probe] and of
    releases of shared pointers, starting with no instance, fails an
    assertion, when [operator<] of the inner objects is a strict total
    order; after it the relation between the inner objects of the map and
    the outer objects alive is 1:1. *)
Theorem unconditional_calls_keep_one_to_one (calls : list (Call INNER_T)) :
  forallb unconditional calls = true ->
  exists a, run lessThan defaultInner calls empty = Some a /\ OneToOne a.
Proof.
  intros Hcalls.
  destruct (run_returns lessThan defaultInner lessThan_irrefl lessThan_total calls empty
              OneToOne_empty Hcalls) as [a Hrun].
  exists a. split; [done|].
  exact (run_OneToOne lessThan defaultInner lessThan_irrefl lessThan_total calls empty a
           OneToOne_empty Hrun).
Qed.

(** X27.  [create] gives one outer object per inner object: a second
    [create] and [aggregation11Probe] for the same inner object return the
    outer object of the first, and [create] for another inner object returns
    another outer object. *)
Theorem create_one_outer_per_inner a inner :
  OneToOne a ->
  exists outer a1,
    create lessThan inner a = Some (outer, a1)
    /\ OneToOne a1
    /\ (exists a2, create lessThan inner a1 = Some (outer, a2))
    /\ (exists a2, aggregation11Probe lessThan inner a1 = Some (Some outer, a2))
    /\ forall inner' outer' a2,
         inner' <> inner -> create lessThan inner' a1 = Some (outer', a2) ->
         outer' <> outer.
Proof.
  intros Ha.
  destruct (create_OneToOne lessThan lessThan_irrefl lessThan_total inner a Ha)
    as (outer & a1 & Hcreate & Ha1 & Hin & Hheld & _).
  assert (Hkey : inner ∈ (outerByInnerMap a1).*1).
  { apply list_elem_of_fmap. by exists (inner, outer). }
  exists outer, a1. split; [done|]. split; [done|]. split_and!.
  - destruct (create_OneToOne lessThan lessThan_irrefl lessThan_total inner a1 Ha1)
      as (outer2 & a2 & Hcreate2 & _ & _ & _ & _ & Hold & _).
    exists a2. rewrite Hcreate2. do 2 f_equal.
    by eapply NoDup_fst_agree; [apply Ha1|apply Hold|].
  - destruct (probe_OneToOne lessThan lessThan_irrefl lessThan_total inner a1 Ha1)
      as (probe & a2 & Hprobe & _ & _ & Hcase).
    exists a2. rewrite Hprobe. destruct probe as [outer2|]; [|by destruct Hcase].
    do 3 f_equal. by eapply NoDup_fst_agree; [apply Ha1|..].
  - intros inner' outer' a2 Hne Hcreate' ->.
    destruct (create_OneToOne lessThan lessThan_irrefl lessThan_total inner' a1 Ha1)
      as (outer2 & a2' & Hcreate2 & _ & _ & _ & _ & Hold & Hnew).
    rewrite Hcreate' in Hcreate2. injection Hcreate2 as <- <-.
    destruct (decide (inner' ∈ (outerByInnerMap a1).*1)) as [Hin'|Hnin'].
    + apply Hne. by eapply NoDup_snd_agree; [apply Ha1|apply Hold|].
    + pose proof (held_allocated a1 Ha1 outer Hheld). rewrite (Hnew Hnin') in *. lia.
Qed.

(** X28.  When the last shared pointer to an outer object goes away, the
    deleter finds the object in the map and removes it: the assertion holds,
    there is no instance for its inner object any more, and a later [create]
    for the inner object returns another outer object. *)
Theorem last_release_forgets a inner outer :
  OneToOne a -> (inner, outer) ∈ outerByInnerMap a ->
  outer ∉ QList.removeOne (held a) outer ->
  exists a',
    release lessThan defaultInner outer a = Some a'
    /\ OneToOne a'
    /\ aggregation11Probe lessThan inner a' = Some (None, a')
    /\ forall outer' a2, create lessThan inner a' = Some (outer', a2) ->
                         outer' <> outer.
Proof.
  intros Ha Hin Hlast.
  pose proof (OneToOne_outer a inner outer Ha Hin) as Hheld.
  destruct (release_OneToOne lessThan defaultInner lessThan_irrefl lessThan_total outer a Ha)
    as (a' & Hrelease & Ha' & Hheld' & Halloc & Hmap).
  rewrite bool_decide_eq_true_2 in Hheld' by done.
  assert (Hgone : inner ∉ (outerByInnerMap a').*1).
  { intros ([k p] & -> & [Hkp Hp]%Hmap)%list_elem_of_fmap. simpl in *.
    assert (p = outer) as -> by (by eapply NoDup_fst_agree; [apply Ha|..]).
    by rewrite Hheld' in Hp. }
  exists a'. split; [done|]. split; [done|]. split.
  - destruct (probe_OneToOne lessThan lessThan_irrefl lessThan_total inner a' Ha')
      as (probe & a2 & Hprobe & _ & _ & Hcase).
    rewrite Hprobe. destruct probe as [outer2|].
    + destruct Hgone. apply list_elem_of_fmap. by exists (inner, outer2).
    + by destruct Hcase as [_ ->].
  - intros outer' a2 Hcreate ->.
    destruct (create_OneToOne lessThan lessThan_irrefl lessThan_total inner a' Ha')
      as (outer2 & a2' & Hcreate2 & _ & _ & _ & _ & _ & Hnew).
    rewrite Hcreate in Hcreate2. injection Hcreate2 as <- <-.
    pose proof (held_allocated a Ha outer Hheld). rewrite (Hnew Hgone), Halloc in *. lia.
Qed.

(** X29.  [aggregation11ResetInner], called by an outer object that is
    alive with an inner object that has no instance, fails no assertion and
    moves the outer object from its inner object to the new one; the
    relation stays 1:1. *)
Theorem reset_moves_outer a (this : nat) (newInner : INNER_T) :
  OneToOne a -> this ∈ held a -> newInner ∉ (outerByInnerMap a).*1 ->
  exists a' oldInner,
    aggregation11ResetInner lessThan defaultInner this newInner a = Some a'
    /\ OneToOne a' /\ held a' = held a
    /\ (oldInner, this) ∈ outerByInnerMap a
    /\ (exists a2, aggregation11Probe lessThan newInner a' = Some (Some this, a2))
    /\ aggregation11Probe lessThan oldInner a' = Some (None, a').
Proof.
  intros Ha Hthis Hnew.
  destruct (reset_returns lessThan defaultInner lessThan_irrefl lessThan_total
              this newInner a Ha Hthis Hnew) as [a' Hreset].
  destruct (reset_OneToOne lessThan defaultInner lessThan_irrefl lessThan_total
              this newInner a a' Ha Hreset)
    as (Ha' & Hheld & oldInner & outer & Hold & _ & Houter & Hmap).
  rewrite (Houter Hthis) in *. clear Houter outer.
  exists a', oldInner. split; [done|]. split; [done|]. split; [done|]. split; [done|].
  split.
  - destruct (probe_OneToOne lessThan lessThan_irrefl lessThan_total newInner a' Ha')
      as (probe & a2 & Hprobe & _ & _ & Hcase).
    exists a2. rewrite Hprobe.
    assert (Hin : (newInner, this) ∈ outerByInnerMap a') by (apply Hmap; by left).
    destruct probe as [outer2|].
    + do 3 f_equal. by eapply NoDup_fst_agree; [apply Ha'|..].
    + destruct Hcase as [Hnin _]. destruct Hnin. apply list_elem_of_fmap.
      by exists (newInner, this).
  - destruct (probe_OneToOne lessThan lessThan_irrefl lessThan_total oldInner a' Ha')
      as (probe & a2 & Hprobe & _ & _ & Hcase).
    rewrite Hprobe. destruct probe as [outer2|]; [|by destruct Hcase as [_ ->]].
    apply Hmap in Hcase as [[= -> ->]|[_ Hne]]; [|done].
    destruct Hnew. apply list_elem_of_fmap. by exists (newInner, this).
Qed.

End AggregationProperties.

Section AggregationExamples.
Import Aggregation11 AggregationNotions.

Lemma Z_ltb_connex (k1 k2 : Z) : (k1 <? k2) = false -> (k2 <? k1) = false -> k1 = k2.
Proof. rewrite !Z.ltb_ge. lia. Qed.

(** Two instances, for the inner objects 5 and 7; two shared pointers to
    the first and one to the second are held. *)
Lemma two_instances :
  OneToOne (mk [(5, 0%nat); (7, 1%nat)] [0; 1; 0]%nat 2).
Proof.
  apply (run_OneToOne Z.ltb 0 Z.ltb_irrefl Z_ltb_connex
           [Create 5; Create 7; Create 5] empty); [apply OneToOne_empty|].
  vm_compute. reflexivity.
Qed.

Lemma unconditional_calls_keep_one_to_one_witness :
  let calls := [Create 5; Create 7; Probe 5; Release 0%nat; Release 0%nat;
                Release 3%nat; Create 5] in
  forallb unconditional calls = true
  /\ run Z.ltb 0 calls empty = Some (mk [(5, 2%nat); (7, 1%nat)] [2; 1]%nat 3)
  /\ exists a, run Z.ltb 0 calls empty = Some a /\ OneToOne a.
Proof.
  intros calls. split; [reflexivity|]. split; [vm_compute; reflexivity|].
  exact (unconditional_calls_keep_one_to_one Z.ltb 0 Z.ltb_irrefl Z_ltb_connex
           calls eq_refl).
Defined.

Lemma create_one_outer_per_inner_witness :
  let a := mk [(5, 0%nat); (7, 1%nat)] [0; 1; 0]%nat 2 in
  OneToOne a
  /\ exists outer a1,
       create Z.ltb 9 a = Some (outer, a1)
       /\ OneToOne a1
       /\ (exists a2, create Z.ltb 9 a1 = Some (outer, a2))
       /\ (exists a2, aggregation11Probe Z.ltb 9 a1 = Some (Some outer, a2))
       /\ forall inner' outer' a2,
            inner' <> 9 -> create Z.ltb inner' a1 = Some (outer', a2) ->
            outer' <> outer.
Proof.
  intros a. split; [exact two_instances|].
  exact (create_one_outer_per_inner Z.ltb Z.ltb_irrefl Z_ltb_connex a 9 two_instances).
Defined.

Lemma last_release_forgets_witness :
  let a := mk [(5, 0%nat); (7, 1%nat)] [0; 1; 0]%nat 2 in
  OneToOne a /\ (7, 1%nat) ∈ outerByInnerMap a
  /\ 1%nat ∉ QList.removeOne (held a) 1%nat
  /\ exists a',
       release Z.ltb 0 1%nat a = Some a'
       /\ OneToOne a'
       /\ aggregation11Probe Z.ltb 7 a' = Some (None, a')
       /\ forall outer' a2, create Z.ltb 7 a' = Some (outer', a2) ->
                            outer' <> 1%nat.
Proof.
  intros a.
  assert (Hin : (7, 1%nat) ∈ outerByInnerMap a).
  { simpl. apply list_elem_of_further, list_elem_of_here. }
  assert (Hlast : 1%nat ∉ QList.removeOne (held a) 1%nat).
  { simpl. rewrite !elem_of_cons, elem_of_nil. lia. }
  split; [exact two_instances|]. split; [exact Hin|]. split; [exact Hlast|].
  exact (last_release_forgets Z.ltb 0 Z.ltb_irrefl Z_ltb_connex a 7 1%nat
           two_instances Hin Hlast).
Defined.

Lemma reset_moves_outer_witness :
  let a := mk [(5, 0%nat); (7, 1%nat)] [0; 1; 0]%nat 2 in
  OneToOne a /\ 1%nat ∈ held a /\ 6 ∉ (outerByInnerMap a).*1
  /\ aggregation11ResetInner Z.ltb 0 1%nat 6 a
     = Some (mk [(5, 0%nat); (6, 1%nat)] [0; 1; 0]%nat 2)
  /\ exists a' oldInner,
       aggregation11ResetInner Z.ltb 0 1%nat 6 a = Some a'
       /\ OneToOne a' /\ held a' = held a
       /\ (oldInner, 1%nat) ∈ outerByInnerMap a
       /\ (exists a2, aggregation11Probe Z.ltb 6 a' = Some (Some 1%nat, a2))
       /\ aggregation11Probe Z.ltb oldInner a' = Some (None, a').
Proof.
  intros a.
  assert (Hthis : 1%nat ∈ held a).
  { simpl. apply list_elem_of_further, list_elem_of_here. }
  assert (Hnew : 6 ∉ (outerByInnerMap a).*1).
  { simpl. rewrite !elem_of_cons, elem_of_nil. lia. }
  split; [exact two_instances|]. split; [exact Hthis|]. split; [exact Hnew|].
  split; [vm_compute; reflexivity|].
  exact (reset_moves_outer Z.ltb 0 Z.ltb_irrefl Z_ltb_connex a 1%nat 6
           two_instances Hthis Hnew).
Defined.

End AggregationExamples.
